(** * A shallow embedding of [advanced-vector/vector.h]

    The header defines two class templates: [RawMemory<T>], which owns a
    block of raw storage, and [Vector<T>], which tracks how many slots of
    such a block hold constructed objects.  The embedding keeps the
    structure of the C++ code:

    - a heap of blocks, each a list of slots that are either raw or hold
      a live [T]; pointers are a block name and an offset counted in
      elements;
    - a store of objects, so that [this != &rhs] can be decided;
    - a monad of heap-and-store transformers with three outcomes:
      normal return, a thrown exception, or a crash (undefined behaviour
      or a failed [assert]);
    - [size_t] as [Z] with the wrap-around modulo [2^64] written out. *)

From stdpp Require Import base gmap list.
From Stdlib Require Import ZArith Lia.

Local Open Scope Z_scope.

(** ** [size_t] arithmetic *)

Definition SIZE_MOD : Z := 2 ^ 64.

(** The value a [size_t] holds after an arithmetic result [x]. *)
Definition wrap (x : Z) : Z := x mod SIZE_MOD.

(** [x] is a value of type [size_t]. *)
Definition is_size_t (x : Z) : Prop := 0 <= x < SIZE_MOD.

(** ** The element type

    What [Vector<T>] needs to know of [T]: the two traits tested by
    [if constexpr], its size, and the behaviour of its special members.
    A copy or a move gives the destination the value of the source; a
    move leaves the source in a state chosen by [T].  Each member may
    throw, depending on the values involved. *)

Class ElementType (T : Type) := {
  (** [sizeof(T)] *)
  sizeof : Z;
  sizeof_pos : 0 < sizeof;
  (** [std::is_nothrow_move_constructible_v<T>] *)
  is_nothrow_move_constructible : bool;
  (** [std::is_copy_constructible_v<T>] *)
  is_copy_constructible : bool;
  (** [T()]: the value-initialised object, [None] when the constructor throws *)
  value_init : option T;
  (** [T(const T&)] throws on this source *)
  copy_throws : T → bool;
  (** [T(T&&)] throws on this source *)
  move_throws : T → bool;
  (** the state [T(T&&)] leaves its source in *)
  moved_from : T → T;
  (** [dst = src] throws (old value of [dst], value of [src]) *)
  copy_assign_throws : T → T → bool;
  (** [dst = std::move(src)] throws *)
  move_assign_throws : T → T → bool;
  (** the state [dst = std::move(src)] leaves [src] in *)
  move_assigned_from : T → T → T;
  (** a move constructor declared [noexcept] does not throw *)
  nothrow_move_sound :
    is_nothrow_move_constructible = true → ∀ v, move_throws v = false
}.

(** The build and the allocator the program runs with. *)

Class Environment (T : Type) := {
  (** [NDEBUG] is defined: [assert] expands to nothing *)
  NDEBUG : bool;
  (** the allocator refuses a request of so many bytes, given the blocks
      already allocated *)
  operator_new_fails : gmap positive (list (option T)) → Z → bool
}.

(** ** Outcomes and the monad *)

Inductive exn := bad_alloc | element_exn.

(** The arguments [args...] of an in-place construction [T(args...)]:
    an lvalue of type [const T&], an rvalue of type [T&&], or anything
    else, of which only the result of the constructor is kept ([None]
    when it throws).  The object the caller passes lives outside the
    vector's storage. *)
Inductive ctor_args (T : Type) :=
| copy_of (value : T)
| move_of (value : T)
| forwarded (result : option T).
Arguments copy_of {T} value.
Arguments move_of {T} value.
Arguments forwarded {T} result.

Inductive outcome (Σ A : Type) :=
| Ok (a : A) (s : Σ)
| Throw (e : exn) (s : Σ)
| Crash.
Arguments Ok {Σ A} a s.
Arguments Throw {Σ A} e s.
Arguments Crash {Σ A}.

Definition M (Σ A : Type) : Type := Σ → outcome Σ A.

Definition ret {Σ A} (a : A) : M Σ A := λ s, Ok a s.

Definition bind {Σ A B} (m : M Σ A) (k : A → M Σ B) : M Σ B :=
  λ s, match m s with
       | Ok a s' => k a s'
       | Throw e s' => Throw e s'
       | Crash => Crash
       end.

Definition throw {Σ A} (e : exn) : M Σ A := λ s, Throw e s.

Definition crash {Σ A} : M Σ A := λ _, Crash.

(** [try { m } catch (...) { h }] *)
Definition try_catch {Σ A} (m : M Σ A) (h : exn → M Σ A) : M Σ A :=
  λ s, match m s with
       | Ok a s' => Ok a s'
       | Throw e s' => h e s'
       | Crash => Crash
       end.

(** Stack unwinding through a scope that owns a local with a
    destructor: when [m] throws, [cleanup] runs and the exception
    travels on. *)
Definition on_unwind {Σ A} (m : M Σ A) (cleanup : M Σ unit) : M Σ A :=
  try_catch m (λ e, bind cleanup (λ _, throw e)).

(** A function declared [noexcept]: an exception that would leave it
    calls [std::terminate]. *)
Definition noexcept {Σ A} (m : M Σ A) : M Σ A :=
  try_catch m (λ _, crash).

Notation "'do' x <- m ; k" := (bind m (λ x, k))
  (at level 10, x name, m at level 100, k at level 200).
Notation "'run' m ; k" := (bind m (λ _, k))
  (at level 10, m at level 100, k at level 200).

(** ** Memory *)

(** Names of heap blocks and of objects with an address of their own. *)
Definition loc := positive.
Definition ref := positive.

(** A pointer to [T]: the block it points into ([None] for the null pointer) and
    the offset in elements. *)
Record ptr := Ptr { blk : option loc; off : Z }.

Definition nullptr : ptr := Ptr None 0.

Global Instance ptr_eq_dec : EqDecision ptr.
Proof. solve_decision. Defined.

(** [p + n] *)
Definition ptr_add (p : ptr) (n : Z) : ptr := Ptr (blk p) (off p + n).
Infix "+ₚ" := ptr_add (at level 50, left associativity).

(** [p - q], defined when both point into the same array. *)
Definition ptr_diff (p q : ptr) : option Z :=
  if decide (blk p = blk q) then Some (off p - off q) else None.

Section Machine.
Context {T : Type} `{!ElementType T} `{!Environment T} {Obj : Type}.

(** A slot is raw memory ([None]) or holds a live object. *)
Abbreviation block := (list (option T)).

Record state := State {
  heap : gmap loc block;
  objs : gmap ref Obj
}.

Definition set_heap (h : gmap loc block) (s : state) : state :=
  State h (objs s).
Definition set_objs (o : gmap ref Obj) (s : state) : state :=
  State (heap s) o.

(** [assert(c)] *)
Definition assert (c : bool) : M state unit :=
  if NDEBUG then ret tt else if c then ret tt else crash.

(** *** Objects *)

Definition get_obj (r : ref) : M state Obj :=
  λ s, match objs s !! r with Some o => Ok o s | None => Crash end.

Definition put_obj (r : ref) (o : Obj) : M state unit :=
  λ s, match objs s !! r with
       | Some _ => Ok tt (set_objs (<[r := o]> (objs s)) s)
       | None => Crash
       end.

(** A new object: its address is one no live object has. *)
Definition new_obj (o : Obj) : M state ref :=
  λ s, let r := fresh (dom (objs s)) in
       Ok r (set_objs (<[r := o]> (objs s)) s).

Definition delete_obj (r : ref) : M state unit :=
  λ s, match objs s !! r with
       | Some _ => Ok tt (set_objs (delete r (objs s)) s)
       | None => Crash
       end.

(** *** Slots *)

(** The slot [p] designates, if [p] points into an allocated block. *)
Definition cell (s : state) (p : ptr) : option (option T) :=
  match blk p with
  | Some l =>
      match heap s !! l with
      | Some b => if decide (0 <= off p) then b !! Z.to_nat (off p) else None
      | None => None
      end
  | None => None
  end.

Definition write_cell (p : ptr) (c : option T) (s : state) : state :=
  match blk p with
  | Some l =>
      match heap s !! l with
      | Some b => set_heap (<[l := <[Z.to_nat (off p) := c]> b]> (heap s)) s
      | None => s
      end
  | None => s
  end.

(** Reading the object at [p]: [p] must designate a live object. *)
Definition load (p : ptr) : M state T :=
  λ s, match cell s p with Some (Some v) => Ok v s | _ => Crash end.

(** The end of a constructor call [new (p) T(...)] whose result is [v]:
    [p] must designate storage. *)
Definition construct_at (p : ptr) (v : T) : M state unit :=
  λ s, match cell s p with
       | Some _ => Ok tt (write_cell p (Some v) s)
       | None => Crash
       end.

(** [p->~T()]: [p] must designate a live object; its slot is raw again. *)
Definition destroy_at (p : ptr) : M state unit :=
  λ s, match cell s p with
       | Some (Some _) => Ok tt (write_cell p None s)
       | _ => Crash
       end.

(** The live object at [p] takes the state [v]. *)
Definition store (p : ptr) (v : T) : M state unit :=
  λ s, match cell s p with
       | Some (Some _) => Ok tt (write_cell p (Some v) s)
       | _ => Crash
       end.

(** *** [operator new] and [operator delete] *)

(** [operator new(bytes)]: a fresh block with room for
    [bytes / sizeof(T)] elements, none of them constructed. *)
Definition operator_new (bytes : Z) : M state ptr :=
  λ s, if operator_new_fails (heap s) bytes then Throw bad_alloc s
       else let l := fresh (dom (heap s)) in
            Ok (Ptr (Some l) 0)
               (set_heap (<[l := replicate (Z.to_nat (bytes / sizeof)) None]> (heap s)) s).

(** [operator delete(p)]: nothing for the null pointer; otherwise [p]
    must be the start of an allocated block, which is released whatever
    its slots hold. *)
Definition operator_delete (p : ptr) : M state unit :=
  λ s, match blk p with
       | None => if decide (off p = 0) then Ok tt s else Crash
       | Some l =>
           match heap s !! l with
           | Some _ =>
               if decide (off p = 0) then Ok tt (set_heap (delete l (heap s)) s)
               else Crash
           | None => Crash
           end
       end.

(** *** Special members of [T] at a storage location *)

(** The value of [T(args...)], [None] when the constructor throws. *)
Definition constructed (args : ctor_args T) : option T :=
  match args with
  | copy_of v => if copy_throws v then None else Some v
  | move_of v => if move_throws v then None else Some v
  | forwarded r => r
  end.

(** [T tmp = T(args...)] for a local [tmp] *)
Definition construct_local (args : ctor_args T) : M state T :=
  match constructed args with
  | Some v => ret v
  | None => throw element_exn
  end.

(** [new (p) T(args...)] *)
Definition construct (p : ptr) (args : ctor_args T) : M state unit :=
  do v <- construct_local args;
  construct_at p v.

(** [p[0] = std::move(tmp)] for a local [tmp] *)
Definition move_assign_local (tmp : T) (p : ptr) : M state unit :=
  do old <- load p;
  if move_assign_throws old tmp then throw element_exn else store p tmp.

(** [new (p) T()] *)
Definition value_construct (p : ptr) : M state unit :=
  match value_init with
  | Some v => construct_at p v
  | None => throw element_exn
  end.

(** [new (p) T(src[0])] with [src] a pointer to [const T] *)
Definition copy_construct (src p : ptr) : M state unit :=
  do v <- load src;
  if copy_throws v then throw element_exn else construct_at p v.

(** [new (p) T(std::move(src[0]))] *)
Definition move_construct (src p : ptr) : M state unit :=
  do v <- load src;
  if move_throws v then throw element_exn
  else run construct_at p v; store src (moved_from v).

(** [p[0] = src[0]] *)
Definition copy_assign (src p : ptr) : M state unit :=
  do v <- load src;
  do old <- load p;
  if copy_assign_throws old v then throw element_exn else store p v.

(** [p[0] = std::move(src[0])] *)
Definition move_assign (src p : ptr) : M state unit :=
  do v <- load src;
  do old <- load p;
  if move_assign_throws old v then throw element_exn
  else run store p v; store src (move_assigned_from old v).

(** *** Algorithms of [<memory>] and [<algorithm>] *)

(** [std::destroy_n(first, n)] *)
Fixpoint destroy_loop (first : ptr) (k : nat) : M state unit :=
  match k with
  | O => ret tt
  | S k' => run destroy_at first; destroy_loop (first +ₚ 1) k'
  end.

Definition destroy_n (first : ptr) (n : Z) : M state unit :=
  destroy_loop first (Z.to_nat n).

(** The length of the range [[first, last)]; a range whose ends lie in
    different arrays, or whose end precedes its start, is not valid. *)
Definition range_length (first last : ptr) : M state Z :=
  match ptr_diff last first with
  | Some n => if decide (0 <= n) then ret n else crash
  | None => crash
  end.

(** [std::destroy(first, last)] *)
Definition destroy (first last : ptr) : M state unit :=
  do n <- range_length first last;
  destroy_loop first (Z.to_nat n).

(** The loop shared by the [std::uninitialized_*_n] algorithms:
    [make src dst] constructs one object; [cur] objects have been
    constructed at [d_first] so far and [k] remain.  When a constructor
    throws, the objects constructed so far are destroyed and the
    exception is rethrown. *)
Fixpoint uninitialized_loop (make : ptr → ptr → M state unit)
    (first d_first : ptr) (cur : Z) (k : nat) : M state unit :=
  match k with
  | O => ret tt
  | S k' =>
      run on_unwind (make (first +ₚ cur) (d_first +ₚ cur))
            (destroy_loop d_first (Z.to_nat cur));
      uninitialized_loop make first d_first (cur + 1) k'
  end.

(** [std::uninitialized_value_construct_n(first, n)] *)
Definition uninitialized_value_construct_n (first : ptr) (n : Z) : M state unit :=
  uninitialized_loop (λ _ dst, value_construct dst) first first 0 (Z.to_nat n).

(** [std::uninitialized_copy_n(first, n, d_first)] *)
Definition uninitialized_copy_n (first : ptr) (n : Z) (d_first : ptr) : M state unit :=
  uninitialized_loop copy_construct first d_first 0 (Z.to_nat n).

(** [std::uninitialized_move_n(first, n, d_first)] *)
Definition uninitialized_move_n (first : ptr) (n : Z) (d_first : ptr) : M state unit :=
  uninitialized_loop move_construct first d_first 0 (Z.to_nat n).

(** [std::move(first, last, d_first)]: move-assigns left to right. *)
Fixpoint move_loop (first d_first : ptr) (k : nat) : M state unit :=
  match k with
  | O => ret tt
  | S k' => run move_assign first d_first;
            move_loop (first +ₚ 1) (d_first +ₚ 1) k'
  end.

Definition std_move (first last d_first : ptr) : M state unit :=
  do n <- range_length first last;
  move_loop first d_first (Z.to_nat n).

(** [std::move_backward(first, last, d_last)]: move-assigns right to
    left, from [last - 1] into [d_last - 1] downwards. *)
Fixpoint move_backward_loop (last d_last : ptr) (k : nat) : M state unit :=
  match k with
  | O => ret tt
  | S k' => run move_assign (last +ₚ (-1)) (d_last +ₚ (-1));
            move_backward_loop (last +ₚ (-1)) (d_last +ₚ (-1)) k'
  end.

Definition std_move_backward (first last d_last : ptr) : M state unit :=
  do n <- range_length first last;
  move_backward_loop last d_last (Z.to_nat n).

(** Reading the range [[first, first + k)] in order. *)
Fixpoint read_loop (first : ptr) (k : nat) (s : state) : option (list T) :=
  match k with
  | O => Some []
  | S k' =>
      match cell s first with
      | Some (Some v) =>
          match read_loop (first +ₚ 1) k' s with
          | Some vs => Some (v :: vs)
          | None => None
          end
      | _ => None
      end
  end.

End Machine.

Arguments state T Obj : clear implicits.

(** ** [RawMemory<T>] *)

Module RawMemory.

Record t := Make {
  buffer_ : ptr;
  capacity_ : Z
}.

Section Methods.
Context {T : Type} `{!ElementType T} `{!Environment T} {Obj : Type}.
Abbreviation state := (state T Obj) (only parsing).

(** [static T* Allocate(size_t n)]: the product [n * sizeof(T)] is
    computed in [size_t]. *)
Definition Allocate (n : Z) : M state ptr :=
  if decide (n ≠ 0) then operator_new (wrap (n * sizeof)) else ret nullptr.

(** [static void Deallocate(T* buf) noexcept] *)
Definition Deallocate (buf : ptr) : M state unit :=
  operator_delete buf.

(** [RawMemory() = default], with the default member initialisers. *)
Definition default : t := Make nullptr 0.

(** [explicit RawMemory(size_t capacity)] *)
Definition ctor (capacity : Z) : M state t :=
  do buf <- Allocate capacity;
  ret (Make buf capacity).

(** [void Swap(RawMemory& other) noexcept]: the new states of [*this]
    and of [other]. *)
Definition Swap (this other : t) : t * t :=
  (* std::swap(buffer_, other.buffer_) *)
  let (this, other) := (Make (buffer_ other) (capacity_ this),
                        Make (buffer_ this) (capacity_ other)) in
  (* std::swap(capacity_, other.capacity_) *)
  (Make (buffer_ this) (capacity_ other), Make (buffer_ other) (capacity_ this)).

(** [RawMemory(RawMemory&& other) noexcept]: the block [Allocate]
    returns is dropped; the new states of [*this] and of [other]. *)
Definition move_ctor (other : t) : M state (t * t) :=
  noexcept (
    let this := default in
    do _ <- Allocate (capacity_ other);
    (* std::swap(capacity_, other.capacity_) *)
    let (this, other) := (Make (buffer_ this) (capacity_ other),
                          Make (buffer_ other) (capacity_ this)) in
    (* std::swap(buffer_, other.buffer_) *)
    let (this, other) := (Make (buffer_ other) (capacity_ this),
                          Make (buffer_ this) (capacity_ other)) in
    ret (this, other)).

(** [~RawMemory()] *)
Definition dtor (this : t) : M state unit :=
  Deallocate (buffer_ this).

(** [T* operator+(size_t offset) noexcept] *)
Definition plus (this : t) (offset : Z) : M state ptr :=
  run assert (bool_decide (offset <= capacity_ this));
  ret (buffer_ this +ₚ offset).

(** [T& operator[](size_t index) noexcept]; the reference is the
    address of the slot. *)
Definition index (this : t) (index : Z) : M state ptr :=
  run assert (bool_decide (index < capacity_ this));
  ret (buffer_ this +ₚ index).

(** [T* GetAddress() noexcept] *)
Definition GetAddress (this : t) : ptr := buffer_ this.

(** [size_t Capacity() const] *)
Definition Capacity (this : t) : Z := capacity_ this.

(** [const T* operator+(size_t offset) const noexcept]: the other
    overload, called on the object with [const] cast away. *)
Definition plus_const (this : t) (offset : Z) : M state ptr :=
  plus this offset.

(** [const T& operator[](size_t index) const noexcept]: the other
    overload, called on the object with [const] cast away. *)
Definition index_const (this : t) (index_ : Z) : M state ptr :=
  index this index_.

(** [const T* GetAddress() const noexcept] *)
Definition GetAddress_const (this : t) : ptr := buffer_ this.

End Methods.

Section Assignment.
Context {T : Type} `{!ElementType T} `{!Environment T}.
Abbreviation state := (state T t) (only parsing).

(** [RawMemory& operator=(RawMemory&& rhs) noexcept], on two
    [RawMemory] objects with addresses of their own.  [std::move] of
    a pointer or of a [size_t] is a cast; the assignment copies. *)
Definition move_assign (this rhs : ref) : M state unit :=
  if decide (this ≠ rhs) then
    do r <- get_obj rhs;
    do a <- get_obj this;
    run put_obj this (Make (buffer_ r) (capacity_ a));
    do r <- get_obj rhs;
    do a <- get_obj this;
    put_obj this (Make (buffer_ a) (capacity_ r))
  else ret tt.

End Assignment.

End RawMemory.

(** ** [Vector<T>] *)

Module Vector.

Record t := Make {
  data_ : RawMemory.t;
  size_ : Z
}.

Section Methods.
Context {T : Type} `{!ElementType T} `{!Environment T}.
Abbreviation state := (state T t) (only parsing).

Definition set_size (this : ref) (n : Z) : M state unit :=
  do v <- get_obj this;
  put_obj this (Make (data_ v) n).

Definition set_data (this : ref) (d : RawMemory.t) : M state unit :=
  do v <- get_obj this;
  put_obj this (Make d (size_ v)).

(** The test of [if constexpr] that selects a transfer by move. *)
Definition transfer_by_move : bool :=
  is_nothrow_move_constructible || negb is_copy_constructible.

(** [Vector() = default] *)
Definition ctor_default : M state ref :=
  new_obj (Make RawMemory.default 0).

(** [explicit Vector(size_t size)].  An exception that leaves the
    body destroys the member [data_]. *)
Definition ctor_sized (size : Z) : M state ref :=
  do data <- RawMemory.ctor size;
  run on_unwind
        (uninitialized_value_construct_n (RawMemory.GetAddress data) size)
        (RawMemory.dtor data);
  new_obj (Make data size).

(** [Vector(const Vector& other)].  [other] is [const]: on the first
    branch [std::move] yields a [const T&&], which [T(const T&)]
    accepts, so both branches copy. *)
Definition ctor_copy (other : ref) : M state ref :=
  do o <- get_obj other;
  do data <- RawMemory.ctor (size_ o);
  run on_unwind
        (if transfer_by_move then
           uninitialized_copy_n (RawMemory.GetAddress (data_ o)) (size_ o)
                                (RawMemory.GetAddress data)
         else
           uninitialized_copy_n (RawMemory.GetAddress (data_ o)) (size_ o)
                                (RawMemory.GetAddress data))
        (RawMemory.dtor data);
  new_obj (Make data (size_ o)).

(** [void Swap(Vector& other) noexcept] *)
Definition Swap (this other : ref) : M state unit :=
  (* std::swap(size_, other.size_) *)
  do a <- get_obj this;
  do b <- get_obj other;
  run set_size this (size_ b);
  run set_size other (size_ a);
  (* data_.Swap(other.data_) *)
  do a <- get_obj this;
  do b <- get_obj other;
  let (da, db) := RawMemory.Swap (data_ a) (data_ b) in
  run set_data this da;
  set_data other db.

(** [Vector(Vector&& other) noexcept]: the members start from their
    default initialisers. *)
Definition ctor_move (other : ref) : M state ref :=
  do this <- new_obj (Make RawMemory.default 0);
  (* std::swap(size_, other.size_) *)
  do a <- get_obj this;
  do b <- get_obj other;
  run set_size this (size_ b);
  run set_size other (size_ a);
  (* data_.Swap(other.data_) *)
  do a <- get_obj this;
  do b <- get_obj other;
  let (da, db) := RawMemory.Swap (data_ a) (data_ b) in
  run set_data this da;
  run set_data other db;
  ret this.

(** [size_t Size() const noexcept] *)
Definition Size (this : ref) : M state Z :=
  do v <- get_obj this;
  ret (size_ v).

(** [size_t Capacity() const noexcept] *)
Definition Capacity (this : ref) : M state Z :=
  do v <- get_obj this;
  ret (RawMemory.Capacity (data_ v)).

(** [iterator begin() noexcept] *)
Definition begin_ (this : ref) : M state ptr :=
  do v <- get_obj this;
  ret (RawMemory.GetAddress (data_ v)).

(** [iterator end() noexcept] *)
Definition end_ (this : ref) : M state ptr :=
  do v <- get_obj this;
  RawMemory.plus (data_ v) (size_ v).

(** [void Reserve(size_t new_capacity)].  The local [new_data] is
    destroyed when an exception leaves the transfer, and at the end
    of the function, when it holds the old block. *)
Definition Reserve (this : ref) (new_capacity : Z) : M state unit :=
  do v <- get_obj this;
  if decide (new_capacity <= RawMemory.Capacity (data_ v)) then ret tt
  else
    do new_data <- RawMemory.ctor new_capacity;
    run on_unwind
          (if transfer_by_move then
             uninitialized_move_n (RawMemory.GetAddress (data_ v)) (size_ v)
                                  (RawMemory.GetAddress new_data)
           else
             uninitialized_copy_n (RawMemory.GetAddress (data_ v)) (size_ v)
                                  (RawMemory.GetAddress new_data))
          (RawMemory.dtor new_data);
    run destroy_n (RawMemory.GetAddress (data_ v)) (size_ v);
    let (data, new_data) := RawMemory.Swap (data_ v) new_data in
    run set_data this data;
    RawMemory.dtor new_data.

(** [void Resize(size_t new_size)] *)
Definition Resize (this : ref) (new_size : Z) : M state unit :=
  do v <- get_obj this;
  run (if decide (new_size > size_ v) then
         run Reserve this new_size;
         do v <- get_obj this;
         uninitialized_value_construct_n
           (RawMemory.GetAddress (data_ v) +ₚ size_ v)
           (wrap (new_size - size_ v))
       else ret tt);
  do v <- get_obj this;
  run (if decide (new_size < size_ v) then
         destroy (RawMemory.GetAddress (data_ v) +ₚ new_size)
                 (RawMemory.GetAddress (data_ v) +ₚ size_ v)
       else ret tt);
  set_size this new_size.

(** [template <typename... Args> T& EmplaceBack(Args&&... args)] *)
Definition EmplaceBack (this : ref) (args : ctor_args T) : M state ptr :=
  do v <- get_obj this;
  run (if decide (size_ v = RawMemory.Capacity (data_ v)) then
         let capacity_tmp := 0 in
         let capacity_tmp :=
           if decide (size_ v = 0) then wrap (capacity_tmp + 1)
           else wrap (capacity_tmp + wrap (size_ v * 2)) in
         do new_data <- RawMemory.ctor capacity_tmp;
         run on_unwind
               (do p <- RawMemory.plus new_data (size_ v);
                run construct p args;
                if transfer_by_move then
                  uninitialized_move_n (RawMemory.GetAddress (data_ v)) (size_ v)
                                       (RawMemory.GetAddress new_data)
                else
                  uninitialized_copy_n (RawMemory.GetAddress (data_ v)) (size_ v)
                                       (RawMemory.GetAddress new_data))
               (RawMemory.dtor new_data);
         run destroy_n (RawMemory.GetAddress (data_ v)) (size_ v);
         let (data, new_data) := RawMemory.Swap (data_ v) new_data in
         run set_data this data;
         RawMemory.dtor new_data
       else
         do p <- RawMemory.plus (data_ v) (size_ v);
         construct p args);
  (* ++size_ *)
  do v <- get_obj this;
  run set_size this (wrap (size_ v + 1));
  (* return data_[size_ - 1] *)
  do v <- get_obj this;
  RawMemory.index (data_ v) (wrap (size_ v - 1)).

(** [T& PushBack(const T& value)] *)
Definition PushBack (this : ref) (value : T) : M state ptr :=
  EmplaceBack this (copy_of value).

(** [T& PushBack(T&& value)] *)
Definition PushBack_move (this : ref) (value : T) : M state ptr :=
  EmplaceBack this (move_of value).

(** [void PopBack()] *)
Definition PopBack (this : ref) : M state unit :=
  do v <- get_obj this;
  run destroy_n (RawMemory.GetAddress (data_ v) +ₚ size_ v +ₚ (-1)) 1;
  (* --size_ *)
  set_size this (wrap (size_ v - 1)).

(** [~Vector()]: the body, then the destructor of the member
    [data_]; the object is gone. *)
Definition dtor (this : ref) : M state unit :=
  do v <- get_obj this;
  run destroy (RawMemory.GetAddress (data_ v))
              (RawMemory.GetAddress (data_ v) +ₚ size_ v);
  run RawMemory.dtor (data_ v);
  delete_obj this.

(** The loops [for (size_t i = 0; i < n; ++i) data_[i] = rhs.data_[i]]
    of the copy assignment, with [k] iterations left. *)
Fixpoint assign_loop (data rhs_data : RawMemory.t) (i : Z) (k : nat) : M state unit :=
  match k with
  | O => ret tt
  | S k' =>
      do src <- RawMemory.index rhs_data i;
      do dst <- RawMemory.index data i;
      run copy_assign src dst;
      assign_loop data rhs_data (wrap (i + 1)) k'
  end.

(** [Vector& operator=(const Vector& rhs)].  The local [temp_data] is
    an object of its own, destroyed at the end of its block. *)
Definition copy_assign (this rhs : ref) : M state unit :=
  run (if decide (this ≠ rhs) then
         do v <- get_obj this;
         do r <- get_obj rhs;
         if decide (size_ r > RawMemory.Capacity (data_ v)) then
           do temp_data <- ctor_copy rhs;
           run Swap this temp_data;
           dtor temp_data
         else if decide (size_ r < size_ v) then
           run assign_loop (data_ v) (data_ r) 0 (Z.to_nat (size_ r));
           destroy_n (RawMemory.GetAddress (data_ v) +ₚ size_ r)
                     (wrap (size_ v - size_ r))
         else
           run assign_loop (data_ v) (data_ r) 0 (Z.to_nat (size_ v));
           uninitialized_copy_n (RawMemory.GetAddress (data_ r) +ₚ size_ v)
                                (wrap (size_ r - size_ v))
                                (RawMemory.GetAddress (data_ v) +ₚ size_ v)
       else ret tt);
  (* size_ = rhs.size_ *)
  do r <- get_obj rhs;
  set_size this (size_ r).

(** [Vector& operator=(Vector&& rhs) noexcept] *)
Definition move_assign (this rhs : ref) : M state unit :=
  Swap this rhs.

(** [T& operator[](size_t index) noexcept] *)
Definition index (this : ref) (index : Z) : M state ptr :=
  do v <- get_obj this;
  run assert (bool_decide (index < size_ v));
  RawMemory.index (data_ v) index.

(** [template <typename... Args> iterator Emplace(const_iterator pos, Args&&... args)] *)
Definition Emplace (this : ref) (pos : ptr) (args : ctor_args T) : M state ptr :=
  (* size_t result = pos - begin() *)
  do b <- begin_ this;
  do result <- match ptr_diff pos b with
               | Some d => ret (wrap d)
               | None => crash
               end;
  do v <- get_obj this;
  run (if decide (size_ v = result) then
         do _ <- EmplaceBack this args;
         ret tt
       else if decide (size_ v < RawMemory.Capacity (data_ v)) then
         do tmp <- construct_local args;
         (* new (data_ + size_) T(std::move(data_[size_ - 1u])) *)
         do p <- RawMemory.plus (data_ v) (size_ v);
         do last <- RawMemory.index (data_ v) (wrap (size_ v - 1));
         run move_construct last p;
         (* std::move_backward(data_.GetAddress() + result, end() - 1, end()) *)
         do e1 <- end_ this;
         do e <- end_ this;
         run std_move_backward (RawMemory.GetAddress (data_ v) +ₚ result)
                               (e1 +ₚ (-1)) e;
         (* data_[result] = std::move(tmp) *)
         do q <- RawMemory.index (data_ v) result;
         run move_assign_local tmp q;
         (* ++size_ *)
         set_size this (wrap (size_ v + 1))
       else
         do new_data <- RawMemory.ctor (wrap (size_ v * 2));
         run on_unwind
               (do p <- RawMemory.plus new_data result;
                run construct p args;
                run (if transfer_by_move then
                       uninitialized_move_n (RawMemory.GetAddress (data_ v)) result
                                            (RawMemory.GetAddress new_data)
                     else
                       uninitialized_copy_n (RawMemory.GetAddress (data_ v)) result
                                            (RawMemory.GetAddress new_data));
                if transfer_by_move then
                  uninitialized_move_n (RawMemory.GetAddress (data_ v) +ₚ result)
                                       (wrap (size_ v - result))
                                       (RawMemory.GetAddress new_data +ₚ result +ₚ 1)
                else
                  uninitialized_copy_n (RawMemory.GetAddress (data_ v) +ₚ result)
                                       (wrap (size_ v - result))
                                       (RawMemory.GetAddress new_data +ₚ result +ₚ 1))
               (RawMemory.dtor new_data);
         run destroy_n (RawMemory.GetAddress (data_ v)) (size_ v);
         let (data, new_data) := RawMemory.Swap (data_ v) new_data in
         run set_data this data;
         run RawMemory.dtor new_data;
         (* ++size_ *)
         set_size this (wrap (size_ v + 1)));
  do v <- get_obj this;
  ret (RawMemory.GetAddress (data_ v) +ₚ result).

(** [iterator Erase(const_iterator pos)] *)
Definition Erase (this : ref) (pos : ptr) : M state ptr :=
  let pos_it := pos in
  do e <- end_ this;
  run std_move (pos_it +ₚ 1) e pos_it;
  (* --size_ *)
  do v <- get_obj this;
  run set_size this (wrap (size_ v - 1));
  do v <- get_obj this;
  run destroy_n (RawMemory.GetAddress (data_ v) +ₚ size_ v) 1;
  ret pos_it.

(** [iterator Insert(const_iterator pos, const T& value)] *)
Definition Insert (this : ref) (pos : ptr) (value : T) : M state ptr :=
  Emplace this pos (copy_of value).

(** [iterator Insert(const_iterator pos, T&& value)] *)
Definition Insert_move (this : ref) (pos : ptr) (value : T) : M state ptr :=
  Emplace this pos (move_of value).

(** [void Destroy(T* buf) noexcept] *)
Definition Destroy (buf : ptr) : M state unit :=
  destroy_at buf.

(** [void CopyConstruct(T* buf, const T& elem)] *)
Definition CopyConstruct (buf : ptr) (elem : T) : M state unit :=
  construct buf (copy_of elem).

(** The loop [for (size_t i = 0; i != n; ++i) Destroy(buf + i)], with
    [k] iterations left. *)
Fixpoint DestroyN_loop (buf : ptr) (i : Z) (k : nat) : M state unit :=
  match k with
  | O => ret tt
  | S k' => run Destroy (buf +ₚ i); DestroyN_loop buf (wrap (i + 1)) k'
  end.

(** [void DestroyN(T* buf, size_t n) noexcept] *)
Definition DestroyN (buf : ptr) (n : Z) : M state unit :=
  DestroyN_loop buf 0 (Z.to_nat n).

(** [const T& operator[](size_t index) const noexcept]: the other
    overload, called on the object with [const] cast away. *)
Definition index_const (this : ref) (index_ : Z) : M state ptr :=
  index this index_.

(** [const_iterator begin() const noexcept] *)
Definition begin_const (this : ref) : M state ptr :=
  do v <- get_obj this;
  ret (RawMemory.GetAddress_const (data_ v)).

(** [const_iterator end() const noexcept] *)
Definition end_const (this : ref) : M state ptr :=
  do v <- get_obj this;
  RawMemory.plus_const (data_ v) (size_ v).

(** [const_iterator cbegin() const noexcept] *)
Definition cbegin (this : ref) : M state ptr :=
  do v <- get_obj this;
  ret (RawMemory.GetAddress_const (data_ v)).

(** [const_iterator cend() const noexcept] *)
Definition cend (this : ref) : M state ptr :=
  do v <- get_obj this;
  RawMemory.plus_const (data_ v) (size_ v).

(** What iterating over [[begin(), end())] reads, [None] when some
    element of the range is not a live object. *)
Definition elements (this : ref) (s : state) : option (list T) :=
  match objs s !! this with
  | Some v => read_loop (RawMemory.GetAddress (data_ v)) (Z.to_nat (size_ v)) s
  | None => None
  end.

End Methods.

End Vector.

Import RawMemory(buffer_, capacity_).
Import Vector(data_, size_).

(** * Programs over vectors *)

Section Programs.
Context {T : Type} `{!ElementType T} `{!Environment T}.
Abbreviation state := (state T Vector.t) (only parsing).

(** The public operations of [Vector<T>], on vectors named by their
    address.  A constructor makes a new object. *)
Inductive operation :=
| call_ctor_default
| call_ctor_sized (size : Z)
| call_ctor_copy (other : ref)
| call_ctor_move (other : ref)
| call_dtor (this : ref)
| call_Reserve (this : ref) (new_capacity : Z)
| call_Resize (this : ref) (new_size : Z)
| call_PushBack (this : ref) (value : T)
| call_PushBack_move (this : ref) (value : T)
| call_EmplaceBack (this : ref) (args : ctor_args T)
| call_PopBack (this : ref)
| call_Insert (this : ref) (pos : ptr) (value : T)
| call_Insert_move (this : ref) (pos : ptr) (value : T)
| call_Emplace (this : ref) (pos : ptr) (args : ctor_args T)
| call_Erase (this : ref) (pos : ptr)
| call_Swap (this other : ref)
| call_copy_assign (this rhs : ref)
| call_move_assign (this rhs : ref).

(** A call whose result is not used. *)
Definition discard {A} (m : M state A) : M state unit := do _ <- m; ret tt.

(** The call an operation stands for. *)
Definition perform (o : operation) : M state unit :=
  match o with
  | call_ctor_default => discard Vector.ctor_default
  | call_ctor_sized size => discard (Vector.ctor_sized size)
  | call_ctor_copy other => discard (Vector.ctor_copy other)
  | call_ctor_move other => discard (Vector.ctor_move other)
  | call_dtor this => Vector.dtor this
  | call_Reserve this new_capacity => Vector.Reserve this new_capacity
  | call_Resize this new_size => Vector.Resize this new_size
  | call_PushBack this value => discard (Vector.PushBack this value)
  | call_PushBack_move this value => discard (Vector.PushBack_move this value)
  | call_EmplaceBack this args => discard (Vector.EmplaceBack this args)
  | call_PopBack this => Vector.PopBack this
  | call_Insert this pos value => discard (Vector.Insert this pos value)
  | call_Insert_move this pos value => discard (Vector.Insert_move this pos value)
  | call_Emplace this pos args => discard (Vector.Emplace this pos args)
  | call_Erase this pos => discard (Vector.Erase this pos)
  | call_Swap this other => Vector.Swap this other
  | call_copy_assign this rhs => Vector.copy_assign this rhs
  | call_move_assign this rhs => Vector.move_assign this rhs
  end.

(** The arguments of type [size_t] are [size_t] values. *)
Definition well_typed (o : operation) : Prop :=
  match o with
  | call_ctor_sized n | call_Reserve _ n | call_Resize _ n => is_size_t n
  | _ => True
  end.

(** The states a program reaches from the empty one by calls of the
    public operations, which return or throw. *)
Inductive reachable : state → Prop :=
| reachable_empty : reachable (State ∅ ∅)
| reachable_return o s s' :
  reachable s → well_typed o → perform o s = Ok tt s' → reachable s'
| reachable_throw o s e s' :
  reachable s → well_typed o → perform o s = Throw e s' → reachable s'.

(** An append operation. *)
Inductive append :=
| push_back (value : T)
| push_back_move (value : T)
| emplace_back (args : ctor_args T).

(** The call an append operation stands for. *)
Definition do_append this (a : append) : M state ptr :=
  match a with
  | push_back value => Vector.PushBack this value
  | push_back_move value => Vector.PushBack_move this value
  | emplace_back args => Vector.EmplaceBack this args
  end.

(** The value an append operation adds. *)
Definition appended_value (a : append) : option T :=
  match a with
  | push_back value | push_back_move value
  | emplace_back (copy_of value) | emplace_back (move_of value) => Some value
  | emplace_back (forwarded result) => result
  end.

(** A sequence of appends to [this], in order. *)
Fixpoint do_appends this (ops : list append) : M state unit :=
  match ops with
  | [] => ret tt
  | a :: ops' => do _ <- do_append this a; do_appends this ops'
  end.


End Programs.

(** * The vocabulary of the specifications *)

(** [post m s Q E]: run from [s], [m] satisfies [Q] when it returns and
    [E] when it throws; nothing is said of a crash. *)
Definition post {Σ A} (m : M Σ A) (s : Σ)
    (Q : A → Σ → Prop) (E : exn → Σ → Prop) : Prop :=
  match m s with
  | Ok a s' => Q a s'
  | Throw e s' => E e s'
  | Crash => True
  end.

(** [total m s Q E]: run from [s], [m] has defined behaviour, and
    satisfies [Q] when it returns and [E] when it throws. *)
Definition total {Σ A} (m : M Σ A) (s : Σ)
    (Q : A → Σ → Prop) (E : exn → Σ → Prop) : Prop :=
  match m s with
  | Ok a s' => Q a s'
  | Throw e s' => E e s'
  | Crash => False
  end.

Section Preserves.
Context {Σ : Type} (I : Σ → Prop).

(** [m] keeps [I], whether it returns or throws. *)
Definition preserves {A} (m : M Σ A) : Prop :=
  ∀ s, I s → post m s (λ _ s', I s') (λ _ s', I s').

End Preserves.

(** The slots [first, first + n). *)
Definition range (first : ptr) (n : Z) (q : ptr) : Prop :=
  blk q = blk first ∧ off first <= off q < off first + n.

Section HeapVocabulary.
Context {T : Type} `{!ElementType T} `{!Environment T} {Obj : Type}.
Abbreviation state := (state T Obj) (only parsing).
Implicit Types (s : state) (p q first d_first : ptr) (rm : RawMemory.t)
  (P : ptr → Prop).

(** [s'] has the objects of [s] and blocks of the same sizes, and
    differs from [s] at most in what the slots in [P] hold. *)
Definition frame P s s' : Prop :=
  objs s' = objs s ∧
  (∀ l, length <$> heap s' !! l = length <$> heap s !! l) ∧
  (∀ q, ¬ P q → cell s' q = cell s q).

(** [p] designates a slot of an allocated block. *)
Definition in_bounds s p : Prop := is_Some (cell s p).

(** [s] has the objects and the block sizes of [s0]. *)
Definition same_shape (s0 s : state) : Prop := frame (λ _, True) s0 s.

(** No block has as many slots as [size_t] has values. *)
Definition heap_bounded s : Prop :=
  ∀ l b, heap s !! l = Some b → Z.of_nat (length b) < SIZE_MOD.

(** The number of elements [Allocate(n)] gets room for. *)
Definition slots (n : Z) : nat := Z.to_nat (wrap (n * sizeof) / sizeof).

(** [rm] is a [RawMemory] just constructed with capacity [n] in [s],
    which gave [s']. *)
Definition fresh_block (n : Z) rm s s' : Prop :=
  RawMemory.capacity_ rm = n ∧
  if decide (n = 0) then RawMemory.buffer_ rm = nullptr ∧ s' = s
  else ∃ l, RawMemory.buffer_ rm = Ptr (Some l) 0 ∧ heap s !! l = None ∧
          s' = set_heap (<[l := replicate (slots n) None]> (heap s)) s.

(** The blocks a transfer may write to: the destination, and the
    source when it moves. *)
Definition transfer_footprint (by_move : bool) first d_first q : Prop :=
  blk q = blk d_first ∨ (by_move = true ∧ blk q = blk first).

(** What a transfer gives when source and destination are apart. *)
Definition transferred first n d_first s s' : Prop :=
  (∀ q, ¬ range d_first n q → ¬ range first n q → cell s' q = cell s q) ∧
  ∀ i, 0 <= i < n → ∃ v, cell s (first +ₚ i) = Some (Some v) ∧
                        cell s' (d_first +ₚ i) = Some (Some v).

(** [p] designates a live object. *)
Definition live s p : Prop := ∃ v, cell s p = Some (Some v).

(** [s'] has the shape of [s], and no object of [s] was destroyed. *)
Definition extends s s' : Prop :=
  same_shape s s' ∧ ∀ q, live s q → live s' q.

(** No special member of [T] that the vector calls throws. *)
Definition nothrow_element : Prop :=
  (∀ x : T, copy_throws x = false) ∧
  (∀ x : T, move_throws x = false) ∧
  (∀ a b : T, copy_assign_throws a b = false) ∧
  (∀ a b : T, move_assign_throws a b = false).

(** The allocator refuses some request. *)
Definition allocator_fails : Prop :=
  ∃ h n, operator_new_fails (T:=T) h n = true.

(** An exception [e] that left a member of [T] called on the
    elements of a vector. *)
Definition element_threw (e : exn) : Prop :=
  e = element_exn ∧ ¬ nothrow_element.

End HeapVocabulary.

Arguments nothrow_element T {_}.
Arguments allocator_fails T {_}.
Arguments element_threw T {_} e.

Section VectorVocabulary.
Context {T : Type} `{!ElementType T} `{!Environment T}.
Abbreviation state := (state T Vector.t) (only parsing).
Implicit Types (s : state) (p q : ptr) (v : Vector.t) (this other rhs : ref).

(** The fields of a vector are [size_t] values with
    [size_ <= capacity_]. *)
Definition valid v : Prop :=
  0 <= size_ v <= capacity_ (data_ v) ∧ capacity_ (data_ v) < SIZE_MOD ∧
  off (buffer_ (data_ v)) = 0.

(** The buffer of a vector is null or points into an allocated block. *)
Definition owns s v : Prop :=
  match blk (buffer_ (data_ v)) with
  | Some l => is_Some (heap s !! l)
  | None => True
  end.

(** [this] is a vector of [s] in good order: its fields are [valid]
    and its buffer is not dangling. *)
Definition container s this v : Prop :=
  objs s !! this = Some v ∧ valid v ∧ owns s v.

(** [this] is a container of [s] that holds the sequence [vs]. *)
Definition holds s this (vs : list T) : Prop :=
  ∃ v, container s this v ∧ size_ v = Z.of_nat (length vs) ∧
     ∀ (i : nat) w, vs !! i = Some w →
                    cell s (buffer_ (data_ v) +ₚ Z.of_nat i) = Some (Some w).

(** Every vector of the store is [valid]. *)
Definition objs_valid s : Prop := ∀ r v, objs s !! r = Some v → valid v.

(** The invariant of the reachable states. *)
Definition Inv s : Prop := objs_valid s ∧ heap_bounded s.

(** What [~RawMemory()] of [rm] made of [s]. *)
Definition released (rm : RawMemory.t) s s' : Prop :=
  objs s' = objs s ∧ off (buffer_ rm) = 0 ∧
  match blk (buffer_ rm) with
  | None => s' = s
  | Some l => is_Some (heap s !! l) ∧ heap s' = delete l (heap s)
  end.

(** An exception leaves the objects as they were, and the heap too
    unless a throwing move constructor did the transfer. *)
Definition rolled_back s s' : Prop :=
  objs s' = objs s ∧
  (Vector.transfer_by_move = false ∨ is_nothrow_move_constructible = true → s' = s).

(** What a call of [Reserve(n)] that returns made of [s], in which
    [this] was [v]. *)
Definition reserved this n s v s' : Prop :=
  ∃ d, objs s' = <[this := Vector.Make d (size_ v)]> (objs s) ∧
     capacity_ d = Z.max (capacity_ (data_ v)) n ∧ off (buffer_ d) = 0.

(** What the two branches of [EmplaceBack] leave before [++size_]. *)
Definition appended this args s v s' : Prop :=
  ∃ x d, constructed args = Some x ∧
  objs s' = <[this := Vector.Make d (size_ v)]> (objs s) ∧
  size_ v + 1 <= capacity_ d < SIZE_MOD ∧
  off (buffer_ d) = 0 ∧
  (if decide (size_ v = capacity_ (data_ v))
   then capacity_ d = Z.max 1 (2 * capacity_ (data_ v))
   else d = data_ v) ∧
  (owns s v →
   owns s' (Vector.Make d (size_ v)) ∧
   cell s' (buffer_ d +ₚ size_ v) = Some (Some x) ∧
   ∀ i w, 0 <= i < size_ v →
          cell s (buffer_ (data_ v) +ₚ i) = Some (Some w) →
          cell s' (buffer_ d +ₚ i) = Some (Some w)).

(** What a call of [EmplaceBack] that returns [p] made of [s], in which
    [this] was [v]. *)
Definition emplaced_back this args s v p s' : Prop :=
  ∃ x d, constructed args = Some x ∧
  objs s' = <[this := Vector.Make d (size_ v + 1)]> (objs s) ∧
  size_ v + 1 <= capacity_ d < SIZE_MOD ∧
  off (buffer_ d) = 0 ∧
  (if decide (size_ v = capacity_ (data_ v))
   then capacity_ d = Z.max 1 (2 * capacity_ (data_ v))
   else d = data_ v) ∧
  p = buffer_ d +ₚ size_ v ∧
  (owns s v →
   owns s' (Vector.Make d (size_ v + 1)) ∧
   cell s' p = Some (Some x) ∧
   ∀ i w, 0 <= i < size_ v →
          cell s (buffer_ (data_ v) +ₚ i) = Some (Some w) →
          cell s' (buffer_ d +ₚ i) = Some (Some w)).

(** What the branches of [Emplace] make of [s], in which [this] was
    [v], for the index [result]. *)
Definition inserted this args result s v s' : Prop :=
  ∃ x d, constructed args = Some x ∧
  objs s' = <[this := Vector.Make d (size_ v + 1)]> (objs s) ∧
  size_ v + 1 <= capacity_ d < SIZE_MOD ∧ off (buffer_ d) = 0 ∧
  (owns s v → 0 <= result <= size_ v →
   owns s' (Vector.Make d (size_ v + 1)) ∧
   cell s' (buffer_ d +ₚ result) = Some (Some x) ∧
   (∀ i w, 0 <= i < result →
           cell s (buffer_ (data_ v) +ₚ i) = Some (Some w) →
           cell s' (buffer_ d +ₚ i) = Some (Some w)) ∧
   (∀ i w, result <= i < size_ v →
           cell s (buffer_ (data_ v) +ₚ i) = Some (Some w) →
           cell s' (buffer_ d +ₚ (i + 1)) = Some (Some w))).

(** What a call of [Emplace] that returns [it] made of [s]. *)
Definition emplaced this args result s v it s' : Prop :=
  inserted this args result s v s' ∧
  ∃ v', objs s' !! this = Some v' ∧ it = buffer_ (data_ v') +ₚ result.

(** What a call of [Erase(begin() + idx)] that returns [it] made of
    [s], in which [this] was [v]. *)
Definition erased this idx s v it s' : Prop :=
  it = buffer_ (data_ v) +ₚ idx ∧
  objs s' = <[this := Vector.Make (data_ v) (size_ v - 1)]> (objs s) ∧
  (owns s v → owns s' v) ∧
  (∀ i w, 0 <= i < idx →
        cell s (buffer_ (data_ v) +ₚ i) = Some (Some w) →
        cell s' (buffer_ (data_ v) +ₚ i) = Some (Some w)) ∧
  (∀ i w, idx <= i < size_ v - 1 →
        cell s (buffer_ (data_ v) +ₚ (i + 1)) = Some (Some w) →
        cell s' (buffer_ (data_ v) +ₚ i) = Some (Some w)).

(** The block of a vector has a slot for each index below its
    capacity. *)
Definition room s v : Prop :=
  ∀ i, 0 <= i < capacity_ (data_ v) → in_bounds s (buffer_ (data_ v) +ₚ i).

(** The slots below the size of a vector hold live objects. *)
Definition filled s v : Prop :=
  ∀ i, 0 <= i < size_ v → live s (buffer_ (data_ v) +ₚ i).

(** The representation invariant of [Vector<T>]. *)
Definition well_formed s v : Prop :=
  valid v ∧ owns s v ∧ room s v ∧ filled s v.

(** [this] is a well-formed vector of [s] that holds the sequence
    [vs]. *)
Definition stores s this (vs : list T) : Prop :=
  ∃ v, objs s !! this = Some v ∧ well_formed s v ∧
       size_ v = Z.of_nat (length vs) ∧
       ∀ (i : nat) w, vs !! i = Some w →
                      cell s (buffer_ (data_ v) +ₚ Z.of_nat i) = Some (Some w).

(** The exceptions that leave an operation which constructs an
    element from [args]: [std::bad_alloc] before anything changed,
    or what a member of [T] threw. *)
Definition failed (args : ctor_args T) s (e : exn) s' : Prop :=
  match e with
  | bad_alloc => s' = s ∧ allocator_fails T
  | element_exn => constructed args = None ∨ ¬ nothrow_element T
  end.

(** The elements of [s] in [[first, first + n)] can be copied: no
    copy constructor throws on them. *)
Definition copyable s first (n : Z) : Prop :=
  ∀ i x, 0 <= i < n → cell s (first +ₚ i) = Some (Some x) → copy_throws x = false.

(** The exceptions that leave a sequence of appends: a refused
    allocation, or what a member of [T] or the constructor called by
    an [EmplaceBack] threw. *)
Definition append_threw (ops : list (append (T:=T))) (e : exn) : Prop :=
  match e with
  | bad_alloc => allocator_fails T
  | element_exn =>
      ¬ nothrow_element T ∨ emplace_back (forwarded None) ∈ ops
  end.

End VectorVocabulary.

(** * Element types and states to run the code on *)

(** An element type like [int]. *)
Definition int_element : ElementType Z := {|
  sizeof := 4;
  sizeof_pos := eq_refl;
  is_nothrow_move_constructible := true;
  is_copy_constructible := true;
  value_init := Some 0;
  copy_throws := λ _, false;
  move_throws := λ _, false;
  moved_from := λ v, v;
  copy_assign_throws := λ _ _, false;
  move_assign_throws := λ _ _, false;
  move_assigned_from := λ _ v, v;
  nothrow_move_sound := λ _ _, eq_refl
  |}.

(** An element type whose move constructor is not [noexcept] and whose
    copy constructor throws on the value 13. *)
Record fragile := Fragile { payload : Z }.

Definition fragile_element : ElementType fragile := {|
  sizeof := 8;
  sizeof_pos := eq_refl;
  is_nothrow_move_constructible := false;
  is_copy_constructible := true;
  value_init := Some (Fragile 0);
  copy_throws := λ v, payload v =? 13;
  move_throws := λ _, false;
  moved_from := λ _, Fragile 0;
  copy_assign_throws := λ _ v, payload v =? 13;
  move_assign_throws := λ _ _, false;
  move_assigned_from := λ _ _, Fragile 0;
  nothrow_move_sound := λ H _, match Bool.diff_false_true H with end
  |}.

(** An element type whose default constructor throws. *)
Record guarded := Guarded { token : Z }.

Definition guarded_element : ElementType guarded := {|
  sizeof := 8;
  sizeof_pos := eq_refl;
  is_nothrow_move_constructible := true;
  is_copy_constructible := true;
  value_init := None;
  copy_throws := λ _, false;
  move_throws := λ _, false;
  moved_from := λ v, v;
  copy_assign_throws := λ _ _, false;
  move_assign_throws := λ _ _, false;
  move_assigned_from := λ _ v, v;
  nothrow_move_sound := λ _ _, eq_refl
  |}.

(** A build with assertions and an allocator that never refuses. *)
Definition debug_build (T : Type) : Environment T := {|
  NDEBUG := false;
  operator_new_fails := λ _ _, false
  |}.

(** The state a computation ends in, the empty state if it does not
    return. *)
Definition final_state {T Obj A} (o : outcome (state T Obj) A) : state T Obj :=
  match o with
  | Ok _ s | Throw _ s => s
  | Crash => State ∅ ∅
  end.

Section Examples.
#[local] Existing Instance int_element.
#[local] Existing Instance fragile_element.
#[local] Existing Instance debug_build.

(** The state of a program that has made no vector yet. *)
Definition no_vectors : state Z Vector.t := State ∅ ∅.

(** One vector, [1], holding [10]. *)
Definition one_element : state Z Vector.t :=
  final_state ((do v <- Vector.ctor_default; Vector.PushBack v 10) no_vectors).

(** One vector, [1], holding [1; 2; 4] in a block of four slots. *)
Definition three_elements : state Z Vector.t :=
  final_state ((do v <- Vector.ctor_default;
          run Vector.PushBack v 1; run Vector.PushBack v 2;
          Vector.PushBack v 4) no_vectors).

(** Two vectors: [1] holds [1; 2; 4] with capacity 4, [2] holds [7; 8]. *)
Definition two_vectors : state Z Vector.t :=
  final_state ((do w <- Vector.ctor_default;
          run Vector.PushBack w 7; Vector.PushBack w 8) three_elements).

(** A full vector of fragile elements, the second of which cannot be
    copied. *)
Definition fragile_pair : state fragile Vector.t :=
  final_state ((do v <- Vector.ctor_default;
          run Vector.PushBack_move v (Fragile 1);
          Vector.PushBack_move v (Fragile 13)) (State ∅ ∅)).

(** Two [RawMemory] objects: [1] owns block [1] of three slots, [2]
    owns block [2] of two slots. *)
Definition two_buffers : state Z RawMemory.t :=
  final_state ((do a <- RawMemory.ctor 3;
          do _ <- new_obj a;
          do b <- RawMemory.ctor 2;
          new_obj b) (State ∅ ∅)).

(** A vector whose buffer is the block [l]. *)
Definition block_of (l : loc) (capacity size : Z) : Vector.t :=
  Vector.Make (RawMemory.Make (Ptr (Some l) 0) capacity) size.

(** Three appends, one of each kind. *)
Definition three_appends : list (append (T:=Z)) :=
  [push_back 1; push_back_move 2; emplace_back (forwarded (Some 4))].

(** One vector, [1], that is empty. *)
Definition empty_vector : state Z Vector.t :=
  final_state (Vector.ctor_default no_vectors).

(** A number of [int] elements whose size in bytes is [2^64]. *)
Definition too_many : Z := 2 ^ 62.


End Examples.

Arguments block_of l%_positive capacity%_Z size%_Z.

(** * Proofs *)

(** ** Postconditions *)

Section PostRules.
Context {Σ : Type}.
Implicit Types s : Σ.

Lemma post_ok {A} (m : M Σ A) s Q E a s' :
  post m s Q E → m s = Ok a s' → Q a s'.
Proof. unfold post. intros H Hm. by rewrite Hm in H. Qed.

Lemma post_thrown {A} (m : M Σ A) s Q E e s' :
  post m s Q E → m s = Throw e s' → E e s'.
Proof. unfold post. intros H Hm. by rewrite Hm in H. Qed.

Lemma post_intro {A} (m : M Σ A) s (Q : A → Σ → Prop) (E : exn → Σ → Prop) :
  (∀ a s', m s = Ok a s' → Q a s') →
  (∀ e s', m s = Throw e s' → E e s') →
  post m s Q E.
Proof. unfold post. destruct (m s); auto. Qed.

Lemma post_mono {A} (m : M Σ A) s (Q Q' : A → Σ → Prop) (E E' : exn → Σ → Prop) :
  post m s Q E →
  (∀ a s', Q a s' → Q' a s') →
  (∀ e s', E e s' → E' e s') →
  post m s Q' E'.
Proof. unfold post. destruct (m s); auto. Qed.

Lemma post_and {A} (m : M Σ A) s (Q Q' : A → Σ → Prop) (E E' : exn → Σ → Prop) :
  post m s Q E → post m s Q' E' →
  post m s (λ a s', Q a s' ∧ Q' a s') (λ e s', E e s' ∧ E' e s').
Proof. unfold post. destruct (m s); auto. Qed.

Lemma post_ret {A} (a : A) s (Q : A → Σ → Prop) E : Q a s → post (ret a) s Q E.
Proof. done. Qed.

Lemma post_throw {A} e s (Q : A → Σ → Prop) (E : exn → Σ → Prop) :
  E e s → post (throw e) s Q E.
Proof. done. Qed.

Lemma post_crash {A} s (Q : A → Σ → Prop) E : post crash s Q E.
Proof. done. Qed.

Lemma post_bind {A B} (m : M Σ A) (k : A → M Σ B) s Q E :
  post m s (λ a s', post (k a) s' Q E) E → post (bind m k) s Q E.
Proof. unfold post, bind. by destruct (m s). Qed.

Lemma post_try_catch {A} (m : M Σ A) h s Q E :
  post m s Q (λ e s', post (h e) s' Q E) → post (try_catch m h) s Q E.
Proof. unfold post, try_catch. by destruct (m s). Qed.

Lemma post_on_unwind {A} (m : M Σ A) cleanup s (Q : A → Σ → Prop) E :
  post m s Q (λ e s', post cleanup s' (λ _ s'', E e s'') E) →
  post (on_unwind m cleanup) s Q E.
Proof.
  intros H. apply post_try_catch. eapply post_mono; [exact H|done|].
  intros e s' Hc. apply post_bind. eapply post_mono; [exact Hc| |done].
  intros ? s'' HE. by apply post_throw.
Qed.

Lemma post_noexcept {A} (m : M Σ A) s (Q : A → Σ → Prop) E :
  post m s Q (λ _ _, True) → post (noexcept m) s Q E.
Proof.
  intros H. apply post_try_catch. eapply post_mono; [exact H|done|].
  intros. apply post_crash.
Qed.

(** Sequencing with a specification of the first computation. *)
Lemma post_seq {A B} (m : M Σ A) (k : A → M Σ B) s Q1 E1 Q E :
  post m s Q1 E1 →
  (∀ a s', Q1 a s' → post (k a) s' Q E) →
  (∀ e s', E1 e s' → E e s') →
  post (bind m k) s Q E.
Proof. intros H HQ HE. apply post_bind. by eapply post_mono. Qed.

End PostRules.

Section Frames.
Context {T : Type} `{!ElementType T} `{!Environment T} {Obj : Type}.
Abbreviation state := (state T Obj) (only parsing).
Implicit Types (s : state) (p q : ptr) (P : ptr → Prop).

Lemma frame_refl P s : frame P s s.
Proof. done. Qed.

Lemma frame_trans P s1 s2 s3 : frame P s1 s2 → frame P s2 s3 → frame P s1 s3.
Proof.
  intros (Ho1 & Hl1 & Hc1) (Ho2 & Hl2 & Hc2). split_and!.
  - congruence.
  - intros l. by rewrite Hl2.
  - intros q Hq. rewrite Hc2, Hc1; done.
Qed.

Lemma frame_mono P P' s s' : (∀ q, P q → P' q) → frame P s s' → frame P' s s'.
Proof. intros HP (Ho & Hl & Hc). split_and!; [done..|]. intros q Hq. apply Hc. auto. Qed.

Lemma in_bounds_iff s p :
  in_bounds s p ↔
  ∃ l b, blk p = Some l ∧ heap s !! l = Some b ∧ 0 <= off p < Z.of_nat (length b).
Proof.
  unfold in_bounds, cell. split.
  - intros [c Hc]. destruct (blk p) as [l|]; [|done].
    destruct (heap s !! l) as [b|] eqn:Hb; [|done].
    case_decide; [|done]. apply lookup_lt_Some in Hc.
    exists l, b. split_and!; [done..|lia| lia].
  - intros (l & b & -> & -> & Hr). rewrite decide_True by lia.
    apply lookup_lt_is_Some. lia.
Qed.

Lemma frame_in_bounds P s s' q : frame P s s' → in_bounds s' q ↔ in_bounds s q.
Proof.
  intros (_ & Hl & _). rewrite !in_bounds_iff.
  split; intros (l & b & Hb & Hh & Hr); specialize (Hl l); rewrite Hh in Hl; simpl in Hl.
  - destruct (heap s !! l) as [b'|] eqn:Hb'; simplify_eq/=. exists l, b'. split_and!; [done..|lia|lia].
  - destruct (heap s' !! l) as [b'|] eqn:Hb'; simplify_eq/=. exists l, b'. split_and!; [done..|lia|lia].
Qed.

Lemma objs_write_cell p c s : objs (write_cell p c s) = objs s.
Proof. unfold write_cell. by repeat case_match. Qed.

Lemma length_write_cell p c s l :
  length <$> heap (write_cell p c s) !! l = length <$> heap s !! l.
Proof.
  unfold write_cell. destruct (blk p) as [l'|]; [|done].
  destruct (heap s !! l') as [b|] eqn:Hb; [|done]. simpl.
  destruct (decide (l' = l)) as [->|Hne].
  - by rewrite lookup_insert_eq, Hb; simpl; rewrite length_insert.
  - by rewrite lookup_insert_ne.
Qed.

Lemma cell_write_cell p c s q :
  in_bounds s p →
  cell (write_cell p c s) q = if decide (q = p) then Some c else cell s q.
Proof.
  intros Hin. apply in_bounds_iff in Hin as (l & b & Hl & Hb & Hr).
  unfold write_cell, cell. rewrite Hl, Hb. simpl.
  destruct q as [bq oq], p as [bp op]; simpl in *. subst bp.
  destruct (decide (Ptr bq oq = Ptr (Some l) op)) as [Heq|Hne].
  - simplify_eq. rewrite lookup_insert_eq, decide_True by lia.
    apply list_lookup_insert_eq. lia.
  - destruct bq as [lq|]; [|done].
    destruct (decide (l = lq)) as [->|Hnel].
    + rewrite lookup_insert_eq, Hb. case_decide; [|done].
      apply list_lookup_insert_ne. intros ?. apply Hne. f_equal. lia.
    + by rewrite lookup_insert_ne.
Qed.

Lemma frame_write_cell p c s : in_bounds s p → frame (eq p) s (write_cell p c s).
Proof.
  intros Hin. split_and!.
  - apply objs_write_cell.
  - apply length_write_cell.
  - intros q Hq. rewrite cell_write_cell by done. by rewrite decide_False by congruence.
Qed.

Lemma cell_write_cell_eq p c s : in_bounds s p → cell (write_cell p c s) p = Some c.
Proof. intros. rewrite cell_write_cell by done. by rewrite decide_True. Qed.

(** Blocks that the slots in [P] stay out of are the same. *)
Lemma frame_block P s s' l :
  frame P s s' → (∀ q, P q → blk q ≠ Some l) → heap s' !! l = heap s !! l.
Proof.
  intros (_ & Hl & Hc) HP. specialize (Hl l).
  destruct (heap s' !! l) as [b'|] eqn:Hb', (heap s !! l) as [b|] eqn:Hb; simplify_eq/=; [|done].
  f_equal. apply list_eq. intros i.
  assert (Hq : ¬ P (Ptr (Some l) (Z.of_nat i))) by (intros HPq; by apply HP in HPq).
  specialize (Hc _ Hq). unfold cell in Hc. simpl in Hc.
  rewrite Hb', Hb in Hc. rewrite !decide_True in Hc by lia.
  by rewrite Nat2Z.id in Hc.
Qed.

(** *** The primitives *)

Lemma load_spec p s :
  post (load p) s (λ v s', s' = s ∧ cell s p = Some (Some v)) (λ _ _, False).
Proof. unfold post, load. by destruct (cell s p) as [[v|]|]. Qed.

Lemma construct_at_spec p v s :
  post (construct_at p v) s
    (λ _ s', in_bounds s p ∧ frame (eq p) s s' ∧ cell s' p = Some (Some v))
    (λ _ _, False).
Proof.
  unfold post, construct_at. destruct (cell s p) as [c|] eqn:Hc; [|done].
  assert (in_bounds s p) by (by exists c).
  split_and!; [done|by apply frame_write_cell|by apply cell_write_cell_eq].
Qed.

Lemma destroy_at_spec p s :
  post (destroy_at p) s
    (λ _ s', (∃ v, cell s p = Some (Some v)) ∧ frame (eq p) s s' ∧ cell s' p = Some None)
    (λ _ _, False).
Proof.
  unfold post, destroy_at. destruct (cell s p) as [[v|]|] eqn:Hc; [|done..].
  assert (in_bounds s p) by (by eexists).
  split_and!; [by eexists|by apply frame_write_cell|by apply cell_write_cell_eq].
Qed.

Lemma store_spec p v s :
  post (store p v) s
    (λ _ s', (∃ old, cell s p = Some (Some old)) ∧ frame (eq p) s s' ∧
             cell s' p = Some (Some v))
    (λ _ _, False).
Proof.
  unfold post, store. destruct (cell s p) as [[old|]|] eqn:Hc; [|done..].
  assert (in_bounds s p) by (by eexists).
  split_and!; [by eexists|by apply frame_write_cell|by apply cell_write_cell_eq].
Qed.

Lemma assert_spec c s :
  post (assert c) s (λ _ s', s' = s) (λ _ _, False).
Proof. unfold post, assert. by destruct NDEBUG, c. Qed.

Lemma get_obj_spec r s :
  post (get_obj r) s (λ o s', s' = s ∧ objs s !! r = Some o) (λ _ _, False).
Proof. unfold post, get_obj. by destruct (objs s !! r). Qed.

Lemma put_obj_spec r o s :
  post (put_obj r o) s
    (λ _ s', is_Some (objs s !! r) ∧ heap s' = heap s ∧ objs s' = <[r := o]> (objs s))
    (λ _ _, False).
Proof. unfold post, put_obj. by destruct (objs s !! r). Qed.

End Frames.

Lemma ptr_add_add p a b : p +ₚ a +ₚ b = p +ₚ (a + b).
Proof. unfold ptr_add. simpl. f_equal. lia. Qed.

Lemma ptr_add_0 p : p +ₚ 0 = p.
Proof. destruct p. unfold ptr_add. simpl. f_equal. lia. Qed.

Lemma ptr_add_inj p a b : p +ₚ a = p +ₚ b → a = b.
Proof. unfold ptr_add. intros [=]. lia. Qed.

Lemma ptr_eq p q : blk p = blk q → off p = off q → p = q.
Proof. destruct p, q. simpl. congruence. Qed.

Ltac ptr_simpl :=
  unfold range, ptr_add in *; simpl in *.

Ltac ptr_solve :=
  ptr_simpl; intuition (try congruence; try lia).

Section ElementSpecs.
Context {T : Type} `{!ElementType T} `{!Environment T} {Obj : Type}.
Abbreviation state := (state T Obj) (only parsing).
Implicit Types (s : state) (p q src dst first : ptr).

Lemma construct_local_spec args s :
  post (construct_local args) s
    (λ v s', s' = s ∧ constructed args = Some v) (λ _ s', s' = s).
Proof. unfold post, construct_local. by destruct (constructed args). Qed.

Lemma construct_spec p args s :
  post (construct p args) s
    (λ _ s', ∃ v, constructed args = Some v ∧ in_bounds s p ∧
                  frame (eq p) s s' ∧ cell s' p = Some (Some v))
    (λ _ s', s' = s).
Proof.
  unfold construct. eapply post_seq; [apply construct_local_spec| |done].
  intros v s' [-> Hv]. eapply post_mono; [apply construct_at_spec| |done].
  intros ? s' (? & ? & ?). eauto.
Qed.

Lemma value_construct_spec dst s :
  post (value_construct dst) s
    (λ _ s', in_bounds s dst ∧ frame (eq dst) s s' ∧ ∃ v, cell s' dst = Some (Some v))
    (λ _ s', s' = s).
Proof.
  unfold value_construct. destruct value_init as [v|]; [|done].
  eapply post_mono; [apply construct_at_spec| |done].
  intros ? s' (? & ? & ?). eauto.
Qed.

Lemma copy_construct_spec src dst s :
  post (copy_construct src dst) s
    (λ _ s', ∃ v, cell s src = Some (Some v) ∧ in_bounds s dst ∧
                  frame (eq dst) s s' ∧ cell s' dst = Some (Some v))
    (λ _ s', s' = s).
Proof.
  unfold copy_construct. eapply post_seq; [apply load_spec| |done].
  intros v s' [-> Hv]. destruct (copy_throws v); [done|].
  eapply post_mono; [apply construct_at_spec| |done].
  intros ? s' (? & ? & ?). eauto.
Qed.

Lemma move_construct_spec src dst s :
  post (move_construct src dst) s
    (λ _ s', ∃ v, cell s src = Some (Some v) ∧ in_bounds s dst ∧
                  frame (λ q, q = dst ∨ q = src) s s' ∧
                  (src ≠ dst → cell s' dst = Some (Some v)) ∧
                  cell s' src = Some (Some (moved_from v)))
    (λ _ s', s' = s ∧ is_nothrow_move_constructible = false).
Proof.
  unfold move_construct. eapply post_seq; [apply load_spec| |done].
  intros v s' [-> Hv]. destruct (move_throws v) eqn:Hthrow.
  { apply post_throw. split; [done|].
    destruct is_nothrow_move_constructible eqn:Hn; [|done].
    by rewrite (nothrow_move_sound Hn v) in Hthrow. }
  eapply post_seq; [apply construct_at_spec| |done].
  intros ? s1 (Hin & Hf1 & Hdst).
  eapply post_mono; [apply store_spec| |done].
  intros ? s2 (_ & Hf2 & Hsrc). exists v. split_and!; [done..| | |done].
  - eapply frame_trans; (eapply frame_mono; [|eassumption]); naive_solver.
  - intros Hne. destruct Hf2 as (_ & _ & Hc). rewrite Hc; [done|congruence].
Qed.


Lemma move_assign_spec src dst s :
  post (move_assign src dst) s
    (λ _ s', ∃ v, cell s src = Some (Some v) ∧
                  frame (λ q, q = dst ∨ q = src) s s' ∧
                  (src ≠ dst → cell s' dst = Some (Some v)))
    (λ _ s', s' = s).
Proof.
  unfold move_assign. eapply post_seq; [apply load_spec| |done].
  intros v s' [-> Hv]. eapply post_seq; [apply load_spec| |done].
  intros old s' [-> Hold]. destruct (move_assign_throws old v); [done|].
  eapply post_seq; [apply store_spec| |done].
  intros ? s1 (_ & Hf1 & Hdst).
  eapply post_mono; [apply store_spec| |done].
  intros ? s2 (_ & Hf2 & Hsrc). exists v. split_and!; [done| |].
  - eapply frame_trans; (eapply frame_mono; [|eassumption]); naive_solver.
  - intros Hne. destruct Hf2 as (_ & _ & Hc). rewrite Hc; [done|congruence].
Qed.

Lemma move_assign_local_spec tmp p s :
  post (move_assign_local tmp p) s
    (λ _ s', frame (eq p) s s' ∧ cell s' p = Some (Some tmp))
    (λ _ s', s' = s).
Proof.
  unfold move_assign_local. eapply post_seq; [apply load_spec| |done].
  intros old s' [-> Hold]. destruct (move_assign_throws old tmp); [done|].
  eapply post_mono; [apply store_spec| |done].
  intros ? s' (? & ? & ?). eauto.
Qed.

(** *** Loops *)

Lemma destroy_loop_spec k : ∀ first s,
  post (destroy_loop first k) s
    (λ _ s', frame (range first (Z.of_nat k)) s s' ∧
             (∀ i, 0 <= i < Z.of_nat k → ∃ v, cell s (first +ₚ i) = Some (Some v)) ∧
             (∀ i, 0 <= i < Z.of_nat k → cell s' (first +ₚ i) = Some None))
    (λ _ _, False).
Proof.
  induction k as [|k IH]; intros first s.
  { apply post_ret. split_and!; [apply frame_refl|intros; lia..]. }
  simpl destroy_loop. eapply post_seq; [apply destroy_at_spec| |done].
  intros ? s1 ((v & Hv) & Hf1 & Hc1).
  eapply post_mono; [apply IH| |done].
  intros ? s2 (Hf2 & Hlive & Hraw). split_and!.
  - eapply frame_trans; (eapply frame_mono; [|eassumption]).
    + intros q <-. ptr_solve.
    + intros q. ptr_solve.
  - intros i Hi. destruct (decide (i = 0)) as [->|].
    + rewrite ptr_add_0. eauto.
    + destruct (Hlive (i - 1)) as [w Hw]; [lia|].
      rewrite ptr_add_add in Hw. replace (1 + (i - 1)) with i in Hw by lia.
      destruct Hf1 as (_ & _ & Hc). rewrite Hc in Hw; [eauto|].
      intros Heq. apply (f_equal off) in Heq. ptr_solve.
  - intros i Hi. destruct (decide (i = 0)) as [->|].
    + rewrite ptr_add_0. destruct Hf2 as (_ & _ & Hc). rewrite Hc; [done|].
      ptr_solve.
    + specialize (Hraw (i - 1)). rewrite ptr_add_add in Hraw.
      replace (1 + (i - 1)) with i in Hraw by lia. apply Hraw. lia.
Qed.

Lemma destroy_n_spec first n s :
  0 <= n →
  post (destroy_n first n) s
    (λ _ s', frame (range first n) s s' ∧
             (∀ i, 0 <= i < n → ∃ v, cell s (first +ₚ i) = Some (Some v)) ∧
             (∀ i, 0 <= i < n → cell s' (first +ₚ i) = Some None))
    (λ _ _, False).
Proof.
  intros Hn. unfold destroy_n. eapply post_mono; [apply destroy_loop_spec| |done].
  intros ? s'. by rewrite Z2Nat.id.
Qed.

(** Whatever a loop of destructor calls does, it keeps the objects and
    the sizes of the blocks, and stays within the block of [first]. *)
Lemma destroy_loop_frame k first s :
  post (destroy_loop first k) s
    (λ _ s', frame (λ q, blk q = blk first) s s') (λ _ _, False).
Proof.
  eapply post_mono; [apply destroy_loop_spec| |done].
  intros ? s' (Hf & _). eapply frame_mono; [|done]. by intros q [? _].
Qed.

Section UninitializedLoop.
Variable make : ptr → ptr → M state unit.
Variables first d_first : ptr.
Variable P : ptr → Prop.
Variable X : Prop.
Hypothesis make_frame : ∀ i s,
  post (make (first +ₚ i) (d_first +ₚ i)) s
    (λ _ s', in_bounds s (d_first +ₚ i) ∧ frame P s s')
    (λ _ s', s' = s ∧ X).
Hypothesis P_dst : ∀ q, blk q = blk d_first → P q.

(** A loop of constructions writes within [P] and within the bounds
    of the destination, also when a construction throws. *)
Lemma uninitialized_loop_frame k : ∀ cur s,
  post (uninitialized_loop make first d_first cur k) s
    (λ _ s', frame P s s' ∧
             ∀ i, cur <= i < cur + Z.of_nat k → in_bounds s (d_first +ₚ i))
    (λ _ s', frame P s s' ∧ X).
Proof.
  induction k as [|k IH]; intros cur s.
  { apply post_ret. split; [apply frame_refl|intros; lia]. }
  simpl uninitialized_loop. apply post_bind. apply post_on_unwind.
  eapply post_mono; [apply make_frame| |].
  - intros ? s1 [Hin Hf1]. eapply post_mono; [apply IH| |].
    + intros ? s2 [Hf2 Hb]. split; [by eapply frame_trans|].
      intros i Hi. destruct (decide (i = cur)) as [->|]; [done|].
      apply (proj1 (frame_in_bounds P s s1 _ Hf1)). apply Hb. lia.
    + intros ? s2 [Hf2 HX]. split; [by eapply frame_trans|done].
  - intros e s1 [-> HX]. eapply post_mono; [apply destroy_loop_frame| |].
    + intros ? s2 Hf. split; [|done].
      eapply frame_mono; [|exact Hf]. intros q Hq. by apply P_dst.
    + done.
Qed.
End UninitializedLoop.

End ElementSpecs.

Section LoopSpecs.
Context {T : Type} `{!ElementType T} `{!Environment T} {Obj : Type}.
Abbreviation state := (state T Obj) (only parsing).
Implicit Types (s : state) (p q src dst first : ptr).

Lemma post_trivial {A} (m : M state A) s : post m s (λ _ _, True) (λ _ _, True).
Proof. unfold post. by destruct (m s). Qed.

Section Transfer.
Variable make : ptr → ptr → M state unit.
Hypothesis make_moves : ∀ src dst s, src ≠ dst →
  post (make src dst) s
    (λ _ s', ∃ v, cell s src = Some (Some v) ∧ cell s' dst = Some (Some v) ∧
                  frame (λ q, q = dst ∨ q = src) s s')
    (λ _ _, True).
Variables first d_first : ptr.
Hypothesis apart : blk first ≠ blk d_first.

(** A transfer that returns has given slot [i] of the destination
    the value slot [i] of the source had. *)
Lemma uninitialized_loop_transfer k : ∀ cur s,
  post (uninitialized_loop make first d_first cur k) s
    (λ _ s', frame (λ q, range (d_first +ₚ cur) (Z.of_nat k) q ∨
                         range (first +ₚ cur) (Z.of_nat k) q) s s' ∧
             ∀ i, cur <= i < cur + Z.of_nat k →
                  ∃ v, cell s (first +ₚ i) = Some (Some v) ∧
                       cell s' (d_first +ₚ i) = Some (Some v))
    (λ _ _, True).
Proof.
  induction k as [|k IH]; intros cur s.
  { apply post_ret. split; [apply frame_refl|intros; lia]. }
  simpl uninitialized_loop. apply post_bind. apply post_on_unwind.
  eapply post_mono; [apply make_moves| |].
  { intros Heq. apply (f_equal blk) in Heq. ptr_solve. }
  2:{ intros. apply post_trivial. }
  intros ? s1 (v & Hsrc & Hdst & Hf1). eapply post_mono; [apply IH| |done].
  intros ? s2 (Hf2 & Hvals). split.
  - eapply frame_trans; (eapply frame_mono; [|eassumption]); intros q.
    + intros [->| ->]; ptr_solve.
    + ptr_solve.
  - intros i Hi. destruct (decide (i = cur)) as [->|Hne].
    + exists v. split; [done|]. destruct Hf2 as (_ & _ & Hc).
      rewrite Hc; [done|]. ptr_solve.
    + destruct (Hvals i) as (w & Hw1 & Hw2); [lia|]. exists w. split; [|done].
      destruct Hf1 as (_ & _ & Hc). rewrite <- Hc; [done|].
      intros [Heq|Heq].
      * apply (f_equal blk) in Heq. ptr_solve.
      * apply ptr_add_inj in Heq. lia.
Qed.
End Transfer.

Lemma copy_construct_moves src dst s :
  src ≠ dst →
  post (copy_construct src dst) s
    (λ _ s', ∃ v, cell s src = Some (Some v) ∧ cell s' dst = Some (Some v) ∧
                  frame (λ q, q = dst ∨ q = src) s s')
    (λ _ _, True).
Proof.
  intros _. eapply post_mono; [apply copy_construct_spec| |done].
  intros ? s' (v & ? & ? & Hf & ?). exists v. split_and!; [done..|].
  eapply frame_mono; [|exact Hf]. naive_solver.
Qed.

Lemma move_construct_moves src dst s :
  src ≠ dst →
  post (move_construct src dst) s
    (λ _ s', ∃ v, cell s src = Some (Some v) ∧ cell s' dst = Some (Some v) ∧
                  frame (λ q, q = dst ∨ q = src) s s')
    (λ _ _, True).
Proof.
  intros Hne. eapply post_mono; [apply move_construct_spec| |done].
  intros ? s' (v & ? & ? & Hf & Hd & ?). exists v. split_and!; [done|by apply Hd|done].
Qed.

(** [std::move] of a range one slot to the left. *)
Lemma move_loop_shift k : ∀ first s,
  post (move_loop first (first +ₚ (-1)) k) s
    (λ _ s', frame (range (first +ₚ (-1)) (Z.of_nat k + 1)) s s' ∧
             ∀ i, 0 <= i < Z.of_nat k →
                  ∃ v, cell s (first +ₚ i) = Some (Some v) ∧
                       cell s' (first +ₚ (i - 1)) = Some (Some v))
    (λ _ s', frame (range (first +ₚ (-1)) (Z.of_nat k + 1)) s s').
Proof.
  induction k as [|k IH]; intros first s.
  { apply post_ret. split; [apply frame_refl|intros; lia]. }
  simpl move_loop.
  replace (first +ₚ (-1) +ₚ 1) with (first +ₚ 1 +ₚ (-1))
    by (apply ptr_eq; simpl; [done|lia]).
  eapply post_seq; [apply move_assign_spec| |].
  2:{ intros e s' ->. apply frame_refl. }
  intros ? s1 (v & Hsrc & Hf1 & Hdst).
  assert (Hf1' : frame (range (first +ₚ (-1)) (Z.of_nat (S k) + 1)) s s1).
  { eapply frame_mono; [|exact Hf1]. intros q [->| ->]; ptr_solve. }
  eapply post_mono; [apply IH| |].
  2:{ intros e s2 Hf2. eapply frame_trans; [exact Hf1'|].
      eapply frame_mono; [|exact Hf2]. intros q. ptr_solve. }
  intros ? s2 (Hf2 & Hvals). split.
  - eapply frame_trans; [exact Hf1'|].
    eapply frame_mono; [|exact Hf2]. intros q. ptr_solve.
  - intros i Hi. destruct (decide (i = 0)) as [->|Hne].
    + exists v. rewrite ptr_add_0. split; [done|].
      destruct Hf2 as (_ & _ & Hc). rewrite Hc.
      * apply Hdst. intros Heq. apply (f_equal off) in Heq. ptr_solve.
      * ptr_solve.
    + destruct (Hvals (i - 1)) as (w & Hw1 & Hw2); [lia|].
      rewrite !ptr_add_add in Hw1, Hw2.
      replace (1 + (i - 1)) with i in Hw1 by lia.
      replace (1 + (i - 1 - 1)) with (i - 1) in Hw2 by lia.
      exists w. split; [|done].
      destruct Hf1 as (_ & _ & Hc). rewrite <- Hc; [done|].
      intros [Heq|Heq]; apply (f_equal off) in Heq; ptr_solve.
Qed.

(** [std::move_backward] of a range one slot to the right. *)
Lemma move_backward_loop_shift k : ∀ last s,
  post (move_backward_loop last (last +ₚ 1) k) s
    (λ _ s', frame (range (last +ₚ (- Z.of_nat k)) (Z.of_nat k + 1)) s s' ∧
             ∀ i, 1 <= i <= Z.of_nat k →
                  ∃ v, cell s (last +ₚ (- i)) = Some (Some v) ∧
                       cell s' (last +ₚ (1 - i)) = Some (Some v))
    (λ _ s', frame (range (last +ₚ (- Z.of_nat k)) (Z.of_nat k + 1)) s s').
Proof.
  induction k as [|k IH]; intros last s.
  { apply post_ret. split; [apply frame_refl|intros; lia]. }
  simpl move_backward_loop.
  replace (last +ₚ 1 +ₚ (-1)) with (last +ₚ (-1) +ₚ 1)
    by (apply ptr_eq; simpl; [done|lia]).
  eapply post_seq; [apply move_assign_spec| |].
  2:{ intros e s' ->. apply frame_refl. }
  intros ? s1 (v & Hsrc & Hf1 & Hdst).
  assert (Hf1' : frame (range (last +ₚ (- Z.of_nat (S k))) (Z.of_nat (S k) + 1)) s s1).
  { eapply frame_mono; [|exact Hf1]. intros q [->| ->]; ptr_solve. }
  eapply post_mono; [apply IH| |].
  2:{ intros e s2 Hf2. eapply frame_trans; [exact Hf1'|].
      eapply frame_mono; [|exact Hf2]. intros q. ptr_solve. }
  intros ? s2 (Hf2 & Hvals). split.
  - eapply frame_trans; [exact Hf1'|].
    eapply frame_mono; [|exact Hf2]. intros q. ptr_solve.
  - intros i Hi. destruct (decide (i = 1)) as [->|Hne].
    + exists v. split; [done|].
      destruct Hf2 as (_ & _ & Hc). rewrite Hc.
      * replace (last +ₚ (1 - 1)) with (last +ₚ (-1) +ₚ 1)
          by (apply ptr_eq; simpl; [done|lia]).
        apply Hdst. intros Heq. apply (f_equal off) in Heq. ptr_solve.
      * ptr_solve.
    + destruct (Hvals (i - 1)) as (w & Hw1 & Hw2); [lia|].
      rewrite !ptr_add_add in Hw1, Hw2.
      replace (-1 + - (i - 1)) with (- i) in Hw1 by lia.
      replace (-1 + (1 - (i - 1))) with (1 - i) in Hw2 by lia.
      exists w. split; [|done].
      destruct Hf1 as (_ & _ & Hc). rewrite <- Hc; [done|].
      intros [Heq|Heq]; apply (f_equal off) in Heq; ptr_solve.
Qed.

(** *** Reading a range *)

Lemma read_loop_Some k : ∀ first s vs,
  read_loop first k s = Some vs ↔
  length vs = k ∧
  ∀ (i : nat) v, vs !! i = Some v → cell s (first +ₚ Z.of_nat i) = Some (Some v).
Proof.
  induction k as [|k IH]; intros first s vs; simpl.
  { split.
    - intros [= <-]. split; [done|]. intros i v Hi. by rewrite lookup_nil in Hi.
    - intros [Hlen _]. by destruct vs. }
  split.
  - destruct (cell s first) as [[v|]|] eqn:Hv; [|done..].
    destruct (read_loop (first +ₚ 1) k s) as [vs'|] eqn:Hvs'; [|done].
    intros [= <-]. apply IH in Hvs' as [Hlen Hall]. split; [simpl; lia|].
    intros [|i] w Hi; simpl in Hi.
    + simplify_eq. by rewrite ptr_add_0.
    + apply Hall in Hi. rewrite ptr_add_add in Hi.
      by replace (1 + Z.of_nat i) with (Z.of_nat (S i)) in Hi by lia.
  - intros [Hlen Hall]. destruct vs as [|v vs']; [done|].
    pose proof (Hall 0%nat v eq_refl) as H0. simpl in H0.
    rewrite ptr_add_0 in H0. rewrite H0.
    assert (Hrec : read_loop (first +ₚ 1) k s = Some vs').
    { apply IH. split; [simpl in Hlen; lia|]. intros i w Hi.
      rewrite ptr_add_add. replace (1 + Z.of_nat i) with (Z.of_nat (S i)) by lia.
      by apply Hall. }
    by rewrite Hrec.
Qed.

End LoopSpecs.

Lemma wrap_small x : is_size_t x → wrap x = x.
Proof. unfold is_size_t, wrap. intros. by apply Z.mod_small. Qed.

Lemma wrap_range x : is_size_t (wrap x).
Proof. unfold is_size_t, wrap, SIZE_MOD. apply Z.mod_pos_bound. lia. Qed.

Lemma wrap_le x : 0 <= x → wrap x <= x.
Proof. unfold wrap, SIZE_MOD. intros. apply Z.mod_le; lia. Qed.

(** Doubling a [size_t] that wraps around gives less than the number. *)
Lemma wrap_double x : is_size_t x → x < wrap (x * 2) → wrap (x * 2) = x * 2.
Proof.
  unfold is_size_t, wrap, SIZE_MOD. intros Hx Hlt.
  destruct (decide (x * 2 < 2 ^ 64)); [apply Z.mod_small; lia|].
  exfalso. replace (x * 2) with (x * 2 - 2 ^ 64 + 1 * 2 ^ 64) in Hlt by lia.
  rewrite Z.mod_add in Hlt by lia. rewrite Z.mod_small in Hlt by lia. lia.
Qed.

Section RawMemorySpecs.
Context {T : Type} `{!ElementType T} `{!Environment T} {Obj : Type}.
Abbreviation state := (state T Obj) (only parsing).
Implicit Types (s : state) (p q : ptr) (rm : RawMemory.t).

Lemma state_eq s s' : heap s = heap s' → objs s = objs s' → s = s'.
Proof. destruct s, s'. simpl. congruence. Qed.

Lemma slots_le n : 0 <= n → Z.of_nat (slots n) <= n.
Proof.
  intros Hn. unfold slots. pose proof sizeof_pos as Hs.
  assert (0 <= wrap (n * sizeof)) by apply wrap_range.
  rewrite Z2Nat.id by (apply Z.div_pos; lia).
  transitivity (n * sizeof / sizeof).
  - apply Z.div_le_mono; [lia|]. apply wrap_le. lia.
  - rewrite Z.div_mul by lia. lia.
Qed.

Lemma RawMemory_ctor_spec n s :
  post (RawMemory.ctor n) s (λ rm s', fresh_block n rm s s') (λ _ s', s' = s).
Proof.
  unfold post, RawMemory.ctor, RawMemory.Allocate, bind, fresh_block.
  case_decide as Hn.
  - unfold operator_new. destruct (operator_new_fails (heap s) _); [done|].
    simpl. rewrite decide_False by done. split; [done|].
    eexists. split_and!; [done| |done].
    apply not_elem_of_dom, is_fresh.
  - simpl. by rewrite decide_True.
Qed.

Lemma fresh_block_objs n rm s s' : fresh_block n rm s s' → objs s' = objs s.
Proof.
  intros [_ H]. case_decide; [by destruct H as [_ ->]|].
  by destruct H as (l & _ & _ & ->).
Qed.

Lemma fresh_block_cell n rm s s' q :
  fresh_block n rm s s' → blk q ≠ blk (RawMemory.buffer_ rm) → cell s' q = cell s q.
Proof.
  intros [_ H] Hq. case_decide; [by destruct H as [_ ->]|].
  destruct H as (l & Hb & _ & ->). rewrite Hb in Hq. simpl in Hq.
  unfold cell. simpl. destruct (blk q) as [lq|]; [|done].
  by rewrite lookup_insert_ne by congruence.
Qed.

Lemma fresh_block_in_bounds n rm s s' i :
  0 <= n → fresh_block n rm s s' → in_bounds s' (RawMemory.buffer_ rm +ₚ i) →
  0 <= i < n.
Proof.
  intros Hn [_ H] Hin. apply in_bounds_iff in Hin as (l & b & Hl & Hb & Hr).
  case_decide; [by destruct H as [H _]; rewrite H in Hl|].
  destruct H as (l' & Hbuf & _ & ->). rewrite Hbuf in Hl, Hr. simpl in *.
  simplify_eq. rewrite lookup_insert_eq in Hb. simplify_eq.
  rewrite length_replicate in Hr. pose proof (slots_le n Hn). lia.
Qed.

(** The fresh block is not one that [s] has. *)
Lemma fresh_block_apart n rm s s' p :
  fresh_block n rm s s' →
  match blk p with Some l => is_Some (heap s !! l) | None => True end →
  n ≠ 0 → blk p ≠ blk (RawMemory.buffer_ rm).
Proof.
  intros [_ H] Hp Hn. rewrite decide_False in H by done.
  destruct H as (l' & Hbuf & Hfresh & _). rewrite Hbuf. simpl.
  destruct (blk p) as [l|]; [|done]. intros [= ->].
  rewrite Hfresh in Hp. by destruct Hp.
Qed.

Lemma RawMemory_dtor_spec rm s :
  post (RawMemory.dtor rm) s
    (λ _ s', objs s' = objs s ∧ off (RawMemory.buffer_ rm) = 0 ∧
             match blk (RawMemory.buffer_ rm) with
             | None => s' = s
             | Some l => is_Some (heap s !! l) ∧ heap s' = delete l (heap s)
             end)
    (λ _ _, False).
Proof.
  unfold post, RawMemory.dtor, RawMemory.Deallocate, operator_delete.
  destruct (blk (RawMemory.buffer_ rm)) as [l|].
  - destruct (heap s !! l) eqn:Hl; [|done]. by case_decide.
  - by case_decide.
Qed.

(** Releasing a fresh block of which only the slots were written gives
    the heap back. *)
Lemma fresh_block_released n rm s s1 s2 s3 :
  fresh_block n rm s s1 →
  frame (λ q, blk q = blk (RawMemory.buffer_ rm)) s1 s2 →
  objs s3 = objs s2 →
  match blk (RawMemory.buffer_ rm) with
  | None => s3 = s2
  | Some l => is_Some (heap s2 !! l) ∧ heap s3 = delete l (heap s2)
  end →
  s3 = s.
Proof.
  intros [_ H] Hf Ho Hd. case_decide.
  - destruct H as [Hbuf ->]. rewrite Hbuf in Hd, Hf. simpl in Hd. subst s3.
    apply state_eq; [|by destruct Hf].
    apply map_eq. intros l. eapply frame_block; [exact Hf|]. simpl. congruence.
  - destruct H as (l & Hbuf & Hfresh & ->). rewrite Hbuf in Hd, Hf. simpl in Hd, Hf.
    destruct Hd as [_ Hd]. apply state_eq.
    + rewrite Hd. apply map_eq. intros l'. destruct (decide (l' = l)) as [->|Hne].
      * by rewrite lookup_delete_eq.
      * rewrite lookup_delete_ne by done.
        erewrite frame_block; [|exact Hf|simpl; congruence].
        simpl. by rewrite lookup_insert_ne.
    + destruct Hf as (Hf & _). rewrite Ho, Hf. done.
Qed.

Lemma RawMemory_plus_spec rm offset s :
  post (RawMemory.plus rm offset) s
    (λ p s', s' = s ∧ p = RawMemory.buffer_ rm +ₚ offset) (λ _ _, False).
Proof.
  unfold RawMemory.plus. eapply post_seq; [apply assert_spec| |done].
  by intros ? s' ->.
Qed.

Lemma RawMemory_index_spec rm i s :
  post (RawMemory.index rm i) s
    (λ p s', s' = s ∧ p = RawMemory.buffer_ rm +ₚ i) (λ _ _, False).
Proof.
  unfold RawMemory.index. eapply post_seq; [apply assert_spec| |done].
  by intros ? s' ->.
Qed.

(** Removing a block leaves the slots of the other blocks. *)
Lemma cell_delete s s' l q :
  heap s' = delete l (heap s) → blk q ≠ Some l → cell s' q = cell s q.
Proof.
  intros Hh Hq. unfold cell. rewrite Hh. destruct (blk q) as [lq|]; [|done].
  by rewrite lookup_delete_ne by congruence.
Qed.

Lemma cell_heap s s' q : heap s' = heap s → cell s' q = cell s q.
Proof. intros Hh. unfold cell. by rewrite Hh. Qed.

End RawMemorySpecs.

Section TransferSpec.
Context {T : Type} `{!ElementType T} `{!Environment T} {Obj : Type}.
Abbreviation state := (state T Obj) (only parsing).
Implicit Types (s : state) (p q first d_first : ptr).

Lemma transfer_spec (by_move : bool) first n d_first s :
  0 <= n →
  post (if by_move then uninitialized_move_n first n d_first
        else uninitialized_copy_n first n d_first) s
    (λ _ s', frame (transfer_footprint by_move first d_first) s s' ∧
             (∀ i, 0 <= i < n → in_bounds s (d_first +ₚ i)) ∧
             (blk first ≠ blk d_first → transferred first n d_first s s'))
    (λ _ s', frame (transfer_footprint by_move first d_first) s s' ∧
             (by_move = true → is_nothrow_move_constructible = false)).
Proof.
  intros Hn.
  assert (Hstrong : ∀ make,
    (∀ src dst s, src ≠ dst →
       post (make src dst) s
         (λ _ s', ∃ v, cell s src = Some (Some v) ∧ cell s' dst = Some (Some v) ∧
                       frame (λ q, q = dst ∨ q = src) s s')
         (λ _ _, True)) →
    post (uninitialized_loop make first d_first 0 (Z.to_nat n)) s
      (λ _ s', blk first ≠ blk d_first → transferred first n d_first s s')
      (λ _ _, True)).
  { intros make Hmake. destruct (decide (blk first = blk d_first)) as [Heq|Hne].
    { eapply post_mono; [apply post_trivial|done..]. }
    eapply post_mono; [by apply uninitialized_loop_transfer| |done].
    intros ? s' [Hf Hvals] _. rewrite Z2Nat.id in Hf, Hvals by done. split.
    - intros q Hd Hs. destruct Hf as (_ & _ & Hc). apply Hc.
      rewrite !ptr_add_0. by intros [?|?].
    - intros i Hi. apply Hvals. lia. }
  destruct by_move.
  - unfold uninitialized_move_n.
    eapply post_mono; [apply post_and; [|apply Hstrong, move_construct_moves]| |].
    + apply (uninitialized_loop_frame _ _ _ (transfer_footprint true first d_first)
               (is_nothrow_move_constructible = false)).
      * intros i s0. eapply post_mono; [apply move_construct_spec| |done].
        intros ? s' (v & _ & Hin & Hf & _). split; [done|].
        eapply frame_mono; [|exact Hf]. unfold transfer_footprint.
        intros q [->| ->]; simpl; auto.
      * unfold transfer_footprint. auto.
    + intros ? s' [[Hf Hin] Ht]. rewrite Z2Nat.id in Hin by done.
      split_and!; [done| |done]. intros i Hi. apply Hin. lia.
    + intros e s' [[Hf HX] _]. done.
  - unfold uninitialized_copy_n.
    eapply post_mono; [apply post_and; [|apply Hstrong, copy_construct_moves]| |].
    + apply (uninitialized_loop_frame _ _ _ (transfer_footprint false first d_first) True).
      * intros i s0. eapply post_mono; [apply copy_construct_spec| |done].
        intros ? s' (v & _ & Hin & Hf & _). split; [done|].
        eapply frame_mono; [|exact Hf]. unfold transfer_footprint.
        intros q <-; simpl; auto.
      * unfold transfer_footprint. auto.
    + intros ? s' [[Hf Hin] Ht]. rewrite Z2Nat.id in Hin by done.
      split_and!; [done| |done]. intros i Hi. apply Hin. lia.
    + intros e s' [[Hf _] _]. done.
Qed.

End TransferSpec.

Section EmplaceBackBranches.
Context {T : Type} `{!ElementType T} `{!Environment T}.
Abbreviation state := (state T Vector.t) (only parsing).
Implicit Types (s : state) (p q : ptr) (v : Vector.t) (this : ref).

Lemma set_size_spec this n s :
  post (Vector.set_size this n) s
    (λ _ s', ∃ v, objs s !! this = Some v ∧ heap s' = heap s ∧
                  objs s' = <[this := Vector.Make (data_ v) n]> (objs s))
    (λ _ _, False).
Proof.
  unfold Vector.set_size. eapply post_seq; [apply get_obj_spec| |done].
  intros v s' [-> Hv]. eapply post_mono; [apply put_obj_spec| |done].
  intros ? s' (_ & ? & ?). eauto.
Qed.

Lemma set_data_spec this d s :
  post (Vector.set_data this d) s
    (λ _ s', ∃ v, objs s !! this = Some v ∧ heap s' = heap s ∧
                  objs s' = <[this := Vector.Make d (size_ v)]> (objs s))
    (λ _ _, False).
Proof.
  unfold Vector.set_data. eapply post_seq; [apply get_obj_spec| |done].
  intros v s' [-> Hv]. eapply post_mono; [apply put_obj_spec| |done].
  intros ? s' (_ & ? & ?). eauto.
Qed.

Lemma owns_frame P s s' v : frame P s s' → owns s v → owns s' v.
Proof.
  intros (_ & Hl & _) Hb. unfold owns in *.
  destruct (blk (buffer_ (data_ v))) as [l|]; [|done].
  specialize (Hl l). destruct Hb as [b Hb]. rewrite Hb in Hl.
  destruct (heap s' !! l); [done|discriminate].
Qed.

Lemma owns_heap s s' v : heap s' = heap s → owns s v → owns s' v.
Proof. unfold owns. by intros ->. Qed.

Lemma rolled_back_refl s : rolled_back s s.
Proof. done. Qed.

Lemma EmplaceBack_in_place this args s v :
  objs s !! this = Some v → valid v →
  size_ v ≠ capacity_ (data_ v) →
  post (do p <- RawMemory.plus (data_ v) (size_ v); construct p args) s
    (λ _ s', appended this args s v s') (λ _ s', rolled_back s s').
Proof.
  intros Hthis (Hsz & Hcap & Hoff) Hne.
  eapply post_seq; [apply RawMemory_plus_spec| |done].
  intros p s0 [-> ->].
  eapply post_mono; [apply construct_spec| |by intros ? ? ->].
  intros ? s' (x & Hx & Hin & Hf & Hp). exists x, (data_ v).
  split_and!; [done| |lia|lia|done|by rewrite decide_False|].
  - destruct Hf as (-> & _). destruct v. by rewrite insert_id.
  - intros Hown. split_and!; [by eapply owns_frame|done|].
    intros i w Hi Hw. destruct Hf as (_ & _ & Hc). rewrite Hc; [done|].
    intros Heq. apply ptr_add_inj in Heq. lia.
Qed.

Lemma released_cell rm s s' q :
  released rm s s' → blk q ≠ blk (buffer_ rm) → cell s' q = cell s q.
Proof.
  intros (_ & _ & H) Hq. destruct (blk (buffer_ rm)) as [l|]; [|by subst].
  destruct H as [_ H]. by eapply cell_delete.
Qed.

Lemma released_block rm s s' l :
  released rm s s' → Some l ≠ blk (buffer_ rm) → heap s' !! l = heap s !! l.
Proof.
  intros (_ & _ & H) Hq. destruct (blk (buffer_ rm)) as [l'|]; [|by subst].
  destruct H as [_ ->]. apply lookup_delete_ne. congruence.
Qed.

Lemma frame_cell_apart first n s s' q :
  frame (range first n) s s' → blk q ≠ blk first → cell s' q = cell s q.
Proof. intros (_ & _ & Hc) Hq. apply Hc. by intros [? _]. Qed.

Lemma fresh_block_off n rm s s' :
  fresh_block n rm s s' → off (buffer_ rm) = 0.
Proof.
  intros [_ H]. case_decide; [by destruct H as [-> _]|].
  by destruct H as (l & -> & _).
Qed.

Lemma fresh_block_owns n rm s s' sz :
  n ≠ 0 → fresh_block n rm s s' → owns s' (Vector.Make rm sz).
Proof.
  intros Hn [_ H]. rewrite decide_False in H by done.
  destruct H as (l & Hb & _ & ->). unfold owns. simpl. rewrite Hb. simpl.
  by rewrite lookup_insert_eq.
Qed.

Lemma EmplaceBack_grow this args s v :
  objs s !! this = Some v → valid v →
  size_ v = capacity_ (data_ v) →
  post (let capacity_tmp := 0 in
        let capacity_tmp :=
          if decide (size_ v = 0) then wrap (capacity_tmp + 1)
          else wrap (capacity_tmp + wrap (size_ v * 2)) in
        do new_data <- RawMemory.ctor capacity_tmp;
        run on_unwind
              (do p <- RawMemory.plus new_data (size_ v);
               run construct p args;
               if Vector.transfer_by_move then
                 uninitialized_move_n (RawMemory.GetAddress (data_ v)) (size_ v)
                                      (RawMemory.GetAddress new_data)
               else
                 uninitialized_copy_n (RawMemory.GetAddress (data_ v)) (size_ v)
                                      (RawMemory.GetAddress new_data))
              (RawMemory.dtor new_data);
        run destroy_n (RawMemory.GetAddress (data_ v)) (size_ v);
        let (data, new_data) := RawMemory.Swap (data_ v) new_data in
        run Vector.set_data this data;
        RawMemory.dtor new_data) s
    (λ _ s', appended this args s v s') (λ _ s', rolled_back s s').
Proof.
  intros Hthis (Hsz & Hcap & Hoff) Hfull. cbv zeta.
  set (ct := if decide (size_ v = 0) then wrap (0 + 1)
             else wrap (0 + wrap (size_ v * 2))).
  assert (Hct : is_size_t ct) by (unfold ct; case_decide; apply wrap_range).
  eapply post_seq; [apply RawMemory_ctor_spec| |by intros ? ? ->].
  intros nd s1 Hfresh. cbv beta in Hfresh.
  assert (Ho1 : objs s1 = objs s) by (by eapply fresh_block_objs).
  apply post_bind, post_on_unwind.
  unfold RawMemory.GetAddress.
  eapply post_seq; [apply RawMemory_plus_spec| |done].
  intros p s0 [-> ->].
  eapply post_seq; [apply construct_spec| |].
  2:{ intros e s2 ->. eapply post_mono; [apply RawMemory_dtor_spec| |done].
      intros ? s3 (Ho & _ & Hd). assert (s3 = s) as ->; [|done].
      eapply fresh_block_released; [exact Hfresh|apply frame_refl|done..]. }
  intros ? s2 (x & Hx & Hin & Hf2 & Hp).
  assert (Hlt : 0 <= size_ v < ct).
  { eapply fresh_block_in_bounds; [|exact Hfresh|exact Hin]. apply Hct. }
  assert (Hf2' : frame (λ q, blk q = blk (buffer_ nd)) s1 s2).
  { eapply frame_mono; [|exact Hf2]. by intros q <-. }
  eapply post_mono; [apply transfer_spec; lia| |].
  2:{ intros e s3 [Hf3 Hno].
      eapply post_mono; [apply RawMemory_dtor_spec| |done].
      intros ? s4 (Ho & _ & Hd). split.
      - rewrite Ho. destruct Hf3 as (Ho3 & _). destruct Hf2 as (Ho2 & _).
        congruence.
      - intros Hcond. destruct (Vector.transfer_by_move) eqn:Hby.
        { destruct Hcond as [?|Hn]; [done|]. rewrite Hno in Hn; done. }
        eapply fresh_block_released; [exact Hfresh| |exact Ho|exact Hd].
        eapply frame_trans; [exact Hf2'|]. eapply frame_mono; [|exact Hf3].
        intros q [?|[? _]]; done. }
  intros ? s3 (Hf3 & _ & Ht).
  eapply post_seq; [apply destroy_n_spec; lia| |done].
  intros ? s4 (Hf4 & _ & _). simpl.
  eapply post_seq; [apply set_data_spec| |done].
  intros ? s5 (v5 & Hv5 & Hh5 & Ho5).
  eapply post_mono; [apply RawMemory_dtor_spec| |done].
  intros ? s6 Hrel. fold (released (RawMemory.Make (buffer_ (data_ v)) (capacity_ (data_ v))) s5 s6) in Hrel.
  assert (Hobjs : objs s4 = objs s).
  { destruct Hf4 as (Ho4 & _), Hf3 as (Ho3 & _), Hf2 as (Ho2 & _). congruence. }
  assert (Hcap' : capacity_ nd = ct) by apply Hfresh.
  exists x, (RawMemory.Make (buffer_ nd) (capacity_ nd)). simpl.
  split_and!; [done| | lia | rewrite Hcap'; apply Hct
               | by eapply fresh_block_off | |].
  - destruct Hrel as (-> & _). rewrite Ho5, Hobjs.
    rewrite Hobjs, Hthis in Hv5. by simplify_eq.
  - rewrite decide_True by done. rewrite Hcap'. unfold ct in *.
    case_decide as Hz.
    + rewrite Hz in Hfull. rewrite <- Hfull. by vm_compute.
    + rewrite Z.add_0_l in *. rewrite (wrap_small (wrap _)) in * by apply wrap_range.
      rewrite wrap_double; [lia| |lia]. unfold is_size_t. lia.
  - intros Hown.
    assert (Hapart : blk (buffer_ (data_ v)) ≠ blk (buffer_ nd)).
    { eapply fresh_block_apart; [exact Hfresh|apply Hown|lia]. }
    assert (Hnew : ∀ q, blk q = blk (buffer_ nd) → cell s6 q = cell s4 q).
    { intros q Hq. erewrite released_cell; [|exact Hrel|simpl; congruence].
      by apply cell_heap. }
    specialize (Ht Hapart) as [Hrest Hvals].
    split_and!.
    + assert (Hown1 : owns s1 (Vector.Make nd (size_ v)))
        by (eapply fresh_block_owns; [|exact Hfresh]; lia).
      assert (Ho4 : owns s4 (Vector.Make nd (size_ v))).
      { eapply owns_frame; [exact Hf4|]. eapply owns_frame; [exact Hf3|].
        by eapply owns_frame. }
      unfold owns in *. simpl in *.
      destruct (blk (buffer_ nd)) as [l'|] eqn:Hl'; [|done].
      erewrite released_block; [|exact Hrel|simpl; congruence].
      by rewrite Hh5.
    + rewrite Hnew by done.
      erewrite frame_cell_apart; [|exact Hf4|simpl; congruence].
      rewrite Hrest; [done|ptr_solve|].
      intros [Hb _]. simpl in Hb. congruence.
    + intros i w Hi Hw. rewrite Hnew by done.
      erewrite frame_cell_apart; [|exact Hf4|simpl; congruence].
      destruct (Hvals i Hi) as (w' & Hw1 & Hw2). rewrite Hw2.
      destruct Hf2 as (_ & _ & Hc2). rewrite Hc2 in Hw1.
      2:{ intros Heq. apply (f_equal blk) in Heq. simpl in Heq. congruence. }
      erewrite fresh_block_cell in Hw1; [|exact Hfresh|simpl; congruence].
      congruence.
Qed.

End EmplaceBackBranches.

Section EmplaceBackSpec.
Context {T : Type} `{!ElementType T} `{!Environment T}.
Abbreviation state := (state T Vector.t) (only parsing).
Implicit Types (s : state) (p q : ptr) (v : Vector.t) (this : ref).

Lemma EmplaceBack_spec this args s v :
  objs s !! this = Some v → valid v →
  post (Vector.EmplaceBack this args) s
    (λ p s', emplaced_back this args s v p s') (λ _ s', rolled_back s s').
Proof.
  intros Hthis Hvalid. unfold Vector.EmplaceBack.
  eapply post_seq; [apply get_obj_spec| |done].
  intros v0 s0 [-> Hv0]. rewrite Hthis in Hv0. injection Hv0 as <-.
  unfold RawMemory.Capacity.
  eapply post_seq; [|intros ? s1 H1; cbv beta in H1|intros ? s1 H1; exact H1].
  { case_decide.
    - by apply EmplaceBack_grow.
    - by apply EmplaceBack_in_place. }
  destruct H1 as (x & d & Hx & Ho1 & Hcap & Hoff & Hbranch & Hcont).
  assert (Hthis1 : objs s1 !! this = Some (Vector.Make d (size_ v)))
    by (by rewrite Ho1, lookup_insert_eq).
  destruct Hvalid as (Hsz & Hc & _).
  assert (Hw : wrap (size_ v + 1) = size_ v + 1)
    by (apply wrap_small; unfold is_size_t; lia).
  eapply post_seq; [apply get_obj_spec| |done].
  intros v1 s1' [-> Hv1]. rewrite Hthis1 in Hv1. injection Hv1 as <-.
  eapply post_seq; [apply set_size_spec| |done].
  intros ? s2 (v2 & Hv2 & Hh2 & Ho2). rewrite Hthis1 in Hv2. injection Hv2 as <-.
  simpl in Ho2. rewrite Hw in Ho2.
  assert (Hthis2 : objs s2 !! this = Some (Vector.Make d (size_ v + 1)))
    by (by rewrite Ho2, lookup_insert_eq).
  eapply post_seq; [apply get_obj_spec| |done].
  intros v3 s2' [-> Hv3]. rewrite Hthis2 in Hv3. injection Hv3 as <-.
  eapply post_mono; [apply RawMemory_index_spec| |done].
  intros p s3 [-> ->]. simpl.
  replace (wrap (size_ v + 1 - 1)) with (size_ v)
    by (rewrite wrap_small; unfold is_size_t; lia).
  exists x, d. split_and!; [done| |lia|lia|done|done|done|].
  - by rewrite Ho2, Ho1, insert_insert_eq.
  - intros Hown. destruct (Hcont Hown) as (Hown1 & Hp & Hvals).
    split_and!.
    + by eapply owns_heap.
    + by erewrite cell_heap.
    + intros i w Hi Hw'. erewrite cell_heap by done. by apply Hvals.
Qed.

End EmplaceBackSpec.

(** ** Properties of the state that every computation keeps *)

Section PreservesRules.
Context {Σ : Type} (I : Σ → Prop).

Lemma preserves_ret {A} (a : A) : preserves I (ret a).
Proof. by intros s Hs. Qed.

Lemma preserves_throw {A} e : preserves I (@throw Σ A e).
Proof. by intros s Hs. Qed.

Lemma preserves_crash {A} : preserves I (@crash Σ A).
Proof. by intros s Hs. Qed.

Lemma preserves_bind {A B} (m : M Σ A) (k : A → M Σ B) :
  preserves I m → (∀ a, preserves I (k a)) → preserves I (bind m k).
Proof.
  intros Hm Hk s Hs. eapply post_seq; [by apply Hm| |done].
  intros a s' Hs'. by apply Hk.
Qed.

Lemma preserves_try_catch {A} (m : M Σ A) h :
  preserves I m → (∀ e, preserves I (h e)) → preserves I (try_catch m h).
Proof.
  intros Hm Hh s Hs. apply post_try_catch.
  eapply post_mono; [by apply Hm|done|]. intros e s' Hs'. by apply Hh.
Qed.

Lemma preserves_on_unwind {A} (m : M Σ A) cleanup :
  preserves I m → preserves I cleanup → preserves I (on_unwind m cleanup).
Proof.
  intros Hm Hc. apply preserves_try_catch; [done|]. intros e.
  apply preserves_bind; [done|]. intros _. apply preserves_throw.
Qed.

Lemma preserves_noexcept {A} (m : M Σ A) : preserves I m → preserves I (noexcept m).
Proof.
  intros Hm. apply preserves_try_catch; [done|]. intros _. apply preserves_crash.
Qed.

Lemma preserves_pure {A} (m : M Σ A) :
  (∀ s, post m s (λ _ s', s' = s) (λ _ s', s' = s)) → preserves I m.
Proof. intros Hm s Hs. eapply post_mono; [apply Hm|by intros ? ? ->..]. Qed.

End PreservesRules.

Create HintDb preserves.
#[export] Hint Resolve preserves_ret preserves_throw preserves_crash
  preserves_on_unwind preserves_noexcept : preserves.

(** Steps through a computation built from binds, branches and
    computations known to keep the property. *)
Ltac preserves_step :=
  lazymatch goal with
  | |- preserves _ (bind _ _) => apply preserves_bind; [|intros ?]
  | |- preserves _ (on_unwind _ _) => apply preserves_on_unwind
  | |- preserves _ (noexcept _) => apply preserves_noexcept
  | |- preserves _ (ret _) => apply preserves_ret
  | |- preserves _ (throw _) => apply preserves_throw
  | |- preserves _ crash => apply preserves_crash
  | |- preserves _ (if ?b then _ else _) => destruct b
  | |- preserves _ (match ?x with _ => _ end) => destruct x
  | |- preserves _ _ => solve [eauto 3 with preserves nocore]
  end.

Ltac preserves_auto := repeat preserves_step.

Section HeapBounded.
Context {T : Type} `{!ElementType T} `{!Environment T} {Obj : Type}.
Abbreviation state := (state T Obj) (only parsing).
Implicit Types (s : state) (p q : ptr).

Lemma heap_bounded_frame P s s' : frame P s s' → heap_bounded s → heap_bounded s'.
Proof.
  intros (_ & Hl & _) Hs l b Hb. specialize (Hl l). rewrite Hb in Hl.
  destruct (heap s !! l) as [b'|] eqn:Hb'; [|done]. simplify_eq/=.
  rewrite Hl. by eapply Hs.
Qed.

Lemma heap_bounded_heap s s' : heap s' = heap s → heap_bounded s → heap_bounded s'.
Proof. unfold heap_bounded. by intros ->. Qed.

Lemma in_bounds_lt s p : heap_bounded s → in_bounds s p → 0 <= off p ∧ off p + 1 < SIZE_MOD.
Proof.
  intros Hs Hin. apply in_bounds_iff in Hin as (l & b & _ & Hb & Hr).
  apply Hs in Hb. lia.
Qed.

Lemma preserves_of_frame {A} (m : M state A) :
  (∀ s, post m s (λ _ s', frame (λ _, True) s s') (λ _ s', frame (λ _, True) s s')) →
  preserves (heap_bounded (T:=T) (Obj:=Obj)) m.
Proof.
  intros Hm s Hs. eapply post_mono; [apply Hm|..]; intros ? s' Hf;
    (eapply heap_bounded_frame; [exact Hf|done]).
Qed.

Lemma frame_any P s s' : frame P s s' → frame (λ _, True) s s'.
Proof. apply frame_mono. done. Qed.

Lemma get_obj_bounded r : preserves (heap_bounded (T:=T) (Obj:=Obj)) (get_obj (T:=T) (Obj:=Obj) r).
Proof. apply preserves_pure. intros s. unfold post, get_obj. by destruct (objs s !! r). Qed.

Lemma put_obj_bounded r o : preserves (heap_bounded (T:=T) (Obj:=Obj)) (put_obj (T:=T) (Obj:=Obj) r o).
Proof. intros s Hs. unfold post, put_obj. by destruct (objs s !! r). Qed.

Lemma new_obj_bounded o : preserves (heap_bounded (T:=T) (Obj:=Obj)) (new_obj (T:=T) (Obj:=Obj) o).
Proof. by intros s Hs. Qed.

Lemma delete_obj_bounded r : preserves (heap_bounded (T:=T) (Obj:=Obj)) (delete_obj (T:=T) (Obj:=Obj) r).
Proof. intros s Hs. unfold post, delete_obj. by destruct (objs s !! r). Qed.

Lemma assert_bounded c : preserves (heap_bounded (T:=T) (Obj:=Obj)) (assert (T:=T) (Obj:=Obj) c).
Proof. apply preserves_pure. intros s. unfold post, assert. by destruct NDEBUG, c. Qed.

Lemma load_bounded p : preserves (heap_bounded (T:=T) (Obj:=Obj)) (load (Obj:=Obj) p).
Proof.
  apply preserves_pure. intros s. unfold post, load. by destruct (cell s p) as [[?|]|].
Qed.

Lemma construct_at_bounded p v : preserves (heap_bounded (T:=T) (Obj:=Obj)) (construct_at (Obj:=Obj) p v).
Proof.
  apply preserves_of_frame. intros s.
  eapply post_mono; [apply construct_at_spec| |done].
  intros ? s' (_ & Hf & _). by eapply frame_any.
Qed.

Lemma destroy_at_bounded p : preserves (heap_bounded (T:=T) (Obj:=Obj)) (destroy_at (Obj:=Obj) p).
Proof.
  apply preserves_of_frame. intros s.
  eapply post_mono; [apply destroy_at_spec| |done].
  intros ? s' (_ & Hf & _). by eapply frame_any.
Qed.

Lemma store_bounded p v : preserves (heap_bounded (T:=T) (Obj:=Obj)) (store (Obj:=Obj) p v).
Proof.
  apply preserves_of_frame. intros s.
  eapply post_mono; [apply store_spec| |done].
  intros ? s' (_ & Hf & _). by eapply frame_any.
Qed.

Lemma operator_new_bounded bytes :
  0 <= bytes < SIZE_MOD → preserves (heap_bounded (T:=T) (Obj:=Obj)) (operator_new (Obj:=Obj) bytes).
Proof.
  intros Hb s Hs. unfold post, operator_new.
  destruct (operator_new_fails _ _); [done|]. unfold heap_bounded. simpl.
  intros l b. destruct (decide (l = fresh (dom (heap s)))) as [->|Hne].
  - rewrite lookup_insert_eq. intros [= <-]. rewrite length_replicate.
    pose proof sizeof_pos. rewrite Z2Nat.id by (apply Z.div_pos; lia).
    assert (bytes / sizeof <= bytes); [|lia].
    apply Z.div_le_upper_bound; nia.
  - rewrite lookup_insert_ne by done. apply Hs.
Qed.

Lemma operator_delete_bounded p : preserves (heap_bounded (T:=T) (Obj:=Obj)) (operator_delete (Obj:=Obj) p).
Proof.
  intros s Hs. unfold post, operator_delete.
  destruct (blk p) as [l|]; [|by case_decide].
  destruct (heap s !! l) eqn:Hl; [|done]. case_decide; [|done].
  unfold heap_bounded. simpl. intros l' b'. destruct (decide (l' = l)) as [->|Hne].
  - by rewrite lookup_delete_eq.
  - rewrite lookup_delete_ne by done. apply Hs.
Qed.

End HeapBounded.

#[export] Hint Resolve get_obj_bounded put_obj_bounded new_obj_bounded
  delete_obj_bounded assert_bounded load_bounded construct_at_bounded
  destroy_at_bounded store_bounded operator_delete_bounded : preserves.

Section BoundedOps.
Context {T : Type} `{!ElementType T} `{!Environment T} {Obj : Type}.
Abbreviation state := (state T Obj) (only parsing).
Abbreviation keeps := (preserves (heap_bounded (T:=T) (Obj:=Obj))) (only parsing).
Implicit Types (p q src dst first last : ptr).

Lemma construct_local_bounded args : keeps (construct_local args).
Proof. unfold construct_local. preserves_auto. Qed.
Hint Resolve construct_local_bounded : preserves.

Lemma construct_bounded p args : keeps (construct p args).
Proof. unfold construct. preserves_auto. Qed.

Lemma value_construct_bounded p : keeps (value_construct p).
Proof. unfold value_construct. preserves_auto. Qed.

Lemma copy_construct_bounded src dst : keeps (copy_construct src dst).
Proof. unfold copy_construct. preserves_auto. Qed.

Lemma move_construct_bounded src dst : keeps (move_construct src dst).
Proof. unfold move_construct. preserves_auto. Qed.

Lemma copy_assign_bounded src dst : keeps (copy_assign src dst).
Proof. unfold copy_assign. preserves_auto. Qed.

Lemma move_assign_bounded src dst : keeps (move_assign src dst).
Proof. unfold move_assign. preserves_auto. Qed.

Lemma move_assign_local_bounded tmp p : keeps (move_assign_local tmp p).
Proof. unfold move_assign_local. preserves_auto. Qed.

Hint Resolve construct_bounded value_construct_bounded copy_construct_bounded
  move_construct_bounded copy_assign_bounded move_assign_bounded
  move_assign_local_bounded : preserves.

Lemma destroy_loop_bounded k : ∀ first, keeps (destroy_loop first k).
Proof. induction k; intros first; simpl; preserves_auto. Qed.
Hint Resolve destroy_loop_bounded : preserves.

Lemma destroy_n_bounded first n : keeps (destroy_n first n).
Proof. unfold destroy_n. preserves_auto. Qed.

Lemma range_length_bounded first last : keeps (range_length first last).
Proof. unfold range_length. preserves_auto. Qed.
Hint Resolve destroy_n_bounded range_length_bounded : preserves.

Lemma destroy_bounded first last : keeps (destroy first last).
Proof. unfold destroy. preserves_auto. Qed.

Lemma uninitialized_loop_bounded make first d_first k :
  (∀ src dst, keeps (make src dst)) →
  ∀ cur, keeps (uninitialized_loop make first d_first cur k).
Proof. intros Hmake. induction k; intros cur; simpl; preserves_auto. Qed.

Lemma uninitialized_value_construct_n_bounded first n :
  keeps (uninitialized_value_construct_n first n).
Proof. apply uninitialized_loop_bounded. intros. preserves_auto. Qed.

Lemma uninitialized_copy_n_bounded first n d_first :
  keeps (uninitialized_copy_n first n d_first).
Proof. apply uninitialized_loop_bounded. intros. preserves_auto. Qed.

Lemma uninitialized_move_n_bounded first n d_first :
  keeps (uninitialized_move_n first n d_first).
Proof. apply uninitialized_loop_bounded. intros. preserves_auto. Qed.

Lemma move_loop_bounded k : ∀ first d_first, keeps (move_loop first d_first k).
Proof. induction k; intros; simpl; preserves_auto. Qed.

Lemma move_backward_loop_bounded k :
  ∀ last d_last, keeps (move_backward_loop last d_last k).
Proof. induction k; intros; simpl; preserves_auto. Qed.
Hint Resolve move_loop_bounded move_backward_loop_bounded : preserves.

Lemma std_move_bounded first last d_first : keeps (std_move first last d_first).
Proof. unfold std_move. preserves_auto. Qed.

Lemma std_move_backward_bounded first last d_last :
  keeps (std_move_backward first last d_last).
Proof. unfold std_move_backward. preserves_auto. Qed.

Lemma Allocate_bounded n : keeps (RawMemory.Allocate n).
Proof.
  unfold RawMemory.Allocate. case_decide; [|preserves_auto].
  apply operator_new_bounded, wrap_range.
Qed.
Hint Resolve Allocate_bounded : preserves.

Lemma RawMemory_ctor_bounded n : keeps (RawMemory.ctor n).
Proof. unfold RawMemory.ctor. preserves_auto. Qed.

Lemma RawMemory_dtor_bounded rm : keeps (RawMemory.dtor rm).
Proof. unfold RawMemory.dtor, RawMemory.Deallocate. preserves_auto. Qed.

Lemma RawMemory_plus_bounded rm n : keeps (RawMemory.plus rm n).
Proof. unfold RawMemory.plus. preserves_auto. Qed.

Lemma RawMemory_index_bounded rm n : keeps (RawMemory.index rm n).
Proof. unfold RawMemory.index. preserves_auto. Qed.

Lemma RawMemory_move_ctor_bounded rm : keeps (RawMemory.move_ctor rm).
Proof. unfold RawMemory.move_ctor. preserves_auto. Qed.

End BoundedOps.

#[export] Hint Resolve construct_local_bounded construct_bounded
  value_construct_bounded copy_construct_bounded move_construct_bounded
  copy_assign_bounded move_assign_bounded move_assign_local_bounded
  destroy_loop_bounded destroy_n_bounded range_length_bounded destroy_bounded
  uninitialized_value_construct_n_bounded uninitialized_copy_n_bounded
  uninitialized_move_n_bounded std_move_bounded std_move_backward_bounded
  RawMemory_ctor_bounded RawMemory_dtor_bounded RawMemory_plus_bounded
  RawMemory_index_bounded : preserves.

Section BoundedVector.
Context {T : Type} `{!ElementType T} `{!Environment T}.
Abbreviation vkeeps := (preserves (heap_bounded (T:=T) (Obj:=Vector.t))) (only parsing).

Lemma set_size_bounded this n : vkeeps (Vector.set_size this n).
Proof. unfold Vector.set_size. preserves_auto. Qed.

Lemma set_data_bounded this d : vkeeps (Vector.set_data this d).
Proof. unfold Vector.set_data. preserves_auto. Qed.
Hint Resolve set_size_bounded set_data_bounded : preserves.

Lemma ctor_default_bounded : vkeeps Vector.ctor_default.
Proof. unfold Vector.ctor_default. preserves_auto. Qed.

Lemma ctor_sized_bounded n : vkeeps (Vector.ctor_sized n).
Proof. unfold Vector.ctor_sized. preserves_auto. Qed.

Lemma ctor_copy_bounded other : vkeeps (Vector.ctor_copy other).
Proof. unfold Vector.ctor_copy. preserves_auto. Qed.

Lemma Swap_bounded this other : vkeeps (Vector.Swap this other).
Proof. unfold Vector.Swap, RawMemory.Swap. preserves_auto. Qed.

Lemma ctor_move_bounded other : vkeeps (Vector.ctor_move other).
Proof. unfold Vector.ctor_move, RawMemory.Swap. preserves_auto. Qed.

Lemma begin_bounded this : vkeeps (Vector.begin_ this).
Proof. unfold Vector.begin_. preserves_auto. Qed.

Lemma end_bounded this : vkeeps (Vector.end_ this).
Proof. unfold Vector.end_. preserves_auto. Qed.

Lemma Reserve_bounded this n : vkeeps (Vector.Reserve this n).
Proof. unfold Vector.Reserve, RawMemory.Swap. preserves_auto. Qed.
Hint Resolve Reserve_bounded begin_bounded end_bounded Swap_bounded
  ctor_copy_bounded : preserves.

Lemma Resize_bounded this n : vkeeps (Vector.Resize this n).
Proof. unfold Vector.Resize. preserves_auto. Qed.

Lemma EmplaceBack_bounded this args : vkeeps (Vector.EmplaceBack this args).
Proof. unfold Vector.EmplaceBack, RawMemory.Swap. preserves_auto. Qed.
Hint Resolve EmplaceBack_bounded : preserves.

Lemma PopBack_bounded this : vkeeps (Vector.PopBack this).
Proof. unfold Vector.PopBack. preserves_auto. Qed.

Lemma dtor_bounded this : vkeeps (Vector.dtor this).
Proof. unfold Vector.dtor. preserves_auto. Qed.
Hint Resolve dtor_bounded : preserves.

Lemma assign_loop_bounded d r k : ∀ i, vkeeps (Vector.assign_loop d r i k).
Proof. induction k; intros; simpl; preserves_auto. Qed.
Hint Resolve assign_loop_bounded : preserves.

Lemma copy_assign_vector_bounded this rhs : vkeeps (Vector.copy_assign this rhs).
Proof. unfold Vector.copy_assign. preserves_auto. Qed.

Lemma Emplace_bounded this pos args : vkeeps (Vector.Emplace this pos args).
Proof. unfold Vector.Emplace, RawMemory.Swap. preserves_auto. Qed.

Lemma Erase_bounded this pos : vkeeps (Vector.Erase this pos).
Proof. unfold Vector.Erase. preserves_auto. Qed.

End BoundedVector.

Section VectorInvariant.
Context {T : Type} `{!ElementType T} `{!Environment T}.
Abbreviation state := (state T Vector.t) (only parsing).
Implicit Types (s : state) (p q : ptr) (v : Vector.t) (this : ref).

Lemma objs_valid_insert s s' r v :
  objs_valid s → valid v → objs s' = <[r := v]> (objs s) → objs_valid s'.
Proof.
  intros Hs Hv Ho r' v'. rewrite Ho. destruct (decide (r' = r)) as [->|Hne].
  - rewrite lookup_insert_eq. by intros [= <-].
  - rewrite lookup_insert_ne by done. apply Hs.
Qed.

Lemma objs_valid_same s s' : objs s' = objs s → objs_valid s → objs_valid s'.
Proof. unfold objs_valid. by intros ->. Qed.

Lemma objs_valid_delete s s' r :
  objs_valid s → objs s' = delete r (objs s) → objs_valid s'.
Proof.
  intros Hs Ho r' v'. rewrite Ho. intros Hl.
  apply lookup_delete_Some in Hl as [_ Hl]. by eapply Hs.
Qed.

Lemma Inv_intro {A} (m : M state A) :
  preserves heap_bounded m →
  (∀ s, objs_valid s → heap_bounded s →
        post m s (λ _ s', objs_valid s') (λ _ s', objs_valid s')) →
  preserves Inv m.
Proof.
  intros Hb Hv s [Hs1 Hs2].
  eapply post_mono; [apply post_and; [by apply Hv|by apply Hb]|done..].
Qed.

Lemma valid_default : valid (Vector.Make RawMemory.default 0).
Proof. unfold valid, SIZE_MOD. simpl. lia. Qed.

(** *** [Reserve] *)

Lemma Reserve_spec this n s v :
  objs s !! this = Some v → valid v →
  post (Vector.Reserve this n) s
    (λ _ s', reserved this n s v s') (λ _ s', rolled_back s s').
Proof.
  intros Hthis (Hsz & Hcap & Hoff). unfold Vector.Reserve.
  eapply post_seq; [apply get_obj_spec| |done].
  intros v0 s0 [-> Hv0]. rewrite Hthis in Hv0. injection Hv0 as <-.
  unfold RawMemory.Capacity, RawMemory.GetAddress. case_decide as Hle.
  { apply post_ret. exists (data_ v). split_and!; [|lia|done].
    destruct v. by rewrite insert_id. }
  eapply post_seq; [apply RawMemory_ctor_spec| |by intros ? ? ->].
  intros nd s1 Hfresh. cbv beta in Hfresh.
  assert (Ho1 : objs s1 = objs s) by (by eapply fresh_block_objs).
  apply post_bind, post_on_unwind.
  eapply post_mono; [apply transfer_spec; lia| |].
  2:{ intros e s2 [Hf2 Hno].
      eapply post_mono; [apply RawMemory_dtor_spec| |done].
      intros ? s3 (Ho & _ & Hd). split.
      - destruct Hf2 as (Ho2 & _). congruence.
      - intros Hcond. destruct (Vector.transfer_by_move) eqn:Hby.
        { destruct Hcond as [?|Hn]; [done|]. rewrite Hno in Hn; done. }
        eapply fresh_block_released; [exact Hfresh| |exact Ho|exact Hd].
        eapply frame_mono; [|exact Hf2]. intros q [?|[? _]]; done. }
  intros ? s2 (Hf2 & _ & _).
  eapply post_seq; [apply destroy_n_spec; lia| |done].
  intros ? s3 (Hf3 & _ & _). simpl.
  eapply post_seq; [apply set_data_spec| |done].
  intros ? s4 (v4 & Hv4 & Hh4 & Ho4).
  eapply post_mono; [apply RawMemory_dtor_spec| |done].
  intros ? s5 (Ho5 & _).
  assert (Hobjs : objs s3 = objs s).
  { destruct Hf3 as (Ho3 & _), Hf2 as (Ho2 & _). congruence. }
  rewrite Hobjs, Hthis in Hv4. injection Hv4 as <-.
  exists (RawMemory.Make (buffer_ nd) (capacity_ nd)). simpl. split_and!.
  - by rewrite Ho5, Ho4, Hobjs.
  - destruct Hfresh as [-> _]. lia.
  - by eapply fresh_block_off.
Qed.

Lemma Reserve_valid this n s :
  is_size_t n → objs_valid s →
  post (Vector.Reserve this n) s (λ _ s', objs_valid s') (λ _ s', objs_valid s').
Proof.
  intros Hn Hs. destruct (objs s !! this) as [v|] eqn:Hthis.
  2:{ unfold post, Vector.Reserve, bind, get_obj. by rewrite Hthis. }
  pose proof (Hs _ _ Hthis) as Hv.
  eapply post_mono; [by apply Reserve_spec| |].
  - intros ? s' (d & Ho & Hc & Hoff). eapply objs_valid_insert; [done| |exact Ho].
    destruct Hv as (? & ? & ?). unfold valid, is_size_t in *. simpl. lia.
  - intros e s' [Ho _]. by eapply objs_valid_same.
Qed.

End VectorInvariant.

(** ** Computations that neither allocate nor touch the objects *)

Section Framed.
Context {T : Type} `{!ElementType T} `{!Environment T} {Obj : Type}.
Abbreviation state := (state T Obj) (only parsing).
Implicit Types (s : state) (p q src dst first last : ptr).

Lemma same_shape_refl s : same_shape s s.
Proof. apply frame_refl. Qed.

Lemma same_shape_post {A} (m : M state A) s :
  (∀ s0, preserves (same_shape s0) m) →
  post m s (λ _ s', same_shape s s') (λ _ s', same_shape s s').
Proof. intros Hm. apply Hm, same_shape_refl. Qed.

Lemma shaped_of_frame {A} (m : M state A) s0 :
  (∀ s, post m s (λ _ s', frame (λ _, True) s s') (λ _ s', frame (λ _, True) s s')) →
  preserves (same_shape s0) m.
Proof.
  intros Hm s Hs. eapply post_mono; [apply Hm|..]; intros ? s' Hf;
    (eapply frame_trans; [exact Hs|exact Hf]).
Qed.

Lemma get_obj_shaped s0 r : preserves (same_shape s0) (get_obj (T:=T) (Obj:=Obj) r).
Proof. apply preserves_pure. intros s. unfold post, get_obj. by destruct (objs s !! r). Qed.

Lemma assert_shaped s0 c : preserves (same_shape s0) (assert (T:=T) (Obj:=Obj) c).
Proof. apply preserves_pure. intros s. unfold post, assert. by destruct NDEBUG, c. Qed.

Lemma load_shaped s0 p : preserves (same_shape s0) (load (Obj:=Obj) p).
Proof.
  apply preserves_pure. intros s. unfold post, load. by destruct (cell s p) as [[?|]|].
Qed.

Lemma construct_at_shaped s0 p v : preserves (same_shape s0) (construct_at (Obj:=Obj) p v).
Proof.
  apply shaped_of_frame. intros s.
  eapply post_mono; [apply construct_at_spec| |done].
  intros ? s' (_ & Hf & _). by eapply frame_any.
Qed.

Lemma destroy_at_shaped s0 p : preserves (same_shape s0) (destroy_at (Obj:=Obj) p).
Proof.
  apply shaped_of_frame. intros s.
  eapply post_mono; [apply destroy_at_spec| |done].
  intros ? s' (_ & Hf & _). by eapply frame_any.
Qed.

Lemma store_shaped s0 p v : preserves (same_shape s0) (store (Obj:=Obj) p v).
Proof.
  apply shaped_of_frame. intros s.
  eapply post_mono; [apply store_spec| |done].
  intros ? s' (_ & Hf & _). by eapply frame_any.
Qed.

Hint Resolve get_obj_shaped assert_shaped load_shaped construct_at_shaped
  destroy_at_shaped store_shaped : preserves.

Lemma construct_local_shaped s0 args : preserves (same_shape s0) (construct_local args).
Proof. unfold construct_local. preserves_auto. Qed.
Hint Resolve construct_local_shaped : preserves.

Lemma construct_shaped s0 p args : preserves (same_shape s0) (construct p args).
Proof. unfold construct. preserves_auto. Qed.

Lemma value_construct_shaped s0 p : preserves (same_shape s0) (value_construct p).
Proof. unfold value_construct. preserves_auto. Qed.

Lemma copy_construct_shaped s0 src dst : preserves (same_shape s0) (copy_construct src dst).
Proof. unfold copy_construct. preserves_auto. Qed.

Lemma move_construct_shaped s0 src dst : preserves (same_shape s0) (move_construct src dst).
Proof. unfold move_construct. preserves_auto. Qed.

Lemma copy_assign_shaped s0 src dst : preserves (same_shape s0) (copy_assign src dst).
Proof. unfold copy_assign. preserves_auto. Qed.

Lemma move_assign_shaped s0 src dst : preserves (same_shape s0) (move_assign src dst).
Proof. unfold move_assign. preserves_auto. Qed.

Lemma move_assign_local_shaped s0 tmp p :
  preserves (same_shape s0) (move_assign_local tmp p).
Proof. unfold move_assign_local. preserves_auto. Qed.

Hint Resolve construct_shaped value_construct_shaped copy_construct_shaped
  move_construct_shaped copy_assign_shaped move_assign_shaped
  move_assign_local_shaped : preserves.

Lemma destroy_loop_shaped s0 k : ∀ first, preserves (same_shape s0) (destroy_loop first k).
Proof. induction k; intros first; simpl; preserves_auto. Qed.
Hint Resolve destroy_loop_shaped : preserves.

Lemma destroy_n_shaped s0 first n : preserves (same_shape s0) (destroy_n first n).
Proof. unfold destroy_n. preserves_auto. Qed.

Lemma range_length_shaped s0 first last :
  preserves (same_shape s0) (range_length first last).
Proof. unfold range_length. preserves_auto. Qed.
Hint Resolve destroy_n_shaped range_length_shaped : preserves.

Lemma destroy_shaped s0 first last : preserves (same_shape s0) (destroy first last).
Proof. unfold destroy. preserves_auto. Qed.

Lemma uninitialized_loop_shaped s0 make first d_first k :
  (∀ src dst, preserves (same_shape s0) (make src dst)) →
  ∀ cur, preserves (same_shape s0) (uninitialized_loop make first d_first cur k).
Proof. intros Hmake. induction k; intros cur; simpl; preserves_auto. Qed.

Lemma uninitialized_value_construct_n_shaped s0 first n :
  preserves (same_shape s0) (uninitialized_value_construct_n first n).
Proof. apply uninitialized_loop_shaped. intros. preserves_auto. Qed.

Lemma uninitialized_copy_n_shaped s0 first n d_first :
  preserves (same_shape s0) (uninitialized_copy_n first n d_first).
Proof. apply uninitialized_loop_shaped. intros. preserves_auto. Qed.

Lemma uninitialized_move_n_shaped s0 first n d_first :
  preserves (same_shape s0) (uninitialized_move_n first n d_first).
Proof. apply uninitialized_loop_shaped. intros. preserves_auto. Qed.

Lemma move_loop_shaped s0 k :
  ∀ first d_first, preserves (same_shape s0) (move_loop first d_first k).
Proof. induction k; intros; simpl; preserves_auto. Qed.

Lemma move_backward_loop_shaped s0 k :
  ∀ last d_last, preserves (same_shape s0) (move_backward_loop last d_last k).
Proof. induction k; intros; simpl; preserves_auto. Qed.
Hint Resolve move_loop_shaped move_backward_loop_shaped : preserves.

Lemma std_move_shaped s0 first last d_first :
  preserves (same_shape s0) (std_move first last d_first).
Proof. unfold std_move. preserves_auto. Qed.

Lemma std_move_backward_shaped s0 first last d_last :
  preserves (same_shape s0) (std_move_backward first last d_last).
Proof. unfold std_move_backward. preserves_auto. Qed.

Lemma RawMemory_plus_shaped s0 rm n : preserves (same_shape s0) (RawMemory.plus rm n).
Proof. unfold RawMemory.plus. preserves_auto. Qed.

Lemma RawMemory_index_shaped s0 rm n : preserves (same_shape s0) (RawMemory.index rm n).
Proof. unfold RawMemory.index. preserves_auto. Qed.

End Framed.

#[export] Hint Resolve get_obj_shaped assert_shaped load_shaped
  construct_at_shaped destroy_at_shaped store_shaped construct_local_shaped
  construct_shaped value_construct_shaped copy_construct_shaped
  move_construct_shaped copy_assign_shaped move_assign_shaped
  move_assign_local_shaped destroy_loop_shaped destroy_n_shaped
  range_length_shaped destroy_shaped uninitialized_value_construct_n_shaped
  uninitialized_copy_n_shaped uninitialized_move_n_shaped std_move_shaped
  std_move_backward_shaped RawMemory_plus_shaped RawMemory_index_shaped
  : preserves.

Section FramedVector.
Context {T : Type} `{!ElementType T} `{!Environment T}.

Lemma assign_loop_shaped (s0 : state T Vector.t) d r k :
  ∀ i, preserves (same_shape s0) (Vector.assign_loop d r i k).
Proof. induction k; intros; simpl; preserves_auto. Qed.

Lemma end_shaped (s0 : state T Vector.t) this :
  preserves (same_shape s0) (Vector.end_ this).
Proof. unfold Vector.end_. preserves_auto. Qed.

Lemma begin_shaped (s0 : state T Vector.t) this :
  preserves (same_shape s0) (Vector.begin_ this).
Proof. unfold Vector.begin_. preserves_auto. Qed.

End FramedVector.

#[export] Hint Resolve assign_loop_shaped end_shaped begin_shaped : preserves.

Ltac map_lookups :=
  repeat first [ rewrite lookup_insert_eq
               | rewrite lookup_insert_ne by congruence
               | rewrite lookup_delete_eq
               | rewrite lookup_delete_ne by congruence ].

Section VectorOps.
Context {T : Type} `{!ElementType T} `{!Environment T}.
Abbreviation state := (state T Vector.t) (only parsing).
Implicit Types (s : state) (p q : ptr) (v : Vector.t) (this other rhs : ref).

Lemma post_get_obj {A} r (k : Vector.t → M state A) s Q E :
  (∀ o, objs s !! r = Some o → post (k o) s Q E) →
  post (bind (get_obj r) k) s Q E.
Proof.
  intros Hk. unfold post, bind, get_obj.
  destruct (objs s !! r) as [o|] eqn:Ho; [|done]. by apply Hk.
Qed.

Lemma post_shaped {A B} (m : M state A) (k : A → M state B) s Q E :
  (∀ s0, preserves (same_shape s0) m) →
  (∀ a s', same_shape s s' → post (k a) s' Q E) →
  (∀ e s', same_shape s s' → E e s') →
  post (bind m k) s Q E.
Proof.
  intros Hm Hk HE. eapply post_seq; [by apply same_shape_post|done..].
Qed.

Lemma same_shape_objs s s' : same_shape s s' → objs s' = objs s.
Proof. by intros (? & _). Qed.

Lemma new_obj_spec (o : Vector.t) s :
  post (new_obj o) s
    (λ r s', objs s !! r = None ∧ heap s' = heap s ∧ objs s' = <[r := o]> (objs s))
    (λ _ _, False).
Proof.
  unfold post, new_obj. simpl. split_and!; [|done..].
  apply not_elem_of_dom, is_fresh.
Qed.

(** *** [Swap] and the move constructor *)

Lemma Swap_spec this other s a b :
  objs s !! this = Some a → objs s !! other = Some b →
  post (Vector.Swap this other) s
    (λ _ s', heap s' = heap s ∧ objs s' = <[other := a]> (<[this := b]> (objs s)))
    (λ _ _, False).
Proof.
  intros Ha Hb. unfold Vector.Swap.
  apply post_get_obj. intros a0 Ha0. apply post_get_obj. intros b0 Hb0.
  simplify_eq.
  eapply post_seq; [apply set_size_spec| |done].
  intros ? s1 (a1 & Ha1 & Hh1 & Ho1). simplify_eq.
  eapply post_seq; [apply set_size_spec| |done].
  intros ? s2 (b2 & Hb2 & Hh2 & Ho2).
  apply post_get_obj. intros a3 Ha3. apply post_get_obj. intros b3 Hb3.
  unfold RawMemory.Swap. simpl.
  eapply post_seq; [apply set_data_spec| |done].
  intros ? s3 (a4 & Ha4 & Hh4 & Ho4).
  eapply post_mono; [apply set_data_spec| |done].
  intros ? s4 (b5 & Hb5 & Hh5 & Ho5).
  split; [congruence|].
  rewrite Ho5, Ho4, Ho2, Ho1.
  destruct (decide (this = other)) as [Heq|Hne].
  - subst other. rewrite Ho1, lookup_insert_eq in Hb2.
    rewrite Ho2, lookup_insert_eq in Ha3, Hb3, Ha4.
    rewrite Ho4, lookup_insert_eq in Hb5.
    injection Hb2 as <-. injection Ha3 as <-. injection Hb3 as <-.
    injection Ha4 as <-. injection Hb5 as <-. simpl.
    rewrite !insert_insert_eq. rewrite Hb in Ha. injection Ha as ->.
    by destruct a as [[] ?].
  - rewrite Ho1, lookup_insert_ne in Hb2 by done.
    rewrite Ho2, lookup_insert_eq in Hb3.
    rewrite Ho2, lookup_insert_ne, Ho1, lookup_insert_eq in Ha3, Ha4 by done.
    rewrite Ho4, lookup_insert_ne, Ho2, lookup_insert_eq in Hb5 by done.
    rewrite Hb in Hb2. injection Hb2 as <-. injection Ha3 as <-.
    injection Hb3 as <-. injection Ha4 as <-. injection Hb5 as <-.
    destruct a as [[] sa], b as [[] sb]. simpl.
    apply map_eq. intros r.
    destruct (decide (r = other)) as [->|?]; [by map_lookups|].
    destruct (decide (r = this)) as [->|?]; by map_lookups.
Qed.

(** The body of the move constructor is that of [Swap]. *)
Lemma ctor_move_unfold other s :
  Vector.ctor_move other s =
  (do this <- new_obj (Vector.Make RawMemory.default 0);
   run Vector.Swap this other;
   ret this) s.
Proof.
  unfold Vector.ctor_move, Vector.Swap, RawMemory.Swap, bind, new_obj. simpl.
  repeat lazymatch goal with
         | |- match ?x with _ => _ end = _ => destruct x; simpl; try reflexivity
         end.
Qed.

Lemma ctor_move_spec other s o :
  objs s !! other = Some o →
  post (Vector.ctor_move other) s
    (λ this s', objs s !! this = None ∧ heap s' = heap s ∧
                objs s' = <[other := Vector.Make RawMemory.default 0]>
                            (<[this := o]> (objs s)))
    (λ _ _, False).
Proof.
  intros Ho. unfold post. rewrite ctor_move_unfold.
  change (post (do this <- new_obj (Vector.Make RawMemory.default 0);
                run Vector.Swap this other; ret this) s
            (λ this s', objs s !! this = None ∧ heap s' = heap s ∧
                objs s' = <[other := Vector.Make RawMemory.default 0]>
                            (<[this := o]> (objs s)))
            (λ _ _, False)).
  eapply post_seq; [apply new_obj_spec| |done].
  intros this s0 (Hfresh & Hh0 & Ho0).
  assert (Hne : this ≠ other) by congruence.
  eapply post_seq; [apply (Swap_spec this other s0 (Vector.Make RawMemory.default 0) o)| |done].
  - by rewrite Ho0, lookup_insert_eq.
  - by rewrite Ho0, lookup_insert_ne.
  - intros ? s1 [Hh1 Ho1]. apply post_ret. split_and!; [done|congruence|].
    rewrite Ho1, Ho0. by rewrite insert_insert_eq.
Qed.

End VectorOps.

Section VectorValid.
Context {T : Type} `{!ElementType T} `{!Environment T}.
Abbreviation state := (state T Vector.t) (only parsing).
Implicit Types (s : state) (p q : ptr) (v : Vector.t) (this other rhs : ref).

Abbreviation keeps_valid m :=
  (∀ s, objs_valid s → heap_bounded s →
        post m s (λ _ s', objs_valid s') (λ _ s', objs_valid s')) (only parsing).

Lemma objs_valid_insert2 s s' r1 v1 r2 v2 :
  objs_valid s → valid v1 → valid v2 →
  objs s' = <[r2 := v2]> (<[r1 := v1]> (objs s)) → objs_valid s'.
Proof.
  intros Hs Hv1 Hv2 Ho r v. rewrite Ho.
  destruct (decide (r = r2)) as [->|?]; [map_lookups; by intros [= <-]|].
  destruct (decide (r = r1)) as [->|?]; [map_lookups; by intros [= <-]|].
  map_lookups. apply Hs.
Qed.

(** *** Constructors and destructor *)

Lemma ctor_default_valid : keeps_valid Vector.ctor_default.
Proof.
  intros s Hs _. eapply post_mono; [apply new_obj_spec| |done].
  intros r s' (_ & _ & Ho). eapply objs_valid_insert; [done|apply valid_default|done].
Qed.

(** A constructor that allocates [n] slots, fills them and makes the
    object of them. *)
Lemma construct_vector_spec n (fill : RawMemory.t → M state unit) s :
  is_size_t n →
  (∀ d s0, preserves (same_shape s0) (fill d)) →
  post (do data <- RawMemory.ctor n;
        run on_unwind (fill data) (RawMemory.dtor data);
        new_obj (Vector.Make data n)) s
    (λ r s', objs s !! r = None ∧
             ∃ d, capacity_ d = n ∧ off (buffer_ d) = 0 ∧
                  objs s' = <[r := Vector.Make d n]> (objs s))
    (λ _ s', objs s' = objs s).
Proof.
  intros Hn Hfill.
  eapply post_seq; [apply RawMemory_ctor_spec| |by intros ? ? ->].
  intros d s1 Hfresh. cbv beta in Hfresh.
  assert (Ho1 : objs s1 = objs s) by (by eapply fresh_block_objs).
  apply post_bind, post_on_unwind.
  eapply post_mono; [by apply same_shape_post| |].
  - intros ? s2 Hsh. apply same_shape_objs in Hsh.
    eapply post_mono; [apply new_obj_spec| |done].
    intros r s3 (Hr & _ & Ho3). rewrite Hsh, Ho1 in Hr, Ho3. split; [done|].
    exists d. split_and!; [apply Hfresh|by eapply fresh_block_off|done].
  - intros e s2 Hsh. apply same_shape_objs in Hsh.
    eapply post_mono; [apply RawMemory_dtor_spec| |done].
    intros ? s3 (Ho3 & _). congruence.
Qed.

Lemma ctor_sized_spec n s :
  is_size_t n →
  post (Vector.ctor_sized n) s
    (λ r s', objs s !! r = None ∧
             ∃ d, capacity_ d = n ∧ off (buffer_ d) = 0 ∧
                  objs s' = <[r := Vector.Make d n]> (objs s))
    (λ _ s', objs s' = objs s).
Proof.
  intros Hn. unfold Vector.ctor_sized.
  apply (construct_vector_spec n
           (λ data, uninitialized_value_construct_n (RawMemory.GetAddress data) n));
    [done|]. intros. preserves_auto.
Qed.

Lemma ctor_copy_spec other s o :
  objs s !! other = Some o → is_size_t (size_ o) →
  post (Vector.ctor_copy other) s
    (λ r s', objs s !! r = None ∧
             ∃ d, capacity_ d = size_ o ∧ off (buffer_ d) = 0 ∧
                  objs s' = <[r := Vector.Make d (size_ o)]> (objs s))
    (λ _ s', objs s' = objs s).
Proof.
  intros Ho Hn. unfold Vector.ctor_copy.
  apply post_get_obj. intros o' Ho'. rewrite Ho in Ho'. injection Ho' as <-.
  apply (construct_vector_spec (size_ o)
           (λ data, if Vector.transfer_by_move
                    then uninitialized_copy_n (RawMemory.GetAddress (data_ o)) (size_ o)
                                              (RawMemory.GetAddress data)
                    else uninitialized_copy_n (RawMemory.GetAddress (data_ o)) (size_ o)
                                              (RawMemory.GetAddress data)));
    [done|]. intros. preserves_auto.
Qed.

Lemma valid_exact d n :
  is_size_t n → capacity_ d = n → off (buffer_ d) = 0 → valid (Vector.Make d n).
Proof. unfold valid, is_size_t. simpl. lia. Qed.

Lemma valid_size_t v : valid v → is_size_t (size_ v).
Proof. unfold valid, is_size_t. lia. Qed.

Lemma ctor_sized_valid n : is_size_t n → keeps_valid (Vector.ctor_sized n).
Proof.
  intros Hn s Hs _. eapply post_mono; [by apply ctor_sized_spec| |].
  - intros r s' (_ & d & Hc & Hoff & Ho).
    eapply objs_valid_insert; [done|by apply valid_exact|done].
  - intros e s' Ho; cbv beta in Ho. by eapply objs_valid_same.
Qed.

Lemma ctor_copy_valid other : keeps_valid (Vector.ctor_copy other).
Proof.
  intros s Hs _. destruct (objs s !! other) as [o|] eqn:Ho.
  2:{ unfold post, Vector.ctor_copy, bind, get_obj. by rewrite Ho. }
  pose proof (valid_size_t _ (Hs _ _ Ho)).
  eapply post_mono; [by apply ctor_copy_spec| |].
  - intros r s' (_ & d & Hc & Hoff & Ho').
    eapply objs_valid_insert; [done|by apply valid_exact|done].
  - intros e s' Ho'; cbv beta in Ho'. by eapply objs_valid_same.
Qed.

Lemma Swap_valid this other : keeps_valid (Vector.Swap this other).
Proof.
  intros s Hs _. destruct (objs s !! this) as [a|] eqn:Ha.
  2:{ unfold post, Vector.Swap, bind, get_obj. by rewrite Ha. }
  destruct (objs s !! other) as [b|] eqn:Hb.
  2:{ unfold post, Vector.Swap, bind, get_obj. by rewrite Ha, Hb. }
  eapply post_mono; [by apply Swap_spec| |done].
  intros ? s' [_ Ho].
  eapply objs_valid_insert2; [done| | |exact Ho]; by eapply Hs.
Qed.

Lemma ctor_move_valid other : keeps_valid (Vector.ctor_move other).
Proof.
  intros s Hs Hb. unfold post. rewrite ctor_move_unfold.
  change (post (do this <- new_obj (Vector.Make RawMemory.default 0);
                run Vector.Swap this other; ret this) s
            (λ _ s', objs_valid s') (λ _ s', objs_valid s')).
  eapply post_seq; [apply new_obj_spec| |done].
  intros this s0 (_ & Hh0 & Ho0).
  assert (Hs0 : objs_valid s0)
    by (eapply objs_valid_insert; [done|apply valid_default|done]).
  eapply post_seq; [apply Swap_valid; [done|]| |done].
  - by eapply heap_bounded_heap.
  - intros ? s1 Hs1. by apply post_ret.
Qed.

Lemma destroy_frame first last s :
  post (destroy first last) s (λ _ s', same_shape s s') (λ _ _, False).
Proof.
  unfold destroy, range_length. destruct (ptr_diff last first); [|done].
  case_decide; [|done]. apply post_bind, post_ret.
  eapply post_mono; [apply destroy_loop_frame| |done].
  intros ? s' Hf. exact (frame_any _ _ _ Hf).
Qed.

Lemma dtor_spec this s v :
  objs s !! this = Some v →
  post (Vector.dtor this) s (λ _ s', objs s' = delete this (objs s)) (λ _ _, False).
Proof.
  intros Hv. unfold Vector.dtor.
  apply post_get_obj. intros v' Hv'.
  eapply post_seq; [apply destroy_frame| |done].
  intros ? s1 Hs1. apply same_shape_objs in Hs1.
  eapply post_seq; [apply RawMemory_dtor_spec| |done].
  intros ? s2 (Ho2 & _).
  unfold post, delete_obj. destruct (objs s2 !! this); [|done]. simpl. congruence.
Qed.

Lemma dtor_valid this : keeps_valid (Vector.dtor this).
Proof.
  intros s Hs _. destruct (objs s !! this) as [v|] eqn:Hv.
  2:{ unfold post, Vector.dtor, bind, get_obj. by rewrite Hv. }
  eapply post_mono; [by eapply dtor_spec| |done].
  intros ? s' Ho; cbv beta in Ho. by eapply objs_valid_delete.
Qed.

(** *** [Resize], [PushBack], [PopBack] *)

Lemma Resize_valid this n : is_size_t n → keeps_valid (Vector.Resize this n).
Proof.
  intros Hn s Hs _. unfold Vector.Resize.
  apply post_get_obj. intros v Hv. pose proof (Hs _ _ Hv) as Hvalid.
  eapply post_seq
    with (Q1 := λ _ s1, objs_valid s1 ∧
                ∃ v1, objs s1 !! this = Some v1 ∧ n <= capacity_ (data_ v1))
         (E1 := λ _ s1, objs_valid s1).
  - case_decide as Hgt.
    + eapply post_seq; [by apply Reserve_spec| |].
      2:{ intros e s1 [Ho _]. by eapply objs_valid_same. }
      intros ? s1 (d & Ho1 & Hc & Hoff).
      assert (Hv1 : valid (Vector.Make d (size_ v))).
      { destruct Hvalid as (? & ? & ?). unfold valid, is_size_t in *. simpl. lia. }
      assert (Hs1 : objs_valid s1) by (by eapply objs_valid_insert).
      apply post_get_obj. intros v1 Hv1'.
      rewrite Ho1, lookup_insert_eq in Hv1'. injection Hv1' as <-.
      eapply post_mono; [apply same_shape_post; intros; preserves_auto|..].
      * intros ? s2 Hsh. apply same_shape_objs in Hsh. split.
        -- by eapply objs_valid_same.
        -- exists (Vector.Make d (size_ v)). rewrite Hsh, Ho1, lookup_insert_eq.
           split; [done|]. simpl. lia.
      * intros e s2 Hsh. apply same_shape_objs in Hsh. by eapply objs_valid_same.
    + apply post_ret. split; [done|]. exists v. split; [done|].
      destruct Hvalid as (? & ? & ?). lia.
  - intros ? s1 (Hs1 & v1 & Hv1 & Hle). cbv beta.
    apply post_get_obj. intros v1' Hv1'. rewrite Hv1 in Hv1'. injection Hv1' as <-.
    apply post_shaped; [intros; preserves_auto| |].
    + intros ? s2 Hsh. apply same_shape_objs in Hsh.
      eapply post_mono; [apply set_size_spec| |done].
      intros ? s3 (v3 & Hv3 & _ & Ho3). rewrite Hsh, Hv1 in Hv3. injection Hv3 as <-.
      eapply objs_valid_insert; [by eapply objs_valid_same| |exact Ho3].
      pose proof (Hs1 _ _ Hv1) as (? & ? & ?).
      unfold valid, is_size_t in *. simpl. lia.
    + intros e s2 Hsh. apply same_shape_objs in Hsh. by eapply objs_valid_same.
  - done.
Qed.

Lemma EmplaceBack_valid this args : keeps_valid (Vector.EmplaceBack this args).
Proof.
  intros s Hs _. destruct (objs s !! this) as [v|] eqn:Hv.
  2:{ unfold post, Vector.EmplaceBack, bind, get_obj. by rewrite Hv. }
  eapply post_mono; [apply EmplaceBack_spec; [done|by eapply Hs]| |].
  - intros p s' (x & d & _ & Ho & Hc & Hoff & _).
    eapply objs_valid_insert; [done| |exact Ho].
    pose proof (Hs _ _ Hv) as (? & ? & ?). unfold valid. simpl. lia.
  - intros e s' [Ho _]. by eapply objs_valid_same.
Qed.

Lemma PopBack_valid this : keeps_valid (Vector.PopBack this).
Proof.
  intros s Hs _. unfold Vector.PopBack.
  apply post_get_obj. intros v Hv. pose proof (Hs _ _ Hv) as (Hsz & Hcap & Hoff).
  eapply post_seq; [apply destroy_n_spec; lia| |done].
  intros ? s1 (Hf & Hlive & _). destruct (Hlive 0) as [w Hw]; [lia|].
  assert (Hin : in_bounds s (RawMemory.GetAddress (data_ v) +ₚ size_ v +ₚ -1 +ₚ 0))
    by (by eexists).
  apply in_bounds_iff in Hin as (l & b & _ & _ & Hr). simpl in Hr.
  unfold RawMemory.GetAddress in Hr. rewrite Hoff in Hr.
  eapply post_mono; [apply set_size_spec| |done].
  intros ? s2 (v2 & Hv2 & _ & Ho2). destruct Hf as (Ho1 & _).
  rewrite Ho1, Hv in Hv2. injection Hv2 as <-.
  eapply objs_valid_insert; [by eapply objs_valid_same| |exact Ho2].
  rewrite wrap_small by (unfold is_size_t; lia). unfold valid. simpl. lia.
Qed.

End VectorValid.

Section EraseAndAssignValid.
Context {T : Type} `{!ElementType T} `{!Environment T}.
Abbreviation state := (state T Vector.t) (only parsing).
Implicit Types (s : state) (p q : ptr) (v : Vector.t) (this other rhs : ref).

Abbreviation keeps_valid m :=
  (∀ s, objs_valid s → heap_bounded s →
        post m s (λ _ s', objs_valid s') (λ _ s', objs_valid s')) (only parsing).

Lemma begin_spec this s :
  post (Vector.begin_ this) s
    (λ p s', s' = s ∧ ∃ v, objs s !! this = Some v ∧ p = buffer_ (data_ v))
    (λ _ _, False).
Proof.
  unfold Vector.begin_. apply post_get_obj. intros v Hv. apply post_ret. eauto.
Qed.

Lemma end_spec this s :
  post (Vector.end_ this) s
    (λ p s', s' = s ∧ ∃ v, objs s !! this = Some v ∧ p = buffer_ (data_ v) +ₚ size_ v)
    (λ _ _, False).
Proof.
  unfold Vector.end_. apply post_get_obj. intros v Hv.
  eapply post_mono; [apply RawMemory_plus_spec| |done].
  intros p s' [-> ->]. eauto.
Qed.

(** A step that keeps the shape of the state, in a computation so far
    with the objects and the block sizes of [s0]. *)
Lemma post_keep {A B} (m : M state A) (k : A → M state B) s0 s Q E :
  same_shape s0 s →
  (∀ s1, preserves (same_shape s1) m) →
  (∀ a s', same_shape s0 s' → post (k a) s' Q E) →
  (∀ e s', same_shape s0 s' → E e s') →
  post (bind m k) s Q E.
Proof.
  intros Hs Hm Hk HE. eapply post_seq; [by apply Hm|done..].
Qed.

Lemma same_shape_bounded s s' : same_shape s s' → heap_bounded s → heap_bounded s'.
Proof. apply heap_bounded_frame. Qed.

Lemma same_shape_valid s s' : same_shape s s' → objs_valid s → objs_valid s'.
Proof. intros Hsh. apply objs_valid_same. by apply same_shape_objs. Qed.

Lemma wrap_pred_bound x : is_size_t x → wrap (x - 1) + 1 < SIZE_MOD → 1 <= x.
Proof.
  unfold is_size_t, wrap, SIZE_MOD. intros Hx Hw.
  destruct (decide (x = 0)) as [->|]; [|lia]. by vm_compute in Hw.
Qed.

Lemma Erase_valid this pos : keeps_valid (Vector.Erase this pos).
Proof.
  intros s Hs Hb. unfold Vector.Erase.
  apply (post_keep _ _ s); [apply same_shape_refl|intros; preserves_auto| |].
  2:{ intros e s' Hsh. by eapply same_shape_valid. }
  intros e s1 Hsh1.
  apply (post_keep _ _ s); [done|intros; preserves_auto| |].
  2:{ intros e' s' Hsh. by eapply same_shape_valid. }
  intros ? s2 Hsh2. pose proof (same_shape_objs _ _ Hsh2) as Ho2.
  apply post_get_obj. intros v Hv.
  assert (Hvalid : valid v) by (rewrite Ho2 in Hv; by eapply Hs).
  destruct Hvalid as (Hsz & Hcap & Hoff).
  eapply post_seq; [apply set_size_spec| |done].
  intros ? s3 (v3 & Hv3 & Hh3 & Ho3). rewrite Hv in Hv3. injection Hv3 as <-.
  apply post_get_obj. intros v4 Hv4.
  rewrite Ho3, lookup_insert_eq in Hv4. injection Hv4 as <-. simpl.
  eapply post_seq; [apply destroy_n_spec; lia| |done].
  intros ? s4 (Hf & Hlive & _). apply post_ret.
  destruct (Hlive 0) as [w Hw]; [lia|].
  assert (Hin : in_bounds s3 (RawMemory.GetAddress (data_ v) +ₚ wrap (size_ v - 1) +ₚ 0))
    by (by eexists).
  apply in_bounds_lt in Hin as [_ Hlt].
  2:{ eapply heap_bounded_heap; [exact Hh3|]. by eapply same_shape_bounded. }
  simpl in Hlt. unfold RawMemory.GetAddress in Hlt. rewrite Hoff in Hlt.
  assert (1 <= size_ v).
  { apply wrap_pred_bound; [unfold is_size_t; lia|lia]. }
  destruct Hf as (Ho4 & _).
  eapply objs_valid_insert; [by eapply (same_shape_valid s s2)| |by rewrite Ho4].
  rewrite wrap_small by (unfold is_size_t; lia). unfold valid. simpl. lia.
Qed.

(** *** Copy assignment *)

Lemma copy_assign_valid this rhs : keeps_valid (Vector.copy_assign this rhs).
Proof.
  intros s Hs Hb. unfold Vector.copy_assign.
  eapply post_seq
    with (Q1 := λ _ s1, objs_valid s1 ∧
                ∀ v1 r1, objs s1 !! this = Some v1 → objs s1 !! rhs = Some r1 →
                         size_ r1 <= capacity_ (data_ v1))
         (E1 := λ _ s1, objs_valid s1).
  - case_decide as Hne.
    2:{ apply post_ret. split; [done|]. subst rhs.
        intros v1 r1 Hv1 Hr1. rewrite Hv1 in Hr1. injection Hr1 as <-.
        apply Hs in Hv1 as (? & ? & ?). lia. }
    apply post_get_obj. intros v Hv. apply post_get_obj. intros r Hr.
    pose proof (Hs _ _ Hv) as Hvv. pose proof (Hs _ _ Hr) as Hvr.
    unfold RawMemory.Capacity. case_decide as Hgt.
    + eapply post_seq; [apply (ctor_copy_spec rhs s r); [done|by apply valid_size_t]| |].
      2:{ intros e s1 Ho1. cbv beta in Ho1. by eapply objs_valid_same. }
      intros temp s1 (Hfresh & d & Hc & Hoff & Ho1).
      assert (temp ≠ this) by congruence. assert (temp ≠ rhs) by congruence.
      eapply post_seq;
        [apply (Swap_spec this temp s1 v (Vector.Make d (size_ r)))| |done].
      { rewrite Ho1. by map_lookups. }
      { rewrite Ho1. by map_lookups. }
      intros ? s2 [Hh2 Ho2].
      eapply post_mono; [apply (dtor_spec temp s2 v)| |done].
      { rewrite Ho2. by map_lookups. }
      intros ? s3 Ho3. cbv beta in Ho3.
      assert (Hlook : ∀ r', objs s3 !! r' =
                if decide (r' = temp) then None
                else if decide (r' = this) then Some (Vector.Make d (size_ r))
                else objs s !! r').
      { intros r'. rewrite Ho3, Ho2, Ho1. repeat case_decide; subst; by map_lookups. }
      split.
      * intros r' v'. rewrite Hlook. repeat case_decide; [done| |apply Hs].
        intros [= <-]. apply valid_exact; [by apply valid_size_t|done..].
      * intros v1 r1. rewrite !Hlook.
        rewrite (decide_False (P := this = temp)) by done.
        rewrite decide_True by done.
        rewrite (decide_False (P := rhs = temp)) by done.
        rewrite (decide_False (P := rhs = this)) by done.
        rewrite Hr. intros [= <-] [= <-]. simpl. lia.
    + assert (Hend : ∀ s', same_shape s s' →
                objs_valid s' ∧
                ∀ v1 r1, objs s' !! this = Some v1 → objs s' !! rhs = Some r1 →
                         size_ r1 <= capacity_ (data_ v1)).
      { intros s' Hsh. split; [by eapply same_shape_valid|].
        intros v1 r1. rewrite (same_shape_objs _ _ Hsh), Hv, Hr.
        intros [= <-] [= <-]. lia. }
      case_decide.
      * eapply post_mono; [apply same_shape_post; intros; preserves_auto|..].
        -- intros ? s' Hsh. exact (Hend _ Hsh).
        -- intros e s' Hsh. exact (same_shape_valid _ _ Hsh Hs).
      * eapply post_mono; [apply same_shape_post; intros; preserves_auto|..].
        -- intros ? s' Hsh. exact (Hend _ Hsh).
        -- intros e s' Hsh. exact (same_shape_valid _ _ Hsh Hs).
  - intros ? s1 [Hs1 Hle]. apply post_get_obj. intros r1 Hr1.
    eapply post_mono; [apply set_size_spec| |done].
    intros ? s2 (v2 & Hv2 & _ & Ho2).
    eapply objs_valid_insert; [done| |exact Ho2].
    pose proof (Hle _ _ Hv2 Hr1). pose proof (Hs1 _ _ Hv2) as (? & ? & ?).
    pose proof (Hs1 _ _ Hr1) as (? & ? & ?). unfold valid. simpl. lia.
  - done.
Qed.

End EraseAndAssignValid.

Lemma wrap_sub_pos a b : is_size_t a → is_size_t b → a ≠ b → 1 <= wrap (a - b).
Proof.
  unfold is_size_t, wrap, SIZE_MOD. intros Ha Hb Hne.
  destruct (decide (b < a)).
  - rewrite Z.mod_small by lia. lia.
  - replace (a - b) with (a - b + 2 ^ 64 + (-1) * 2 ^ 64) by lia.
    rewrite Z.mod_add by lia. rewrite Z.mod_small by lia. lia.
Qed.

Lemma wrap_sub a b : is_size_t a → is_size_t b → b <= a → wrap (a - b) = a - b.
Proof. unfold is_size_t. intros. apply wrap_small. unfold is_size_t. lia. Qed.

Section EmplaceGrow.
Context {T : Type} `{!ElementType T} `{!Environment T}.
Abbreviation state := (state T Vector.t) (only parsing).
Implicit Types (s : state) (p q : ptr) (v : Vector.t) (this other rhs : ref).

Lemma Emplace_grow this args result s v :
  objs s !! this = Some v → valid v → is_size_t result →
  size_ v ≠ result → ¬ size_ v < capacity_ (data_ v) →
  post (do new_data <- RawMemory.ctor (wrap (size_ v * 2));
        run on_unwind
              (do p <- RawMemory.plus new_data result;
               run construct p args;
               run (if Vector.transfer_by_move then
                      uninitialized_move_n (RawMemory.GetAddress (data_ v)) result
                                           (RawMemory.GetAddress new_data)
                    else
                      uninitialized_copy_n (RawMemory.GetAddress (data_ v)) result
                                           (RawMemory.GetAddress new_data));
               if Vector.transfer_by_move then
                 uninitialized_move_n (RawMemory.GetAddress (data_ v) +ₚ result)
                                      (wrap (size_ v - result))
                                      (RawMemory.GetAddress new_data +ₚ result +ₚ 1)
               else
                 uninitialized_copy_n (RawMemory.GetAddress (data_ v) +ₚ result)
                                      (wrap (size_ v - result))
                                      (RawMemory.GetAddress new_data +ₚ result +ₚ 1))
              (RawMemory.dtor new_data);
        run destroy_n (RawMemory.GetAddress (data_ v)) (size_ v);
        let (data, new_data) := RawMemory.Swap (data_ v) new_data in
        run Vector.set_data this data;
        run RawMemory.dtor new_data;
        Vector.set_size this (wrap (size_ v + 1))) s
    (λ _ s', inserted this args result s v s') (λ _ s', objs s' = objs s).
Proof.
  intros Hthis (Hsz & Hcap & Hoff) Hres Hne Hfull.
  set (ct := wrap (size_ v * 2)).
  assert (Hct : is_size_t ct) by apply wrap_range.
  assert (Hsize : is_size_t (size_ v)) by (unfold is_size_t; lia).
  eapply post_seq; [apply RawMemory_ctor_spec| |by intros ? ? ->].
  intros nd s1 Hfresh. cbv beta in Hfresh.
  assert (Ho1 : objs s1 = objs s) by (by eapply fresh_block_objs).
  assert (Hunwind : ∀ s', objs s' = objs s →
            post (RawMemory.dtor nd) s' (λ _ s'', objs s'' = objs s)
                 (λ _ s'', objs s'' = objs s)).
  { intros s' Ho. eapply post_mono; [apply RawMemory_dtor_spec| |done].
    intros ? s'' (Ho'' & _). congruence. }
  apply post_bind, post_on_unwind. unfold RawMemory.GetAddress.
  eapply post_seq; [apply RawMemory_plus_spec| |done].
  intros p s0 [-> ->].
  eapply post_seq; [apply construct_spec| |].
  2:{ intros e s2 ->. by apply Hunwind. }
  intros ? s2 (x & Hx & Hin & Hf2 & Hp).
  assert (Hr : 0 <= result < ct).
  { eapply fresh_block_in_bounds; [|exact Hfresh|exact Hin]. apply Hct. }
  eapply post_seq; [apply transfer_spec; lia| |].
  2:{ intros e s3 [Hf3 _]. apply Hunwind.
      destruct Hf3 as (Ho3 & _), Hf2 as (Ho2 & _). congruence. }
  intros ? s3 (Hf3 & _ & Ht3).
  assert (Hn2 : 1 <= wrap (size_ v - result)) by (by apply wrap_sub_pos).
  eapply post_mono; [apply transfer_spec; lia| |].
  2:{ intros e s4 [Hf4 _]. apply Hunwind.
      destruct Hf4 as (Ho4 & _), Hf3 as (Ho3 & _), Hf2 as (Ho2 & _). congruence. }
  intros ? s4 (Hf4 & Hin4 & Ht4).
  assert (Hbound : ∀ i, 0 <= i < wrap (size_ v - result) → result + 1 + i < ct).
  { intros i Hi. specialize (Hin4 i Hi). rewrite !ptr_add_add in Hin4.
    apply (frame_in_bounds _ _ _ _ Hf3) in Hin4.
    apply (frame_in_bounds _ _ _ _ Hf2) in Hin4.
    eapply fresh_block_in_bounds in Hin4; [|apply Hct|exact Hfresh]. lia. }
  assert (Hroom : size_ v + 1 <= ct).
  { destruct (decide (result < size_ v)).
    - specialize (Hbound (size_ v - result - 1)).
      rewrite wrap_sub in Hbound by (done || lia). lia.
    - specialize (Hbound 0). lia. }
  assert (Hdouble : ct = size_ v * 2).
  { unfold ct. apply wrap_double; [done|]. fold ct. lia. }
  eapply post_seq; [apply destroy_n_spec; lia| |done].
  intros ? s5 (Hf5 & _ & _). simpl.
  eapply post_seq; [apply set_data_spec| |done].
  intros ? s6 (v6 & Hv6 & Hh6 & Ho6).
  eapply post_seq; [apply RawMemory_dtor_spec| |done].
  intros ? s7 Hrel.
  fold (released (RawMemory.Make (buffer_ (data_ v)) (capacity_ (data_ v))) s6 s7) in Hrel.
  eapply post_mono; [apply set_size_spec| |done].
  intros ? s8 (v8 & Hv8 & Hh8 & Ho8).
  assert (Hobjs : objs s5 = objs s).
  { destruct Hf5 as (Ho5 & _), Hf4 as (Ho4 & _), Hf3 as (Ho3 & _), Hf2 as (Ho2 & _).
    congruence. }
  rewrite Hobjs, Hthis in Hv6. injection Hv6 as <-.
  assert (Ho7 : objs s7 = objs s6) by apply Hrel.
  rewrite Ho7, Ho6, lookup_insert_eq in Hv8. injection Hv8 as <-. simpl in Ho8.
  assert (Hcap' : capacity_ nd = ct) by apply Hfresh.
  rewrite wrap_small in Ho8 by (unfold is_size_t in *; lia).
  exists x, (RawMemory.Make (buffer_ nd) (capacity_ nd)). simpl.
  split_and!; [done| |lia|rewrite Hcap'; apply Hct|by eapply fresh_block_off|].
  { rewrite Ho8, Ho7, Ho6, Hobjs. by rewrite insert_insert_eq. }
  intros Hown Hrange.
  assert (Hapart : blk (buffer_ (data_ v)) ≠ blk (buffer_ nd)).
  { eapply fresh_block_apart; [exact Hfresh|apply Hown|lia]. }
  assert (Hnew : ∀ q, blk q = blk (buffer_ nd) → cell s8 q = cell s4 q).
  { intros q Hq. rewrite (cell_heap s7 s8) by done.
    erewrite released_cell; [|exact Hrel|simpl; congruence].
    rewrite (cell_heap s5 s6) by done.
    eapply frame_cell_apart; [exact Hf5|]. simpl. congruence. }
  destruct (Ht3 Hapart) as [Hrest3 Hvals3].
  destruct Ht4 as [Hrest4 Hvals4]; [simpl; congruence|].
  assert (Hlt : result < size_ v) by lia.
  rewrite wrap_sub in Hvals4, Hrest4 by (done || lia).
  assert (Hold : ∀ i, cell s2 (buffer_ (data_ v) +ₚ i) = cell s (buffer_ (data_ v) +ₚ i)).
  { intros i. destruct Hf2 as (_ & _ & Hc2). rewrite Hc2.
    - eapply fresh_block_cell; [exact Hfresh|]. simpl. congruence.
    - intros Heq. apply (f_equal blk) in Heq. simpl in Heq. congruence. }
  split_and!.
  - assert (Hown1 : owns s1 (Vector.Make nd (size_ v)))
      by (eapply fresh_block_owns; [|exact Hfresh]; lia).
    assert (Hown5 : owns s5 (Vector.Make nd (size_ v))).
    { eapply owns_frame; [exact Hf5|]. eapply owns_frame; [exact Hf4|].
      eapply owns_frame; [exact Hf3|]. by eapply owns_frame. }
    unfold owns in *. simpl in *.
    destruct (blk (buffer_ nd)) as [l'|] eqn:Hl'; [|done].
    rewrite Hh8. erewrite released_block; [|exact Hrel|simpl; congruence].
    by rewrite Hh6.
  - rewrite Hnew by done. rewrite Hrest4, Hrest3; [done|..].
    + ptr_solve.
    + intros [Hb _]. simpl in Hb. congruence.
    + ptr_solve.
    + intros [Hb _]. simpl in Hb. congruence.
  - intros i w Hi Hw. rewrite Hnew by done.
    rewrite Hrest4.
    + destruct (Hvals3 i Hi) as (w' & Hw1 & Hw2). rewrite Hold in Hw1. congruence.
    + ptr_solve.
    + intros [Hb _]. simpl in Hb. congruence.
  - intros i w Hi Hw. rewrite Hnew by done.
    destruct (Hvals4 (i - result)) as (w' & Hw1 & Hw2); [lia|].
    replace (buffer_ (data_ v) +ₚ result +ₚ (i - result))
      with (buffer_ (data_ v) +ₚ i) in Hw1 by (apply ptr_eq; simpl; [done|lia]).
    replace (buffer_ nd +ₚ result +ₚ 1 +ₚ (i - result))
      with (buffer_ nd +ₚ (i + 1)) in Hw2 by (apply ptr_eq; simpl; [done|lia]).
    rewrite Hw2. rewrite Hrest3 in Hw1.
    + rewrite Hold in Hw1. congruence.
    + intros [Hb _]. simpl in Hb. congruence.
    + ptr_solve.
Qed.

End EmplaceGrow.

Section EmplaceInPlace.
Context {T : Type} `{!ElementType T} `{!Environment T}.
Abbreviation state := (state T Vector.t) (only parsing).
Implicit Types (s : state) (p q : ptr) (v : Vector.t) (this other rhs : ref).

Lemma Emplace_in_place this args result s v :
  objs s !! this = Some v → valid v →
  size_ v < capacity_ (data_ v) →
  post (do tmp <- construct_local args;
        do p <- RawMemory.plus (data_ v) (size_ v);
        do last <- RawMemory.index (data_ v) (wrap (size_ v - 1));
        run move_construct last p;
        do e1 <- Vector.end_ this;
        do e <- Vector.end_ this;
        run std_move_backward (RawMemory.GetAddress (data_ v) +ₚ result)
                              (e1 +ₚ (-1)) e;
        do q <- RawMemory.index (data_ v) result;
        run move_assign_local tmp q;
        Vector.set_size this (wrap (size_ v + 1))) s
    (λ _ s', inserted this args result s v s') (λ _ s', objs s' = objs s).
Proof.
  intros Hthis (Hsz & Hcap & Hoff) Hroom.
  eapply post_seq; [apply construct_local_spec| |by intros ? ? ->].
  intros x s0 [-> Hx].
  eapply post_seq; [apply RawMemory_plus_spec| |done].
  intros p s0 [-> ->].
  eapply post_seq; [apply RawMemory_index_spec| |done].
  intros last s0 [-> ->].
  eapply post_seq; [apply move_construct_spec| |by intros ? ? [-> _]].
  intros ? s1 (w & Hlast & Hin & Hf1 & Hp & _).
  assert (Ho1 : objs s1 = objs s) by apply Hf1.
  eapply post_seq; [apply end_spec| |done].
  intros e1 s0 [-> (v1 & Hv1 & ->)]. rewrite Ho1, Hthis in Hv1. injection Hv1 as <-.
  eapply post_seq; [apply end_spec| |done].
  intros e s0 [-> (v1 & Hv1 & ->)]. rewrite Ho1, Hthis in Hv1. injection Hv1 as <-.
  unfold std_move_backward, range_length, ptr_diff, RawMemory.GetAddress. simpl.
  rewrite decide_True by done.
  set (buf := buffer_ (data_ v)) in *.
  set (n := off buf + size_ v + -1 - (off buf + result)).
  case_decide as Hn; [|done]. apply post_bind, post_bind, post_ret.
  replace (buf +ₚ size_ v) with (buf +ₚ size_ v +ₚ -1 +ₚ 1) at 2
    by (apply ptr_eq; simpl; [done|lia]).
  eapply post_mono; [apply move_backward_loop_shift| |].
  2:{ intros e s2 Hf2. cbv beta in Hf2. destruct Hf2 as (Ho2 & _). congruence. }
  intros ? s2 [Hf2 Hvals]. rewrite Z2Nat.id in Hf2, Hvals by done.
  assert (Ho2 : objs s2 = objs s) by (destruct Hf2 as (Ho2 & _); congruence).
  eapply post_seq; [apply RawMemory_index_spec| |done].
  intros q s0 [-> ->].
  eapply post_seq; [apply move_assign_local_spec| |by intros ? ? ->].
  intros ? s3 [Hf3 Hq].
  assert (Ho3 : objs s3 = objs s) by (destruct Hf3 as (Ho3 & _); congruence).
  eapply post_mono; [apply set_size_spec| |done].
  intros ? s4 (v4 & Hv4 & Hh4 & Ho4). rewrite Ho3, Hthis in Hv4. injection Hv4 as <-.
  rewrite wrap_small in Ho4 by (unfold is_size_t; lia).
  exists x, (data_ v). split_and!; [done| |lia|lia|done|].
  { by rewrite Ho4, Ho3. }
  intros Hown Hrange. fold buf.
  assert (Hpos : 1 <= size_ v) by (unfold n in Hn; lia).
  rewrite wrap_small in Hlast, Hp, Hf1 by (unfold is_size_t; lia).
  assert (Hn' : n = size_ v - 1 - result) by (unfold n; lia).
  assert (Hframes : ∀ i, (i < result ∨ size_ v < i) →
            cell s4 (buf +ₚ i) = cell s (buf +ₚ i)).
  { intros i Hi. rewrite (cell_heap s3 s4) by done.
    destruct Hf3 as (_ & _ & Hc3). rewrite Hc3.
    2:{ intros Heq. apply ptr_add_inj in Heq. lia. }
    destruct Hf2 as (_ & _ & Hc2). rewrite Hc2 by ptr_solve.
    destruct Hf1 as (_ & _ & Hc1). rewrite Hc1; [done|].
    intros [Heq|Heq]; apply ptr_add_inj in Heq; lia. }
  split_and!.
  - eapply owns_heap; [exact Hh4|]. eapply owns_frame; [exact Hf3|].
    eapply owns_frame; [exact Hf2|]. by eapply owns_frame.
  - by rewrite (cell_heap s3 s4).
  - intros i w' Hi Hw'. rewrite Hframes by lia. done.
  - intros i w' Hi Hw'. rewrite (cell_heap s3 s4) by done.
    destruct Hf3 as (_ & _ & Hc3). rewrite Hc3.
    2:{ intros Heq. apply ptr_add_inj in Heq. lia. }
    destruct (decide (i = size_ v - 1)) as [->|Hlt].
    + replace (size_ v - 1 + 1) with (size_ v) by lia.
      destruct Hf2 as (_ & _ & Hc2). rewrite Hc2 by ptr_solve.
      rewrite Hp; [congruence|].
      intros Heq. apply ptr_add_inj in Heq. lia.
    + destruct (Hvals (size_ v - 1 - i)) as (w2 & Hw1 & Hw2); [lia|].
      replace (buf +ₚ size_ v +ₚ -1 +ₚ - (size_ v - 1 - i)) with (buf +ₚ i) in Hw1
        by (apply ptr_eq; simpl; [done|lia]).
      replace (buf +ₚ size_ v +ₚ -1 +ₚ (1 - (size_ v - 1 - i))) with (buf +ₚ (i + 1))
        in Hw2 by (apply ptr_eq; simpl; [done|lia]).
      rewrite Hw2. destruct Hf1 as (_ & _ & Hc1). rewrite Hc1 in Hw1; [congruence|].
      intros [Heq|Heq]; apply ptr_add_inj in Heq; lia.
Qed.

End EmplaceInPlace.

Section EmplaceSpec.
Context {T : Type} `{!ElementType T} `{!Environment T}.
Abbreviation state := (state T Vector.t) (only parsing).
Implicit Types (s : state) (p q : ptr) (v : Vector.t) (this other rhs : ref).

Abbreviation keeps_valid m :=
  (∀ s, objs_valid s → heap_bounded s →
        post m s (λ _ s', objs_valid s') (λ _ s', objs_valid s')) (only parsing).

Lemma Emplace_spec this pos args s v :
  objs s !! this = Some v → valid v →
  post (Vector.Emplace this pos args) s
    (λ it s', ∃ d, ptr_diff pos (buffer_ (data_ v)) = Some d ∧
                   emplaced this args (wrap d) s v it s')
    (λ _ s', objs s' = objs s).
Proof.
  intros Hthis Hvalid. unfold Vector.Emplace.
  eapply post_seq; [apply begin_spec| |done].
  intros b s0 [-> (v0 & Hv0 & ->)]. rewrite Hthis in Hv0. injection Hv0 as <-.
  destruct (ptr_diff pos (buffer_ (data_ v))) as [d|] eqn:Hd; [|done].
  apply post_bind, post_ret. set (result := wrap d).
  assert (Hres : is_size_t result) by apply wrap_range.
  apply post_get_obj. intros v0 Hv0. rewrite Hthis in Hv0. injection Hv0 as <-.
  eapply post_seq with (Q1 := λ _ s', inserted this args result s v s')
                       (E1 := λ _ s', objs s' = objs s).
  - unfold RawMemory.Capacity. case_decide as Hend; [|case_decide as Hroom].
    + apply post_bind.
      eapply post_mono; [by apply EmplaceBack_spec| |by intros ? ? [? _]].
      intros p s' (x & dd & Hx & Ho & Hc & Hoff & _ & -> & Hcont).
      apply post_ret. exists x, dd. split_and!; [done|done|lia|lia|done|].
      intros Hown _. destruct (Hcont Hown) as (Hown' & Hp & Hvals).
      rewrite <- Hend. split_and!; [done..|]. intros; lia.
    + by apply Emplace_in_place.
    + by apply Emplace_grow.
  - intros ? s' Hins. apply post_get_obj. intros v' Hv'. apply post_ret.
    exists d. split; [done|]. split; [done|]. by exists v'.
  - done.
Qed.

Lemma Emplace_valid this pos args : keeps_valid (Vector.Emplace this pos args).
Proof.
  intros s Hs _. destruct (objs s !! this) as [v|] eqn:Hv.
  2:{ unfold post, Vector.Emplace, Vector.begin_, bind, get_obj. by rewrite Hv. }
  pose proof (Hs _ _ Hv) as Hvalid.
  eapply post_mono; [by apply Emplace_spec| |].
  - intros it s' (d & _ & (x & dd & _ & Ho & Hc & Hoff & _) & _).
    eapply objs_valid_insert; [done| |exact Ho].
    destruct Hvalid as (? & ? & ?). unfold valid. simpl. lia.
  - intros e s' Ho. cbv beta in Ho. by eapply objs_valid_same.
Qed.

(** *** [Erase] *)

Lemma Erase_spec this idx s v :
  objs s !! this = Some v → valid v → 0 <= idx < size_ v →
  post (Vector.Erase this (buffer_ (data_ v) +ₚ idx)) s
    (λ it s', erased this idx s v it s') (λ _ s', objs s' = objs s).
Proof.
  intros Hthis (Hsz & Hcap & Hoff) Hidx. unfold Vector.Erase.
  set (buf := buffer_ (data_ v)).
  eapply post_seq; [apply end_spec| |done].
  intros e s0 [-> (v0 & Hv0 & ->)]. rewrite Hthis in Hv0. injection Hv0 as <-.
  fold buf. unfold std_move, range_length, ptr_diff. simpl.
  rewrite decide_True by done.
  set (n := off buf + size_ v - (off buf + idx + 1)).
  assert (Hn : n = size_ v - idx - 1) by (unfold n; lia).
  rewrite decide_True by lia. apply post_bind, post_bind, post_ret.
  replace (buf +ₚ idx) with (buf +ₚ idx +ₚ 1 +ₚ -1) at 2
    by (apply ptr_eq; simpl; [done|lia]).
  eapply post_mono; [apply move_loop_shift| |].
  2:{ intros e s1 Hf1. cbv beta in Hf1. by destruct Hf1 as (Ho1 & _). }
  intros ? s1 [Hf1 Hvals]. rewrite Z2Nat.id in Hf1, Hvals by lia.
  assert (Ho1 : objs s1 = objs s) by apply Hf1.
  apply post_get_obj. intros v1 Hv1. rewrite Ho1, Hthis in Hv1. injection Hv1 as <-.
  eapply post_seq; [apply set_size_spec| |done].
  intros ? s2 (v2 & Hv2 & Hh2 & Ho2). rewrite Ho1, Hthis in Hv2. injection Hv2 as <-.
  rewrite wrap_small in Ho2 by (unfold is_size_t; lia).
  apply post_get_obj. intros v3 Hv3.
  rewrite Ho2, lookup_insert_eq in Hv3. injection Hv3 as <-. simpl.
  eapply post_seq; [apply destroy_n_spec; lia| |done].
  intros ? s3 (Hf3 & _ & _). apply post_ret.
  unfold RawMemory.GetAddress in Hf3. unfold erased. subst n buf.
  split_and!.
  - done.
  - destruct Hf3 as (-> & _). by rewrite Ho2, Ho1.
  - intros Hown. eapply owns_frame; [exact Hf3|]. eapply owns_heap; [exact Hh2|].
    by eapply owns_frame.
  - intros i w Hi Hw. destruct Hf3 as (_ & _ & Hc3). rewrite Hc3.
    2:{ ptr_solve. }
    rewrite (cell_heap s1 s2) by done.
    destruct Hf1 as (_ & _ & Hc1). rewrite Hc1 by ptr_solve. done.
  - intros i w Hi Hw. destruct Hf3 as (_ & _ & Hc3). rewrite Hc3 by ptr_solve.
    rewrite (cell_heap s1 s2) by done.
    destruct (Hvals (i - idx)) as (w' & Hw1 & Hw2); [lia|].
    replace (buffer_ (data_ v) +ₚ idx +ₚ 1 +ₚ (i - idx))
      with (buffer_ (data_ v) +ₚ (i + 1)) in Hw1
      by (apply ptr_eq; simpl; [done|lia]).
    replace (buffer_ (data_ v) +ₚ idx +ₚ 1 +ₚ (i - idx - 1))
      with (buffer_ (data_ v) +ₚ i) in Hw2
      by (apply ptr_eq; simpl; [done|lia]).
    congruence.
Qed.

End EmplaceSpec.

(** ** Defined behaviour

    A computation is [total] when it returns or throws: it does not
    run into undefined behaviour.  The specifications above say what
    a call has done when it returns; the ones below add that it does
    not crash on a well-formed vector. *)

Section TotalRules.
Context {Σ : Type}.
Implicit Types s : Σ.

Lemma total_post {A} (m : M Σ A) s Q E : total m s Q E → post m s Q E.
Proof. unfold total, post. by destruct (m s). Qed.

Lemma total_intro {A} (m : M Σ A) s Q E :
  m s ≠ Crash → post m s Q E → total m s Q E.
Proof. unfold total, post. by destruct (m s). Qed.

Lemma total_defined {A} (m : M Σ A) s Q E : total m s Q E → m s ≠ Crash.
Proof. unfold total. by destruct (m s). Qed.

Lemma total_mono {A} (m : M Σ A) s (Q Q' : A → Σ → Prop) (E E' : exn → Σ → Prop) :
  total m s Q E →
  (∀ a s', Q a s' → Q' a s') →
  (∀ e s', E e s' → E' e s') →
  total m s Q' E'.
Proof. unfold total. destruct (m s); auto. Qed.

Lemma total_and {A} (m : M Σ A) s (Q Q' : A → Σ → Prop) (E E' : exn → Σ → Prop) :
  total m s Q E → post m s Q' E' →
  total m s (λ a s', Q a s' ∧ Q' a s') (λ e s', E e s' ∧ E' e s').
Proof. unfold total, post. destruct (m s); auto. Qed.

Lemma total_ret {A} (a : A) s (Q : A → Σ → Prop) E : Q a s → total (ret a) s Q E.
Proof. done. Qed.

Lemma total_throw {A} e s (Q : A → Σ → Prop) (E : exn → Σ → Prop) :
  E e s → total (throw e) s Q E.
Proof. done. Qed.

Lemma total_bind {A B} (m : M Σ A) (k : A → M Σ B) s Q E :
  total m s (λ a s', total (k a) s' Q E) E → total (bind m k) s Q E.
Proof. unfold total, bind. by destruct (m s). Qed.

Lemma total_seq {A B} (m : M Σ A) (k : A → M Σ B) s Q1 E1 Q E :
  total m s Q1 E1 →
  (∀ a s', Q1 a s' → total (k a) s' Q E) →
  (∀ e s', E1 e s' → E e s') →
  total (bind m k) s Q E.
Proof. intros H HQ HE. apply total_bind. by eapply total_mono. Qed.

Lemma total_on_unwind {A} (m : M Σ A) cleanup s (Q : A → Σ → Prop) E :
  total m s Q (λ e s', total cleanup s' (λ _ s'', E e s'') E) →
  total (on_unwind m cleanup) s Q E.
Proof.
  unfold total, on_unwind, try_catch, bind, throw.
  destruct (m s) as [| e s' |]; [done| |done].
  by destruct (cleanup s').
Qed.

Lemma total_returns {A} (m : M Σ A) s Q E :
  total m s Q E → (∀ e s', ¬ E e s') → ∃ a s', m s = Ok a s' ∧ Q a s'.
Proof.
  unfold total. intros H HE. destruct (m s) as [a s'|e s'|]; [eauto| |done].
  by destruct (HE e s').
Qed.

Lemma total_bind_Ok {A B} (m : M Σ A) (k : A → M Σ B) s a s' Q E :
  m s = Ok a s' → total (k a) s' Q E → total (bind m k) s Q E.
Proof. unfold total, bind. by intros ->. Qed.
End TotalRules.

Section DefinedPrimitives.
Context {T : Type} `{!ElementType T} `{!Environment T} {Obj : Type}.
Abbreviation state := (state T Obj) (only parsing).
Implicit Types (s : state) (p q src dst first : ptr) (P : ptr → Prop).

Lemma live_in_bounds s p : live s p → in_bounds s p.
Proof. intros [v Hv]. unfold in_bounds. by rewrite Hv. Qed.

Lemma extends_refl s : extends s s.
Proof. split; [apply frame_refl|done]. Qed.

Lemma extends_trans s1 s2 s3 : extends s1 s2 → extends s2 s3 → extends s1 s3.
Proof. intros [Hf Hl] [Hf' Hl']. split; [by eapply frame_trans|auto]. Qed.

Lemma frame_shape P s s' : frame P s s' → same_shape s s'.
Proof. by apply frame_mono. Qed.

Lemma frame_heap P s s' l :
  frame P s s' → is_Some (heap s' !! l) ↔ is_Some (heap s !! l).
Proof.
  intros (_ & Hlen & _). specialize (Hlen l).
  destruct (heap s' !! l), (heap s !! l); simpl in *; try done.
  all: split; intros [? ?]; done.
Qed.

Lemma extends_objs s s' : extends s s' → objs s' = objs s.
Proof. by intros [(? & _) _]. Qed.

Lemma extends_in_bounds s s' q : extends s s' → in_bounds s q → in_bounds s' q.
Proof. intros [Hf _]. by rewrite (frame_in_bounds _ _ _ _ Hf). Qed.

Lemma write_cell_extends p v s :
  in_bounds s p →
  extends s (write_cell p (Some v) s) ∧ live (write_cell p (Some v) s) p.
Proof.
  intros Hp. pose proof (frame_write_cell p (Some v) s Hp) as Hf.
  assert (Hl : live (write_cell p (Some v) s) p).
  { exists v. by apply cell_write_cell_eq. }
  split; [|done]. split; [by eapply frame_shape|].
  intros q Hq. destruct (decide (q = p)) as [->|Hne]; [done|].
  unfold live. rewrite cell_write_cell by done. by rewrite decide_False.
Qed.

Lemma load_total p v s : cell s p = Some (Some v) → load p s = Ok v s.
Proof. unfold load. by intros ->. Qed.

Lemma construct_at_total p v s :
  in_bounds s p →
  total (construct_at p v) s (λ _ s', extends s s' ∧ live s' p) (λ _ _, False).
Proof.
  intros Hp. unfold total, construct_at. destruct Hp as [c Hc]. rewrite Hc.
  apply write_cell_extends. unfold in_bounds. by rewrite Hc.
Qed.

Lemma store_total p v s :
  live s p →
  total (store p v) s (λ _ s', extends s s' ∧ live s' p) (λ _ _, False).
Proof.
  intros Hp. unfold total, store. pose proof Hp as [c Hc]. rewrite Hc.
  by apply write_cell_extends, live_in_bounds.
Qed.

Lemma get_obj_total r o s : objs s !! r = Some o → get_obj r s = Ok o s.
Proof. unfold get_obj. by intros ->. Qed.

Lemma assert_total c s : c = true → assert c s = Ok tt s.
Proof. intros ->. unfold assert. by destruct NDEBUG. Qed.

(** *** Special members of [T] *)

Lemma construct_local_total args s :
  total (construct_local args) s
    (λ x s', s' = s ∧ constructed args = Some x)
    (λ e s', s' = s ∧ e = element_exn ∧ constructed args = None).
Proof. unfold total, construct_local. by destruct (constructed args). Qed.

Lemma construct_total p args s :
  in_bounds s p →
  total (construct p args) s
    (λ _ s', extends s s' ∧ live s' p)
    (λ e s', s' = s ∧ e = element_exn ∧ constructed args = None).
Proof.
  intros Hp. unfold construct.
  eapply total_seq; [apply construct_local_total| |done].
  intros x s' [-> _]. eapply total_mono; [by apply construct_at_total|done|done].
Qed.

Lemma copy_construct_total src dst s :
  live s src → in_bounds s dst →
  total (copy_construct src dst) s
    (λ _ s', extends s s' ∧ live s' dst)
    (λ e s', s' = s ∧ element_threw T e).
Proof.
  intros [v Hv] Hdst. unfold copy_construct, total, bind.
  rewrite (load_total _ _ _ Hv). destruct (copy_throws v) eqn:Hthrow.
  - simpl. split; [done|]. split; [done|]. intros (Hc & _). by rewrite Hc in Hthrow.
  - pose proof (construct_at_total dst v s Hdst) as H1. unfold total in H1.
    by destruct (construct_at dst v s).
Qed.

Lemma move_construct_total src dst s :
  live s src → in_bounds s dst →
  total (move_construct src dst) s
    (λ _ s', extends s s' ∧ live s' dst)
    (λ e s', s' = s ∧ element_threw T e).
Proof.
  intros [v Hv] Hdst. unfold move_construct, total, bind.
  rewrite (load_total _ _ _ Hv). destruct (move_throws v) eqn:Hthrow.
  - simpl. split; [done|]. split; [done|]. intros (_ & Hm & _). by rewrite Hm in Hthrow.
  - pose proof (construct_at_total dst v s Hdst) as H1. unfold total in H1.
    destruct (construct_at dst v s) as [[] s1| |]; [|done..].
    destruct H1 as [He1 Hl1].
    assert (Hsrc : live s1 src) by (apply He1; by exists v).
    pose proof (store_total src (moved_from v) s1 Hsrc) as H2. unfold total in H2.
    destruct (store src (moved_from v) s1) as [[] s2| |]; [|done..].
    destruct H2 as [He2 _]. split; [by eapply extends_trans|]. by apply He2.
Qed.

Lemma move_assign_total src dst s :
  live s src → live s dst →
  total (move_assign src dst) s
    (λ _ s', extends s s') (λ e s', s' = s ∧ element_threw T e).
Proof.
  intros [v Hv] [old Hold]. unfold move_assign, total, bind.
  rewrite (load_total _ _ _ Hv), (load_total _ _ _ Hold).
  destruct (move_assign_throws old v) eqn:Hthrow.
  - simpl. split; [done|]. split; [done|].
    intros (_ & _ & _ & Hm). by rewrite Hm in Hthrow.
  - assert (Hdst : live s dst) by by exists old.
    pose proof (store_total dst v s Hdst) as H1. unfold total in H1.
    destruct (store dst v s) as [[] s1| |]; [|done..].
    destruct H1 as [He1 Hl1].
    assert (Hsrc : live s1 src) by (apply He1; by exists v).
    pose proof (store_total src (move_assigned_from old v) s1 Hsrc) as H2.
    unfold total in H2.
    destruct (store src (move_assigned_from old v) s1) as [[] s2| |]; [|done..].
    destruct H2 as [He2 _]. by eapply extends_trans.
Qed.

Lemma copy_assign_total src dst s :
  live s src → live s dst →
  total (copy_assign src dst) s
    (λ _ s', extends s s') (λ e s', s' = s ∧ element_threw T e).
Proof.
  intros [v Hv] [old Hold]. unfold copy_assign, total, bind.
  rewrite (load_total _ _ _ Hv), (load_total _ _ _ Hold).
  destruct (copy_assign_throws old v) eqn:Hthrow.
  - simpl. split; [done|]. split; [done|].
    intros (_ & _ & Hc & _). by rewrite Hc in Hthrow.
  - assert (Hdst : live s dst) by by exists old.
    pose proof (store_total dst v s Hdst) as H1. unfold total in H1.
    destruct (store dst v s) as [[] s1| |]; [|done..]. by destruct H1.
Qed.

Lemma move_assign_local_total tmp p s :
  live s p →
  total (move_assign_local tmp p) s
    (λ _ s', extends s s') (λ e s', s' = s ∧ element_threw T e).
Proof.
  intros [old Hold]. unfold move_assign_local, total, bind.
  rewrite (load_total _ _ _ Hold).
  destruct (move_assign_throws old tmp) eqn:Hthrow.
  - simpl. split; [done|]. split; [done|].
    intros (_ & _ & _ & Hm). by rewrite Hm in Hthrow.
  - assert (Hp : live s p) by by exists old.
    pose proof (store_total p tmp s Hp) as H1. unfold total in H1.
    destruct (store p tmp s) as [[] s1| |]; [|done..]. by destruct H1.
Qed.

(** *** Loops of destructor calls *)

Lemma destroy_loop_total k : ∀ first s,
  (∀ i, 0 <= i < Z.of_nat k → live s (first +ₚ i)) →
  total (destroy_loop first k) s
    (λ _ s', frame (range first (Z.of_nat k)) s s') (λ _ _, False).
Proof.
  intros first s Hlive. apply total_intro; [|
    eapply post_mono; [apply destroy_loop_spec|by intros ? ? (? & _)|done]].
  revert first s Hlive. induction k as [|k IH]; intros first s Hlive; [done|].
  simpl. unfold bind.
  pose proof (destroy_at_spec first s) as Hd. unfold post in Hd.
  destruct (destroy_at first s) as [[] s1| |] eqn:Hrun.
  - destruct Hd as (_ & (_ & _ & Hc) & _). apply IH. intros i Hi.
    destruct (Hlive (i + 1) ltac:(lia)) as [v Hv]. exists v.
    rewrite ptr_add_add, (Z.add_comm 1 i), Hc; [done|].
    intros Heq. apply (f_equal off) in Heq. simpl in Heq. lia.
  - done.
  - exfalso. destruct (Hlive 0 ltac:(lia)) as [v Hv]. rewrite ptr_add_0 in Hv.
    unfold destroy_at in Hrun. by rewrite Hv in Hrun.
Qed.

Lemma destroy_n_total first n s :
  0 <= n →
  (∀ i, 0 <= i < n → live s (first +ₚ i)) →
  total (destroy_n first n) s
    (λ _ s', frame (range first n) s s') (λ _ _, False).
Proof.
  intros Hn Hlive. unfold destroy_n.
  pose proof (destroy_loop_total (Z.to_nat n) first s) as H.
  rewrite Z2Nat.id in H by done. by apply H.
Qed.

End DefinedPrimitives.

(** *** Loops, [RawMemory] and the accessors *)

Section DefinedLoops.
Context {T : Type} `{!ElementType T} `{!Environment T} {Obj : Type}.
Abbreviation state := (state T Obj) (only parsing).
Implicit Types (s : state) (p q src dst first d_first last d_last : ptr).

Section Uninitialized.
Context (make : ptr → ptr → M state unit) (first d_first : ptr).
Hypothesis make_total : ∀ src dst s,
  live s src → in_bounds s dst →
  total (make src dst) s
    (λ _ s', extends s s' ∧ live s' dst) (λ e s', s' = s ∧ element_threw T e).

Lemma uninitialized_loop_total k : ∀ cur s,
  0 <= cur →
  (∀ i, cur <= i < cur + Z.of_nat k →
        live s (first +ₚ i) ∧ in_bounds s (d_first +ₚ i)) →
  (∀ i, 0 <= i < cur → live s (d_first +ₚ i)) →
  total (uninitialized_loop make first d_first cur k) s
    (λ _ s', extends s s' ∧
             ∀ i, 0 <= i < cur + Z.of_nat k → live s' (d_first +ₚ i))
    (λ e s', element_threw T e ∧ same_shape s s').
Proof.
  induction k as [|k IH]; intros cur s Hcur Hsrc Hdone.
  { apply total_ret. split; [apply extends_refl|].
    intros i Hi. apply Hdone. lia. }
  simpl. destruct (Hsrc cur ltac:(lia)) as [Hs Hd].
  eapply total_seq with
    (Q1 := λ _ s', extends s s' ∧ live s' (d_first +ₚ cur))
    (E1 := λ e s', element_threw T e ∧ same_shape s s').
  - apply total_on_unwind.
    eapply total_mono; [by apply make_total|done|].
    intros e s' [-> He]. cbv beta.
    eapply total_mono; [apply destroy_loop_total| |done].
    + intros i Hi. apply Hdone. lia.
    + intros ? s' Hf. split; [done|]. exact (frame_shape _ _ _ Hf).
  - intros ? s1 [Hext Hlive].
    eapply total_mono; [apply (IH (cur + 1) s1)| |].
    + lia.
    + intros i Hi. destruct (Hsrc i ltac:(lia)) as [Hs' Hd']. split.
      * by apply Hext.
      * by eapply extends_in_bounds.
    + intros i Hi. destruct (decide (i = cur)) as [->|]; [done|].
      apply Hext, Hdone. lia.
    + intros ? s2 [Hext2 Hlive2]. split; [by eapply extends_trans|].
      intros i Hi. apply Hlive2. lia.
    + intros e s2 [He Hsh]. split; [done|].
      destruct Hext as [Hsh1 _]. by eapply frame_trans.
  - done.
Qed.
End Uninitialized.

Lemma uninitialized_copy_n_total first n d_first s :
  0 <= n →
  (∀ i, 0 <= i < n → live s (first +ₚ i) ∧ in_bounds s (d_first +ₚ i)) →
  total (uninitialized_copy_n first n d_first) s
    (λ _ s', extends s s' ∧ ∀ i, 0 <= i < n → live s' (d_first +ₚ i))
    (λ e s', element_threw T e ∧ same_shape s s').
Proof.
  intros Hn Hsrc. unfold uninitialized_copy_n.
  eapply total_mono; [apply uninitialized_loop_total| |done].
  - intros src dst s0. apply copy_construct_total.
  - done.
  - intros i Hi. apply Hsrc. lia.
  - intros; lia.
  - intros ? s' [He Hl]. split; [done|]. intros i Hi. apply Hl. lia.
Qed.

Lemma uninitialized_move_n_total first n d_first s :
  0 <= n →
  (∀ i, 0 <= i < n → live s (first +ₚ i) ∧ in_bounds s (d_first +ₚ i)) →
  total (uninitialized_move_n first n d_first) s
    (λ _ s', extends s s' ∧ ∀ i, 0 <= i < n → live s' (d_first +ₚ i))
    (λ e s', element_threw T e ∧ same_shape s s').
Proof.
  intros Hn Hsrc. unfold uninitialized_move_n.
  eapply total_mono; [apply uninitialized_loop_total| |done].
  - intros src dst s0. apply move_construct_total.
  - done.
  - intros i Hi. apply Hsrc. lia.
  - intros; lia.
  - intros ? s' [He Hl]. split; [done|]. intros i Hi. apply Hl. lia.
Qed.

(** The transfer of [n] elements to fresh storage, by either branch
    of [if constexpr]. *)
Lemma transfer_total (by_move : bool) first n d_first s :
  0 <= n →
  (∀ i, 0 <= i < n → live s (first +ₚ i) ∧ in_bounds s (d_first +ₚ i)) →
  total (if by_move then uninitialized_move_n first n d_first
         else uninitialized_copy_n first n d_first) s
    (λ _ s', extends s s' ∧ ∀ i, 0 <= i < n → live s' (d_first +ₚ i))
    (λ e s', element_threw T e ∧ same_shape s s').
Proof.
  destruct by_move;
    [apply uninitialized_move_n_total|apply uninitialized_copy_n_total].
Qed.

Lemma move_loop_total k : ∀ first d_first s,
  (∀ i, 0 <= i < Z.of_nat k → live s (first +ₚ i) ∧ live s (d_first +ₚ i)) →
  total (move_loop first d_first k) s
    (λ _ s', extends s s') (λ e s', element_threw T e ∧ extends s s').
Proof.
  induction k as [|k IH]; intros first d_first s Hlive.
  { apply total_ret, extends_refl. }
  simpl. destruct (Hlive 0 ltac:(lia)) as [Hs Hd]. rewrite !ptr_add_0 in *.
  eapply total_seq; [by apply move_assign_total| |].
  - intros ? s1 Hext. cbv beta in Hext.
    eapply total_mono; [apply IH| |].
    + intros i Hi. rewrite !ptr_add_add.
      destruct (Hlive (1 + i) ltac:(lia)). split; by apply Hext.
    + intros ? s2 Hext2. by eapply extends_trans.
    + intros e s2 [He Hext2]. split; [done|]. by eapply extends_trans.
  - intros e s' [-> He]. split; [done|apply extends_refl].
Qed.

Lemma move_backward_loop_total k : ∀ last d_last s,
  (∀ i, 1 <= i <= Z.of_nat k → live s (last +ₚ (- i)) ∧ live s (d_last +ₚ (- i))) →
  total (move_backward_loop last d_last k) s
    (λ _ s', extends s s') (λ e s', element_threw T e ∧ extends s s').
Proof.
  induction k as [|k IH]; intros last d_last s Hlive.
  { apply total_ret, extends_refl. }
  simpl. destruct (Hlive 1 ltac:(lia)) as [Hs Hd].
  eapply total_seq; [by apply move_assign_total| |].
  - intros ? s1 Hext. cbv beta in Hext.
    eapply total_mono; [apply IH| |].
    + intros i Hi. rewrite !ptr_add_add.
      destruct (Hlive (1 + i) ltac:(lia)) as [H1 H2].
      replace (-1 + - i) with (- (1 + i)) by lia. split; by apply Hext.
    + intros ? s2 Hext2. by eapply extends_trans.
    + intros e s2 [He Hext2]. split; [done|]. by eapply extends_trans.
  - intros e s' [-> He]. split; [done|apply extends_refl].
Qed.

(** *** [RawMemory] *)

Lemma slots_exact n : 0 <= n → n * sizeof < SIZE_MOD → Z.of_nat (slots n) = n.
Proof.
  intros Hn Hb. unfold slots. pose proof sizeof_pos as Hpos.
  rewrite wrap_small by (unfold is_size_t; nia).
  rewrite Z.div_mul by lia. lia.
Qed.

Lemma RawMemory_ctor_total n s :
  total (RawMemory.ctor n) s
    (λ rm s', fresh_block n rm s s')
    (λ e s', e = bad_alloc ∧ s' = s ∧ allocator_fails T).
Proof.
  eapply total_mono with
    (Q := λ rm s', True ∧ fresh_block n rm s s')
    (E := λ e s', (e = bad_alloc ∧ allocator_fails T) ∧ s' = s);
    [apply total_and; [|apply RawMemory_ctor_spec]|by intros ? ? [_ ?]
    |by intros ? ? [[? ?] ?]].
  unfold total, RawMemory.ctor, RawMemory.Allocate, bind, operator_new, ret.
  case_decide; [|done].
  destruct (operator_new_fails _ _) eqn:Hfail; [|done].
  split; [done|]. by eexists _, _.
Qed.

Lemma fresh_block_live n rm s s' q :
  fresh_block n rm s s' → live s q → live s' q.
Proof.
  intros Hf [v Hv]. exists v. destruct (decide (n = 0)) as [->|Hn].
  { destruct Hf as (_ & Hf). rewrite decide_True in Hf by done.
    by destruct Hf as (_ & ->). }
  rewrite (fresh_block_cell _ _ _ _ _ Hf); [done|].
  eapply fresh_block_apart; [done| |done].
  unfold cell in Hv. destruct (blk q) as [l|]; [|done].
  by destruct (heap s !! l).
Qed.

Lemma fresh_block_keeps n rm s s' l :
  fresh_block n rm s s' → is_Some (heap s !! l) → is_Some (heap s' !! l).
Proof.
  intros (_ & Hf) Hl. case_decide; [by destruct Hf as (_ & ->)|].
  destruct Hf as (l' & _ & Hnew & ->). simpl.
  destruct (decide (l = l')) as [->|]; [by rewrite lookup_insert_eq|].
  by rewrite lookup_insert_ne.
Qed.

Lemma fresh_block_room n rm s s' i :
  fresh_block n rm s s' → n * sizeof < SIZE_MOD → 0 <= i < n →
  in_bounds s' (buffer_ rm +ₚ i).
Proof.
  intros (_ & Hf) Hb Hi. rewrite decide_False in Hf by lia.
  destruct Hf as (l & -> & _ & ->). apply in_bounds_iff.
  exists l, (replicate (slots n) None). simpl.
  rewrite lookup_insert_eq, length_replicate, slots_exact by lia.
  split_and!; [done|done|lia|lia].
Qed.

Lemma RawMemory_dtor_total rm s :
  off (buffer_ rm) = 0 →
  match blk (buffer_ rm) with
  | Some l => is_Some (heap s !! l)
  | None => True
  end →
  total (RawMemory.dtor rm) s
    (λ _ s', objs s' = objs s ∧
             match blk (buffer_ rm) with
             | None => s' = s
             | Some l => heap s' = delete l (heap s)
             end)
    (λ _ _, False).
Proof.
  intros Hoff Hblk. apply total_intro.
  - unfold RawMemory.dtor, RawMemory.Deallocate, operator_delete.
    destruct (blk (buffer_ rm)) as [l|]; [|by rewrite decide_True].
    destruct Hblk as [b ->]. by rewrite decide_True.
  - eapply post_mono; [apply RawMemory_dtor_spec| |done].
    intros ? s' (Ho & _ & H). split; [done|].
    destruct (blk (buffer_ rm)); [by destruct H|done].
Qed.

Lemma RawMemory_plus_total rm offset s :
  offset <= capacity_ rm →
  RawMemory.plus rm offset s = Ok (buffer_ rm +ₚ offset) s.
Proof.
  intros H. unfold RawMemory.plus, bind.
  by rewrite assert_total by (by apply bool_decide_eq_true).
Qed.

Lemma RawMemory_index_total rm i s :
  i < capacity_ rm →
  RawMemory.index rm i s = Ok (buffer_ rm +ₚ i) s.
Proof.
  intros H. unfold RawMemory.index, bind.
  by rewrite assert_total by (by apply bool_decide_eq_true).
Qed.
End DefinedLoops.

Section DefinedAccessors.
Context {T : Type} `{!ElementType T} `{!Environment T}.
Abbreviation state := (state T Vector.t) (only parsing).
Implicit Types (s : state) (p q : ptr) (v : Vector.t) (this : ref).

Lemma set_size_total this n s v :
  objs s !! this = Some v →
  Vector.set_size this n s =
    Ok tt (set_objs (<[this := Vector.Make (data_ v) n]> (objs s)) s).
Proof.
  intros Hv. unfold Vector.set_size, bind, get_obj, put_obj. rewrite Hv. simpl. by rewrite Hv.
Qed.

Lemma set_data_total this d s v :
  objs s !! this = Some v →
  Vector.set_data this d s =
    Ok tt (set_objs (<[this := Vector.Make d (size_ v)]> (objs s)) s).
Proof.
  intros Hv. unfold Vector.set_data, bind, get_obj, put_obj. rewrite Hv. simpl. by rewrite Hv.
Qed.

Lemma begin_total this s v :
  objs s !! this = Some v → Vector.begin_ this s = Ok (buffer_ (data_ v)) s.
Proof. intros Hv. unfold Vector.begin_, bind, get_obj. by rewrite Hv. Qed.

Lemma end_total this s v :
  objs s !! this = Some v → size_ v <= capacity_ (data_ v) →
  Vector.end_ this s = Ok (buffer_ (data_ v) +ₚ size_ v) s.
Proof.
  intros Hv Hle. unfold Vector.end_, bind, get_obj. rewrite Hv.
  by apply RawMemory_plus_total.
Qed.
End DefinedAccessors.

(** *** Well-formed vectors *)

Section WellFormed.
Context {T : Type} `{!ElementType T} `{!Environment T}.
Abbreviation state := (state T Vector.t) (only parsing).
Implicit Types (s : state) (p q : ptr) (v : Vector.t) (this other rhs : ref).

Lemma stores_holds s this vs : stores s this vs → holds s this vs.
Proof.
  intros (v & Hv & (Hvalid & Hown & _) & Hlen & Hcells).
  exists v. by split_and!.
Qed.

Lemma well_formed_heap s s' v : heap s' = heap s → well_formed s v → well_formed s' v.
Proof.
  intros Hh (Hvalid & Hown & Hroom & Hfill). split_and!; [done| | |].
  - by eapply owns_heap.
  - intros i Hi. unfold in_bounds. rewrite (cell_heap _ _ _ Hh). by apply Hroom.
  - intros i Hi. unfold live. rewrite (cell_heap _ _ _ Hh). by apply Hfill.
Qed.

Lemma vector_eta v : Vector.Make (data_ v) (size_ v) = v.
Proof. by destruct v. Qed.

(** One more element constructed in place. *)
Lemma well_formed_extended s s' v :
  well_formed s v → size_ v < capacity_ (data_ v) →
  extends s s' → live s' (buffer_ (data_ v) +ₚ size_ v) →
  well_formed s' (Vector.Make (data_ v) (size_ v + 1)).
Proof.
  intros ((Hsz & Hcap & Hoff) & Hown & Hroom & Hfill) Hlt Hext Hlive.
  split_and!.
  - unfold valid. simpl. lia.
  - destruct Hext as [Hsh _]. by apply (owns_frame _ _ _ _ Hsh).
  - intros i Hi. eapply extends_in_bounds; [done|]. by apply Hroom.
  - intros i Hi. simpl in *. destruct (decide (i = size_ v)) as [->|]; [done|].
    apply Hext, Hfill. lia.
Qed.

(** The state after the old block was retired: the elements live in
    a fresh block. *)
Lemma well_formed_regrown s s1 s3 s4 s6 v nd n m :
  well_formed s v → 0 < n → n * sizeof < SIZE_MOD → 0 <= m <= n →
  fresh_block n nd s s1 →
  extends s1 s3 →
  (∀ i, 0 <= i < m → live s3 (buffer_ nd +ₚ i)) →
  frame (range (buffer_ (data_ v)) (size_ v)) s3 s4 →
  match blk (buffer_ (data_ v)) with
  | None => heap s6 = heap s4
  | Some l => heap s6 = delete l (heap s4)
  end →
  well_formed s6 (Vector.Make (RawMemory.Make (buffer_ nd) (capacity_ nd)) m).
Proof.
  intros (Hvalid & Hown & Hroom & Hfill) Hn Hb Hm Hfresh Hext Hlive Hf Hheap.
  assert (Hapart : blk (buffer_ nd) ≠ blk (buffer_ (data_ v))).
  { apply not_eq_sym. eapply fresh_block_apart; [done|done|lia]. }
  assert (Hcap : capacity_ nd = n) by (by destruct Hfresh).
  assert (Hoff : off (buffer_ nd) = 0) by (by eapply fresh_block_off).
  assert (Hcell : ∀ i, cell s6 (buffer_ nd +ₚ i) = cell s3 (buffer_ nd +ₚ i)).
  { intros i. transitivity (cell s4 (buffer_ nd +ₚ i)).
    - destruct (blk (buffer_ (data_ v))) as [l|] eqn:Hl.
      + eapply cell_delete; [done|]. simpl. congruence.
      + by apply cell_heap.
    - destruct Hf as (_ & _ & Hc). apply Hc. intros [Hblk _]. by apply Hapart. }
  split_and!.
  - unfold valid. simpl. pose proof sizeof_pos. split_and!; [lia|lia|nia|done].
  - unfold owns. simpl.
    assert (Hin : in_bounds s6 (buffer_ nd +ₚ 0)).
    { unfold in_bounds. rewrite Hcell. destruct Hext as [Hsh _].
      apply (frame_in_bounds _ _ _ _ Hsh).
      eapply fresh_block_room; [done|done|lia]. }
    apply in_bounds_iff in Hin as (l & b & Hl & Hb' & _). simpl in Hl.
    by rewrite Hl, Hb'.
  - intros i Hi. simpl in *. unfold in_bounds. rewrite Hcell.
    destruct Hext as [Hsh _]. apply (frame_in_bounds _ _ _ _ Hsh).
    eapply fresh_block_room; [done|done|lia].
  - intros i Hi. simpl in *. unfold live. rewrite Hcell. by apply Hlive.
Qed.
End WellFormed.

(** *** [EmplaceBack] *)

Section DefinedEmplaceBack.
Context {T : Type} `{!ElementType T} `{!Environment T}.
Abbreviation state := (state T Vector.t) (only parsing).
Implicit Types (s : state) (p q : ptr) (v : Vector.t) (this other rhs : ref).

Lemma RawMemory_plus_total_bind {A} (rm : RawMemory.t) offset (k : ptr → M state A) s Q E :
  offset <= capacity_ rm →
  total (bind (RawMemory.plus rm offset) k) s Q E =
  total (k (buffer_ rm +ₚ offset)) s Q E.
Proof.
  intros H. unfold total at 1. unfold bind. by rewrite RawMemory_plus_total.
Qed.

(** The end of the reallocating branches: the elements of the old
    block are destroyed, [data_] takes the new block, and the old
    one is released. *)
Lemma retire_total {A} this v nd (k : M state A) s3 Q E :
  objs s3 !! this = Some v → valid v →
  (∀ i, 0 <= i < size_ v → live s3 (buffer_ (data_ v) +ₚ i)) →
  owns s3 v →
  (∀ s4 s6,
     frame (range (buffer_ (data_ v)) (size_ v)) s3 s4 →
     objs s6 = <[this := Vector.Make (RawMemory.Make (buffer_ nd) (capacity_ nd))
                                     (size_ v)]> (objs s3) →
     match blk (buffer_ (data_ v)) with
     | None => heap s6 = heap s4
     | Some l => heap s6 = delete l (heap s4)
     end →
     total k s6 Q E) →
  total (run destroy_n (RawMemory.GetAddress (data_ v)) (size_ v);
         let (data, new_data) := RawMemory.Swap (data_ v) nd in
         run Vector.set_data this data;
         run RawMemory.dtor new_data;
         k) s3 Q E.
Proof.
  intros Hthis (Hsz & Hcap & Hoff) Hlive Hown Hk.
  eapply total_seq; [apply destroy_n_total; [lia|done]| |done].
  intros ? s4 Hf. cbv beta in Hf. simpl.
  assert (Hthis4 : objs s4 !! this = Some v).
  { destruct Hf as (-> & _). done. }
  eapply total_bind_Ok; [by apply set_data_total|].
  eapply total_seq; [apply RawMemory_dtor_total| |done].
  - done.
  - simpl. unfold owns in Hown. destruct (blk (buffer_ (data_ v))) as [l|]; [|done].
    by apply (frame_heap _ _ _ _ Hf).
  - intros ? s6 [Ho Hh]. simpl in *. apply (Hk s4 s6); [done| |].
    + rewrite Ho. by destruct Hf as (-> & _).
    + destruct (blk (buffer_ (data_ v))); [done|]. by rewrite Hh.
Qed.

Lemma retire_last_total this v nd s3 (Q : unit → state → Prop) E :
  objs s3 !! this = Some v → valid v →
  (∀ i, 0 <= i < size_ v → live s3 (buffer_ (data_ v) +ₚ i)) →
  owns s3 v →
  (∀ s4 s6,
     frame (range (buffer_ (data_ v)) (size_ v)) s3 s4 →
     objs s6 = <[this := Vector.Make (RawMemory.Make (buffer_ nd) (capacity_ nd))
                                     (size_ v)]> (objs s3) →
     match blk (buffer_ (data_ v)) with
     | None => heap s6 = heap s4
     | Some l => heap s6 = delete l (heap s4)
     end →
     Q tt s6) →
  total (run destroy_n (RawMemory.GetAddress (data_ v)) (size_ v);
         let (data, new_data) := RawMemory.Swap (data_ v) nd in
         run Vector.set_data this data;
         RawMemory.dtor new_data) s3 Q E.
Proof.
  intros Hthis (Hsz & Hcap & Hoff) Hlive Hown Hk.
  eapply total_seq; [apply destroy_n_total; [lia|done]| |done].
  intros ? s4 Hf. cbv beta in Hf. simpl.
  assert (Hthis4 : objs s4 !! this = Some v).
  { destruct Hf as (-> & _). done. }
  eapply total_bind_Ok; [by apply set_data_total|].
  eapply total_mono; [apply RawMemory_dtor_total| |done].
  - done.
  - simpl. unfold owns in Hown. destruct (blk (buffer_ (data_ v))) as [l|]; [|done].
    by apply (frame_heap _ _ _ _ Hf).
  - intros [] s6 [Ho Hh]. simpl in *. apply (Hk s4 s6); [done| |].
    + rewrite Ho. by destruct Hf as (-> & _).
    + destruct (blk (buffer_ (data_ v))); [done|]. by rewrite Hh.
Qed.

(** The start of the reallocating branches: a block for [n]
    elements, which [fill] constructs elements in; when [fill]
    throws, the block is released. *)
Lemma grow_total {A} n (fill : RawMemory.t → M state unit)
    (k : RawMemory.t → M state A) s (F : RawMemory.t → state → state → Prop)
    (X : Prop) Q (E : exn → state → Prop) :
  0 < n →
  (∀ nd s1, fresh_block n nd s s1 →
     total (fill nd) s1 (λ _ s3, F nd s1 s3)
           (λ e s3, same_shape s1 s3 ∧ e = element_exn ∧ X)) →
  (∀ nd s1 s3, fresh_block n nd s s1 → F nd s1 s3 → total (k nd) s3 Q E) →
  (allocator_fails T → E bad_alloc s) →
  (X → ∀ s', E element_exn s') →
  total (do new_data <- RawMemory.ctor n;
         run on_unwind (fill new_data) (RawMemory.dtor new_data);
         k new_data) s Q E.
Proof.
  intros Hn Hfill Hk Hbad Helt.
  eapply total_seq; [apply RawMemory_ctor_total| |by intros ? ? (-> & -> & ?); auto].
  intros nd s1 Hfresh. cbv beta in Hfresh.
  eapply total_seq; [apply total_on_unwind| |intros e s' He; exact He].
  - eapply total_mono; [by apply Hfill|intros ? s3 HF; exact HF|].
    intros e s3 (Hsh & -> & HX). cbv beta.
    eapply total_mono; [apply RawMemory_dtor_total| |done].
    + by eapply fresh_block_off.
    + pose proof (fresh_block_owns n nd s s1 0 ltac:(lia) Hfresh) as Hown.
      unfold owns in Hown. simpl in Hown.
      destruct (blk (buffer_ nd)); [|done]. by apply (frame_heap _ _ _ _ Hsh).
    + intros ? s' _. by apply Helt.
  - intros ? s3 HF. by eapply Hk.
Qed.

Lemma fresh_block_extends_live n nd s s1 s3 q :
  fresh_block n nd s s1 → extends s1 s3 → live s q → live s3 q.
Proof. intros Hf [_ Hl] Hq. by eapply Hl, fresh_block_live. Qed.

Lemma fresh_block_owns_old n nd s s1 s3 v :
  fresh_block n nd s s1 → extends s1 s3 → owns s v → owns s3 v.
Proof.
  intros Hf [Hsh _] Hown. apply (owns_frame _ _ _ _ Hsh).
  unfold owns in *. destruct (blk (buffer_ (data_ v))); [|done].
  by eapply fresh_block_keeps.
Qed.

Lemma EmplaceBack_total this args s v :
  objs s !! this = Some v → well_formed s v →
  Z.max 1 (2 * size_ v) * sizeof < SIZE_MOD →
  total (Vector.EmplaceBack this args) s
    (λ p s', ∃ d, objs s' = <[this := Vector.Make d (size_ v + 1)]> (objs s) ∧
                  well_formed s' (Vector.Make d (size_ v + 1)) ∧
                  p = buffer_ d +ₚ size_ v)
    (λ e s', failed args s e s').
Proof.
  intros Hthis Hwf Hbound. pose proof Hwf as (Hvalid & Hown & Hroom & Hfill).
  pose proof Hvalid as (Hsz & Hcap & Hoff). pose proof sizeof_pos as Hpos.
  unfold Vector.EmplaceBack.
  eapply total_bind_Ok; [by apply get_obj_total|].
  eapply total_seq with
    (Q1 := λ _ s1, ∃ d, objs s1 = <[this := Vector.Make d (size_ v)]> (objs s) ∧
                        well_formed s1 (Vector.Make d (size_ v + 1)))
    (E1 := λ e s', failed args s e s').
  - unfold RawMemory.Capacity. case_decide as Hfull.
    + (* a new block *)
      set (n := Z.max 1 (2 * size_ v)) in *.
      assert (Hn : (if decide (size_ v = 0) then wrap (0 + 1)
                    else wrap (0 + wrap (size_ v * 2))) = n).
      { unfold n. case_decide as Hz.
        - rewrite Hz. done.
        - rewrite Z.add_0_l.
          assert (is_size_t (size_ v * 2)) by (unfold is_size_t; nia).
          rewrite !wrap_small by (by rewrite ?wrap_small). lia. }
      cbv zeta. rewrite Hn.
      apply grow_total with
        (F := λ nd s1 s3, extends s1 s3 ∧
                          ∀ i, 0 <= i < size_ v + 1 → live s3 (buffer_ nd +ₚ i))
        (X := constructed args = None ∨ ¬ nothrow_element T).
      * lia.
      * intros nd s1 Hfresh.
        assert (Hcapn : capacity_ nd = n) by (by destruct Hfresh).
        rewrite RawMemory_plus_total_bind by lia.
        eapply total_seq; [apply construct_total| |].
        { eapply fresh_block_room; [done|done|lia]. }
        { intros ? s2 [Hext2 Hlive2].
          eapply total_mono; [apply transfer_total; [lia|]| |].
          - intros i Hi. split.
            + eapply fresh_block_extends_live; [done|done|]. by apply Hfill.
            + eapply extends_in_bounds; [done|].
              eapply fresh_block_room; [done|done|lia].
          - intros ? s3 [Hext3 Hlive3]. split; [by eapply extends_trans|].
            intros i Hi. destruct (decide (i = size_ v)) as [->|].
            + by apply Hext3.
            + apply Hlive3. lia.
          - intros e s3 [[-> Hne] Hsh]. split; [|by auto].
            destruct Hext2 as [Hsh2 _]. by eapply frame_trans. }
        { intros e s' (-> & -> & Hnone). split; [apply same_shape_refl|]. by auto. }
      * intros nd s1 s3 Hfresh [Hext Hlive].
        assert (Hthis3 : objs s3 !! this = Some v).
        { rewrite (extends_objs _ _ Hext), (fresh_block_objs _ _ _ _ Hfresh). done. }
        apply retire_last_total; [done|done| | |].
        { intros i Hi. eapply fresh_block_extends_live; [done|done|]. by apply Hfill. }
        { by eapply fresh_block_owns_old. }
        intros s4 s6 Hf Ho Hh. exists (RawMemory.Make (buffer_ nd) (capacity_ nd)).
        split.
        { rewrite Ho, (extends_objs _ _ Hext), (fresh_block_objs _ _ _ _ Hfresh). done. }
        eapply (well_formed_regrown s s1 s3 s4 s6 v nd n); try done; lia.
      * done.
      * intros HX s'. exact HX.
    + (* in place *)
      rewrite RawMemory_plus_total_bind by lia.
      eapply total_mono; [apply construct_total| |].
      * apply Hroom. lia.
      * intros [] s1 [Hext Hlive]. exists (data_ v). split.
        { rewrite (extends_objs _ _ Hext), vector_eta. by rewrite insert_id. }
        apply well_formed_extended with (s := s); [done|lia|done|done].
      * intros e s' (-> & -> & Hnone). by left.
  - intros ? s1 (d & Ho & Hwf1). pose proof Hwf1 as ((Hsz1 & Hcap1 & Hoff1) & _).
    simpl in *.
    assert (Hthis1 : objs s1 !! this = Some (Vector.Make d (size_ v)))
      by (by rewrite Ho, lookup_insert_eq).
    eapply total_bind_Ok; [by apply get_obj_total|]. simpl.
    assert (Hw : wrap (size_ v + 1) = size_ v + 1)
      by (apply wrap_small; unfold is_size_t; lia).
    rewrite Hw.
    eapply total_bind_Ok; [by eapply set_size_total|]. simpl.
    eapply total_bind_Ok.
    { apply get_obj_total. simpl. by rewrite lookup_insert_eq. }
    simpl. replace (size_ v + 1 - 1) with (size_ v) by lia.
    rewrite wrap_small by (unfold is_size_t; lia).
    unfold total. rewrite RawMemory_index_total by lia.
    exists d. split_and!; [|by eapply well_formed_heap|done].
    simpl. rewrite Ho. by rewrite insert_insert_eq.
  - done.
Qed.
End DefinedEmplaceBack.

(** *** [Erase] and [Emplace] *)

Section DefinedEmplace.
Context {T : Type} `{!ElementType T} `{!Environment T}.
Abbreviation state := (state T Vector.t) (only parsing).
Implicit Types (s : state) (p q : ptr) (v : Vector.t) (this other rhs : ref).

Lemma RawMemory_index_total_bind {A} (rm : RawMemory.t) i (k : ptr → M state A) s Q E :
  i < capacity_ rm →
  total (bind (RawMemory.index rm i) k) s Q E =
  total (k (buffer_ rm +ₚ i)) s Q E.
Proof.
  intros H. unfold total at 1. unfold bind. by rewrite RawMemory_index_total.
Qed.

Lemma Erase_total this idx s v :
  objs s !! this = Some v → well_formed s v → 0 <= idx < size_ v →
  total (Vector.Erase this (buffer_ (data_ v) +ₚ idx)) s
    (λ it s', objs s' = <[this := Vector.Make (data_ v) (size_ v - 1)]> (objs s) ∧
              well_formed s' (Vector.Make (data_ v) (size_ v - 1)) ∧
              it = buffer_ (data_ v) +ₚ idx)
    (λ e s', element_threw T e).
Proof.
  intros Hthis Hwf Hidx. pose proof Hwf as (Hvalid & Hown & Hroom & Hfill).
  pose proof Hvalid as (Hsz & Hcap & Hoff).
  unfold Vector.Erase. set (buf := buffer_ (data_ v)) in *.
  eapply total_bind_Ok; [apply end_total; [done|lia]|]. fold buf.
  unfold std_move, range_length, ptr_diff. simpl.
  rewrite decide_True by done.
  set (n := off buf + size_ v - (off buf + idx + 1)).
  assert (Hn : n = size_ v - idx - 1) by (unfold n; lia).
  rewrite decide_True by lia.
  apply total_bind, total_bind, total_ret.
  eapply total_mono; [apply move_loop_total| |by intros e s' [He _]].
  { intros i Hi. rewrite !ptr_add_add. split; apply Hfill; lia. }
  intros [] s1 Hext.
  assert (Hthis1 : objs s1 !! this = Some v) by (by rewrite (extends_objs _ _ Hext)).
  eapply total_bind_Ok; [by apply get_obj_total|].
  rewrite wrap_small by (unfold is_size_t; lia).
  eapply total_bind_Ok; [by eapply set_size_total|].
  eapply total_bind_Ok.
  { apply get_obj_total. simpl. by rewrite lookup_insert_eq. }
  simpl. fold buf.
  eapply total_seq; [apply destroy_n_total; [lia|]| |done].
  { intros i Hi. assert (i = 0) as -> by lia. rewrite ptr_add_0.
    apply Hext, Hfill. lia. }
  intros [] s3 Hf. apply total_ret.
  pose proof Hf as (Ho3 & _ & Hc3).
  split_and!; [|split_and!|done].
  - rewrite Ho3. simpl. by rewrite (extends_objs _ _ Hext).
  - unfold valid. simpl. split_and!; [lia|lia|lia|done].
  - apply (owns_frame _ _ _ _ Hf). eapply owns_heap; [done|].
    destruct Hext as [Hsh _]. by apply (owns_frame _ _ _ _ Hsh).
  - intros i Hi. simpl in *. apply (frame_in_bounds _ _ _ _ Hf).
    apply (extends_in_bounds s s1 _ Hext). by apply Hroom.
  - intros i Hi. simpl in *. unfold live. rewrite Hc3.
    + apply Hext, Hfill. lia.
    + intros [_ Hr]. unfold RawMemory.GetAddress in Hr. simpl in Hr. lia.
Qed.

(** The branch of [Emplace] that shifts the elements in place. *)
Lemma Emplace_in_place_total this idx args s v :
  objs s !! this = Some v → well_formed s v →
  0 <= idx < size_ v → size_ v < capacity_ (data_ v) →
  total (do tmp <- construct_local args;
         do p <- RawMemory.plus (data_ v) (size_ v);
         do last <- RawMemory.index (data_ v) (wrap (size_ v - 1));
         run move_construct last p;
         do e1 <- Vector.end_ this;
         do e <- Vector.end_ this;
         run std_move_backward (RawMemory.GetAddress (data_ v) +ₚ idx)
                               (e1 +ₚ (-1)) e;
         do q <- RawMemory.index (data_ v) idx;
         run move_assign_local tmp q;
         Vector.set_size this (wrap (size_ v + 1))) s
    (λ _ s', objs s' = <[this := Vector.Make (data_ v) (size_ v + 1)]> (objs s) ∧
             well_formed s' (Vector.Make (data_ v) (size_ v + 1)))
    (λ e s', failed args s e s').
Proof.
  intros Hthis Hwf Hidx Hlt. pose proof Hwf as (Hvalid & Hown & Hroom & Hfill).
  pose proof Hvalid as (Hsz & Hcap & Hoff).
  unfold RawMemory.GetAddress. set (buf := buffer_ (data_ v)) in *.
  eapply total_seq; [apply construct_local_total| |].
  2:{ intros e s' (-> & -> & Hnone). by left. }
  intros tmp s0 [-> Htmp].
  rewrite RawMemory_plus_total_bind by lia.
  rewrite (wrap_small (size_ v - 1)) by (unfold is_size_t; lia).
  rewrite RawMemory_index_total_bind by lia. fold buf.
  eapply total_seq; [apply move_construct_total| |].
  { apply Hfill. lia. }
  { apply Hroom. lia. }
  2:{ intros e s' (-> & -> & Hne). by right. }
  intros [] s1 [Hext1 Hlive1].
  assert (Hthis1 : objs s1 !! this = Some v) by (by rewrite (extends_objs _ _ Hext1)).
  eapply total_bind_Ok; [apply end_total; [done|lia]|].
  eapply total_bind_Ok; [apply end_total; [done|lia]|]. fold buf.
  unfold std_move_backward, range_length, ptr_diff. simpl.
  rewrite decide_True by done.
  set (n := off buf + size_ v + -1 - (off buf + idx)).
  assert (Hn : n = size_ v - idx - 1) by (unfold n; lia).
  rewrite decide_True by lia.
  apply total_bind, total_bind, total_ret.
  eapply total_mono; [apply move_backward_loop_total| |].
  { intros i Hi. rewrite !ptr_add_add. split; apply Hext1, Hfill; lia. }
  2:{ intros e s' [[-> Hne] _]. by right. }
  intros [] s2 Hext2.
  rewrite RawMemory_index_total_bind by lia. fold buf.
  eapply total_seq; [apply move_assign_local_total| |].
  { apply Hext2, Hext1, Hfill. lia. }
  2:{ intros e s' (-> & -> & Hne). by right. }
  intros [] s3 Hext3. cbv beta in Hext3.
  assert (Hext : extends s s3).
  { eapply extends_trans; [done|]. by eapply extends_trans. }
  assert (Hthis3 : objs s3 !! this = Some v) by (by rewrite (extends_objs _ _ Hext)).
  rewrite wrap_small by (unfold is_size_t; lia).
  unfold total. erewrite set_size_total by done. split.
  - simpl. by rewrite (extends_objs _ _ Hext).
  - apply (well_formed_heap s3); [done|].
    apply well_formed_extended with (s := s); [done|lia|done|].
    by apply Hext3, Hext2.
Qed.

(** The branch of [Emplace] that moves the elements to a new block. *)
Lemma Emplace_grow_total this idx args s v :
  objs s !! this = Some v → well_formed s v →
  0 <= idx < size_ v → size_ v = capacity_ (data_ v) →
  2 * size_ v * sizeof < SIZE_MOD →
  total (do new_data <- RawMemory.ctor (wrap (size_ v * 2));
         run on_unwind
               (do p <- RawMemory.plus new_data idx;
                run construct p args;
                run (if Vector.transfer_by_move then
                       uninitialized_move_n (RawMemory.GetAddress (data_ v)) idx
                                            (RawMemory.GetAddress new_data)
                     else
                       uninitialized_copy_n (RawMemory.GetAddress (data_ v)) idx
                                            (RawMemory.GetAddress new_data));
                if Vector.transfer_by_move then
                  uninitialized_move_n (RawMemory.GetAddress (data_ v) +ₚ idx)
                                       (wrap (size_ v - idx))
                                       (RawMemory.GetAddress new_data +ₚ idx +ₚ 1)
                else
                  uninitialized_copy_n (RawMemory.GetAddress (data_ v) +ₚ idx)
                                       (wrap (size_ v - idx))
                                       (RawMemory.GetAddress new_data +ₚ idx +ₚ 1))
               (RawMemory.dtor new_data);
         run destroy_n (RawMemory.GetAddress (data_ v)) (size_ v);
         let (data, new_data) := RawMemory.Swap (data_ v) new_data in
         run Vector.set_data this data;
         run RawMemory.dtor new_data;
         Vector.set_size this (wrap (size_ v + 1))) s
    (λ _ s', ∃ d, objs s' = <[this := Vector.Make d (size_ v + 1)]> (objs s) ∧
                  well_formed s' (Vector.Make d (size_ v + 1)))
    (λ e s', failed args s e s').
Proof.
  intros Hthis Hwf Hidx Hfull Hbound.
  pose proof Hwf as (Hvalid & Hown & Hroom & Hfill).
  pose proof Hvalid as (Hsz & Hcap & Hoff). pose proof sizeof_pos as Hpos.
  unfold RawMemory.GetAddress. set (buf := buffer_ (data_ v)) in *.
  set (n := 2 * size_ v).
  assert (Hn : wrap (size_ v * 2) = n).
  { unfold n. rewrite wrap_small by (unfold is_size_t; nia). lia. }
  rewrite Hn. rewrite (wrap_small (size_ v - idx)) by (unfold is_size_t; lia).
  rewrite (wrap_small (size_ v + 1)) by (unfold is_size_t; nia).
  apply grow_total with
    (F := λ nd s1 s3, extends s1 s3 ∧
                      ∀ i, 0 <= i < size_ v + 1 → live s3 (buffer_ nd +ₚ i))
    (X := constructed args = None ∨ ¬ nothrow_element T).
  - lia.
  - intros nd s1 Hfresh.
    assert (Hcapn : capacity_ nd = n) by (by destruct Hfresh).
    assert (Hroomn : ∀ i, 0 <= i < n → in_bounds s1 (buffer_ nd +ₚ i)).
    { intros i Hi. eapply fresh_block_room; [done|lia|done]. }
    rewrite RawMemory_plus_total_bind by lia.
    eapply total_seq; [apply construct_total| |].
    { apply Hroomn. lia. }
    2:{ intros e s' (-> & -> & Hnone). split; [apply same_shape_refl|]. by auto. }
    intros [] s2 [Hext2 Hlive2].
    eapply total_seq; [apply transfer_total; [lia|]| |].
    { intros i Hi. split.
      - eapply fresh_block_extends_live; [done|done|]. apply Hfill. lia.
      - eapply extends_in_bounds; [done|]. apply Hroomn. lia. }
    2:{ intros e s3 [[-> Hne] Hsh]. split; [|by auto].
        destruct Hext2 as [Hsh2 _]. by eapply frame_trans. }
    intros [] s3 [Hext3 Hlive3].
    assert (Hext13 : extends s1 s3) by (by eapply extends_trans).
    eapply total_mono; [apply transfer_total; [lia|]| |].
    { intros i Hi. rewrite !ptr_add_add. split.
      - eapply fresh_block_extends_live; [done|done|]. apply Hfill. lia.
      - eapply extends_in_bounds; [done|]. apply Hroomn. lia. }
    + intros [] s4 [Hext4 Hlive4]. split; [by eapply extends_trans|].
      intros i Hi. destruct (decide (i < idx)); [|destruct (decide (i = idx)) as [->|]].
      * apply Hext4, Hlive3. lia.
      * by apply Hext4, Hext3.
      * specialize (Hlive4 (i - idx - 1) ltac:(lia)).
        rewrite !ptr_add_add in Hlive4.
        by replace (idx + (1 + (i - idx - 1))) with i in Hlive4 by lia.
    + intros e s4 [[-> Hne] Hsh]. split; [|by auto].
      destruct Hext13 as [Hsh13 _]. by eapply frame_trans.
  - intros nd s1 s3 Hfresh [Hext Hlive].
    assert (Hthis3 : objs s3 !! this = Some v).
    { rewrite (extends_objs _ _ Hext), (fresh_block_objs _ _ _ _ Hfresh). done. }
    apply retire_total; [done|done| | |].
    { intros i Hi. eapply fresh_block_extends_live; [done|done|]. by apply Hfill. }
    { by eapply fresh_block_owns_old. }
    intros s4 s6 Hf Ho Hh.
    unfold total. erewrite set_size_total by (by rewrite Ho, lookup_insert_eq).
    exists (RawMemory.Make (buffer_ nd) (capacity_ nd)). split.
    + simpl. rewrite Ho, insert_insert_eq.
      by rewrite (extends_objs _ _ Hext), (fresh_block_objs _ _ _ _ Hfresh).
    + apply (well_formed_heap s6); [done|].
      eapply (well_formed_regrown s s1 s3 s4 s6 v nd n); try done; lia.
  - done.
  - intros HX s'. exact HX.
Qed.

Lemma Emplace_total this idx args s v :
  objs s !! this = Some v → well_formed s v → 0 <= idx <= size_ v →
  Z.max 1 (2 * size_ v) * sizeof < SIZE_MOD →
  total (Vector.Emplace this (buffer_ (data_ v) +ₚ idx) args) s
    (λ it s', ∃ d, objs s' = <[this := Vector.Make d (size_ v + 1)]> (objs s) ∧
                   well_formed s' (Vector.Make d (size_ v + 1)) ∧
                   it = buffer_ d +ₚ idx)
    (λ e s', failed args s e s').
Proof.
  intros Hthis Hwf Hidx Hbound.
  pose proof Hwf as ((Hsz & Hcap & Hoff) & _).
  unfold Vector.Emplace.
  eapply total_bind_Ok; [by apply begin_total|].
  unfold ptr_diff. simpl. rewrite decide_True by done.
  replace (off (buffer_ (data_ v)) + idx - off (buffer_ (data_ v))) with idx by lia.
  rewrite (wrap_small idx) by (unfold is_size_t; lia).
  apply total_bind, total_ret.
  eapply total_bind_Ok; [by apply get_obj_total|].
  eapply total_seq with
    (Q1 := λ _ s1, ∃ d, objs s1 = <[this := Vector.Make d (size_ v + 1)]> (objs s) ∧
                        well_formed s1 (Vector.Make d (size_ v + 1)))
    (E1 := λ e s', failed args s e s').
  - unfold RawMemory.Capacity. case_decide as Hend; [|case_decide as Hroom].
    + eapply total_seq; [by apply EmplaceBack_total| |done].
      intros p s1 (d & Ho & Hwf1 & _). apply total_ret. by exists d.
    + eapply total_mono; [apply Emplace_in_place_total; [done|done|lia|done]| |done].
      intros [] s1 [Ho Hwf1]. by exists (data_ v).
    + apply Emplace_grow_total; [done|done|lia|lia|lia].
  - intros [] s1 (d & Ho & Hwf1).
    eapply total_bind_Ok.
    { apply get_obj_total. by rewrite Ho, lookup_insert_eq. }
    apply total_ret. by exists d.
  - done.
Qed.
End DefinedEmplace.

Section DefinedAssignment.
Context {T : Type} `{!ElementType T} `{!Environment T}.
Abbreviation state := (state T Vector.t) (only parsing).
Implicit Types (s : state) (p q : ptr) (v : Vector.t) (this other rhs : ref).

(** *** Copy assignment in place *)

Lemma assign_loop_total (dv dr : RawMemory.t) k : ∀ i s,
  0 <= i →
  i + Z.of_nat k <= capacity_ dv → i + Z.of_nat k <= capacity_ dr →
  capacity_ dv < SIZE_MOD →
  (∀ j, i <= j < i + Z.of_nat k →
        live s (buffer_ dr +ₚ j) ∧ live s (buffer_ dv +ₚ j)) →
  total (Vector.assign_loop dv dr i k) s
    (λ _ s', extends s s') (λ e s', element_threw T e ∧ extends s s').
Proof.
  induction k as [|k IH]; intros i s Hi Hv Hr Hcap Hlive.
  { apply total_ret, extends_refl. }
  simpl. rewrite RawMemory_index_total_bind by lia.
  rewrite RawMemory_index_total_bind by lia.
  destruct (Hlive i ltac:(lia)) as [Hsrc Hdst].
  eapply total_seq; [by apply copy_assign_total| |].
  - intros [] s1 Hext.
    rewrite wrap_small by (unfold is_size_t; lia).
    eapply total_mono; [apply IH; [lia..|]| |].
    + intros j Hj. destruct (Hlive j ltac:(lia)). split; by apply Hext.
    + intros [] s2 Hext2. by eapply extends_trans.
    + intros e s2 [He Hext2]. split; [done|]. by eapply extends_trans.
  - intros e s' [-> He]. split; [done|apply extends_refl].
Qed.

Lemma copy_assign_in_place_total this rhs s v r :
  this ≠ rhs →
  objs s !! this = Some v → objs s !! rhs = Some r →
  well_formed s v → well_formed s r →
  size_ r <= capacity_ (data_ v) →
  total (Vector.copy_assign this rhs) s
    (λ _ s', objs s' = <[this := Vector.Make (data_ v) (size_ r)]> (objs s) ∧
             well_formed s' (Vector.Make (data_ v) (size_ r)))
    (λ e s', element_threw T e).
Proof.
  intros Hne Hv Hr Hwfv Hwfr Hle.
  pose proof Hwfv as ((Hszv & Hcapv & Hoffv) & Hownv & Hroomv & Hfillv).
  pose proof Hwfr as ((Hszr & Hcapr & Hoffr) & Hownr & Hroomr & Hfillr).
  unfold Vector.copy_assign. rewrite decide_True by done.
  eapply total_seq with
    (Q1 := λ _ s1, objs s1 = objs s ∧
                   well_formed s1 (Vector.Make (data_ v) (size_ r)))
    (E1 := λ e s', element_threw T e).
  - eapply total_bind_Ok; [by apply get_obj_total|].
    eapply total_bind_Ok; [by apply get_obj_total|].
    unfold RawMemory.Capacity, RawMemory.GetAddress.
    rewrite decide_False by lia. case_decide as Hless.
    + (* fewer elements: assign, then destroy the rest *)
      eapply total_seq; [apply assign_loop_total| |by intros e s' [? _]].
      1-4: lia.
      { intros j Hj. split; [apply Hfillr|apply Hfillv]; lia. }
      intros [] s1 Hext.
      rewrite wrap_small by (unfold is_size_t; lia).
      eapply total_mono; [apply destroy_n_total; [lia|]| |done].
      { intros j Hj. rewrite ptr_add_add. apply Hext, Hfillv. lia. }
      intros [] s2 Hf. pose proof Hf as (Ho2 & _ & Hc2).
      split; [by rewrite Ho2, (extends_objs _ _ Hext)|].
      destruct Hext as [Hsh Hlive]. split_and!.
      * unfold valid. simpl. lia.
      * by apply (owns_frame _ _ _ _ Hf), (owns_frame _ _ _ _ Hsh).
      * intros j Hj. simpl in *.
        apply (frame_in_bounds _ _ _ _ Hf), (frame_in_bounds _ _ _ _ Hsh).
        by apply Hroomv.
      * intros j Hj. simpl in *. unfold live. rewrite Hc2.
        -- apply Hlive, Hfillv. lia.
        -- intros [_ Hrange]. simpl in Hrange. lia.
    + (* more elements: assign, then construct the rest *)
      eapply total_seq; [apply assign_loop_total| |by intros e s' [? _]].
      1-4: lia.
      { intros j Hj. split; [apply Hfillr|apply Hfillv]; lia. }
      intros [] s1 Hext.
      rewrite wrap_small by (unfold is_size_t; lia).
      eapply total_mono; [apply uninitialized_copy_n_total; [lia|]| |by intros e s' [? _]].
      { intros j Hj. rewrite !ptr_add_add. split.
        - apply Hext, Hfillr. lia.
        - eapply extends_in_bounds; [done|]. apply Hroomv. lia. }
      intros [] s2 [Hext2 Hlive2].
      assert (Hext02 : extends s s2) by (by eapply extends_trans).
      split; [by apply extends_objs|].
      destruct Hext02 as [Hsh Hlive]. split_and!.
      * unfold valid. simpl. lia.
      * by apply (owns_frame _ _ _ _ Hsh).
      * intros j Hj. simpl in *. apply (frame_in_bounds _ _ _ _ Hsh).
        by apply Hroomv.
      * intros j Hj. simpl in *. destruct (decide (j < size_ v)).
        -- apply Hlive, Hfillv. lia.
        -- specialize (Hlive2 (j - size_ v) ltac:(lia)).
           rewrite ptr_add_add in Hlive2.
           by replace (size_ v + (j - size_ v)) with j in Hlive2 by lia.
  - intros [] s1 [Ho1 Hwf1].
    eapply total_bind_Ok; [apply get_obj_total; by rewrite Ho1|].
    unfold total. erewrite set_size_total by (by rewrite Ho1). split.
    + simpl. by rewrite Ho1.
    + by apply (well_formed_heap s1).
  - done.
Qed.

(** *** [Reserve] *)

Lemma Reserve_total this n s v :
  objs s !! this = Some v → well_formed s v → n * sizeof < SIZE_MOD →
  total (Vector.Reserve this n) s
    (λ _ s', ∃ d, objs s' = <[this := Vector.Make d (size_ v)]> (objs s) ∧
                  well_formed s' (Vector.Make d (size_ v)))
    (λ e s', match e with
             | bad_alloc => s' = s ∧ allocator_fails T
             | element_exn => ¬ nothrow_element T
             end).
Proof.
  intros Hthis Hwf Hbound. pose proof Hwf as (Hvalid & Hown & Hroom & Hfill).
  pose proof Hvalid as (Hsz & Hcap & Hoff).
  unfold Vector.Reserve.
  eapply total_bind_Ok; [by apply get_obj_total|].
  unfold RawMemory.Capacity. case_decide as Hsmall.
  { apply total_ret. exists (data_ v). rewrite vector_eta.
    split; [by rewrite insert_id|done]. }
  apply grow_total with
    (F := λ nd s1 s3, extends s1 s3 ∧
                      ∀ i, 0 <= i < size_ v → live s3 (buffer_ nd +ₚ i))
    (X := ¬ nothrow_element T).
  - lia.
  - intros nd s1 Hfresh.
    eapply total_mono; [apply transfer_total; [lia|]|done|].
    + intros i Hi. split.
      * eapply fresh_block_live; [done|]. by apply Hfill.
      * eapply fresh_block_room; [done|done|lia].
    + intros e s3 [[-> Hne] Hsh]. done.
  - intros nd s1 s3 Hfresh [Hext Hlive].
    assert (Hthis3 : objs s3 !! this = Some v).
    { rewrite (extends_objs _ _ Hext), (fresh_block_objs _ _ _ _ Hfresh). done. }
    apply retire_last_total; [done|done| | |].
    { intros i Hi. eapply fresh_block_extends_live; [done|done|]. by apply Hfill. }
    { by eapply fresh_block_owns_old. }
    intros s4 s6 Hf Ho Hh. exists (RawMemory.Make (buffer_ nd) (capacity_ nd)).
    split.
    { rewrite Ho, (extends_objs _ _ Hext), (fresh_block_objs _ _ _ _ Hfresh). done. }
    eapply (well_formed_regrown s s1 s3 s4 s6 v nd n); try done; lia.
  - done.
  - done.
Qed.
End DefinedAssignment.

(** ** A copy that throws is not swallowed *)

Lemma post_bind_pure {Σ A B} (m : M Σ A) (k : A → M Σ B) (s : Σ) (P : Prop) :
  post m s (λ _ _, P) (λ _ _, True) → post (bind m k) s (λ _ _, P) (λ _ _, True).
Proof.
  unfold post, bind. destruct (m s) as [a s1| |]; [|done..].
  intros HP. by destruct (k a s1).
Qed.

Section Propagation.
Context {T : Type} `{!ElementType T} `{!Environment T}.
Abbreviation state := (state T Vector.t) (only parsing).
Implicit Types (s : state) (p q first d_first : ptr) (v : Vector.t) (this : ref).

Lemma copy_construct_checked src dst s :
  post (copy_construct src dst) s
    (λ _ s', ∃ x, cell s src = Some (Some x) ∧ copy_throws x = false ∧
                  frame (eq dst) s s')
    (λ _ _, True).
Proof.
  unfold copy_construct. eapply post_seq; [apply load_spec| |done].
  intros x s0 [-> Hx]. destruct (copy_throws x) eqn:Hc; [done|].
  eapply post_mono; [apply construct_at_spec| |done].
  intros [] s' (_ & Hf & _). eauto.
Qed.

(** A copying transfer that returns has copied every element. *)
Lemma uninitialized_loop_copies first d_first k : ∀ cur s,
  blk first ≠ blk d_first →
  post (uninitialized_loop copy_construct first d_first cur k) s
    (λ _ _, ∀ i x, cur <= i < cur + Z.of_nat k →
                   cell s (first +ₚ i) = Some (Some x) → copy_throws x = false)
    (λ _ _, True).
Proof.
  induction k as [|k IH]; intros cur s Hapart.
  { apply post_ret. intros; lia. }
  simpl. eapply post_seq with (E1 := λ _ _, True); [apply post_on_unwind| |done].
  - eapply post_mono; [apply copy_construct_checked|intros ? s1 H; exact H|].
    intros; apply post_trivial.
  - intros [] s1 (x & Hx & Hc & (_ & _ & Hcells)).
    eapply post_mono; [by apply IH| |done].
    intros [] s2 Hrest i y Hi Hy. destruct (decide (i = cur)) as [->|Hne].
    + rewrite Hx in Hy. by injection Hy as <-.
    + apply (Hrest i y); [lia|]. rewrite Hcells; [done|].
      intros Heq. apply (f_equal blk) in Heq. simpl in Heq. congruence.
Qed.

Lemma uninitialized_copy_n_copies first n d_first s :
  blk first ≠ blk d_first →
  post (uninitialized_copy_n first n d_first) s
    (λ _ _, copyable s first n) (λ _ _, True).
Proof.
  intros Hapart. unfold uninitialized_copy_n.
  eapply post_mono; [by apply uninitialized_loop_copies| |done].
  intros [] s' H i x Hi. apply H. lia.
Qed.

(** A growing [Reserve] that copies and returns has copied every
    element. *)
Lemma Reserve_copies this n s v :
  objs s !! this = Some v → valid v → owns s v →
  Vector.transfer_by_move = false → capacity_ (data_ v) < n →
  post (Vector.Reserve this n) s
    (λ _ _, copyable s (buffer_ (data_ v)) (size_ v)) (λ _ _, True).
Proof.
  intros Hthis (Hsz & _) Hown Hcopy Hlt. unfold Vector.Reserve.
  apply post_get_obj. intros v0 Hv0. rewrite Hthis in Hv0. injection Hv0 as <-.
  unfold RawMemory.Capacity, RawMemory.GetAddress.
  rewrite decide_False by lia. rewrite Hcopy.
  eapply post_seq; [apply RawMemory_ctor_spec| |done].
  intros nd s1 Hfresh. cbv beta in Hfresh.
  assert (Hapart : blk (buffer_ (data_ v)) ≠ blk (buffer_ nd)).
  { eapply fresh_block_apart; [done|done|lia]. }
  apply post_bind_pure, post_on_unwind.
  eapply post_mono; [by apply uninitialized_copy_n_copies| |intros; apply post_trivial].
  intros [] s3 Hcopied i x Hi Hx. apply (Hcopied i x Hi).
  by rewrite (fresh_block_cell _ _ _ _ _ Hfresh).
Qed.

(** So has a reallocating [EmplaceBack]. *)
Lemma EmplaceBack_copies this args s v :
  objs s !! this = Some v → owns s v →
  Vector.transfer_by_move = false → size_ v = capacity_ (data_ v) →
  post (Vector.EmplaceBack this args) s
    (λ _ _, copyable s (buffer_ (data_ v)) (size_ v)) (λ _ _, True).
Proof.
  intros Hthis Hown Hcopy Hfull. unfold Vector.EmplaceBack.
  apply post_get_obj. intros v0 Hv0. rewrite Hthis in Hv0. injection Hv0 as <-.
  unfold RawMemory.Capacity, RawMemory.GetAddress.
  rewrite decide_True by done. rewrite Hcopy. cbv zeta.
  apply post_bind_pure.
  eapply post_seq; [apply RawMemory_ctor_spec| |done].
  intros nd s1 Hfresh. cbv beta in Hfresh.
  destruct (decide (capacity_ nd = 0)) as [Hzero|Hnz].
  { (* no block: the construction of the new element is undefined *)
    apply post_bind_pure, post_on_unwind.
    eapply post_seq; [apply RawMemory_plus_spec| |done].
    intros p s1' [-> ->].
    eapply post_seq; [apply construct_spec| |intros; apply post_trivial].
    intros [] s2 (x & _ & Hin & _). exfalso.
    destruct Hfresh as [Hcap Hfresh]. rewrite Hcap in Hzero.
    rewrite decide_True in Hfresh by done. destruct Hfresh as [Hnull ->].
    rewrite Hnull in Hin. by destruct Hin. }
  assert (Hapart : blk (buffer_ (data_ v)) ≠ blk (buffer_ nd)).
  { eapply fresh_block_apart; [done|done|]. destruct Hfresh as [Hcap _]. congruence. }
  apply post_bind_pure, post_on_unwind.
  eapply post_seq; [apply RawMemory_plus_spec| |done].
  intros p s1' [-> ->].
  eapply post_seq; [apply construct_spec| |intros; apply post_trivial].
  intros [] s2 (x & _ & _ & (_ & _ & Hcells) & _).
  eapply post_mono; [by apply uninitialized_copy_n_copies| |intros; apply post_trivial].
  intros [] s3 Hcopied i y Hi Hy. apply (Hcopied i y Hi).
  rewrite Hcells.
  - by rewrite (fresh_block_cell _ _ _ _ _ Hfresh).
  - intros Heq. apply (f_equal blk) in Heq. simpl in Heq. congruence.
Qed.
End Propagation.

(** * The properties of [Vector<T>] *)

(** ** The invariant of the reachable states *)

Section Reachable.
Context {T : Type} `{!ElementType T} `{!Environment T}.
Abbreviation state := (state T Vector.t) (only parsing).

Lemma preserves_discard {A} (I : state → Prop) (m : M state A) :
  preserves I m → preserves I (discard m).
Proof. intros Hm. apply preserves_bind; [done|]. intros. apply preserves_ret. Qed.

Lemma perform_Inv o : well_typed o → preserves Inv (perform o).
Proof.
  intros Ho. destruct o; simpl in *;
    unfold Vector.PushBack, Vector.PushBack_move, Vector.Insert,
           Vector.Insert_move, Vector.move_assign;
    try apply preserves_discard; apply Inv_intro;
    first
      [ apply ctor_default_bounded | apply ctor_sized_bounded
      | apply ctor_copy_bounded | apply ctor_move_bounded | apply dtor_bounded
      | apply Reserve_bounded | apply Resize_bounded | apply EmplaceBack_bounded
      | apply PopBack_bounded | apply Emplace_bounded | apply Erase_bounded
      | apply Swap_bounded | apply copy_assign_vector_bounded
      | apply ctor_default_valid | by apply ctor_sized_valid
      | apply ctor_copy_valid | apply ctor_move_valid | apply dtor_valid
      | intros; by apply Reserve_valid | by apply Resize_valid
      | apply EmplaceBack_valid | apply PopBack_valid | apply Emplace_valid
      | apply Erase_valid | apply Swap_valid | apply copy_assign_valid ].
Qed.

Lemma reachable_Inv s : reachable s → Inv s.
Proof.
  induction 1 as [|o s s' _ IH Ho Hrun|o s e s' _ IH Ho Hrun].
  - split; [intros r v Hr|intros l b Hl]; simpl in *; by rewrite lookup_empty in *.
  - exact (post_ok _ _ _ _ _ _ (perform_Inv o Ho s IH) Hrun).
  - exact (post_thrown _ _ _ _ _ _ (perform_Inv o Ho s IH) Hrun).
Qed.

(** C1: in every state reached by calls of the public operations,
    whether they return or throw, [Size()] of a vector is at most its
    [Capacity()]. *)
Theorem size_le_capacity s this n c s1 s2 :
  reachable s →
  Vector.Size this s = Ok n s1 →
  Vector.Capacity this s = Ok c s2 →
  n <= c.
Proof.
  intros Hreach Hn Hc. apply reachable_Inv in Hreach as [Hvalid _].
  unfold Vector.Size, Vector.Capacity, bind, get_obj, ret in *.
  destruct (objs s !! this) as [v|] eqn:Hv; [|done].
  injection Hn as <- _. injection Hc as <- _.
  apply Hvalid in Hv as (? & _). unfold RawMemory.Capacity. lia.
Qed.

End Reachable.

(** ** Appending *)

Section Appending.
Context {T : Type} `{!ElementType T} `{!Environment T}.
Abbreviation state := (state T Vector.t) (only parsing).
Implicit Types (s : state) (p q : ptr) (v : Vector.t) (this other rhs : ref).

Lemma holds_elements s this vs : holds s this vs → Vector.elements this s = Some vs.
Proof.
  intros (v & (Hv & _) & Hlen & Hcells). unfold Vector.elements. rewrite Hv.
  apply read_loop_Some. split; [lia|done].
Qed.

Lemma holds_Size s this vs :
  holds s this vs → Vector.Size this s = Ok (Z.of_nat (length vs)) s.
Proof.
  intros (v & (Hv & _) & Hlen & _). unfold Vector.Size, bind, get_obj.
  by rewrite Hv, <- Hlen.
Qed.

Lemma constructed_value args x :
  constructed args = Some x → appended_value (emplace_back args) = Some x.
Proof.
  destruct args as [w|w|r]; simpl; [destruct (copy_throws w)|destruct (move_throws w)|];
    congruence.
Qed.

Lemma EmplaceBack_holds s this vs args p s' :
  holds s this vs → Vector.EmplaceBack this args s = Ok p s' →
  ∃ x, constructed args = Some x ∧ holds s' this (vs ++ [x]).
Proof.
  intros (v & (Hv & Hvalid & Hown) & Hlen & Hcells) Hrun.
  pose proof (post_ok _ _ _ _ _ _ (EmplaceBack_spec this args s v Hv Hvalid) Hrun)
    as (x & d & Hx & Ho & Hc & Hoff & _ & -> & Hcont).
  destruct (Hcont Hown) as (Hown' & Hp & Hvals).
  exists x. split; [done|]. exists (Vector.Make d (size_ v + 1)).
  unfold container. split_and!.
  - by rewrite Ho, lookup_insert_eq.
  - destruct Hvalid as (? & ? & ?). unfold valid. simpl. lia.
  - done.
  - rewrite length_app. simpl. lia.
  - intros i w Hi. simpl. apply lookup_app_Some in Hi as [Hi|[Hge Hi]].
    + apply (Hvals _ w); [apply lookup_lt_Some in Hi; lia|]. by apply Hcells.
    + apply list_lookup_singleton_Some in Hi as [Hi <-].
      replace (Z.of_nat i) with (size_ v) by lia. done.
Qed.

Lemma do_append_holds s this vs a p s' :
  holds s this vs → do_append this a s = Ok p s' →
  ∃ x, appended_value a = Some x ∧ holds s' this (vs ++ [x]).
Proof.
  intros Hholds Hrun.
  assert (∃ args, do_append this a = Vector.EmplaceBack this args ∧
                  ∀ x, constructed args = Some x → appended_value a = Some x)
    as (args & Heq & Hval).
  { destruct a as [w|w|args]; eexists; (split; [reflexivity|]);
      apply constructed_value. }
  rewrite Heq in Hrun.
  destruct (EmplaceBack_holds _ _ _ _ _ _ Hholds Hrun) as (x & Hx & Hh). eauto.
Qed.

Lemma do_appends_holds ops : ∀ s this vs s',
  holds s this vs → do_appends this ops s = Ok tt s' →
  ∃ ws, Forall2 (λ a x, appended_value a = Some x) ops ws ∧ holds s' this (vs ++ ws).
Proof.
  induction ops as [|a ops IH]; intros s this vs s' Hholds Hrun; simpl in Hrun.
  - injection Hrun as <-. exists []. split; [constructor|]. by rewrite app_nil_r.
  - unfold bind in Hrun. destruct (do_append this a s) as [p s1| |] eqn:Ha; [|done..].
    destruct (do_append_holds _ _ _ _ _ _ Hholds Ha) as (x & Hx & Hh1).
    destruct (IH _ _ _ _ Hh1 Hrun) as (ws & Hws & Hh2).
    exists (x :: ws). split; [by constructor|]. by rewrite <- app_assoc in Hh2.
Qed.

Lemma ctor_default_holds s this s0 :
  Vector.ctor_default s = Ok this s0 → holds s0 this [].
Proof.
  unfold Vector.ctor_default, new_obj. intros [= <- <-].
  exists (Vector.Make RawMemory.default 0).
  unfold container. split_and!; [| |done|done|done].
  - simpl. by rewrite lookup_insert_eq.
  - apply valid_default.
Qed.

Lemma holds_well_formed s this vs v :
  holds s this vs → objs s !! this = Some v → well_formed s v →
  stores s this vs.
Proof.
  intros (v' & (Hv' & _) & Hlen & Hcells) Hv Hwf.
  rewrite Hv in Hv'. injection Hv' as <-. by exists v.
Qed.

Lemma ctor_default_stores s this s0 :
  Vector.ctor_default s = Ok this s0 → stores s0 this [].
Proof.
  intros Hctor. pose proof (ctor_default_holds _ _ _ Hctor) as Hholds.
  unfold Vector.ctor_default, new_obj in Hctor. injection Hctor as <- <-.
  eapply holds_well_formed; [done|by simpl; rewrite lookup_insert_eq|].
  split_and!; [apply valid_default|done| |]; intros i Hi; simpl in Hi; lia.
Qed.

Lemma EmplaceBack_stores this args s vs :
  stores s this vs →
  Z.max 1 (2 * Z.of_nat (length vs)) * sizeof < SIZE_MOD →
  total (Vector.EmplaceBack this args) s
    (λ p s', ∃ x, constructed args = Some x ∧ stores s' this (vs ++ [x]))
    (λ e s', failed args s e s').
Proof.
  intros Hst Hbound. pose proof (stores_holds _ _ _ Hst) as Hholds.
  destruct Hst as (v & Hv & Hwf & Hlen & Hcells). rewrite <- Hlen in Hbound.
  eapply total_mono;
    [apply total_and;
       [by apply (EmplaceBack_total this args s v)
       |apply post_intro with (Q := λ p s', ∃ x, constructed args = Some x ∧
                                                 holds s' this (vs ++ [x]))
                              (E := λ _ _, True)]
    | |by intros e s' [? _]].
  - intros p s' Hrun. by eapply EmplaceBack_holds.
  - done.
  - intros p s' [(d & Ho & Hwf' & _) (x & Hx & Hh)]. exists x. split; [done|].
    eapply holds_well_formed; [done| |done]. by rewrite Ho, lookup_insert_eq.
Qed.

Lemma constructed_None (args : ctor_args T) :
  constructed args = None → ¬ nothrow_element T ∨ args = forwarded None.
Proof.
  destruct args as [w|w|r]; simpl.
  - destruct (copy_throws w) eqn:Hw; [|done]. intros _. left.
    intros (Hc & _). by rewrite Hc in Hw.
  - destruct (move_throws w) eqn:Hw; [|done]. intros _. left.
    intros (_ & Hm & _). by rewrite Hm in Hw.
  - intros ->. by right.
Qed.

Lemma do_append_total this a s vs :
  stores s this vs →
  Z.max 1 (2 * Z.of_nat (length vs)) * sizeof < SIZE_MOD →
  total (do_append this a) s
    (λ p s', ∃ x, appended_value a = Some x ∧ stores s' this (vs ++ [x]))
    (λ e s', append_threw [a] e).
Proof.
  intros Hst Hbound.
  assert (∃ args, do_append this a = Vector.EmplaceBack this args ∧
                  (∀ x, constructed args = Some x → appended_value a = Some x) ∧
                  (args = forwarded None → a = emplace_back (forwarded None)))
    as (args & -> & Hval & Hnone).
  { destruct a as [w|w|args]; eexists; (split; [reflexivity|]);
      (split; [intros x Hx; exact (constructed_value _ _ Hx)|]); by try intros ->. }
  eapply total_mono; [by apply EmplaceBack_stores| |].
  - intros p s' (x & Hx & Hs). eauto.
  - intros [] s' Hf; simpl in *; [by destruct Hf|].
    destruct Hf as [Hf|Hf]; [|by left].
    destruct (constructed_None _ Hf) as [?|Hargs]; [by left|].
    right. rewrite (Hnone Hargs). apply list_elem_of_here.
Qed.

Lemma do_appends_total ops : ∀ this s vs,
  stores s this vs →
  2 * Z.of_nat (length vs + length ops) * sizeof < SIZE_MOD →
  total (do_appends this ops) s
    (λ _ s', ∃ ws, Forall2 (λ a x, appended_value a = Some x) ops ws ∧
                   stores s' this (vs ++ ws))
    (λ e s', append_threw ops e).
Proof.
  pose proof sizeof_pos as Hpos.
  induction ops as [|a ops IH]; intros this s vs Hst Hbound; simpl.
  { apply total_ret. exists []. split; [constructor|]. by rewrite app_nil_r. }
  eapply total_seq; [apply do_append_total; [done|]| |].
  - simpl in Hbound. nia.
  - intros p s1 (x & Hx & Hs1).
    eapply total_mono; [apply (IH this s1 (vs ++ [x])); [done|]| |].
    + rewrite length_app. simpl in *. by replace (length vs + 1 + length ops)%nat
        with (length vs + S (length ops))%nat by lia.
    + intros [] s' (ws & Hws & Hs'). exists (x :: ws).
      split; [by constructor|]. by rewrite <- app_assoc in Hs'.
    + intros [] s' He; simpl in *; [done|].
      destruct He as [?|Hin]; [by left|]. right. by apply list_elem_of_further.
  - intros [] s' He; simpl in *; [done|].
    destruct He as [?|Hin]; [by left|]. right.
    apply list_elem_of_singleton in Hin as <-. apply list_elem_of_here.
Qed.

(** C2: after [n] appends to a default-constructed vector that all
    return, [Size()] is [n] and iterating over [[begin(), end())]
    reads the appended values in the order of the appends.  As long
    as twice [n] elements take fewer bytes than a [size_t] counts,
    the appends have defined behaviour, and they return unless the
    allocator refuses a request or a constructor of [T] throws. *)
Theorem appends_in_order s this s0 ops :
  Vector.ctor_default s = Ok this s0 →
  (∀ s', do_appends this ops s0 = Ok tt s' →
         Vector.Size this s' = Ok (Z.of_nat (length ops)) s' ∧
         ∃ vs, Forall2 (λ a x, appended_value a = Some x) ops vs ∧
               Vector.elements this s' = Some vs) ∧
  (2 * Z.of_nat (length ops) * sizeof < SIZE_MOD →
   do_appends this ops s0 ≠ Crash ∧
   (¬ allocator_fails T → nothrow_element T →
    emplace_back (forwarded None) ∉ ops →
    ∃ s', do_appends this ops s0 = Ok tt s')).
Proof.
  intros Hctor. split.
  - intros s' Hrun. apply ctor_default_holds in Hctor.
    destruct (do_appends_holds _ _ _ _ _ Hctor Hrun) as (ws & Hws & Hholds).
    simpl in Hholds. split.
    + rewrite (holds_Size _ _ _ Hholds). by rewrite (Forall2_length _ _ _ Hws).
    + exists ws. split; [done|]. by apply holds_elements.
  - intros Hbound. apply ctor_default_stores in Hctor.
    pose proof (do_appends_total ops this s0 [] Hctor Hbound) as Htotal.
    split; [by eapply total_defined|].
    intros Halloc Helt Hargs.
    destruct (total_returns _ _ _ _ Htotal) as ([] & s' & Hrun & _); [|eauto].
    intros [] s' He; simpl in He; [done|]. by destruct He.
Qed.

(** What a call of [EmplaceBack] that returns has done. *)
Lemma EmplaceBack_result this args s v p s' :
  container s this v →
  Vector.EmplaceBack this args s = Ok p s' →
  ∃ v' x,
    objs s' !! this = Some v' ∧
    (size_ v = RawMemory.Capacity (data_ v) →
     RawMemory.Capacity (data_ v') = Z.max 1 (2 * RawMemory.Capacity (data_ v))) ∧
    size_ v' = size_ v + 1 ∧
    p = RawMemory.GetAddress (data_ v') +ₚ (size_ v' - 1) ∧
    constructed args = Some x ∧
    cell s' p = Some (Some x).
Proof.
  intros (Hv & Hvalid & Hown) Hrun.
  pose proof (post_ok _ _ _ _ _ _ (EmplaceBack_spec this args s v Hv Hvalid) Hrun)
    as (x & d & Hx & Ho & Hc & Hoff & Hfull & -> & Hcont).
  destruct (Hcont Hown) as (_ & Hp & _).
  exists (Vector.Make d (size_ v + 1)), x. simpl.
  unfold RawMemory.Capacity, RawMemory.GetAddress.
  split_and!; [by rewrite Ho, lookup_insert_eq| |done| |done|done].
  - intros Heq. by rewrite decide_True in Hfull.
  - f_equal. lia.
Qed.

(** C3: a call of [EmplaceBack], of [PushBack(const T&)] or of
    [PushBack(T&&)] on a container that returns has made the capacity
    [max(1, 2 * capacity)] if the container was full, has made the
    size one more, and returns a reference to the slot [size - 1],
    which holds the new element: the value constructed from the
    arguments of [EmplaceBack], the value given to [PushBack].
    On a well-formed vector each of the three calls has defined
    behaviour, and it returns unless the allocator refuses the new
    block or the constructor of the element throws. *)
Theorem EmplaceBack_grows this args s v :
  container s this v →
  (∀ p s',
     Vector.EmplaceBack this args s = Ok p s' →
     ∃ v' x,
       objs s' !! this = Some v' ∧
       (size_ v = RawMemory.Capacity (data_ v) →
        RawMemory.Capacity (data_ v') = Z.max 1 (2 * RawMemory.Capacity (data_ v))) ∧
       size_ v' = size_ v + 1 ∧
       p = RawMemory.GetAddress (data_ v') +ₚ (size_ v' - 1) ∧
       constructed args = Some x ∧
       cell s' p = Some (Some x)) ∧
  (well_formed s v → Z.max 1 (2 * size_ v) * sizeof < SIZE_MOD →
   Vector.EmplaceBack this args s ≠ Crash ∧
   (¬ allocator_fails T → nothrow_element T → is_Some (constructed args) →
    ∃ p s', Vector.EmplaceBack this args s = Ok p s')) ∧
  (∀ value p s',
     Vector.PushBack this value s = Ok p s' →
     ∃ v',
       objs s' !! this = Some v' ∧
       (size_ v = RawMemory.Capacity (data_ v) →
        RawMemory.Capacity (data_ v') = Z.max 1 (2 * RawMemory.Capacity (data_ v))) ∧
       size_ v' = size_ v + 1 ∧
       p = RawMemory.GetAddress (data_ v') +ₚ (size_ v' - 1) ∧
       cell s' p = Some (Some value)) ∧
  (∀ value p s',
     Vector.PushBack_move this value s = Ok p s' →
     ∃ v',
       objs s' !! this = Some v' ∧
       (size_ v = RawMemory.Capacity (data_ v) →
        RawMemory.Capacity (data_ v') = Z.max 1 (2 * RawMemory.Capacity (data_ v))) ∧
       size_ v' = size_ v + 1 ∧
       p = RawMemory.GetAddress (data_ v') +ₚ (size_ v' - 1) ∧
       cell s' p = Some (Some value)) ∧
  (well_formed s v → Z.max 1 (2 * size_ v) * sizeof < SIZE_MOD →
   ∀ value,
     Vector.PushBack this value s ≠ Crash ∧
     Vector.PushBack_move this value s ≠ Crash ∧
     (¬ allocator_fails T → nothrow_element T →
      (∃ p s', Vector.PushBack this value s = Ok p s') ∧
      (∃ p s', Vector.PushBack_move this value s = Ok p s'))).
Proof.
  intros Hcont.
  assert (Hdef : well_formed s v → Z.max 1 (2 * size_ v) * sizeof < SIZE_MOD →
                 ∀ args',
                   Vector.EmplaceBack this args' s ≠ Crash ∧
                   (¬ allocator_fails T → nothrow_element T →
                    is_Some (constructed args') →
                    ∃ p s', Vector.EmplaceBack this args' s = Ok p s')).
  { intros Hwf Hbound args'. destruct Hcont as (Hv & _).
    pose proof (EmplaceBack_total this args' s v Hv Hwf Hbound) as Htotal.
    split; [by eapply total_defined|].
    intros Halloc Hno [x Hx].
    destruct (total_returns _ _ _ _ Htotal) as (p & s' & Hrun & _); [|eauto].
    intros [] s' He; simpl in He; [by destruct He|].
    destruct He as [He|He]; [congruence|done]. }
  split_and!.
  - intros p s' Hrun. by eapply EmplaceBack_result.
  - intros Hwf Hbound. by apply Hdef.
  - intros value p s' Hrun. unfold Vector.PushBack in Hrun.
    destruct (EmplaceBack_result _ _ _ _ _ _ Hcont Hrun)
      as (v' & x & Ho & Hcap & Hsz & Hp & Hx & Hc).
    exists v'. split_and!; [done..|]. simpl in Hx.
    destruct (copy_throws value); [done|]. by injection Hx as <-.
  - intros value p s' Hrun. unfold Vector.PushBack_move in Hrun.
    destruct (EmplaceBack_result _ _ _ _ _ _ Hcont Hrun)
      as (v' & x & Ho & Hcap & Hsz & Hp & Hx & Hc).
    exists v'. split_and!; [done..|]. simpl in Hx.
    destruct (move_throws value); [done|]. by injection Hx as <-.
  - intros Hwf Hbound value.
    destruct (Hdef Hwf Hbound (copy_of value)) as [Hc1 Hr1].
    destruct (Hdef Hwf Hbound (move_of value)) as [Hc2 Hr2].
    split_and!; [done|done|]. intros Halloc Hno.
    pose proof Hno as (Hcopy & Hmove & _). split.
    + apply Hr1; [done|done|]. simpl. rewrite Hcopy. by eexists.
    + apply Hr2; [done|done|]. simpl. rewrite Hmove. by eexists.
Qed.

(** When the elements are transferred by copy, an exception leaves the
    state as it was. *)
Lemma exception_rolls_back this s v :
  is_nothrow_move_constructible = false →
  is_copy_constructible = true →
  objs s !! this = Some v → valid v →
  (∀ n e s', Vector.Reserve this n s = Throw e s' → s' = s) ∧
  (∀ args e s', Vector.EmplaceBack this args s = Throw e s' → s' = s) ∧
  (∀ value e s', Vector.PushBack this value s = Throw e s' → s' = s) ∧
  (∀ value e s', Vector.PushBack_move this value s = Throw e s' → s' = s).
Proof.
  intros Hmove Hcopy Hv Hvalid.
  assert (Hby : Vector.transfer_by_move = false).
  { unfold Vector.transfer_by_move. by rewrite Hmove, Hcopy. }
  assert (HE : ∀ args e s', Vector.EmplaceBack this args s = Throw e s' → s' = s).
  { intros args e s' Hrun.
    pose proof (post_thrown _ _ _ _ _ _ (EmplaceBack_spec this args s v Hv Hvalid) Hrun)
      as [_ Hsame]. apply Hsame. by left. }
  split_and!; [|done|intros; by eapply HE..].
  intros n e s' Hrun.
  pose proof (post_thrown _ _ _ _ _ _ (Reserve_spec this n s v Hv Hvalid) Hrun)
    as [_ Hsame]. apply Hsame. by left.
Qed.

(** C4: for an element type that is copy-constructible and whose move
    constructor may throw, an exception that leaves [Reserve],
    [EmplaceBack] or [PushBack] leaves the whole state, and so the
    size, the capacity and the elements of the vector, as it was.
    And the failure of a copy is not swallowed: when the copy
    constructor throws on some element, a growing [Reserve] and an
    [EmplaceBack] on a full vector throw. *)
Theorem strong_exception_guarantee this s v :
  is_nothrow_move_constructible = false →
  is_copy_constructible = true →
  objs s !! this = Some v → valid v →
  (∀ n e s', Vector.Reserve this n s = Throw e s' → s' = s) ∧
  (∀ args e s', Vector.EmplaceBack this args s = Throw e s' → s' = s) ∧
  (∀ value e s', Vector.PushBack this value s = Throw e s' → s' = s) ∧
  (∀ value e s', Vector.PushBack_move this value s = Throw e s' → s' = s) ∧
  (well_formed s v → ¬ copyable s (buffer_ (data_ v)) (size_ v) →
   (∀ n, RawMemory.Capacity (data_ v) < n → n * sizeof < SIZE_MOD →
         ∃ e, Vector.Reserve this n s = Throw e s) ∧
   (size_ v = RawMemory.Capacity (data_ v) → 2 * size_ v * sizeof < SIZE_MOD →
    ∀ args, ∃ e, Vector.EmplaceBack this args s = Throw e s)).
Proof.
  intros Hmove Hcopy Hv Hvalid.
  assert (Hby : Vector.transfer_by_move = false).
  { unfold Vector.transfer_by_move. by rewrite Hmove, Hcopy. }
  pose proof (exception_rolls_back this s v Hmove Hcopy Hv Hvalid)
    as (G1 & G2 & G3 & G4).
  split_and!; [done..|]. intros Hwf Hthrows.
  pose proof Hwf as (_ & Hown & _). split.
  - intros n Hn Hbound.
    pose proof (total_defined _ _ _ _ (Reserve_total this n s v Hv Hwf Hbound)) as Hdef.
    destruct (Vector.Reserve this n s) as [[] s'|e s'|] eqn:Hrun; [|  |done].
    + destruct Hthrows.
      exact (post_ok _ _ _ _ _ _ (Reserve_copies this n s v Hv Hvalid Hown Hby Hn) Hrun).
    + exists e. by rewrite (G1 _ _ _ Hrun).
  - intros Hfull Hbound args.
    assert (Hbound' : Z.max 1 (2 * size_ v) * sizeof < SIZE_MOD).
    { pose proof sizeof_pos. destruct Hvalid as (? & ? & _).
      destruct (decide (size_ v = 0)) as [Hz|]; [|lia].
      exfalso. apply Hthrows. intros i x Hi. lia. }
    pose proof (total_defined _ _ _ _ (EmplaceBack_total this args s v Hv Hwf Hbound'))
      as Hdef.
    destruct (Vector.EmplaceBack this args s) as [p s'|e s'|] eqn:Hrun; [| |done].
    + destruct Hthrows.
      exact (post_ok _ _ _ _ _ _
               (EmplaceBack_copies this args s v Hv Hown Hby Hfull) Hrun).
    + exists e. by rewrite (G2 _ _ _ Hrun).
Qed.

End Appending.

(** ** Inserting, erasing and assigning *)


Section Assigning.
Context {T : Type} `{!ElementType T} `{!Environment T}.
Abbreviation state := (state T Vector.t) (only parsing).
Implicit Types (s : state) (p q : ptr) (v : Vector.t) (this other rhs : ref).






Lemma Swap_returns this other s a b :
  objs s !! this = Some a → objs s !! other = Some b →
  ∃ s', Vector.Swap this other s = Ok tt s'.
Proof.
  intros Ha Hb.
  unfold Vector.Swap, Vector.set_size, Vector.set_data, RawMemory.Swap,
    bind, get_obj, put_obj.
  rewrite Ha, Hb. simpl. rewrite Ha. simpl.
  destruct (decide (this = other)) as [->|Hne];
    repeat (first [ rewrite lookup_insert_eq
                  | rewrite lookup_insert_ne by done
                  | rewrite Ha | rewrite Hb ]; simpl);
    eauto.
Qed.

(** C7: the move assignment [a = std::move(b)] of two vectors
    exchanges them: [a] has the size and the elements [b] had, and [b]
    those [a] had. *)
Theorem move_assign_exchanges a b s va vb :
  a ≠ b →
  objs s !! a = Some va → objs s !! b = Some vb →
  ∃ s', Vector.move_assign a b s = Ok tt s' ∧
        objs s' !! a = Some vb ∧ objs s' !! b = Some va ∧
        Vector.Size a s' = Ok (size_ vb) s' ∧
        Vector.Size b s' = Ok (size_ va) s' ∧
        Vector.elements a s' = Vector.elements b s ∧
        Vector.elements b s' = Vector.elements a s.
Proof.
  intros Hne Ha Hb. unfold Vector.move_assign.
  destruct (Swap_returns a b s va vb Ha Hb) as [s' Hrun].
  pose proof (post_ok _ _ _ _ _ _ (Swap_spec a b s va vb Ha Hb) Hrun) as [Hh Ho].
  assert (Ha' : objs s' !! a = Some vb) by (rewrite Ho; by map_lookups).
  assert (Hb' : objs s' !! b = Some va) by (rewrite Ho; by map_lookups).
  assert (Hread : ∀ first k, read_loop first k s' = read_loop first k s).
  { intros first k. revert first. induction k as [|k IH]; intros first; [done|].
    simpl. by rewrite (cell_heap s s'), IH. }
  exists s'. unfold Vector.Size, Vector.elements, bind, get_obj.
  rewrite Ha', Hb', Ha, Hb, !Hread. done.
Qed.

(** C8: the copy assignment of a vector to itself returns and leaves
    the state, and so the size, the capacity and the elements, as it
    was. *)
Theorem copy_self_assign this s v :
  objs s !! this = Some v →
  Vector.copy_assign this this s = Ok tt s.
Proof.
  intros Hv. unfold Vector.copy_assign, Vector.set_size, bind, get_obj, put_obj.
  rewrite decide_False by (by intros ?).
  destruct s as [h o], v as [d n]. unfold set_objs, ret. simpl in *.
  repeat (rewrite Hv; simpl). do 2 f_equal. by apply insert_id.
Qed.

(** C9: the move constructor returns a new vector with what the source
    had and leaves the source as a default-constructed vector is: size
    0, capacity 0 and a null buffer. *)
Theorem move_ctor_empties_source a s va :
  objs s !! a = Some va →
  ∃ b s', Vector.ctor_move a s = Ok b s' ∧
          objs s' !! b = Some va ∧
          objs s' !! a = Some (Vector.Make RawMemory.default 0) ∧
          Vector.Size a s' = Ok 0 s' ∧
          Vector.Capacity a s' = Ok 0 s' ∧
          Vector.begin_ a s' = Ok nullptr s' ∧
          ∀ s0 r s1, Vector.ctor_default s0 = Ok r s1 → objs s1 !! r = objs s' !! a.
Proof.
  intros Ha.
  assert (∃ b s', Vector.ctor_move a s = Ok b s') as (b & s' & Hrun).
  { rewrite ctor_move_unfold. unfold bind at 1. unfold new_obj at 1.
    set (s0 := set_objs _ s). set (b := fresh (dom (objs s))).
    assert (Hfresh : objs s !! b = None) by apply not_elem_of_dom, is_fresh.
    assert (Hba : b ≠ a) by (intros Heq; rewrite Heq, Ha in Hfresh; done).
    destruct (Swap_returns b a s0 (Vector.Make RawMemory.default 0) va) as [s' Hs'].
    - unfold s0. simpl. by rewrite lookup_insert_eq.
    - unfold s0. simpl. by rewrite lookup_insert_ne.
    - exists b, s'. unfold bind. by rewrite Hs'. }
  pose proof (post_ok _ _ _ _ _ _ (ctor_move_spec a s va Ha) Hrun) as (Hb & _ & Ho).
  assert (b ≠ a) by congruence.
  assert (Ha' : objs s' !! a = Some (Vector.Make RawMemory.default 0))
    by (rewrite Ho; by map_lookups).
  exists b, s'. unfold Vector.Size, Vector.Capacity, Vector.begin_, bind, get_obj.
  rewrite Ha'. split_and!; [done|rewrite Ho; by map_lookups|done..|].
  intros s0 r s1. unfold Vector.ctor_default, new_obj. intros [= <- <-].
  simpl. by rewrite lookup_insert_eq.
Qed.

(** A copy assignment that fits the capacity keeps the buffer and the
    blocks of the heap. *)
Lemma copy_assign_in_place this rhs s v r :
  this ≠ rhs →
  objs s !! this = Some v → objs s !! rhs = Some r →
  size_ r <= RawMemory.Capacity (data_ v) →
  (∀ s', Vector.copy_assign this rhs s = Ok tt s' →
         objs s' !! this = Some (Vector.Make (data_ v) (size_ r)) ∧
         Vector.Capacity this s' = Ok (RawMemory.Capacity (data_ v)) s' ∧
         ∀ l, length <$> heap s' !! l = length <$> heap s !! l) ∧
  (∀ e s', Vector.copy_assign this rhs s = Throw e s' →
           objs s' !! this = Some v ∧
           ∀ l, length <$> heap s' !! l = length <$> heap s !! l).
Proof.
  intros Hne Hv Hr Hle.
  assert (Hspec : post (Vector.copy_assign this rhs) s
            (λ _ s', objs s' = <[this := Vector.Make (data_ v) (size_ r)]> (objs s) ∧
                     ∀ l, length <$> heap s' !! l = length <$> heap s !! l)
            (λ _ s', same_shape s s')).
  { unfold Vector.copy_assign. rewrite decide_True by done.
    eapply post_seq with (Q1 := λ _ s', same_shape s s') (E1 := λ _ s', same_shape s s').
    - apply post_get_obj. intros v0 Hv0. apply post_get_obj. intros r0 Hr0.
      rewrite Hv in Hv0. injection Hv0 as <-. rewrite Hr in Hr0. injection Hr0 as <-.
      rewrite decide_False by lia.
      case_decide; apply same_shape_post; intros; preserves_auto.
    - intros ? s1 Hsh. cbv beta in Hsh. destruct Hsh as (Ho1 & Hl1 & _).
      apply post_get_obj. intros r1 Hr1. rewrite Ho1, Hr in Hr1. injection Hr1 as <-.
      eapply post_mono; [apply set_size_spec| |done].
      intros ? s2 (v2 & Hv2 & Hh2 & Ho2). rewrite Ho1, Hv in Hv2. injection Hv2 as <-.
      split; [by rewrite Ho2, Ho1|]. intros l. by rewrite Hh2.
    - done. }
  split.
  - intros s' Hrun. destruct (post_ok _ _ _ _ _ _ Hspec Hrun) as [Ho Hl].
    assert (Hthis : objs s' !! this = Some (Vector.Make (data_ v) (size_ r)))
      by (by rewrite Ho, lookup_insert_eq).
    split_and!; [done| |done].
    unfold Vector.Capacity, bind, get_obj. by rewrite Hthis.
  - intros e s' Hrun. destruct (post_thrown _ _ _ _ _ _ Hspec Hrun) as (Ho & Hl & _).
    split; [by rewrite Ho|done].
Qed.

(** C10: a copy assignment [v = w] of two distinct vectors with
    [w.Size() <= v.Capacity()] that returns leaves [v] its buffer and
    its capacity, and the heap its blocks: nothing is allocated or
    released.  So it is when the assignment throws.  On well-formed
    vectors the assignment has defined behaviour, and it returns when
    no member of [T] throws. *)
Theorem copy_assign_keeps_storage this rhs s v r :
  this ≠ rhs →
  objs s !! this = Some v → objs s !! rhs = Some r →
  size_ r <= RawMemory.Capacity (data_ v) →
  (∀ s', Vector.copy_assign this rhs s = Ok tt s' →
         objs s' !! this = Some (Vector.Make (data_ v) (size_ r)) ∧
         Vector.Capacity this s' = Ok (RawMemory.Capacity (data_ v)) s' ∧
         ∀ l, length <$> heap s' !! l = length <$> heap s !! l) ∧
  (∀ e s', Vector.copy_assign this rhs s = Throw e s' →
           objs s' !! this = Some v ∧
           ∀ l, length <$> heap s' !! l = length <$> heap s !! l) ∧
  (well_formed s v → well_formed s r →
   Vector.copy_assign this rhs s ≠ Crash ∧
   (nothrow_element T → ∃ s', Vector.copy_assign this rhs s = Ok tt s')).
Proof.
  intros Hne Hv Hr Hle.
  destruct (copy_assign_in_place this rhs s v r Hne Hv Hr Hle) as [G1 G2].
  split_and!; [done..|]. intros Hwfv Hwfr.
  pose proof (copy_assign_in_place_total this rhs s v r Hne Hv Hr Hwfv Hwfr Hle)
    as Htotal.
  split; [by eapply total_defined|]. intros Hno.
  destruct (total_returns _ _ _ _ Htotal) as ([] & s' & Hrun & _); [|eauto].
  by intros e s' [_ He].
Qed.

End Assigning.

(** * The code at concrete inputs *)

Section RawMemoryAssignment.
Context {T : Type} `{!ElementType T} `{!Environment T}.

(** The move assignment of [RawMemory] gives [this] the buffer and the
    capacity of [rhs], and leaves [rhs] and the heap as they were. *)
Lemma RawMemory_move_assign_copies this rhs (s : state T RawMemory.t) a b :
  this ≠ rhs → objs s !! this = Some a → objs s !! rhs = Some b →
  RawMemory.move_assign this rhs s = Ok tt (set_objs (<[this := b]> (objs s)) s).
Proof.
  intros Hne Ha Hb. unfold RawMemory.move_assign, bind, get_obj, put_obj.
  rewrite decide_True by done.
  repeat (first [ rewrite Ha | rewrite Hb | rewrite lookup_insert_eq
                | rewrite lookup_insert_ne by done ]; simpl).
  unfold set_objs. simpl. rewrite insert_insert_eq. by destruct b.
Qed.

(** The move constructor of [RawMemory], unlike the assignment, leaves
    its source empty. *)
Lemma RawMemory_move_ctor_empties (other : RawMemory.t) (s : state T RawMemory.t) :
  post (RawMemory.move_ctor other) s
    (λ r _, r = (other, RawMemory.default)) (λ _ _, False).
Proof.
  unfold RawMemory.move_ctor. apply post_try_catch.
  eapply post_seq with (Q1 := λ _ _, True) (E1 := λ _ _, True).
  - apply post_trivial.
  - intros _ s' _. apply post_ret. by destruct other.
  - intros. apply post_crash.
Qed.

End RawMemoryAssignment.

Section Witnesses.
#[local] Existing Instance int_element.
#[local] Existing Instance fragile_element.
#[local] Existing Instance debug_build.

(** C5, at the failing input: after [a = std::move(b)] the source [b]
    still has its buffer and its capacity, [a] and [b] hold the same
    block, the block [a] had is still allocated, and destroying both
    objects releases one block twice. *)
Theorem RawMemory_move_assign_shares_block :
  ∃ s', RawMemory.move_assign 1%positive 2%positive two_buffers = Ok tt s' ∧
        objs s' !! 2%positive = Some (RawMemory.Make (Ptr (Some 2%positive) 0) 2) ∧
        objs s' !! 1%positive = objs s' !! 2%positive ∧
        heap s' = heap two_buffers ∧
        (run RawMemory.dtor (RawMemory.Make (Ptr (Some 2%positive) 0) 2);
         RawMemory.dtor (RawMemory.Make (Ptr (Some 2%positive) 0) 2)) s' = Crash.
Proof.
  eexists. split; [vm_compute; reflexivity|].
  split_and!; vm_compute; reflexivity.
Qed.

Lemma int_nothrow : nothrow_element Z.
Proof. by split_and!. Defined.

Lemma debug_build_allocates (T : Type) : ¬ allocator_fails T.
Proof. intros (h & n & Hfail). discriminate Hfail. Defined.

Lemma well_formed_one_element : well_formed one_element (block_of 1 1 1).
Proof.
  split_and!.
  - unfold valid, SIZE_MOD. simpl. lia.
  - exists [Some 10]. vm_compute. reflexivity.
  - intros i Hi. simpl in Hi. assert (i = 0) as -> by lia.
    exists (Some 10). vm_compute. reflexivity.
  - intros i Hi. simpl in Hi. assert (i = 0) as -> by lia.
    exists 10. vm_compute. reflexivity.
Defined.

Lemma well_formed_three_elements : well_formed three_elements (block_of 3 4 3).
Proof.
  split_and!.
  - unfold valid, SIZE_MOD. simpl. lia.
  - exists [Some 1; Some 2; Some 4; None]. vm_compute. reflexivity.
  - intros i Hi. simpl in Hi.
    assert (i = 0 ∨ i = 1 ∨ i = 2 ∨ i = 3) as [-> | [-> | [-> | ->]]] by lia;
      eexists; vm_compute; reflexivity.
  - intros i Hi. simpl in Hi.
    assert (i = 0 ∨ i = 1 ∨ i = 2) as [-> | [-> | ->]] by lia;
      eexists; vm_compute; reflexivity.
Defined.

Lemma stores_three_elements : stores three_elements 1%positive [1; 2; 4].
Proof.
  exists (block_of 3 4 3). split_and!.
  - vm_compute. reflexivity.
  - apply well_formed_three_elements.
  - reflexivity.
  - intros [|[|[|i]]] w; simpl; intros [= <-]; vm_compute; reflexivity.
Defined.

Lemma well_formed_two_vectors :
  well_formed two_vectors (block_of 3 4 3) ∧ well_formed two_vectors (block_of 5 2 2).
Proof.
  split; split_and!.
  - unfold valid, SIZE_MOD. simpl. lia.
  - exists [Some 1; Some 2; Some 4; None]. vm_compute. reflexivity.
  - intros i Hi. simpl in Hi.
    assert (i = 0 ∨ i = 1 ∨ i = 2 ∨ i = 3) as [-> | [-> | [-> | ->]]] by lia;
      eexists; vm_compute; reflexivity.
  - intros i Hi. simpl in Hi.
    assert (i = 0 ∨ i = 1 ∨ i = 2) as [-> | [-> | ->]] by lia;
      eexists; vm_compute; reflexivity.
  - unfold valid, SIZE_MOD. simpl. lia.
  - exists [Some 7; Some 8]. vm_compute. reflexivity.
  - intros i Hi. simpl in Hi.
    assert (i = 0 ∨ i = 1) as [-> | ->] by lia; eexists; vm_compute; reflexivity.
  - intros i Hi. simpl in Hi.
    assert (i = 0 ∨ i = 1) as [-> | ->] by lia; eexists; vm_compute; reflexivity.
Defined.

Lemma well_formed_fragile_pair : well_formed fragile_pair (block_of 2 2 2).
Proof.
  split_and!.
  - unfold valid, SIZE_MOD. simpl. lia.
  - exists [Some (Fragile 1); Some (Fragile 13)]. vm_compute. reflexivity.
  - intros i Hi. simpl in Hi.
    assert (i = 0 ∨ i = 1) as [-> | ->] by lia; eexists; vm_compute; reflexivity.
  - intros i Hi. simpl in Hi.
    assert (i = 0 ∨ i = 1) as [-> | ->] by lia; eexists; vm_compute; reflexivity.
Defined.

Lemma fragile_pair_not_copyable :
  ¬ copyable fragile_pair (Ptr (Some 2%positive) 0) 2.
Proof.
  intros Hcopy. specialize (Hcopy 1 (Fragile 13) ltac:(lia) eq_refl).
  discriminate Hcopy.
Defined.

Lemma size_le_capacity_witness :
  reachable one_element ∧
  Vector.Size 1%positive one_element = Ok 1 one_element ∧
  Vector.Capacity 1%positive one_element = Ok 1 one_element ∧
  1 <= 1.
Proof.
  assert (Hreach : reachable one_element).
  { apply (reachable_return (call_PushBack 1%positive 10)
             (final_state (Vector.ctor_default no_vectors))); [|exact I|vm_compute; reflexivity].
    apply (reachable_return call_ctor_default no_vectors);
      [apply reachable_empty|exact I|vm_compute; reflexivity]. }
  assert (Hsize : Vector.Size 1%positive one_element = Ok 1 one_element)
    by (vm_compute; reflexivity).
  assert (Hcap : Vector.Capacity 1%positive one_element = Ok 1 one_element)
    by (vm_compute; reflexivity).
  split_and!; [done..|].
  exact (size_le_capacity one_element 1%positive 1 1 one_element one_element
           Hreach Hsize Hcap).
Defined.

Lemma appends_in_order_witness :
  Vector.ctor_default no_vectors = Ok 1%positive (final_state (Vector.ctor_default no_vectors)) ∧
  do_appends 1%positive three_appends (final_state (Vector.ctor_default no_vectors))
    = Ok tt three_elements ∧
  Vector.Size 1%positive three_elements = Ok 3 three_elements ∧
  (∃ vs, Forall2 (λ a x, appended_value a = Some x) three_appends vs ∧
         Vector.elements 1%positive three_elements = Some vs) ∧
  2 * Z.of_nat (length three_appends) * sizeof (T:=Z) < SIZE_MOD ∧
  do_appends 1%positive three_appends (final_state (Vector.ctor_default no_vectors))
    ≠ Crash ∧
  ∃ s', do_appends 1%positive three_appends (final_state (Vector.ctor_default no_vectors))
        = Ok tt s'.
Proof.
  assert (H1 : Vector.ctor_default no_vectors
               = Ok 1%positive (final_state (Vector.ctor_default no_vectors)))
    by (vm_compute; reflexivity).
  assert (H2 : do_appends 1%positive three_appends (final_state (Vector.ctor_default no_vectors))
               = Ok tt three_elements) by (vm_compute; reflexivity).
  assert (H3 : 2 * Z.of_nat (length three_appends) * sizeof (T:=Z) < SIZE_MOD)
    by reflexivity.
  assert (H4 : emplace_back (forwarded None) ∉ three_appends).
  { unfold three_appends. rewrite !not_elem_of_cons. split_and!; [done..|].
    apply not_elem_of_nil. }
  destruct (appends_in_order _ _ _ three_appends H1) as [G1 G2].
  destruct (G1 _ H2) as [G3 G4]. destruct (G2 H3) as [G5 G6].
  split_and!; [done..|].
  exact (G6 (debug_build_allocates Z) int_nothrow H4).
Defined.

Lemma EmplaceBack_grows_witness :
  container one_element 1%positive (block_of 1 1 1) ∧
  Vector.EmplaceBack 1%positive (copy_of 20) one_element
    = Ok (Ptr (Some 2%positive) 1)
         (final_state (Vector.EmplaceBack 1%positive (copy_of 20) one_element)) ∧
  (∃ v' x,
    objs (final_state (Vector.EmplaceBack 1%positive (copy_of 20) one_element)) !! 1%positive
      = Some v' ∧
    (1 = 1 → RawMemory.Capacity (data_ v') = Z.max 1 (2 * 1)) ∧
    size_ v' = 1 + 1 ∧
    Ptr (Some 2%positive) 1 = RawMemory.GetAddress (data_ v') +ₚ (size_ v' - 1) ∧
    constructed (copy_of 20) = Some x ∧
    cell (final_state (Vector.EmplaceBack 1%positive (copy_of 20) one_element))
         (Ptr (Some 2%positive) 1) = Some (Some x)) ∧
  well_formed one_element (block_of 1 1 1) ∧
  Z.max 1 (2 * 1) * sizeof (T:=Z) < SIZE_MOD ∧
  Vector.EmplaceBack 1%positive (copy_of 20) one_element ≠ Crash ∧
  (∃ p s', Vector.EmplaceBack 1%positive (copy_of 20) one_element = Ok p s') ∧
  Vector.PushBack 1%positive 20 one_element
    = Ok (Ptr (Some 2%positive) 1)
         (final_state (Vector.PushBack 1%positive 20 one_element)) ∧
  (∃ v',
    objs (final_state (Vector.PushBack 1%positive 20 one_element)) !! 1%positive
      = Some v' ∧
    (1 = 1 → RawMemory.Capacity (data_ v') = Z.max 1 (2 * 1)) ∧
    size_ v' = 1 + 1 ∧
    Ptr (Some 2%positive) 1 = RawMemory.GetAddress (data_ v') +ₚ (size_ v' - 1) ∧
    cell (final_state (Vector.PushBack 1%positive 20 one_element))
         (Ptr (Some 2%positive) 1) = Some (Some 20)) ∧
  Vector.PushBack_move 1%positive 30 one_element
    = Ok (Ptr (Some 2%positive) 1)
         (final_state (Vector.PushBack_move 1%positive 30 one_element)) ∧
  (∃ v',
    objs (final_state (Vector.PushBack_move 1%positive 30 one_element)) !! 1%positive
      = Some v' ∧
    (1 = 1 → RawMemory.Capacity (data_ v') = Z.max 1 (2 * 1)) ∧
    size_ v' = 1 + 1 ∧
    Ptr (Some 2%positive) 1 = RawMemory.GetAddress (data_ v') +ₚ (size_ v' - 1) ∧
    cell (final_state (Vector.PushBack_move 1%positive 30 one_element))
         (Ptr (Some 2%positive) 1) = Some (Some 30)) ∧
  Vector.PushBack 1%positive 20 one_element ≠ Crash ∧
  Vector.PushBack_move 1%positive 30 one_element ≠ Crash.
Proof.
  assert (H1 : container one_element 1%positive (block_of 1 1 1)).
  { split_and!; [vm_compute; reflexivity|unfold valid, SIZE_MOD; simpl; lia|].
    exists [Some 10]. vm_compute. reflexivity. }
  assert (H2 : Vector.EmplaceBack 1%positive (copy_of 20) one_element
               = Ok (Ptr (Some 2%positive) 1)
                    (final_state (Vector.EmplaceBack 1%positive (copy_of 20) one_element)))
    by (vm_compute; reflexivity).
  assert (H3 : Z.max 1 (2 * 1) * sizeof (T:=Z) < SIZE_MOD) by reflexivity.
  assert (H4 : Vector.PushBack 1%positive 20 one_element
               = Ok (Ptr (Some 2%positive) 1)
                    (final_state (Vector.PushBack 1%positive 20 one_element)))
    by (vm_compute; reflexivity).
  assert (H5 : Vector.PushBack_move 1%positive 30 one_element
               = Ok (Ptr (Some 2%positive) 1)
                    (final_state (Vector.PushBack_move 1%positive 30 one_element)))
    by (vm_compute; reflexivity).
  destruct (EmplaceBack_grows 1%positive (copy_of 20) one_element (block_of 1 1 1) H1)
    as (G1 & G2 & G5 & G6 & G7).
  destruct (G2 well_formed_one_element H3) as [G3 G4].
  destruct (G7 well_formed_one_element H3 20) as (G8 & _ & _).
  destruct (G7 well_formed_one_element H3 30) as (_ & G9 & _).
  split_and!; [done|done|exact (G1 _ _ H2)|apply well_formed_one_element|done|done|
               |done|exact (G5 _ _ _ H4)|done|exact (G6 _ _ _ H5)|done|done].
  apply G4; [apply debug_build_allocates|apply int_nothrow|by eexists].
Defined.

Lemma strong_exception_guarantee_witness :
  is_nothrow_move_constructible (T:=fragile) = false ∧
  is_copy_constructible (T:=fragile) = true ∧
  objs fragile_pair !! 1%positive = Some (block_of 2 2 2) ∧
  valid (block_of 2 2 2) ∧
  Vector.PushBack 1%positive (Fragile 7) fragile_pair = Throw element_exn fragile_pair ∧
  (∀ n e s', Vector.Reserve 1%positive n fragile_pair = Throw e s' → s' = fragile_pair) ∧
  (∀ args e s',
     Vector.EmplaceBack 1%positive args fragile_pair = Throw e s' → s' = fragile_pair) ∧
  (∀ value e s',
     Vector.PushBack 1%positive value fragile_pair = Throw e s' → s' = fragile_pair) ∧
  (∀ value e s',
     Vector.PushBack_move 1%positive value fragile_pair = Throw e s' → s' = fragile_pair) ∧
  well_formed fragile_pair (block_of 2 2 2) ∧
  ¬ copyable fragile_pair (Ptr (Some 2%positive) 0) 2 ∧
  (∃ e, Vector.Reserve 1%positive 4 fragile_pair = Throw e fragile_pair) ∧
  (∀ args, ∃ e, Vector.EmplaceBack 1%positive args fragile_pair = Throw e fragile_pair).
Proof.
  assert (H1 : is_nothrow_move_constructible (T:=fragile) = false) by reflexivity.
  assert (H2 : is_copy_constructible (T:=fragile) = true) by reflexivity.
  assert (H3 : objs fragile_pair !! 1%positive = Some (block_of 2 2 2))
    by (vm_compute; reflexivity).
  assert (H4 : valid (block_of 2 2 2)) by (unfold valid, SIZE_MOD; simpl; lia).
  pose proof (strong_exception_guarantee 1%positive fragile_pair _ H1 H2 H3 H4)
    as (G1 & G2 & G3 & G4 & G5).
  destruct (G5 well_formed_fragile_pair fragile_pair_not_copyable) as [G6 G7].
  split_and!; [done|done|done|done|vm_compute; reflexivity|done|done|done|done
              |apply well_formed_fragile_pair|apply fragile_pair_not_copyable| |].
  - apply (G6 4); reflexivity.
  - apply G7; reflexivity.
Defined.



Lemma move_assign_exchanges_witness :
  1%positive ≠ 2%positive ∧
  objs two_vectors !! 1%positive = Some (block_of 3 4 3) ∧
  objs two_vectors !! 2%positive = Some (block_of 5 2 2) ∧
  ∃ s', Vector.move_assign 1%positive 2%positive two_vectors = Ok tt s' ∧
        objs s' !! 1%positive = Some (block_of 5 2 2) ∧
        objs s' !! 2%positive = Some (block_of 3 4 3) ∧
        Vector.Size 1%positive s' = Ok 2 s' ∧
        Vector.Size 2%positive s' = Ok 3 s' ∧
        Vector.elements 1%positive s' = Vector.elements 2%positive two_vectors ∧
        Vector.elements 2%positive s' = Vector.elements 1%positive two_vectors.
Proof.
  assert (H1 : 1%positive ≠ 2%positive) by (intros H; discriminate H).
  assert (H2 : objs two_vectors !! 1%positive = Some (block_of 3 4 3))
    by (vm_compute; reflexivity).
  assert (H3 : objs two_vectors !! 2%positive = Some (block_of 5 2 2))
    by (vm_compute; reflexivity).
  split_and!; [done..|].
  exact (move_assign_exchanges 1%positive 2%positive two_vectors _ _ H1 H2 H3).
Defined.

Lemma copy_self_assign_witness :
  objs one_element !! 1%positive = Some (block_of 1 1 1) ∧
  Vector.copy_assign 1%positive 1%positive one_element = Ok tt one_element.
Proof.
  assert (H1 : objs one_element !! 1%positive = Some (block_of 1 1 1))
    by (vm_compute; reflexivity).
  split; [done|]. exact (copy_self_assign 1%positive one_element _ H1).
Defined.

Lemma move_ctor_empties_source_witness :
  objs one_element !! 1%positive = Some (block_of 1 1 1) ∧
  ∃ b s', Vector.ctor_move 1%positive one_element = Ok b s' ∧
          objs s' !! b = Some (block_of 1 1 1) ∧
          objs s' !! 1%positive = Some (Vector.Make RawMemory.default 0) ∧
          Vector.Size 1%positive s' = Ok 0 s' ∧
          Vector.Capacity 1%positive s' = Ok 0 s' ∧
          Vector.begin_ 1%positive s' = Ok nullptr s' ∧
          ∀ (s0 : state Z Vector.t) r s1,
            Vector.ctor_default s0 = Ok r s1 →
            objs s1 !! r = objs s' !! 1%positive.
Proof.
  assert (H1 : objs one_element !! 1%positive = Some (block_of 1 1 1))
    by (vm_compute; reflexivity).
  split; [done|]. exact (move_ctor_empties_source 1%positive one_element _ H1).
Defined.

Lemma copy_assign_keeps_storage_witness :
  1%positive ≠ 2%positive ∧
  objs two_vectors !! 1%positive = Some (block_of 3 4 3) ∧
  objs two_vectors !! 2%positive = Some (block_of 5 2 2) ∧
  2 <= 4 ∧
  Vector.copy_assign 1%positive 2%positive two_vectors
    = Ok tt (final_state (Vector.copy_assign 1%positive 2%positive two_vectors)) ∧
  Vector.Capacity 1%positive
    (final_state (Vector.copy_assign 1%positive 2%positive two_vectors))
    = Ok 4 (final_state (Vector.copy_assign 1%positive 2%positive two_vectors)) ∧
  well_formed two_vectors (block_of 3 4 3) ∧
  well_formed two_vectors (block_of 5 2 2) ∧
  Vector.copy_assign 1%positive 2%positive two_vectors ≠ Crash ∧
  ∃ s', Vector.copy_assign 1%positive 2%positive two_vectors = Ok tt s'.
Proof.
  assert (H1 : 1%positive ≠ 2%positive) by (intros H; discriminate H).
  assert (H2 : objs two_vectors !! 1%positive = Some (block_of 3 4 3))
    by (vm_compute; reflexivity).
  assert (H3 : objs two_vectors !! 2%positive = Some (block_of 5 2 2))
    by (vm_compute; reflexivity).
  assert (H4 : size_ (block_of 5 2 2) <= RawMemory.Capacity (data_ (block_of 3 4 3)))
    by (simpl; lia).
  assert (H5 : Vector.copy_assign 1%positive 2%positive two_vectors
               = Ok tt (final_state (Vector.copy_assign 1%positive 2%positive two_vectors)))
    by (vm_compute; reflexivity).
  destruct (copy_assign_keeps_storage 1%positive 2%positive two_vectors _ _ H1 H2 H3 H4)
    as (G1 & G2 & G3).
  destruct well_formed_two_vectors as [W1 W2].
  destruct (G3 W1 W2) as [G4 G5].
  split_and!; [done|done|done|lia|done|exact (proj1 (proj2 (G1 _ H5)))|done|done|done|].
  exact (G5 int_nothrow).
Defined.

End Witnesses.

(** * Further properties of the operations *)

(** ** Slots and blocks *)

Section Slots.
Context {T : Type} `{!ElementType T} `{!Environment T} {Obj : Type}.
Abbreviation state := (state T Obj) (only parsing).
Implicit Types (s : state) (p q first : ptr) (P : ptr → Prop).

Lemma write_cell_set_objs p c (o : gmap ref Obj) s :
  write_cell p c (set_objs o s) = set_objs o (write_cell p c s).
Proof.
  unfold write_cell. simpl. destruct (blk p) as [l|]; [|done].
  by destruct (heap s !! l).
Qed.

Lemma destroy_at_live p s :
  live s p → destroy_at p s = Ok tt (write_cell p None s).
Proof. intros [x Hx]. unfold destroy_at. by rewrite Hx. Qed.

Lemma construct_at_in_bounds p x s :
  in_bounds s p → construct_at p x s = Ok tt (write_cell p (Some x) s).
Proof. intros [c Hc]. unfold construct_at. by rewrite Hc. Qed.

End Slots.

(** ** Removing elements *)

Section Removing.
Context {T : Type} `{!ElementType T} `{!Environment T}.
Abbreviation state := (state T Vector.t) (only parsing).
Implicit Types (s : state) (p q : ptr) (v : Vector.t) (this other rhs : ref).

Lemma stores_lookup s this vs v :
  stores s this vs → objs s !! this = Some v →
  well_formed s v ∧ size_ v = Z.of_nat (length vs) ∧
  ∀ (i : nat) w, vs !! i = Some w →
                 cell s (buffer_ (data_ v) +ₚ Z.of_nat i) = Some (Some w).
Proof.
  intros (v' & Hv' & Hwf & Hlen & Hcells) Hv.
  rewrite Hv in Hv'. by injection Hv' as <-.
Qed.



(** A vector cut down to its first [n] elements, the others
    destroyed. *)
Lemma well_formed_shrunk s s' v n :
  well_formed s v → 0 <= n <= size_ v →
  frame (range (buffer_ (data_ v) +ₚ n) (size_ v - n)) s s' →
  well_formed s' (Vector.Make (data_ v) n).
Proof.
  intros ((Hsz & Hcap & Hoff) & Hown & Hroom & Hfill) Hn Hf. split_and!.
  - unfold valid. simpl. lia.
  - by apply (owns_frame _ _ _ _ Hf).
  - intros i Hi. apply (frame_in_bounds _ _ _ _ Hf). by apply Hroom.
  - intros i Hi. simpl in *. unfold live. destruct Hf as (_ & _ & Hc).
    rewrite Hc; [apply Hfill; lia|]. unfold range. simpl. lia.
Qed.

(** The state [PopBack] ends in. *)
Lemma PopBack_run this s v :
  objs s !! this = Some v → valid v → 0 < size_ v →
  live s (buffer_ (data_ v) +ₚ (size_ v - 1)) →
  Vector.PopBack this s =
    Ok tt (set_objs (<[this := Vector.Make (data_ v) (size_ v - 1)]> (objs s))
                    (write_cell (buffer_ (data_ v) +ₚ (size_ v - 1)) None s)).
Proof.
  intros Hv (Hsz & Hcap & Hoff) Hpos Hlive.
  unfold Vector.PopBack, bind. rewrite (get_obj_total _ _ _ Hv).
  unfold RawMemory.GetAddress, destroy_n. simpl. unfold bind.
  rewrite ptr_add_add. replace (size_ v + -1) with (size_ v - 1) by lia.
  rewrite (destroy_at_live _ _ Hlive). unfold ret.
  rewrite (set_size_total this _ _ v) by (by rewrite objs_write_cell).
  rewrite objs_write_cell, wrap_small by (unfold is_size_t; lia). done.
Qed.

Lemma PopBack_stores this s v vs x :
  objs s !! this = Some v → stores s this (vs ++ [x]) →
  ∃ s', Vector.PopBack this s = Ok tt s' ∧ stores s' this vs ∧
        objs s' = <[this := Vector.Make (data_ v) (size_ v - 1)]> (objs s) ∧
        cell s' (buffer_ (data_ v) +ₚ (size_ v - 1)) = Some None ∧
        frame (eq (buffer_ (data_ v) +ₚ (size_ v - 1))) s
              (set_objs (objs s) s').
Proof.
  intros Hv Hst. destruct (stores_lookup _ _ _ _ Hst Hv) as (Hwf & Hlen & Hcells).
  rewrite length_app in Hlen. simpl in Hlen.
  pose proof Hwf as (Hvalid & Hown & Hroom & Hfill).
  pose proof Hvalid as (Hsz & Hcap & Hoff).
  assert (Hlive : live s (buffer_ (data_ v) +ₚ (size_ v - 1))) by (apply Hfill; lia).
  eexists. split; [apply PopBack_run; [done|done|lia|done]|].
  pose proof (frame_write_cell (buffer_ (data_ v) +ₚ (size_ v - 1)) None s
                (live_in_bounds _ _ Hlive)) as Hf.
  split_and!; [|done| |].
  2:{ rewrite (cell_heap (write_cell (buffer_ (data_ v) +ₚ (size_ v - 1)) None s))
        by done.
      apply cell_write_cell_eq. by apply live_in_bounds. }
  - exists (Vector.Make (data_ v) (size_ v - 1)). split_and!.
    + simpl. by rewrite lookup_insert_eq.
    + apply (well_formed_heap (write_cell (buffer_ (data_ v) +ₚ (size_ v - 1)) None s));
        [done|].
      apply (well_formed_shrunk s); [done|lia|].
      eapply frame_mono; [|done]. intros q <-. unfold range. simpl. split; [done|lia].
    + simpl. lia.
    + intros i w Hi. simpl. pose proof (lookup_lt_Some _ _ _ Hi) as Hlt.
      rewrite (cell_heap (write_cell (buffer_ (data_ v) +ₚ (size_ v - 1)) None s))
        by done.
      destruct Hf as (_ & _ & Hc). rewrite Hc.
      * apply Hcells. by rewrite lookup_app_l.
      * intros Heq. apply ptr_add_inj in Heq. lia.
  - destruct Hf as (Ho & Hl & Hc). split_and!; [by simpl|..].
    + intros l. apply Hl.
    + intros q Hq. rewrite <- (Hc q Hq). by apply cell_heap.
Qed.

(** [PopBack] on an empty vector. *)
Lemma PopBack_empty this s v :
  objs s !! this = Some v → valid v → size_ v = 0 →
  Vector.PopBack this s = Crash.
Proof.
  intros Hv (Hsz & Hcap & Hoff) Hz.
  unfold Vector.PopBack, bind. rewrite (get_obj_total _ _ _ Hv).
  unfold RawMemory.GetAddress, destroy_n. simpl. unfold bind, destroy_at, cell.
  simpl. rewrite Hoff, Hz. simpl.
  destruct (blk (buffer_ (data_ v))) as [l|]; [|done].
  by destruct (heap s !! l).
Qed.

(** The sequence [Erase] leaves. *)
Lemma Erase_stores this idx s v vs :
  objs s !! this = Some v → stores s this vs →
  0 <= idx < Z.of_nat (length vs) →
  total (Vector.Erase this (buffer_ (data_ v) +ₚ idx)) s
    (λ it s', stores s' this (delete (Z.to_nat idx) vs) ∧
              objs s' = <[this := Vector.Make (data_ v) (size_ v - 1)]> (objs s) ∧
              it = buffer_ (data_ v) +ₚ idx)
    (λ e s', element_threw T e).
Proof.
  intros Hv Hst Hidx. destruct (stores_lookup _ _ _ _ Hst Hv) as (Hwf & Hlen & Hcells).
  pose proof Hwf as (Hvalid & _).
  eapply total_mono;
    [apply total_and;
       [apply (Erase_total this idx s v); [done|done|lia]
       |apply (Erase_spec this idx s v); [done|done|lia]]
    | |by intros e s' [? _]].
  intros it s' [(Ho & Hwf' & Hit) (_ & _ & _ & Hlow & Hhigh)].
  split_and!; [|done..].
  exists (Vector.Make (data_ v) (size_ v - 1)). split_and!.
  - by rewrite Ho, lookup_insert_eq.
  - done.
  - simpl. rewrite length_delete; [lia|]. apply lookup_lt_is_Some. lia.
  - intros i w Hi. simpl. destruct (decide (Z.of_nat i < idx)) as [Hlt|Hge].
    + rewrite list_lookup_delete_lt in Hi by lia.
      apply Hlow; [lia|]. by apply Hcells.
    + rewrite list_lookup_delete_ge in Hi by lia.
      pose proof (lookup_lt_Some _ _ _ Hi) as Hlt.
      apply Hhigh; [lia|]. specialize (Hcells _ _ Hi).
      by replace (Z.of_nat (S i)) with (Z.of_nat i + 1) in Hcells by lia.
Qed.

(** [Erase(end())] *)
Lemma Erase_end this s v :
  objs s !! this = Some v → valid v →
  Vector.Erase this (buffer_ (data_ v) +ₚ size_ v) s = Crash.
Proof.
  intros Hv (Hsz & Hcap & Hoff).
  unfold Vector.Erase, bind. rewrite (end_total _ _ _ Hv) by lia.
  unfold std_move, bind, range_length, ptr_diff. simpl.
  rewrite decide_True by done. rewrite decide_False by lia. done.
Qed.

(** [Erase(end() - 1)] and [PopBack()] *)
Lemma Erase_last this s v :
  objs s !! this = Some v → well_formed s v → 0 < size_ v →
  ∃ s', Vector.PopBack this s = Ok tt s' ∧
        Vector.Erase this (buffer_ (data_ v) +ₚ (size_ v - 1)) s =
          Ok (buffer_ (data_ v) +ₚ (size_ v - 1)) s'.
Proof.
  intros Hv (Hvalid & Hown & Hroom & Hfill) Hpos.
  pose proof Hvalid as (Hsz & Hcap & Hoff).
  assert (Hlive : live s (buffer_ (data_ v) +ₚ (size_ v - 1))) by (apply Hfill; lia).
  eexists. split; [apply PopBack_run; [done|done|lia|done]|].
  unfold Vector.Erase, bind. rewrite (end_total _ _ _ Hv) by lia.
  unfold std_move, bind, range_length, ptr_diff. simpl.
  rewrite decide_True by done.
  replace (off (buffer_ (data_ v)) + size_ v -
           (off (buffer_ (data_ v)) + (size_ v - 1) + 1)) with 0 by lia.
  simpl. unfold ret. rewrite (get_obj_total _ _ _ Hv).
  rewrite (set_size_total this _ _ v) by done.
  rewrite wrap_small by (unfold is_size_t; lia).
  unfold get_obj. simpl. rewrite lookup_insert_eq. simpl.
  unfold destroy_n, RawMemory.GetAddress. simpl. unfold bind.
  rewrite destroy_at_live.
  - by rewrite write_cell_set_objs.
  - destruct Hlive as [x Hx]. exists x. by rewrite (cell_heap s).
Qed.

End Removing.

(** ** Where an exception comes from *)

Section Outcomes.
Context {Σ : Type}.
Implicit Types s : Σ.

(** A specification may name the outcome it speaks of. *)
Lemma total_outcome {A} (m : M Σ A) s Q E :
  total m s Q E →
  total m s (λ a s', m s = Ok a s' ∧ Q a s') (λ e s', m s = Throw e s' ∧ E e s').
Proof. unfold total. by destruct (m s). Qed.

End Outcomes.

Section Thrown.
Context {T : Type} `{!ElementType T} `{!Environment T}.
Abbreviation state := (state T Vector.t) (only parsing).
Implicit Types (s : state) (p q src dst first : ptr) (v : Vector.t) (this : ref).

(** The exception of [p[0] = std::move(src[0])]. *)
Lemma move_assign_thrown src dst s :
  post (move_assign src dst) s (λ _ _, True)
    (λ e s', e = element_exn ∧ s' = s ∧
             ∃ old x, cell s dst = Some (Some old) ∧ cell s src = Some (Some x) ∧
                      move_assign_throws old x = true).
Proof.
  unfold move_assign. eapply post_seq; [apply load_spec| |done].
  intros x s' [-> Hx]. eapply post_seq; [apply load_spec| |done].
  intros old s' [-> Hold]. destruct (move_assign_throws old x) eqn:Hthrow.
  - apply post_throw. split_and!; [done..|]. by exists old, x.
  - eapply post_seq; [apply store_spec| |done].
    intros ? s1 _. eapply post_mono; [apply store_spec|done|done].
Qed.

(** The exception of [std::move] of a range one slot to the left: a
    move assignment threw on an element of the range. *)
Lemma move_loop_thrown k : ∀ first s,
  post (move_loop first (first +ₚ (-1)) k) s (λ _ _, True)
    (λ e s', e = element_exn ∧
             ∃ i old x, 0 <= i < Z.of_nat k ∧
                        cell s (first +ₚ i) = Some (Some x) ∧
                        move_assign_throws old x = true).
Proof.
  induction k as [|k IH]; intros first s; [done|].
  simpl move_loop.
  replace (first +ₚ (-1) +ₚ 1) with (first +ₚ 1 +ₚ (-1))
    by (apply ptr_eq; simpl; [done|lia]).
  eapply post_seq;
    [apply (post_and _ _ _ _ _ _ (move_assign_spec first (first +ₚ (-1)) s)
              (move_assign_thrown first (first +ₚ (-1)) s))| |].
  2:{ intros e s' (_ & -> & _ & old & x & _ & Hx & Hthrow). split; [done|].
      exists 0, old, x. rewrite ptr_add_0. repeat split; (done || lia). }
  intros ? s1 [(v & _ & Hf1 & _) _].
  eapply post_mono; [apply IH|done|].
  intros e s2 (-> & i & old & x & Hi & Hx & Hthrow). split; [done|].
  exists (1 + i), old, x. split; [lia|]. split; [|done].
  rewrite ptr_add_add in Hx. destruct Hf1 as (_ & _ & Hc). rewrite <- Hc; [done|].
  intros [Heq|Heq]; apply (f_equal off) in Heq; ptr_solve.
Qed.

(** The exception of [Erase]: a move assignment threw on an element
    behind the one to erase, and the size is as it was. *)
Lemma Erase_thrown this idx s v vs :
  objs s !! this = Some v → stores s this vs →
  0 <= idx < Z.of_nat (length vs) →
  post (Vector.Erase this (buffer_ (data_ v) +ₚ idx)) s (λ _ _, True)
    (λ e s', e = element_exn ∧ objs s' = objs s ∧
             ∃ (j : nat) old x, (Z.to_nat idx < j)%nat ∧ vs !! j = Some x ∧
                                move_assign_throws old x = true).
Proof.
  intros Hthis Hst Hidx.
  destruct (stores_lookup _ _ _ _ Hst Hthis) as (Hwf & Hlen & Hcells).
  pose proof Hwf as ((Hsz & Hcap & Hoff) & _).
  cut (post (Vector.Erase this (buffer_ (data_ v) +ₚ idx)) s (λ _ _, True)
         (λ e s', e = element_exn ∧
                  ∃ (j : nat) old x, (Z.to_nat idx < j)%nat ∧ vs !! j = Some x ∧
                                     move_assign_throws old x = true)).
  { intros H. eapply post_mono;
      [exact (post_and _ _ _ _ _ _
                (Erase_spec this idx s v Hthis (conj Hsz (conj Hcap Hoff)) ltac:(lia)) H)
      |done|].
    intros e s' [Ho [He Hx]]. done. }
  unfold Vector.Erase. set (buf := buffer_ (data_ v)).
  eapply post_seq; [apply end_spec| |done].
  intros e s0 [-> (v0 & Hv0 & ->)]. rewrite Hthis in Hv0. injection Hv0 as <-.
  fold buf. unfold std_move, range_length, ptr_diff. simpl.
  rewrite decide_True by done.
  set (n := off buf + size_ v - (off buf + idx + 1)).
  assert (Hn : n = size_ v - idx - 1) by (unfold n; lia).
  rewrite decide_True by lia. apply post_bind, post_bind, post_ret.
  replace (buf +ₚ idx) with (buf +ₚ idx +ₚ 1 +ₚ -1) at 2
    by (apply ptr_eq; simpl; [done|lia]).
  eapply post_mono; [apply move_loop_thrown| |].
  - intros ? s1 _. apply post_get_obj. intros v1 _.
    eapply post_seq; [apply set_size_spec| |done].
    intros ? s2 _. apply post_get_obj. intros v3 _.
    eapply post_seq; [apply destroy_n_spec; lia| |done].
    intros ? s3 _. by apply post_ret.
  - intros e s1 (-> & i & old & x & Hi & Hx & Hthrow). split; [done|].
    rewrite Z2Nat.id in Hi by lia.
    exists (Z.to_nat (idx + 1 + i)), old, x. split; [lia|]. split; [|done].
    replace (buf +ₚ idx +ₚ 1 +ₚ i) with (buf +ₚ Z.of_nat (Z.to_nat (idx + 1 + i))) in Hx
      by (apply ptr_eq; simpl; [done|lia]).
    destruct (lookup_lt_is_Some_2 vs (Z.to_nat (idx + 1 + i)) ltac:(lia)) as [w Hw].
    pose proof (Hcells _ _ Hw) as Hw'. fold buf in Hw'. congruence.
Qed.

End Thrown.

(** ** Adding elements *)

Section Adding.
Context {T : Type} `{!ElementType T} `{!Environment T}.
Abbreviation state := (state T Vector.t) (only parsing).
Implicit Types (s : state) (p q : ptr) (v : Vector.t) (this other rhs : ref).

(** [EmplaceBack] into spare capacity: the state it ends in. *)
Lemma EmplaceBack_in_place_run this args s v x :
  objs s !! this = Some v → valid v → size_ v < capacity_ (data_ v) →
  in_bounds s (buffer_ (data_ v) +ₚ size_ v) →
  constructed args = Some x →
  Vector.EmplaceBack this args s =
    Ok (buffer_ (data_ v) +ₚ size_ v)
       (set_objs (<[this := Vector.Make (data_ v) (size_ v + 1)]> (objs s))
                 (write_cell (buffer_ (data_ v) +ₚ size_ v) (Some x) s)).
Proof.
  intros Hv (Hsz & Hcap & Hoff) Hlt Hin Hx.
  unfold Vector.EmplaceBack, bind. rewrite (get_obj_total _ _ _ Hv).
  unfold RawMemory.Capacity. rewrite decide_False by lia.
  rewrite RawMemory_plus_total by lia.
  unfold construct, construct_local, bind. rewrite Hx. unfold ret.
  rewrite (construct_at_in_bounds _ _ _ Hin).
  rewrite (get_obj_total this v) by (by rewrite objs_write_cell).
  rewrite (set_size_total this _ _ v) by (by rewrite objs_write_cell).
  rewrite objs_write_cell.
  rewrite (get_obj_total this (Vector.Make (data_ v) (wrap (size_ v + 1))))
    by (simpl; by rewrite lookup_insert_eq).
  simpl. rewrite (wrap_small (size_ v + 1)) by (unfold is_size_t; lia).
  replace (size_ v + 1 - 1) with (size_ v) by lia.
  rewrite (wrap_small (size_ v)) by (unfold is_size_t; lia).
  by rewrite RawMemory_index_total by (simpl; lia).
Qed.

(** [EmplaceBack] into spare capacity when the constructor throws. *)
Lemma EmplaceBack_in_place_throws this args s v :
  objs s !! this = Some v → valid v → size_ v < capacity_ (data_ v) →
  constructed args = None →
  Vector.EmplaceBack this args s = Throw element_exn s.
Proof.
  intros Hv (Hsz & Hcap & Hoff) Hlt Hx.
  unfold Vector.EmplaceBack, bind. rewrite (get_obj_total _ _ _ Hv).
  unfold RawMemory.Capacity. rewrite decide_False by lia.
  rewrite RawMemory_plus_total by lia.
  unfold construct, construct_local, bind. by rewrite Hx.
Qed.




(** *** [Emplace] *)

Lemma Emplace_keeps_buffer this idx args s v :
  objs s !! this = Some v → well_formed s v → 0 <= idx <= size_ v →
  size_ v < capacity_ (data_ v) →
  post (Vector.Emplace this (buffer_ (data_ v) +ₚ idx) args) s
    (λ _ s', objs s' = <[this := Vector.Make (data_ v) (size_ v + 1)]> (objs s))
    (λ _ _, True).
Proof.
  intros Hthis Hwf Hidx Hlt.
  pose proof Hwf as (Hvalid & _). pose proof Hvalid as (Hsz & Hcap & Hoff).
  apply total_post. unfold Vector.Emplace.
  eapply total_bind_Ok; [by apply begin_total|].
  unfold ptr_diff. simpl. rewrite decide_True by done.
  replace (off (buffer_ (data_ v)) + idx - off (buffer_ (data_ v))) with idx by lia.
  rewrite (wrap_small idx) by (unfold is_size_t; lia).
  apply total_bind, total_ret.
  eapply total_bind_Ok; [by apply get_obj_total|].
  eapply total_seq with
    (Q1 := λ _ s1, objs s1 = <[this := Vector.Make (data_ v) (size_ v + 1)]> (objs s))
    (E1 := λ _ _, True).
  - unfold RawMemory.Capacity. case_decide as Hend; [|case_decide as Hroom; [|lia]].
    + unfold total, bind.
      destruct (constructed args) as [x|] eqn:Hx.
      * rewrite (EmplaceBack_in_place_run this args s v x); try done.
        destruct Hwf as (_ & _ & Hr & _). apply Hr. lia.
      * by rewrite (EmplaceBack_in_place_throws this args s v).
    + eapply total_mono; [apply Emplace_in_place_total; [done|done|lia|done]| |done].
      by intros [] s1 [Ho Hwf1].
  - intros [] s1 Ho.
    eapply total_bind_Ok.
    { apply get_obj_total. by rewrite Ho, lookup_insert_eq. }
    by apply total_ret.
  - done.
Qed.

(** The sequence [Emplace] leaves. *)
Lemma Emplace_stores this idx args s v vs :
  objs s !! this = Some v → stores s this vs →
  0 <= idx <= Z.of_nat (length vs) →
  Z.max 1 (2 * Z.of_nat (length vs)) * sizeof < SIZE_MOD →
  total (Vector.Emplace this (buffer_ (data_ v) +ₚ idx) args) s
    (λ it s', ∃ x d,
       constructed args = Some x ∧
       stores s' this (take (Z.to_nat idx) vs ++ x :: drop (Z.to_nat idx) vs) ∧
       objs s' = <[this := Vector.Make d (size_ v + 1)]> (objs s) ∧
       it = buffer_ d +ₚ idx ∧
       cell s' it = Some (Some x) ∧
       (size_ v < capacity_ (data_ v) → d = data_ v))
    (λ e s', failed args s e s').
Proof.
  intros Hv Hst Hidx Hbound.
  destruct (stores_lookup _ _ _ _ Hst Hv) as (Hwf & Hlen & Hcells).
  pose proof Hwf as (Hvalid & Hown & _). pose proof Hvalid as (Hsz & Hcap & Hoff).
  rewrite <- Hlen in *.
  assert (Hkeep : post (Vector.Emplace this (buffer_ (data_ v) +ₚ idx) args) s
    (λ _ s', size_ v < capacity_ (data_ v) →
             objs s' = <[this := Vector.Make (data_ v) (size_ v + 1)]> (objs s))
    (λ _ _, True)).
  { destruct (decide (size_ v < capacity_ (data_ v))) as [Hlt|Hge].
    - eapply post_mono; [by apply Emplace_keeps_buffer| |done].
      by intros ? ? ? _.
    - eapply post_mono; [apply post_trivial| |done]. by intros ? ? _ ?. }
  eapply total_mono;
    [apply total_and;
       [apply total_and;
          [by apply (Emplace_total this idx args s v)
          |by apply (Emplace_spec this (buffer_ (data_ v) +ₚ idx) args s v)]
       |apply Hkeep]
    | |by intros e s' [[? _] _]].
  intros it s' [[(d & Ho & Hwf' & Hit) (d0 & Hd0 & Hins & _)] Hk].
  unfold ptr_diff in Hd0. simpl in Hd0. rewrite decide_True in Hd0 by done.
  injection Hd0 as <-.
  replace (off (buffer_ (data_ v)) + idx - off (buffer_ (data_ v))) with idx
    in Hins by lia.
  rewrite wrap_small in Hins by (unfold is_size_t; lia).
  destruct Hins as (x & d1 & Hx & Ho1 & Hc1 & Hoff1 & Hcont).
  assert (d1 = d) as ->.
  { assert (Heq : Some (Vector.Make d1 (size_ v + 1)) = Some (Vector.Make d (size_ v + 1))).
    { rewrite <- (lookup_insert_eq (objs s) this (Vector.Make d1 (size_ v + 1))).
      rewrite <- Ho1, Ho. by rewrite lookup_insert_eq. }
    by injection Heq. }
  destruct Hcont as (_ & Hat & Hlow & Hhigh); [done|lia|].
  exists x, d. split_and!; [done| |done|done|by rewrite Hit|].
  - exists (Vector.Make d (size_ v + 1)). split_and!.
    + by rewrite Ho, lookup_insert_eq.
    + done.
    + simpl. rewrite length_app, length_take. simpl. rewrite length_drop. lia.
    + intros i w Hi. simpl.
      assert (Htake : length (take (Z.to_nat idx) vs) = Z.to_nat idx)
        by (rewrite length_take; lia).
      destruct (decide (Z.of_nat i < idx)) as [Hlt|Hge].
      * rewrite lookup_app_l in Hi by lia.
        rewrite lookup_take_lt in Hi by lia.
        apply Hlow; [lia|]. by apply Hcells.
      * rewrite lookup_app_r in Hi by lia. rewrite Htake in Hi.
        destruct (i - Z.to_nat idx)%nat as [|j] eqn:Hj; simpl in Hi.
        { injection Hi as <-. by replace (Z.of_nat i) with idx by lia. }
        rewrite lookup_drop in Hi.
        pose proof (lookup_lt_Some _ _ _ Hi) as Hlt.
        replace (Z.of_nat i) with (Z.of_nat (Z.to_nat idx + j) + 1) by lia.
        apply Hhigh; [lia|]. by apply Hcells.
  - intros Hlt. specialize (Hk Hlt).
    assert (Heq : Some (Vector.Make d (size_ v + 1)) =
                  Some (Vector.Make (data_ v) (size_ v + 1))).
    { rewrite <- (lookup_insert_eq (objs s) this (Vector.Make d (size_ v + 1))).
      rewrite <- Ho, Hk. by rewrite lookup_insert_eq. }
    by injection Heq.
Qed.

(** The two overloads of [Insert]. *)
Lemma Insert_stores this idx (value : T) s v vs (args : ctor_args T) :
  args = copy_of value ∨ args = move_of value →
  objs s !! this = Some v → stores s this vs →
  0 <= idx <= Z.of_nat (length vs) →
  Z.max 1 (2 * Z.of_nat (length vs)) * sizeof < SIZE_MOD →
  total (Vector.Emplace this (buffer_ (data_ v) +ₚ idx) args) s
    (λ it s', stores s' this
                (take (Z.to_nat idx) vs ++ value :: drop (Z.to_nat idx) vs) ∧
              cell s' it = Some (Some value) ∧
              ∃ d, objs s' = <[this := Vector.Make d (size_ v + 1)]> (objs s) ∧
                   it = buffer_ d +ₚ idx)
    (λ e s', failed args s e s').
Proof.
  intros Hargs Hv Hst Hidx Hbound.
  eapply total_mono; [by apply (Emplace_stores this idx args s v vs)| |done].
  intros it s' (x & d & Hx & Hst' & Ho & Hit & Hc & _).
  assert (x = value) as ->.
  { destruct Hargs as [-> | ->]; simpl in Hx.
    - destruct (copy_throws value); congruence.
    - destruct (move_throws value); congruence. }
  split_and!; [done|done|]. by exists d.
Qed.

End Adding.

(** ** Changing the capacity and the size *)

Section HeapEquality.
Context {T : Type} `{!ElementType T} `{!Environment T} {Obj : Type}.
Abbreviation state := (state T Obj) (only parsing).
Implicit Types (s : state) (p q first : ptr) (P : ptr → Prop).

(** Two blocks of the shape of [s] that agree on every slot are the
    same heap. *)
Lemma frame_heap_eq P s s' : frame P s s' → (∀ q, ¬ P q) → heap s' = heap s.
Proof.
  intros (Ho & Hl & Hc) HP. apply map_eq. intros l. specialize (Hl l).
  destruct (heap s' !! l) as [b'|] eqn:E', (heap s !! l) as [b|] eqn:E;
    simpl in Hl; try done.
  f_equal. apply list_eq. intros i.
  specialize (Hc (Ptr (Some l) (Z.of_nat i)) (HP _)).
  unfold cell in Hc. simpl in Hc. rewrite E', E in Hc.
  rewrite !decide_True in Hc by lia. by rewrite Nat2Z.id in Hc.
Qed.

(** Releasing a block forgets what was written to it. *)
Lemma frame_delete P s s' l :
  frame P s s' → (∀ q, P q → blk q = Some l) →
  delete l (heap s') = delete l (heap s).
Proof.
  intros Hf HP. apply map_eq. intros l'. destruct (decide (l' = l)) as [->|Hne].
  - by rewrite !lookup_delete_eq.
  - rewrite !lookup_delete_ne by done. eapply frame_block; [done|].
    intros q Hq. rewrite (HP q Hq). congruence.
Qed.

Lemma destroy_total first last n s :
  ptr_diff last first = Some n → 0 <= n →
  (∀ i, 0 <= i < n → live s (first +ₚ i)) →
  total (destroy first last) s
    (λ _ s', frame (range first n) s s') (λ _ _, False).
Proof.
  intros Hd Hn Hlive. unfold destroy, range_length. rewrite Hd.
  rewrite decide_True by done. eapply total_bind_Ok; [done|].
  by apply destroy_n_total.
Qed.

(** [std::uninitialized_value_construct_n] when [T()] returns. *)
Lemma value_construct_loop_total x0 first k : ∀ cur s,
  value_init = Some x0 →
  (∀ i, cur <= i < cur + Z.of_nat k → in_bounds s (first +ₚ i)) →
  total (uninitialized_loop (λ _ dst, value_construct dst) first first cur k) s
    (λ _ s', frame (range (first +ₚ cur) (Z.of_nat k)) s s' ∧
             ∀ i, cur <= i < cur + Z.of_nat k →
                  cell s' (first +ₚ i) = Some (Some x0))
    (λ _ _, False).
Proof.
  induction k as [|k IH]; intros cur s Hinit Hin.
  { apply total_ret. split; [apply frame_refl|]. intros i Hi. simpl in Hi. lia. }
  simpl uninitialized_loop.
  assert (Hcur : in_bounds s (first +ₚ cur)) by (apply Hin; lia).
  eapply total_bind_Ok.
  { unfold on_unwind, try_catch, value_construct. rewrite Hinit.
    by rewrite (construct_at_in_bounds _ _ _ Hcur). }
  pose proof (frame_write_cell (first +ₚ cur) (Some x0) s Hcur) as Hf1.
  eapply total_mono; [apply IH; [done|]| |done].
  - intros i Hi. apply (frame_in_bounds _ _ _ _ Hf1). apply Hin. lia.
  - intros _ s' [Hf Hc]. split.
    + eapply frame_trans; eapply frame_mono; [|exact Hf1| |exact Hf].
      * intros q <-. unfold range. simpl. split; [done|lia].
      * intros q [Hb Ho]. unfold range in *. simpl in *. split; [done|lia].
    + intros i Hi. destruct (decide (i = cur)) as [->|Hne]; [|apply Hc; lia].
      destruct Hf as (_ & _ & Hc'). rewrite Hc'.
      * by apply cell_write_cell_eq.
      * unfold range. simpl. lia.
Qed.

Lemma uninitialized_value_construct_n_total x0 first n s :
  value_init = Some x0 → 0 <= n →
  (∀ i, 0 <= i < n → in_bounds s (first +ₚ i)) →
  total (uninitialized_value_construct_n first n) s
    (λ _ s', frame (range first n) s s' ∧
             ∀ i, 0 <= i < n → cell s' (first +ₚ i) = Some (Some x0))
    (λ _ _, False).
Proof.
  intros Hinit Hn Hin. unfold uninitialized_value_construct_n.
  eapply total_mono; [apply (value_construct_loop_total x0); [done|]| |done].
  - intros i Hi. apply Hin. lia.
  - intros _ s' [Hf Hc]. rewrite ptr_add_0, Z2Nat.id in Hf by done.
    split; [done|]. intros i Hi. apply Hc. lia.
Qed.

(** [std::uninitialized_value_construct_n] when [T()] throws. *)
Lemma uninitialized_value_construct_n_throws first n s :
  value_init = None → 0 < n →
  uninitialized_value_construct_n first n s = Throw element_exn s.
Proof.
  intros Hinit Hn. unfold uninitialized_value_construct_n.
  destruct (Z.to_nat n) as [|k] eqn:Hk; [lia|]. simpl.
  unfold bind, on_unwind, try_catch, value_construct. by rewrite Hinit.
Qed.

End HeapEquality.

Section Capacity.
Context {T : Type} `{!ElementType T} `{!Environment T}.
Abbreviation state := (state T Vector.t) (only parsing).
Implicit Types (s : state) (p q : ptr) (v : Vector.t) (this other rhs : ref).




(** *** [Resize] *)

Lemma stores_take s s' this v vs n :
  objs s !! this = Some v → stores s this vs → 0 <= n <= size_ v →
  objs s' !! this = Some (Vector.Make (data_ v) n) →
  frame (range (buffer_ (data_ v) +ₚ n) (size_ v - n)) s (set_objs (objs s) s') →
  stores s' this (take (Z.to_nat n) vs).
Proof.
  intros Hv Hst Hn Hv' Hf.
  destruct (stores_lookup _ _ _ _ Hst Hv) as (Hwf & Hlen & Hcells).
  exists (Vector.Make (data_ v) n). split_and!.
  - done.
  - apply (well_formed_heap (set_objs (objs s) s')); [done|].
    by apply (well_formed_shrunk s).
  - simpl. rewrite length_take. lia.
  - intros i w Hi. simpl.
    pose proof (lookup_lt_Some _ _ _ Hi) as Hlt. rewrite length_take in Hlt.
    rewrite lookup_take_lt in Hi by lia.
    rewrite (cell_heap (set_objs (objs s) s')) by done.
    destruct Hf as (_ & _ & Hc). rewrite Hc; [by apply Hcells|].
    unfold range. simpl. lia.
Qed.

(** [Resize] to a smaller size. *)
Lemma Resize_shrink this n s v vs :
  objs s !! this = Some v → stores s this vs → 0 <= n <= size_ v →
  total (Vector.Resize this n) s
    (λ _ s', stores s' this (take (Z.to_nat n) vs) ∧
             objs s' = <[this := Vector.Make (data_ v) n]> (objs s) ∧
             frame (range (buffer_ (data_ v) +ₚ n) (size_ v - n)) s
                   (set_objs (objs s) s'))
    (λ _ _, False).
Proof.
  intros Hv Hst Hn. destruct (stores_lookup _ _ _ _ Hst Hv) as (Hwf & Hlen & Hcells).
  pose proof Hwf as (Hvalid & Hown & Hroom & Hfill).
  pose proof Hvalid as (Hsz & Hcap & Hoff).
  unfold Vector.Resize.
  eapply total_bind_Ok; [by apply get_obj_total|].
  rewrite decide_False by lia.
  eapply total_bind_Ok; [done|].
  eapply total_bind_Ok; [by apply get_obj_total|].
  eapply total_seq with
    (Q1 := λ _ s1, frame (range (buffer_ (data_ v) +ₚ n) (size_ v - n)) s s1)
    (E1 := λ _ _, False).
  - case_decide as Hlt.
    + apply destroy_total; [|lia|].
      * unfold ptr_diff, RawMemory.GetAddress. simpl.
        rewrite decide_True by done. f_equal. lia.
      * intros i Hi. unfold RawMemory.GetAddress. rewrite ptr_add_add.
        apply Hfill. lia.
    + apply total_ret. apply frame_refl.
  - intros _ s1 Hf. cbv beta in Hf.
    assert (Hv1 : objs s1 !! this = Some v) by (by destruct Hf as (-> & _)).
    unfold total. rewrite (set_size_total this n s1 v Hv1).
    assert (Ho : objs s1 = objs s) by (by destruct Hf).
    assert (Hf' : frame (range (buffer_ (data_ v) +ₚ n) (size_ v - n)) s
                    (set_objs (objs s)
                       (set_objs (<[this := Vector.Make (data_ v) n]> (objs s1)) s1))).
    { destruct Hf as (_ & Hl & Hc). by split_and!. }
    split; [|split; [by rewrite Ho|done]].
    apply (stores_take s _ this v vs n); [done|done|done| |done].
    simpl. by rewrite lookup_insert_eq.
  - done.
Qed.


End Capacity.

(** ** Constructors and the destructor *)

Section FreshBlocks.
Context {T : Type} `{!ElementType T} `{!Environment T} {Obj : Type}.
Abbreviation state := (state T Obj) (only parsing).
Implicit Types (s : state) (p q first : ptr) (P : ptr → Prop).

Lemma cell_block s q :
  is_Some (cell s q) → ∃ l, blk q = Some l ∧ is_Some (heap s !! l).
Proof.
  intros Hq. apply in_bounds_iff in Hq as (l & b & Hl & Hb & _).
  exists l. by rewrite Hb.
Qed.

(** A slot of [s] is not touched by what happens in a fresh block. *)
Lemma fresh_frame_cell n nd s s1 s3 q :
  fresh_block n nd s s1 →
  frame (λ q, blk q = blk (buffer_ nd)) s1 s3 →
  is_Some (cell s q) → cell s3 q = cell s q.
Proof.
  intros Hfresh (_ & _ & Hc) Hq. destruct (cell_block _ _ Hq) as (l & Hl & Hin).
  assert (Hne : blk q ≠ blk (buffer_ nd)).
  { pose proof Hfresh as [_ Hf]. case_decide.
    - destruct Hf as [-> _]. simpl. congruence.
    - eapply fresh_block_apart; [done| |done]. by rewrite Hl. }
  rewrite Hc by done. by eapply fresh_block_cell.
Qed.

(** The slots of a fresh block are raw. *)
Lemma fresh_block_raw n nd s s1 q :
  fresh_block n nd s s1 → blk q = blk (buffer_ nd) → ¬ live s1 q.
Proof.
  intros [_ Hf] Hq [x Hx]. unfold cell in Hx. destruct (decide (n = 0)) as [Hz|Hz].
  - destruct Hf as [Hb _]. rewrite Hq, Hb in Hx. done.
  - destruct Hf as (l & Hb & _ & ->). rewrite Hq, Hb in Hx. simpl in Hx.
    rewrite lookup_insert_eq in Hx. case_decide; [|done].
    apply lookup_replicate in Hx as [? _]. done.
Qed.

Lemma fresh_frame_extends n nd s s1 s3 :
  fresh_block n nd s s1 →
  frame (λ q, blk q = blk (buffer_ nd)) s1 s3 → extends s1 s3.
Proof.
  intros Hfresh Hf. split; [by eapply frame_shape|].
  intros q Hq. destruct Hf as (_ & _ & Hc). unfold live. rewrite Hc; [done|].
  intros Hb. by eapply fresh_block_raw.
Qed.

Lemma fresh_frame_keeps n nd s s1 s3 l :
  fresh_block n nd s s1 →
  frame (λ q, blk q = blk (buffer_ nd)) s1 s3 →
  is_Some (heap s !! l) → is_Some (heap s3 !! l).
Proof.
  intros Hfresh Hf Hl. apply (frame_heap _ _ _ _ Hf). by eapply fresh_block_keeps.
Qed.

End FreshBlocks.

Section Constructing.
Context {T : Type} `{!ElementType T} `{!Environment T}.
Abbreviation state := (state T Vector.t) (only parsing).
Implicit Types (s : state) (p q : ptr) (v : Vector.t) (this other rhs : ref).

(** A vector whose object and slots are as they were stores what it
    stored. *)
Lemma stores_preserved s s' this vs :
  stores s this vs → objs s' !! this = objs s !! this →
  (∀ l, is_Some (heap s !! l) → is_Some (heap s' !! l)) →
  (∀ q, is_Some (cell s q) → cell s' q = cell s q) →
  stores s' this vs.
Proof.
  intros (v & Hv & (Hvalid & Hown & Hroom & Hfill) & Hlen & Hcells) Ho Hkeep Hc.
  exists v. split_and!; [by rewrite Ho| |done|].
  - split_and!; [done|..].
    + unfold owns in *. destruct (blk (buffer_ (data_ v))); [|done]. by apply Hkeep.
    + intros i Hi. unfold in_bounds. rewrite Hc; by apply Hroom.
    + intros i Hi. unfold live. rewrite Hc; [by apply Hfill|].
      apply live_in_bounds. by apply Hfill.
  - intros i w Hi. rewrite Hc; [by apply Hcells|]. by rewrite (Hcells _ _ Hi).
Qed.

(** A vector in a fresh block. *)
Lemma well_formed_fresh n nd s s1 s3 m :
  fresh_block n nd s s1 → 0 <= m <= n → n * sizeof < SIZE_MOD →
  extends s1 s3 →
  (∀ i, 0 <= i < m → live s3 (buffer_ nd +ₚ i)) →
  well_formed s3 (Vector.Make nd m).
Proof.
  intros Hfresh Hm Hb Hext Hlive. pose proof sizeof_pos as Hpos.
  assert (Hcap : capacity_ nd = n) by (by destruct Hfresh).
  split_and!.
  - unfold valid. simpl. split_and!; [lia|lia|nia|by eapply fresh_block_off].
  - destruct (decide (n = 0)) as [->|Hn].
    + destruct Hfresh as [_ Hf]. rewrite decide_True in Hf by done.
      destruct Hf as [Hbuf _]. unfold owns. simpl. by rewrite Hbuf.
    + destruct Hext as [Hsh _]. apply (owns_frame _ _ _ _ Hsh).
      by eapply fresh_block_owns.
  - intros i Hi. simpl in *. eapply extends_in_bounds; [done|].
    eapply fresh_block_room; [done|done|lia].
  - intros i Hi. simpl in *. by apply Hlive.
Qed.

(** The shape shared by [Vector(size_t)] and [Vector(const Vector&)]:
    a block for [n] elements, filled by [fill]. *)
Lemma construct_vector_total n (fill : RawMemory.t → M state unit) s (vs : list T)
    (X : Prop) :
  Z.of_nat (length vs) = n → n * sizeof < SIZE_MOD →
  (∀ nd s1, fresh_block n nd s s1 →
     total (fill nd) s1
       (λ _ s3, frame (λ q, blk q = blk (buffer_ nd)) s1 s3 ∧
                ∀ (i : nat) w, vs !! i = Some w →
                  cell s3 (buffer_ nd +ₚ Z.of_nat i) = Some (Some w))
       (λ e s3, frame (λ q, blk q = blk (buffer_ nd)) s1 s3 ∧
                e = element_exn ∧ X)) →
  total (do data <- RawMemory.ctor n;
         run on_unwind (fill data) (RawMemory.dtor data);
         new_obj (Vector.Make data n)) s
    (λ r s', objs s !! r = None ∧ stores s' r vs ∧
             (∀ other ws, stores s other ws → stores s' other ws) ∧
             ∃ d s1, objs s' = <[r := Vector.Make d n]> (objs s) ∧
                     capacity_ d = n ∧ fresh_block n d s s1 ∧
                     frame (λ q, blk q = blk (buffer_ d)) s1 (set_objs (objs s) s'))
    (λ e s', s' = s ∧
             match e with
             | bad_alloc => allocator_fails T
             | element_exn => X
             end).
Proof.
  intros Hlen Hbound Hfill.
  eapply total_seq; [apply RawMemory_ctor_total| |by intros ? ? (-> & -> & ?)].
  intros nd s1 Hfresh. cbv beta in Hfresh.
  assert (Hcap : capacity_ nd = n) by (by destruct Hfresh).
  assert (Ho1 : objs s1 = objs s) by (by eapply fresh_block_objs).
  eapply total_seq; [apply total_on_unwind| |intros e s' He; exact He].
  - eapply total_mono; [by apply Hfill|intros ? s3 HF; exact HF|].
    intros e s3 (Hf & -> & HX). cbv beta.
    eapply total_mono; [apply RawMemory_dtor_total| |done].
    + by eapply fresh_block_off.
    + destruct (blk (buffer_ nd)) as [l|] eqn:Hl; [|done].
      apply (frame_heap _ _ _ _ Hf).
      destruct Hfresh as [_ Hfr]. case_decide.
      * destruct Hfr as [Hb _]. by rewrite Hb in Hl.
      * destruct Hfr as (l' & Hb & _ & ->). rewrite Hb in Hl. simpl in Hl.
        injection Hl as ->. simpl. by rewrite lookup_insert_eq.
    + intros ? s' [Ho Hh]. split; [|done].
      apply (fresh_block_released n nd s s1 s3 s'); [done|done|done|].
      destruct (blk (buffer_ nd)) as [l|] eqn:Hl; [|done]. split; [|done].
      apply (frame_heap _ _ _ _ Hf).
      destruct Hfresh as [_ Hfr]. case_decide.
      * destruct Hfr as [Hb _]. by rewrite Hb in Hl.
      * destruct Hfr as (l' & Hb & _ & ->). rewrite Hb in Hl. simpl in Hl.
        injection Hl as ->. simpl. by rewrite lookup_insert_eq.
  - intros ? s3 [Hf Hvals]. unfold total, new_obj.
    assert (Ho3 : objs s3 = objs s) by (destruct Hf as (-> & _); done).
    rewrite Ho3. set (r := fresh (dom (objs s))).
    assert (Hr : objs s !! r = None) by apply not_elem_of_dom, is_fresh.
    pose proof (fresh_frame_extends _ _ _ _ _ Hfresh Hf) as Hext.
    split_and!; [done| | |].
    + exists (Vector.Make nd n). split_and!.
      * simpl. by rewrite lookup_insert_eq.
      * apply (well_formed_heap s3); [done|].
        apply (well_formed_fresh n nd s s1); [done|lia|done|done|].
        intros i Hi.
        destruct (lookup_lt_is_Some_2 vs (Z.to_nat i) ltac:(lia)) as [w Hw].
        exists w. specialize (Hvals _ _ Hw). by rewrite Z2Nat.id in Hvals by lia.
      * done.
      * intros i w Hi. simpl. rewrite (cell_heap s3) by done. by apply Hvals.
    + intros other ws Hst. pose proof Hst as (vo & Hvo & _).
      apply (stores_preserved s); [done| | |].
      * simpl. rewrite lookup_insert_ne; [done|]. intros <-. congruence.
      * intros l Hl. simpl. by eapply fresh_frame_keeps.
      * intros q Hq. rewrite (cell_heap s3) by done.
        by eapply fresh_frame_cell.
    + exists nd, s1. split_and!; [done|done|done|].
      destruct Hf as (_ & Hl & Hc). split_and!; [by simpl|done|done].
Qed.

(** [Vector(size_t)] when [T()] returns. *)
Lemma ctor_sized_stores n s x0 :
  0 <= n → n * sizeof < SIZE_MOD → value_init = Some x0 →
  total (Vector.ctor_sized n) s
    (λ r s', objs s !! r = None ∧ stores s' r (replicate (Z.to_nat n) x0) ∧
             (∀ other ws, stores s other ws → stores s' other ws) ∧
             ∃ d s1, objs s' = <[r := Vector.Make d n]> (objs s) ∧
                     capacity_ d = n ∧ fresh_block n d s s1 ∧
                     frame (λ q, blk q = blk (buffer_ d)) s1 (set_objs (objs s) s'))
    (λ e s', s' = s ∧ e = bad_alloc ∧ allocator_fails T).
Proof.
  intros Hn Hbound Hinit. unfold Vector.ctor_sized.
  eapply total_mono;
    [apply (construct_vector_total n _ s (replicate (Z.to_nat n) x0) False);
       [rewrite length_replicate; lia|done|]
    |done|by intros [] s' [-> ?]].
  intros nd s1 Hfresh. unfold RawMemory.GetAddress.
  eapply total_mono;
    [apply (uninitialized_value_construct_n_total x0); [done|done|]| |done].
  - intros i Hi. eapply fresh_block_room; [done|done|lia].
  - intros _ s3 [Hf Hc]. split.
    + eapply frame_mono; [|done]. by intros q [? _].
    + intros i w Hi. apply lookup_replicate in Hi as [-> Hi]. apply Hc. lia.
Qed.

(** [Vector(size_t)] when [T()] throws. *)
Lemma ctor_sized_throws n s :
  0 < n → value_init = None →
  total (Vector.ctor_sized n) s (λ _ _, False)
    (λ e s', s' = s ∧ match e with
                      | bad_alloc => allocator_fails T
                      | element_exn => True
                      end).
Proof.
  intros Hn Hinit. unfold Vector.ctor_sized.
  eapply total_seq; [apply RawMemory_ctor_total| |by intros ? ? (-> & -> & ?)].
  intros nd s1 Hfresh. cbv beta in Hfresh.
  apply total_bind. unfold total, on_unwind, try_catch.
  rewrite uninitialized_value_construct_n_throws by done.
  pose proof Hfresh as [_ Hfr]. rewrite decide_False in Hfr by lia.
  destruct Hfr as (l & Hb & Hnew & ->).
  unfold bind, RawMemory.dtor, RawMemory.Deallocate, operator_delete.
  rewrite Hb. simpl. rewrite lookup_insert_eq. simpl. split; [|done].
  apply state_eq; [|done]. simpl. by rewrite delete_insert_id.
Qed.

(** [Vector(const Vector&)] *)
Lemma ctor_copy_stores other s vs :
  stores s other vs → Z.of_nat (length vs) * sizeof < SIZE_MOD →
  total (Vector.ctor_copy other) s
    (λ r s', objs s !! r = None ∧ stores s' r vs ∧
             (∀ other ws, stores s other ws → stores s' other ws) ∧
             ∃ d s1, objs s' = <[r := Vector.Make d (Z.of_nat (length vs))]> (objs s) ∧
                     capacity_ d = Z.of_nat (length vs) ∧
                     fresh_block (Z.of_nat (length vs)) d s s1 ∧
                     frame (λ q, blk q = blk (buffer_ d)) s1 (set_objs (objs s) s'))
    (λ e s', s' = s ∧
             match e with
             | bad_alloc => allocator_fails T
             | element_exn => ¬ nothrow_element T
             end).
Proof.
  intros Hst Hbound. pose proof Hst as (o & Ho & Hwf & Hlen & Hcells).
  pose proof Hwf as (Hvalid & Hown & Hroom & Hfill).
  unfold Vector.ctor_copy.
  eapply total_bind_Ok; [by apply get_obj_total|]. rewrite Hlen.
  apply (construct_vector_total _ _ s vs (¬ nothrow_element T)); [done|done|].
  intros nd s1 Hfresh. unfold RawMemory.GetAddress.
  assert (Hcopy :
    total (uninitialized_copy_n (buffer_ (data_ o)) (Z.of_nat (length vs))
                                (buffer_ nd)) s1
      (λ _ s3, frame (λ q, blk q = blk (buffer_ nd)) s1 s3 ∧
               ∀ (i : nat) w, vs !! i = Some w →
                 cell s3 (buffer_ nd +ₚ Z.of_nat i) = Some (Some w))
      (λ e s3, frame (λ q, blk q = blk (buffer_ nd)) s1 s3 ∧
               e = element_exn ∧ ¬ nothrow_element T)).
  { eapply total_mono;
      [apply total_and;
         [apply uninitialized_copy_n_total; [lia|]
         |apply (transfer_spec false); lia]| |].
    - intros i Hi. split.
      + eapply fresh_block_live; [done|]. apply Hfill. lia.
      + eapply fresh_block_room; [done|done|lia].
    - intros _ s3 [[Hext Hlive] (Hf & _ & Htr)]. split.
      + eapply frame_mono; [|exact Hf]. intros q [Hq|[Hq _]]; done.
      + intros i w Hi. pose proof (lookup_lt_Some _ _ _ Hi) as Hlt.
        assert (Hapart : blk (buffer_ (data_ o)) ≠ blk (buffer_ nd)).
        { eapply fresh_block_apart; [done|done|lia]. }
        destruct (Htr Hapart) as [_ Hval].
        destruct (Hval (Z.of_nat i) ltac:(lia)) as (w' & Hw1 & Hw3).
        rewrite (fresh_block_cell _ _ _ _ _ Hfresh) in Hw1 by (simpl; done).
        rewrite (Hcells _ _ Hi) in Hw1. by injection Hw1 as <-.
    - intros e s3 [[[-> Hne] Hsh] [Hf _]]. split; [|done].
      eapply frame_mono; [|exact Hf]. intros q [Hq|[Hq _]]; done. }
  by destruct Vector.transfer_by_move.
Qed.

(** [~Vector()] *)
Lemma dtor_total this s v :
  objs s !! this = Some v → well_formed s v →
  total (Vector.dtor this) s
    (λ _ s', objs s' = delete this (objs s) ∧
             heap s' = match blk (buffer_ (data_ v)) with
                       | Some l => delete l (heap s)
                       | None => heap s
                       end)
    (λ _ _, False).
Proof.
  intros Hv (Hvalid & Hown & Hroom & Hfill). pose proof Hvalid as (Hsz & Hcap & Hoff).
  unfold Vector.dtor.
  eapply total_bind_Ok; [by apply get_obj_total|]. unfold RawMemory.GetAddress.
  eapply total_seq; [apply (destroy_total _ _ (size_ v)); [|lia|done]| |done].
  { unfold ptr_diff. simpl. rewrite decide_True by done. f_equal. lia. }
  intros ? s4 Hf. cbv beta in Hf.
  assert (Hv4 : objs s4 !! this = Some v) by (by destruct Hf as (-> & _)).
  eapply total_seq; [apply RawMemory_dtor_total| |done].
  - done.
  - unfold owns in Hown. destruct (blk (buffer_ (data_ v))) as [l|]; [|done].
    by apply (frame_heap _ _ _ _ Hf).
  - intros ? s5 [Ho5 Hh5]. unfold total, delete_obj. rewrite Ho5, Hv4. simpl.
    split; [by destruct Hf as (-> & _)|].
    destruct (blk (buffer_ (data_ v))) as [l|] eqn:Hl.
    + rewrite Hh5. eapply frame_delete; [done|].
      intros q [Hq _]. by rewrite Hq.
    + rewrite Hh5. eapply frame_heap_eq; [done|].
      intros q [Hq Hr].
      assert (size_ v = 0) as Hz.
      { destruct (decide (size_ v = 0)) as [|Hnz]; [done|]. exfalso.
        destruct (Hfill 0 ltac:(lia)) as [x Hx]. unfold cell in Hx. simpl in Hx.
        by rewrite Hl in Hx. }
      lia.
Qed.

(** A vector built in a fresh block and destroyed gives the state
    back. *)
Lemma built_then_dtor r d n m s s1 s' :
  fresh_block n d s s1 →
  frame (λ q, blk q = blk (buffer_ d)) s1 (set_objs (objs s) s') →
  objs s !! r = None → objs s' = <[r := Vector.Make d m]> (objs s) →
  well_formed s' (Vector.Make d m) →
  total (Vector.dtor r) s' (λ _ s'', s'' = s) (λ _ _, False).
Proof.
  intros Hfresh Hf Hr Ho Hwf.
  eapply total_mono; [apply (dtor_total r s' (Vector.Make d m))| |done].
  - by rewrite Ho, lookup_insert_eq.
  - done.
  - intros _ s'' [Ho'' Hh'']. simpl in Hh''.
    assert (Hobjs : objs s'' = objs s).
    { rewrite Ho'', Ho. by rewrite delete_insert_id. }
    apply (fresh_block_released n d s s1 (set_objs (objs s) s') s'');
      [done|done|done|].
    destruct Hwf as (_ & Hown & _). unfold owns in Hown. simpl in Hown.
    destruct (blk (buffer_ d)) as [l|]; [by split|].
    by apply state_eq.
Qed.

(** [Swap]: the state it ends in. *)
Lemma Swap_total this other s a b :
  objs s !! this = Some a → objs s !! other = Some b →
  Vector.Swap this other s =
    Ok tt (set_objs (<[other := a]> (<[this := b]> (objs s))) s).
Proof.
  intros Ha Hb. destruct (Swap_returns this other s a b Ha Hb) as [s' Hrun].
  pose proof (post_ok _ _ _ _ _ _ (Swap_spec this other s a b Ha Hb) Hrun) as [Hh Ho].
  rewrite Hrun. f_equal. by apply state_eq.
Qed.

(** [Vector(Vector&&)]: the state it ends in. *)
Lemma ctor_move_total other s o :
  objs s !! other = Some o →
  Vector.ctor_move other s =
    Ok (fresh (dom (objs s)))
       (set_objs (<[other := Vector.Make RawMemory.default 0]>
                    (<[fresh (dom (objs s)) := o]> (objs s))) s).
Proof.
  intros Ho. rewrite ctor_move_unfold. unfold bind at 1. unfold new_obj at 1.
  set (b := fresh (dom (objs s))).
  assert (Hfresh : objs s !! b = None) by apply not_elem_of_dom, is_fresh.
  assert (Hba : b ≠ other) by (intros Heq; rewrite Heq, Ho in Hfresh; done).
  unfold bind.
  rewrite (Swap_total b other _ (Vector.Make RawMemory.default 0) o);
    [|simpl; by rewrite lookup_insert_eq|simpl; by rewrite lookup_insert_ne].
  unfold ret. f_equal. apply state_eq; [done|]. simpl.
  by rewrite insert_insert_eq.
Qed.

End Constructing.

(** ** [RawMemory<T>] on its own *)

Section RawMemoryFacts.
Context {T : Type} `{!ElementType T} `{!Environment T} {Obj : Type}.
Abbreviation state := (state T Obj) (only parsing).
Implicit Types (s : state) (p q first : ptr) (rm other : RawMemory.t).

Lemma RawMemory_eta rm : RawMemory.Make (buffer_ rm) (capacity_ rm) = rm.
Proof. by destruct rm. Qed.

(** The move constructor of [RawMemory]: the states it ends in. *)
Lemma RawMemory_move_ctor_run other s :
  RawMemory.move_ctor other s =
    if decide (capacity_ other ≠ 0) then
      if operator_new_fails (heap s) (wrap (capacity_ other * sizeof)) then Crash
      else Ok (other, RawMemory.default)
              (set_heap (<[fresh (dom (heap s)) :=
                             replicate (slots (capacity_ other)) None]> (heap s)) s)
    else Ok (other, RawMemory.default) s.
Proof.
  unfold RawMemory.move_ctor, noexcept, try_catch, bind, RawMemory.Allocate.
  case_decide as Hn.
  - unfold operator_new. destruct (operator_new_fails _ _); [done|].
    simpl. by rewrite RawMemory_eta.
  - simpl. by rewrite RawMemory_eta.
Qed.

(** Writing to a slot and making it raw again. *)
Lemma write_cell_undo p x s :
  cell s p = Some None → write_cell p None (write_cell p (Some x) s) = s.
Proof.
  intros Hc. unfold cell in Hc. unfold write_cell.
  destruct (blk p) as [l|] eqn:Hl; [|done].
  destruct (heap s !! l) as [b|] eqn:Hb; [|by rewrite Hb].
  simpl. rewrite lookup_insert_eq. case_decide; [|done].
  apply state_eq; [|done]. simpl. rewrite insert_insert_eq.
  rewrite list_insert_insert_eq. rewrite list_insert_id by done.
  by apply insert_id.
Qed.

End RawMemoryFacts.

(** ** Access to the elements *)

Section Access.
Context {T : Type} `{!ElementType T} `{!Environment T}.
Abbreviation state := (state T Vector.t) (only parsing).
Implicit Types (s : state) (p q : ptr) (v : Vector.t) (this other rhs : ref).

Lemma index_in_range this s v i :
  objs s !! this = Some v → valid v → i < size_ v →
  Vector.index this i s = Ok (buffer_ (data_ v) +ₚ i) s.
Proof.
  intros Hv (Hsz & Hcap & Hoff) Hi. unfold Vector.index, bind.
  rewrite (get_obj_total _ _ _ Hv).
  rewrite assert_total by (apply bool_decide_eq_true; lia).
  by rewrite RawMemory_index_total by lia.
Qed.

Lemma index_out_of_range this s v i :
  objs s !! this = Some v → size_ v <= i →
  Vector.index this i s =
    if NDEBUG then Ok (buffer_ (data_ v) +ₚ i) s else Crash.
Proof.
  intros Hv Hi. unfold Vector.index, RawMemory.index, bind, assert.
  rewrite (get_obj_total _ _ _ Hv).
  destruct NDEBUG; [done|]. by rewrite bool_decide_eq_false_2 by lia.
Qed.

Lemma stores_read s this v vs :
  objs s !! this = Some v → stores s this vs →
  read_loop (buffer_ (data_ v)) (length vs) s = Some vs.
Proof.
  intros Hv Hst. destruct (stores_lookup _ _ _ _ Hst Hv) as (_ & _ & Hcells).
  by apply read_loop_Some.
Qed.

Lemma Swap_Swap a b s va vb :
  objs s !! a = Some va → objs s !! b = Some vb →
  (run Vector.Swap a b; Vector.Swap a b) s = Ok tt s.
Proof.
  intros Ha Hb. unfold bind. rewrite (Swap_total a b s va vb Ha Hb).
  destruct (decide (a = b)) as [->|Hne].
  - assert (va = vb) as -> by congruence.
    rewrite (Swap_total b b _ vb vb); [|simpl; by rewrite lookup_insert_eq..].
    f_equal. apply state_eq; [done|]. simpl.
    rewrite !insert_insert_eq. by apply insert_id.
  - rewrite (Swap_total a b _ vb va);
      [|simpl; by map_lookups|simpl; by map_lookups].
    f_equal. apply state_eq; [done|]. simpl. apply map_eq. intros r.
    destruct (decide (r = b)) as [->|?]; [by map_lookups|].
    destruct (decide (r = a)) as [->|?]; by map_lookups.
Qed.

Lemma well_formed_default s : well_formed s (Vector.Make RawMemory.default 0).
Proof.
  split_and!; [apply valid_default|done| |]; intros i Hi; simpl in Hi; lia.
Qed.

(** The destructor of a vector that was moved from. *)
Lemma ctor_move_dtor a s va vs :
  objs s !! a = Some va → stores s a vs →
  ∃ s', (do b <- Vector.ctor_move a; run Vector.dtor a; ret b) s
          = Ok (fresh (dom (objs s))) s' ∧
        objs s !! fresh (dom (objs s)) = None ∧
        stores s' (fresh (dom (objs s))) vs ∧
        heap s' = heap s ∧
        objs s' = <[fresh (dom (objs s)) := va]> (delete a (objs s)).
Proof.
  intros Ha Hst. destruct (stores_lookup _ _ _ _ Hst Ha) as (Hwf & Hlen & Hcells).
  set (b := fresh (dom (objs s))).
  assert (Hfresh : objs s !! b = None) by apply not_elem_of_dom, is_fresh.
  assert (Hba : b ≠ a) by (intros Heq; rewrite Heq, Ha in Hfresh; done).
  unfold bind at 1. rewrite (ctor_move_total a s va Ha). fold b.
  set (s1 := set_objs _ s).
  pose proof (dtor_total a s1 (Vector.Make RawMemory.default 0)) as Hd.
  assert (Hret : ∃ u s', Vector.dtor a s1 = Ok u s' ∧
                         objs s' = delete a (objs s1) ∧ heap s' = heap s1).
  { eapply total_returns; [apply Hd; [by simpl; map_lookups|]|by intros ? ? ?].
    apply well_formed_default. }
  destruct Hret as ([] & s' & Hrun & Ho & Hh).
  simpl in Ho, Hh. exists s'. unfold bind. rewrite Hrun. unfold ret.
  assert (Ho' : objs s' = <[b := va]> (delete a (objs s))).
  { rewrite Ho. apply map_eq. intros r.
    destruct (decide (r = a)) as [->|?]; [by map_lookups|].
    destruct (decide (r = b)) as [->|?]; by map_lookups. }
  split_and!; [done|done| |done|done].
  exists va. split_and!; [rewrite Ho'; by map_lookups| |done|].
  - by apply (well_formed_heap s).
  - intros i w Hi. rewrite (cell_heap s) by done. by apply Hcells.
Qed.

(** [DestroyN] is [std::destroy_n]. *)
Lemma DestroyN_loop_destroy_loop k : ∀ buf i s,
  0 <= i → i + Z.of_nat k < SIZE_MOD →
  Vector.DestroyN_loop buf i k s = destroy_loop (buf +ₚ i) k s.
Proof.
  induction k as [|k IH]; intros buf i s Hi Hb; [done|].
  simpl. unfold bind, Vector.Destroy.
  destruct (destroy_at (buf +ₚ i) s) as [[] s1| |]; [|done..].
  rewrite wrap_small by (unfold is_size_t; lia).
  rewrite IH by lia. by rewrite ptr_add_add.
Qed.

Lemma DestroyN_destroy_n buf n s :
  is_size_t n → Vector.DestroyN buf n s = destroy_n buf n s.
Proof.
  intros [Hn Hb]. unfold Vector.DestroyN, destroy_n.
  rewrite DestroyN_loop_destroy_loop by lia. by rewrite ptr_add_0.
Qed.

End Access.

(** ** The copy assignment *)

Section CopyAssignment.
Context {T : Type} `{!ElementType T} `{!Environment T}.
Abbreviation state := (state T Vector.t) (only parsing).
Implicit Types (s : state) (p q : ptr) (v r : Vector.t) (this other rhs : ref).





End CopyAssignment.

(** ** Requests that do not fit [size_t] *)

Section Overflow.
Context {T : Type} `{!ElementType T} `{!Environment T} {Obj : Type}.
Abbreviation state := (state T Obj) (only parsing).
Implicit Types (s : state) (p q first : ptr) (rm other : RawMemory.t).

(** A product that wraps around asks for fewer slots than elements. *)
Lemma slots_overflow n : 0 < n → SIZE_MOD <= n * sizeof → Z.of_nat (slots n) < n.
Proof.
  intros Hn Hover. pose proof sizeof_pos as Hpos. unfold slots, wrap.
  assert (Hmod : 0 <= (n * sizeof) mod SIZE_MOD < SIZE_MOD).
  { apply Z.mod_pos_bound. unfold SIZE_MOD. lia. }
  rewrite Z2Nat.id by (apply Z.div_pos; lia).
  apply Z.div_lt_upper_bound; [lia|]. lia.
Qed.

(** [RawMemory(n)] followed by [~RawMemory()]. *)
Lemma RawMemory_ctor_dtor n s :
  total (do rm <- RawMemory.ctor n; RawMemory.dtor rm) s
    (λ _ s', s' = s) (λ e s', e = bad_alloc ∧ s' = s ∧ allocator_fails T).
Proof.
  unfold total, bind, RawMemory.ctor, RawMemory.Allocate, RawMemory.dtor,
    RawMemory.Deallocate, bind.
  case_decide as Hn.
  - unfold operator_new. destruct (operator_new_fails _ _) eqn:Hfail.
    + split_and!; [done|done|]. by eexists _, _.
    + unfold ret, operator_delete. simpl. rewrite lookup_insert_eq. simpl.
      apply state_eq; [|done]. simpl. apply delete_insert_id.
      apply not_elem_of_dom, is_fresh.
  - done.
Qed.

(** The block [RawMemory(n)] gets when [n * sizeof(T)] wraps around. *)
Lemma RawMemory_ctor_overflow n s :
  0 < n → SIZE_MOD <= n * sizeof →
  operator_new_fails (heap s) (wrap (n * sizeof)) = false →
  ∃ l, heap s !! l = None ∧
       RawMemory.ctor n s =
         Ok (RawMemory.Make (Ptr (Some l) 0) n)
            (set_heap (<[l := replicate (slots n) None]> (heap s)) s) ∧
       Z.of_nat (slots n) < n.
Proof.
  intros Hn Hover Hnew. exists (fresh (dom (heap s))). split_and!.
  - apply not_elem_of_dom, is_fresh.
  - unfold RawMemory.ctor, RawMemory.Allocate, bind, operator_new.
    rewrite decide_True by lia. by rewrite Hnew.
  - by apply slots_overflow.
Qed.

(** Value construction that runs past the end of a block. *)
Lemma value_construct_loop_overrun x0 l k : ∀ cur s b,
  value_init = Some x0 → heap s !! l = Some b →
  0 <= cur <= Z.of_nat (length b) → Z.of_nat (length b) < cur + Z.of_nat k →
  uninitialized_loop (λ _ dst, value_construct dst)
    (Ptr (Some l) 0) (Ptr (Some l) 0) cur k s = Crash.
Proof.
  induction k as [|k IH]; intros cur s b Hinit Hb Hcur Hover; [lia|].
  assert (Hvc : ∀ p s', value_construct p s' = construct_at (Obj:=Obj) p x0 s').
  { intros p s'. unfold value_construct. by rewrite Hinit. }
  simpl uninitialized_loop. unfold bind, on_unwind, try_catch. rewrite Hvc.
  assert (Hcell : cell s (Ptr (Some l) 0 +ₚ cur) = b !! Z.to_nat cur).
  { unfold cell. simpl. rewrite Hb, decide_True by lia. by rewrite Z.add_0_l. }
  destruct (decide (cur < Z.of_nat (length b))) as [Hin|Hout].
  - destruct (lookup_lt_is_Some_2 b (Z.to_nat cur) ltac:(lia)) as [c Hc].
    rewrite construct_at_in_bounds by (unfold in_bounds; by rewrite Hcell, Hc).
    apply (IH _ _ (<[Z.to_nat cur := Some x0]> b)); [done| | |].
    + unfold write_cell. simpl. rewrite Hb. simpl. rewrite lookup_insert_eq.
      by rewrite Z.add_0_l.
    + rewrite length_insert. lia.
    + rewrite length_insert. lia.
  - unfold construct_at at 1. rewrite Hcell, lookup_ge_None_2 by lia. done.
Qed.

End Overflow.

Section VectorOverflow.
Context {T : Type} `{!ElementType T} `{!Environment T}.
Abbreviation state := (state T Vector.t) (only parsing).
Implicit Types (s : state) (p q : ptr) (v r : Vector.t) (this other rhs : ref).

(** [Vector(n)] when [n * sizeof(T)] wraps around. *)
Lemma ctor_sized_overflow n s x0 :
  0 < n → SIZE_MOD <= n * sizeof → value_init = Some x0 →
  operator_new_fails (heap s) (wrap (n * sizeof)) = false →
  Vector.ctor_sized n s = Crash.
Proof.
  intros Hn Hover Hinit Hnew.
  destruct (RawMemory_ctor_overflow n s Hn Hover Hnew) as (l & Hl & Hctor & Hslots).
  unfold Vector.ctor_sized, bind. rewrite Hctor.
  unfold on_unwind, try_catch, uninitialized_value_construct_n, RawMemory.GetAddress.
  simpl buffer_.
  rewrite (value_construct_loop_overrun x0 l _ 0 _ (replicate (slots n) None));
    [done|done| | |].
  - simpl. by rewrite lookup_insert_eq.
  - rewrite length_replicate. lia.
  - rewrite length_replicate. lia.
Qed.

(** [CopyConstruct] into a raw slot, and [Destroy] of the copy. *)
Lemma CopyConstruct_Destroy buf elem s :
  cell s buf = Some None →
  if copy_throws elem then
    Vector.CopyConstruct buf elem s = Throw element_exn s
  else
    ∃ s1, Vector.CopyConstruct buf elem s = Ok tt s1 ∧
          load buf s1 = Ok elem s1 ∧
          frame (eq buf) s s1 ∧
          Vector.Destroy buf s1 = Ok tt s.
Proof.
  intros Hc. unfold Vector.CopyConstruct, construct, construct_local, bind.
  simpl. destruct (copy_throws elem); [done|].
  assert (Hin : in_bounds s buf) by (unfold in_bounds; by rewrite Hc).
  unfold ret. rewrite (construct_at_in_bounds _ _ _ Hin).
  eexists. split; [done|].
  assert (Hnew : cell (write_cell buf (Some elem) s) buf = Some (Some elem))
    by (by apply cell_write_cell_eq).
  split_and!.
  - by apply load_total.
  - by apply frame_write_cell.
  - unfold Vector.Destroy. rewrite destroy_at_live by (by exists elem).
    by rewrite write_cell_undo.
Qed.

(** What [DestroyN] does to [n] live objects. *)
Lemma DestroyN_total buf n s :
  is_size_t n → (∀ i, 0 <= i < n → live s (buf +ₚ i)) →
  total (Vector.DestroyN buf n) s
    (λ _ s', frame (range buf n) s s' ∧
             ∀ i, 0 <= i < n → cell s' (buf +ₚ i) = Some None)
    (λ _ _, False).
Proof.
  intros Hn Hlive. unfold total. rewrite (DestroyN_destroy_n buf n s Hn).
  destruct Hn as [Hn _].
  pose proof (total_and _ _ _ _ _ _ (destroy_n_total buf n s Hn Hlive)
                (destroy_n_spec buf n s Hn)) as Ht.
  unfold total in Ht. destruct (destroy_n buf n s) as [[] s'|e s'|];
    [|by destruct Ht|done].
  destruct Ht as [Hf (_ & _ & Hraw)]. done.
Qed.

End VectorOverflow.

(** ** The operations one by one *)

Section VectorOperations.
Context {T : Type} `{!ElementType T} `{!Environment T}.
Abbreviation state := (state T Vector.t) (only parsing).
Implicit Types (s : state) (p q : ptr) (v : Vector.t) (this other rhs : ref).

(** X1: [PopBack] on a vector that stores [vs ++ [x]] returns.  The
    vector then stores [vs], in the same buffer and with the same
    capacity; the slot of [x] is raw, and no other slot of the heap
    has changed. *)
Theorem PopBack_removes_last this s v vs x :
  objs s !! this = Some v → stores s this (vs ++ [x]) →
  ∃ s', Vector.PopBack this s = Ok tt s' ∧ stores s' this vs ∧
        objs s' = <[this := Vector.Make (data_ v) (size_ v - 1)]> (objs s) ∧
        cell s' (buffer_ (data_ v) +ₚ (size_ v - 1)) = Some None ∧
        ∀ q, q ≠ buffer_ (data_ v) +ₚ (size_ v - 1) → cell s' q = cell s q.
Proof.
  intros Hv Hst.
  destruct (PopBack_stores this s v vs x Hv Hst) as (s' & Hrun & Hst' & Ho & Hraw & Hf).
  exists s'. split_and!; [done..|].
  intros q Hq. destruct Hf as (_ & _ & Hc).
  rewrite <- (Hc q) by (intros Heq; by apply Hq). by apply cell_heap.
Qed.

(** X2: [PopBack] on an empty vector has undefined behaviour: no
    check is made, and the object before the start of the buffer is
    destroyed. *)
Theorem PopBack_empty_undefined this s v :
  objs s !! this = Some v → valid v → size_ v = 0 →
  Vector.PopBack this s = Crash.
Proof. apply PopBack_empty. Qed.

(** X3: [PushBack(value)] followed by [PopBack()] on a vector that
    stores [vs] has defined behaviour and leaves a vector that
    stores [vs] again.  An exception that leaves the sequence has
    left the [PushBack], in the state the sequence ends in: the
    [PopBack] that follows a [PushBack] that returned does not
    throw. *)
Theorem PushBack_PopBack_restores this value s vs :
  stores s this vs →
  Z.max 1 (2 * Z.of_nat (length vs)) * sizeof < SIZE_MOD →
  total (run Vector.PushBack this value; Vector.PopBack this) s
    (λ _ s', stores s' this vs)
    (λ e s', Vector.PushBack this value s = Throw e s' ∧
             failed (copy_of value) s e s').
Proof.
  intros Hst Hbound.
  eapply total_seq;
    [apply total_outcome; unfold Vector.PushBack; by apply EmplaceBack_stores| |done].
  intros p s1 (_ & x & Hx & Hst1). pose proof Hst1 as (v1 & Hv1 & _).
  destruct (PopBack_stores this s1 v1 vs x Hv1 Hst1) as (s' & Hrun & Hst' & _).
  unfold total. by rewrite Hrun.
Qed.

(** X4: [Erase(begin() + idx)] with [idx < Size()] on a vector that
    stores [vs] has defined behaviour.  When it returns, the vector
    stores [vs] without its element [idx], in the same buffer with
    the same capacity, and the iterator returned is [begin() + idx].
    Only a move assignment of [T] can throw: an exception leaves the
    call only when the move assignment of [T] throws on an element
    of [vs] behind position [idx], and then the size of the vector
    is as it was. *)
Theorem Erase_removes this idx s v vs :
  objs s !! this = Some v → stores s this vs →
  0 <= idx < Z.of_nat (length vs) →
  total (Vector.Erase this (buffer_ (data_ v) +ₚ idx)) s
    (λ it s', stores s' this (delete (Z.to_nat idx) vs) ∧
              objs s' = <[this := Vector.Make (data_ v) (size_ v - 1)]> (objs s) ∧
              it = buffer_ (data_ v) +ₚ idx)
    (λ e s', e = element_exn ∧ objs s' = objs s ∧
             ∃ (j : nat) old x, (Z.to_nat idx < j)%nat ∧ vs !! j = Some x ∧
                                move_assign_throws old x = true).
Proof.
  intros Hv Hst Hidx.
  eapply total_mono;
    [exact (total_and _ _ _ _ _ _ (Erase_stores this idx s v vs Hv Hst Hidx)
              (Erase_thrown this idx s v vs Hv Hst Hidx))
    |by intros it s' [H _]|by intros e s' [_ H]].
Qed.

(** X5: [Erase(end())] has undefined behaviour: the range
    [[end() + 1, end())] given to [std::move] is not valid. *)
Theorem Erase_end_undefined this s v :
  objs s !! this = Some v → valid v →
  Vector.Erase this (buffer_ (data_ v) +ₚ size_ v) s = Crash.
Proof. apply Erase_end. Qed.

(** X6: on a well-formed vector that is not empty, [Erase(end() - 1)]
    returns [end() - 1] and ends in the state [PopBack()] ends in. *)
Theorem Erase_last_is_PopBack this s v :
  objs s !! this = Some v → well_formed s v → 0 < size_ v →
  ∃ s', Vector.PopBack this s = Ok tt s' ∧
        Vector.Erase this (buffer_ (data_ v) +ₚ (size_ v - 1)) s =
          Ok (buffer_ (data_ v) +ₚ (size_ v - 1)) s'.
Proof. apply Erase_last. Qed.

(** X7: [Emplace(begin() + idx, args...)] with [idx <= Size()] on a
    vector that stores [vs] has defined behaviour.  When it returns,
    the vector stores [vs] with the constructed value inserted before
    position [idx], the iterator returned designates that value, and
    a vector with spare capacity has kept its buffer.  So
    [Insert(begin() + idx, value)], in both overloads, leaves [vs]
    with [value] inserted before position [idx]. *)
Theorem Emplace_inserts this idx s v vs :
  objs s !! this = Some v → stores s this vs →
  0 <= idx <= Z.of_nat (length vs) →
  Z.max 1 (2 * Z.of_nat (length vs)) * sizeof < SIZE_MOD →
  (∀ args,
     total (Vector.Emplace this (buffer_ (data_ v) +ₚ idx) args) s
       (λ it s', ∃ x d,
          constructed args = Some x ∧
          stores s' this (take (Z.to_nat idx) vs ++ x :: drop (Z.to_nat idx) vs) ∧
          objs s' = <[this := Vector.Make d (size_ v + 1)]> (objs s) ∧
          it = buffer_ d +ₚ idx ∧
          cell s' it = Some (Some x) ∧
          (size_ v < capacity_ (data_ v) → d = data_ v))
       (λ e s', failed args s e s')) ∧
  (∀ value,
     total (Vector.Insert this (buffer_ (data_ v) +ₚ idx) value) s
       (λ it s', stores s' this
                   (take (Z.to_nat idx) vs ++ value :: drop (Z.to_nat idx) vs) ∧
                 cell s' it = Some (Some value) ∧
                 ∃ d, objs s' = <[this := Vector.Make d (size_ v + 1)]> (objs s) ∧
                      it = buffer_ d +ₚ idx)
       (λ e s', failed (copy_of value) s e s')) ∧
  (∀ value,
     total (Vector.Insert_move this (buffer_ (data_ v) +ₚ idx) value) s
       (λ it s', stores s' this
                   (take (Z.to_nat idx) vs ++ value :: drop (Z.to_nat idx) vs) ∧
                 cell s' it = Some (Some value) ∧
                 ∃ d, objs s' = <[this := Vector.Make d (size_ v + 1)]> (objs s) ∧
                      it = buffer_ d +ₚ idx)
       (λ e s', failed (move_of value) s e s')).
Proof.
  intros Hv Hst Hidx Hbound. split_and!.
  - intros args. by apply Emplace_stores.
  - intros value. unfold Vector.Insert. apply Insert_stores; auto.
  - intros value. unfold Vector.Insert_move. apply Insert_stores; auto.
Qed.



(** X10: [Resize(n)] with [n <= Size()] on a vector that stores [vs]
    returns and does not throw.  The vector then stores the first
    [n] elements of [vs] in the same buffer with the same capacity,
    and only the slots of the elements removed have changed. *)
Theorem Resize_shrinks this n s v vs :
  objs s !! this = Some v → stores s this vs → 0 <= n <= size_ v →
  ∃ s', Vector.Resize this n s = Ok tt s' ∧
        stores s' this (take (Z.to_nat n) vs) ∧
        objs s' = <[this := Vector.Make (data_ v) n]> (objs s) ∧
        ∀ q, ¬ range (buffer_ (data_ v) +ₚ n) (size_ v - n) q →
             cell s' q = cell s q.
Proof.
  intros Hv Hst Hn.
  destruct (total_returns _ _ _ _ (Resize_shrink this n s v vs Hv Hst Hn))
    as ([] & s' & Hrun & Hst' & Ho & Hf); [by intros ? ? ?|].
  exists s'. split_and!; [done..|].
  intros q Hq. destruct Hf as (_ & _ & Hc). rewrite <- (Hc q Hq). by apply cell_heap.
Qed.


(** X12: [Vector(n)], when [T()] returns [x0] and [n * sizeof(T)]
    fits [size_t], has defined behaviour.  It returns a new vector
    that stores [n] copies of [x0] with capacity [n], and every
    vector of the state stores what it stored; only
    [std::bad_alloc] can leave it, with the state as it was. *)
Theorem ctor_sized_value_initialises n s x0 :
  0 <= n → n * sizeof < SIZE_MOD → value_init = Some x0 →
  total (Vector.ctor_sized n) s
    (λ r s', objs s !! r = None ∧ stores s' r (replicate (Z.to_nat n) x0) ∧
             (∀ other ws, stores s other ws → stores s' other ws) ∧
             ∃ d, objs s' = <[r := Vector.Make d n]> (objs s) ∧ capacity_ d = n)
    (λ e s', s' = s ∧ e = bad_alloc ∧ allocator_fails T).
Proof.
  intros Hn Hbound Hinit.
  eapply total_mono; [by apply (ctor_sized_stores n s x0)| |done].
  intros r s' (Hr & Hst & Hkeep & d & s1 & Ho & Hcap & _).
  split_and!; [done..|]. by exists d.
Qed.

(** X13: [Vector(n)] with [n > 0] and [n * sizeof(T)] in [size_t],
    when [T()] throws, has defined behaviour and does not return: an
    exception leaves it, and the state is as it was, so the block it
    had allocated is released and no object is left. *)
Theorem ctor_sized_throws_cleanly n s :
  0 < n → n * sizeof < SIZE_MOD → value_init = None →
  total (Vector.ctor_sized n) s (λ _ _, False)
    (λ e s', s' = s ∧ match e with
                      | bad_alloc => allocator_fails T
                      | element_exn => True
                      end).
Proof. intros Hn _. by apply ctor_sized_throws. Qed.

(** X14: the copy constructor for a copy-constructible [T], on a
    vector that stores [vs], has defined behaviour when
    [Size() * sizeof(T)] fits [size_t].  It returns a new vector that
    stores [vs] with capacity [Size()], and every vector of the
    state, the source among them, stores what it stored; an
    exception leaves the state as it was. *)
Theorem ctor_copy_copies other s vs :
  is_copy_constructible = true →
  stores s other vs → Z.of_nat (length vs) * sizeof < SIZE_MOD →
  total (Vector.ctor_copy other) s
    (λ r s', objs s !! r = None ∧ stores s' r vs ∧
             (∀ other ws, stores s other ws → stores s' other ws) ∧
             ∃ d, objs s' = <[r := Vector.Make d (Z.of_nat (length vs))]> (objs s) ∧
                  capacity_ d = Z.of_nat (length vs))
    (λ e s', s' = s ∧
             match e with
             | bad_alloc => allocator_fails T
             | element_exn => ¬ nothrow_element T
             end).
Proof.
  intros _ Hst Hbound.
  eapply total_mono; [by apply (ctor_copy_stores other s vs)| |done].
  intros r s' (Hr & Hst' & Hkeep & d & s1 & Ho & Hcap & _).
  split_and!; [done..|]. by exists d.
Qed.

(** X15: the destructor of a well-formed vector returns: the object
    is gone, and the heap is the one before without the block of the
    vector. *)
Theorem dtor_releases this s v :
  objs s !! this = Some v → well_formed s v →
  ∃ s', Vector.dtor this s = Ok tt s' ∧
        objs s' = delete this (objs s) ∧
        heap s' = match blk (buffer_ (data_ v)) with
                  | Some l => delete l (heap s)
                  | None => heap s
                  end.
Proof.
  intros Hv Hwf.
  destruct (total_returns _ _ _ _ (dtor_total this s v Hv Hwf))
    as ([] & s' & Hrun & Ho & Hh); [by intros ? ? ?|].
  by exists s'.
Qed.

(** X16: a vector made by [Vector(n)] and destroyed at once leaves
    no trace: whether the constructor returns or throws, the state
    is as it was. *)
Theorem ctor_sized_dtor_restores n s :
  0 <= n → n * sizeof < SIZE_MOD →
  total (do r <- Vector.ctor_sized n; Vector.dtor r) s
    (λ _ s', s' = s) (λ _ s', s' = s).
Proof.
  intros Hn Hbound.
  assert (Hbuilt :
    total (Vector.ctor_sized n) s
      (λ r s', ∃ d s1 (vs : list T),
                 objs s !! r = None ∧ stores s' r vs ∧
                 objs s' = <[r := Vector.Make d n]> (objs s) ∧
                 fresh_block n d s s1 ∧
                 frame (λ q, blk q = blk (buffer_ d)) s1 (set_objs (objs s) s'))
      (λ _ s', s' = s)).
  { destruct value_init as [x0|] eqn:Hinit.
    - eapply total_mono; [by apply (ctor_sized_stores n s x0)| |by intros ? ? [? _]].
      intros r s' (Hr & Hst & _ & d & s1 & Ho & _ & Hfresh & Hf).
      by exists d, s1, (replicate (Z.to_nat n) x0).
    - destruct (decide (n = 0)) as [->|Hnz].
      + unfold Vector.ctor_sized.
        eapply total_mono;
          [apply (construct_vector_total 0 _ s [] False); [done|done|]
          | |by intros ? ? [? _]].
        * intros nd s1 Hfresh. apply total_ret. split; [apply frame_refl|done].
        * intros r s' (Hr & Hst & _ & d & s1 & Ho & _ & Hfresh & Hf).
          by exists d, s1, [].
      + eapply total_mono;
          [apply (ctor_sized_throws n s); [lia|done]|done|by intros ? ? [? _]]. }
  eapply total_seq; [exact Hbuilt| |done].
  intros r s' (d & s1 & vs & Hr & Hst & Ho & Hfresh & Hf).
  eapply total_mono;
    [apply (built_then_dtor r d n n s s1 s'); [done|done|done|done|]|done|done].
  assert (Hr' : objs s' !! r = Some (Vector.Make d n)) by (by rewrite Ho, lookup_insert_eq).
  by destruct (stores_lookup _ _ _ _ Hst Hr') as (Hwf & _).
Qed.

(** X17: for a copy-constructible [T], a copy of a vector that is
    destroyed at once leaves no trace: whether the copy constructor
    returns or throws, the state is as it was. *)
Theorem ctor_copy_dtor_restores other s vs :
  is_copy_constructible = true →
  stores s other vs → Z.of_nat (length vs) * sizeof < SIZE_MOD →
  total (do r <- Vector.ctor_copy other; Vector.dtor r) s
    (λ _ s', s' = s) (λ _ s', s' = s).
Proof.
  intros _ Hst Hbound.
  eapply total_seq; [by apply (ctor_copy_stores other s vs)| |by intros ? ? [? _]].
  intros r s' (Hr & Hst' & _ & d & s1 & Ho & _ & Hfresh & Hf).
  eapply total_mono;
    [apply (built_then_dtor r d (Z.of_nat (length vs)) (Z.of_nat (length vs)) s s1 s');
       [done|done|done|done|]|done|done].
  assert (Hr' : objs s' !! r = Some (Vector.Make d (Z.of_nat (length vs))))
    by (by rewrite Ho, lookup_insert_eq).
  by destruct (stores_lookup _ _ _ _ Hst' Hr') as (Hwf & _).
Qed.

(** X18: [Swap] is an involution: two calls of [a.Swap(b)] return
    and leave the state as it was, also when [a] and [b] are the
    same vector. *)
Theorem Swap_involutive a b s va vb :
  objs s !! a = Some va → objs s !! b = Some vb →
  (run Vector.Swap a b; Vector.Swap a b) s = Ok tt s.
Proof. apply Swap_Swap. Qed.

(** X19: on a vector that stores [vs], both overloads of
    [operator[]] with an index below [Size()] return the address of
    the element at that index and change nothing; in a build with
    assertions an index that is not below [Size()] aborts the
    program. *)
Theorem index_bounds this s v vs :
  objs s !! this = Some v → stores s this vs →
  (∀ (i : nat) x, vs !! i = Some x →
     ∃ p, Vector.index this (Z.of_nat i) s = Ok p s ∧
          Vector.index_const this (Z.of_nat i) s = Ok p s ∧
          load p s = Ok x s) ∧
  (NDEBUG = false →
   ∀ i, Z.of_nat (length vs) <= i →
        Vector.index this i s = Crash ∧ Vector.index_const this i s = Crash).
Proof.
  intros Hv Hst. destruct (stores_lookup _ _ _ _ Hst Hv) as (Hwf & Hlen & Hcells).
  pose proof Hwf as (Hvalid & _). split.
  - intros i x Hi. pose proof (lookup_lt_Some _ _ _ Hi) as Hlt.
    exists (buffer_ (data_ v) +ₚ Z.of_nat i). unfold Vector.index_const.
    rewrite (index_in_range this s v) by (done || lia).
    split_and!; [done|done|]. apply load_total. by apply Hcells.
  - intros Hdebug i Hi. unfold Vector.index_const.
    rewrite (index_out_of_range this s v) by (done || lia).
    by rewrite Hdebug.
Qed.

(** X20: on a vector that stores [vs], [begin()], its [const]
    overload and [cbegin()] return the start of the buffer, and
    [end()], its [const] overload and [cend()] the address [Size()]
    elements further; none of them changes the state, and reading
    the range between the two gives [vs]. *)
Theorem iterators_delimit_elements this s v vs :
  objs s !! this = Some v → stores s this vs →
  Vector.begin_ this s = Ok (buffer_ (data_ v)) s ∧
  Vector.begin_const this s = Ok (buffer_ (data_ v)) s ∧
  Vector.cbegin this s = Ok (buffer_ (data_ v)) s ∧
  Vector.end_ this s = Ok (buffer_ (data_ v) +ₚ Z.of_nat (length vs)) s ∧
  Vector.end_const this s = Ok (buffer_ (data_ v) +ₚ Z.of_nat (length vs)) s ∧
  Vector.cend this s = Ok (buffer_ (data_ v) +ₚ Z.of_nat (length vs)) s ∧
  ptr_diff (buffer_ (data_ v) +ₚ Z.of_nat (length vs)) (buffer_ (data_ v))
    = Some (Z.of_nat (length vs)) ∧
  read_loop (buffer_ (data_ v)) (length vs) s = Some vs.
Proof.
  intros Hv Hst. destruct (stores_lookup _ _ _ _ Hst Hv) as (Hwf & Hlen & Hcells).
  pose proof Hwf as ((Hsz & Hcap & Hoff) & _). rewrite <- Hlen.
  assert (Hend : Vector.end_ this s = Ok (buffer_ (data_ v) +ₚ size_ v) s)
    by (apply end_total; [done|lia]).
  split_and!.
  - by apply begin_total.
  - unfold Vector.begin_const, bind. by rewrite (get_obj_total _ _ _ Hv).
  - unfold Vector.cbegin, bind. by rewrite (get_obj_total _ _ _ Hv).
  - done.
  - exact Hend.
  - exact Hend.
  - unfold ptr_diff. simpl. rewrite decide_True by done. f_equal. lia.
  - by apply (stores_read s this).
Qed.


(** X22: destroying a vector that was moved from is harmless: after
    the move constructor and the destructor of the source, the new
    vector stores what the source stored, the heap is as it was, and
    the source is gone. *)
Theorem moved_from_dtor_harmless a s va vs :
  objs s !! a = Some va → stores s a vs →
  ∃ b s', (do b <- Vector.ctor_move a; run Vector.dtor a; ret b) s = Ok b s' ∧
          objs s !! b = None ∧
          stores s' b vs ∧
          heap s' = heap s ∧
          objs s' = <[b := va]> (delete a (objs s)).
Proof.
  intros Ha Hst. destruct (ctor_move_dtor a s va vs Ha Hst) as (s' & H).
  by exists (fresh (dom (objs s))), s'.
Qed.

(** X23: [Vector(n)] does not check the product [n * sizeof(T)]:
    when it does not fit [size_t], [T()] returns and the allocator
    grants the wrapped request, the constructor writes past the end
    of its block, which is undefined behaviour. *)
Theorem ctor_sized_overflow_undefined n s x0 :
  0 < n → SIZE_MOD <= n * sizeof → value_init = Some x0 →
  operator_new_fails (heap s) (wrap (n * sizeof)) = false →
  Vector.ctor_sized n s = Crash.
Proof. apply ctor_sized_overflow. Qed.

(** X24: [DestroyN(buf, n)] on [n] live objects returns, as
    [std::destroy_n(buf, n)] does and with the same state: the [n]
    slots are raw and no other slot has changed. *)
Theorem DestroyN_destroys buf n s :
  is_size_t n → (∀ i, 0 <= i < n → live s (buf +ₚ i)) →
  Vector.DestroyN buf n s = destroy_n buf n s ∧
  total (Vector.DestroyN buf n) s
    (λ _ s', frame (range buf n) s s' ∧
             ∀ i, 0 <= i < n → cell s' (buf +ₚ i) = Some None)
    (λ _ _, False).
Proof.
  intros Hn Hlive. split; [by apply DestroyN_destroy_n|by apply DestroyN_total].
Qed.

(** X25: [CopyConstruct(buf, elem)] on a raw slot throws and changes
    nothing when the copy constructor of [T] throws on [elem];
    otherwise it returns with a copy of [elem] in the slot and no
    other slot changed, and [Destroy(buf)] then gives the state
    back. *)
Theorem CopyConstruct_Destroy_restores buf elem s :
  cell s buf = Some None →
  if copy_throws elem then
    Vector.CopyConstruct buf elem s = Throw element_exn s
  else
    ∃ s1, Vector.CopyConstruct buf elem s = Ok tt s1 ∧
          load buf s1 = Ok elem s1 ∧
          frame (eq buf) s s1 ∧
          Vector.Destroy buf s1 = Ok tt s.
Proof. apply CopyConstruct_Destroy. Qed.

End VectorOperations.

Section RawMemoryOperations.
Context {T : Type} `{!ElementType T} `{!Environment T} {Obj : Type}.
Abbreviation state := (state T Obj) (only parsing).
Implicit Types (s : state) (p q : ptr) (rm other : RawMemory.t).

(** X26: the move constructor of [RawMemory], called on a source with
    a non-zero capacity, asks the allocator for a block it never
    uses.  When the allocator refuses, the exception meets [noexcept]
    and the program is terminated.  Otherwise the new object takes
    the buffer and the capacity of the source, the source is left
    empty, and the heap has one more block, which neither object
    holds. *)
Theorem RawMemory_move_ctor_leaks other s :
  capacity_ other ≠ 0 →
  match blk (buffer_ other) with
  | Some l => is_Some (heap s !! l)
  | None => True
  end →
  if operator_new_fails (heap s) (wrap (capacity_ other * sizeof)) then
    RawMemory.move_ctor other s = Crash
  else
    ∃ l, heap s !! l = None ∧ blk (buffer_ other) ≠ Some l ∧
         blk (buffer_ RawMemory.default) ≠ Some l ∧
         RawMemory.move_ctor other s =
           Ok (other, RawMemory.default)
              (set_heap (<[l := replicate (slots (capacity_ other)) None]> (heap s)) s).
Proof.
  intros Hcap Hown. rewrite RawMemory_move_ctor_run, decide_True by done.
  destruct (operator_new_fails _ _); [done|].
  assert (Hfresh : heap s !! fresh (dom (heap s)) = None)
    by apply not_elem_of_dom, is_fresh.
  exists (fresh (dom (heap s))). split_and!; [done| |done|done].
  destruct (blk (buffer_ other)) as [l|]; [|done].
  intros [= ->]. rewrite Hfresh in Hown. by destruct Hown.
Qed.

(** X27: [RawMemory(n)] followed by the destructor of the new object
    has defined behaviour for every [n] and gives the state back;
    when the allocator refuses, [std::bad_alloc] leaves the
    constructor with the state as it was. *)
Theorem RawMemory_ctor_dtor_restores n s :
  total (do rm <- RawMemory.ctor n; RawMemory.dtor rm) s
    (λ _ s', s' = s) (λ e s', e = bad_alloc ∧ s' = s ∧ allocator_fails T).
Proof. apply RawMemory_ctor_dtor. Qed.

(** X28: [RawMemory(n)] does not check the product [n * sizeof(T)]:
    when it does not fit [size_t], the allocator is asked for the
    wrapped number of bytes, and the object reports the capacity [n]
    over a block in which slot [n - 1] does not exist. *)
Theorem RawMemory_overflow_unchecked n s :
  0 < n → SIZE_MOD <= n * sizeof →
  operator_new_fails (heap s) (wrap (n * sizeof)) = false →
  ∃ rm s', RawMemory.ctor n s = Ok rm s' ∧
           RawMemory.Capacity rm = n ∧
           ¬ in_bounds s' (RawMemory.GetAddress rm +ₚ (n - 1)).
Proof.
  intros Hn Hover Hnew.
  destruct (RawMemory_ctor_overflow n s Hn Hover Hnew) as (l & Hl & Hctor & Hslots).
  eexists _, _. split_and!; [done|done|].
  intros Hin. apply in_bounds_iff in Hin as (l' & b & Hl' & Hb & Hr).
  simpl in *. injection Hl' as <-. rewrite lookup_insert_eq in Hb.
  injection Hb as <-. rewrite length_replicate in Hr. lia.
Qed.

End RawMemoryOperations.

(** ** The operations at concrete inputs *)

Section MoreWitnesses.
#[local] Existing Instance int_element.
#[local] Existing Instance guarded_element.
#[local] Existing Instance debug_build.

Lemma stores_two_vectors :
  stores two_vectors 1%positive [1; 2; 4] ∧ stores two_vectors 2%positive [7; 8].
Proof.
  split.
  - exists (block_of 3 4 3). split_and!.
    + vm_compute. reflexivity.
    + apply well_formed_two_vectors.
    + reflexivity.
    + intros [|[|[|i]]] w; simpl; intros [= <-]; vm_compute; reflexivity.
  - exists (block_of 5 2 2). split_and!.
    + vm_compute. reflexivity.
    + apply well_formed_two_vectors.
    + reflexivity.
    + intros [|[|i]] w; simpl; intros [= <-]; vm_compute; reflexivity.
Defined.

Lemma three_elements_object :
  objs three_elements !! 1%positive = Some (block_of 3 4 3).
Proof. vm_compute. reflexivity. Defined.

Lemma three_elements_bound :
  Z.max 1 (2 * Z.of_nat (length [1; 2; 4])) * sizeof (T:=Z) < SIZE_MOD.
Proof. reflexivity. Defined.

Lemma PopBack_removes_last_witness :
  objs three_elements !! 1%positive = Some (block_of 3 4 3) ∧
  stores three_elements 1%positive ([1; 2] ++ [4]) ∧
  ∃ s', Vector.PopBack 1%positive three_elements = Ok tt s' ∧
        stores s' 1%positive [1; 2] ∧
        objs s' = <[1%positive := block_of 3 4 2]> (objs three_elements) ∧
        cell s' (Ptr (Some 3%positive) 2) = Some None ∧
        ∀ q, q ≠ Ptr (Some 3%positive) 2 → cell s' q = cell three_elements q.
Proof.
  split_and!; [apply three_elements_object|apply stores_three_elements|].
  exact (PopBack_removes_last 1%positive three_elements (block_of 3 4 3) [1; 2] 4
           three_elements_object stores_three_elements).
Defined.

Lemma PopBack_empty_undefined_witness :
  objs empty_vector !! 1%positive = Some (Vector.Make RawMemory.default 0) ∧
  valid (Vector.Make RawMemory.default 0) ∧
  size_ (Vector.Make RawMemory.default 0) = 0 ∧
  Vector.PopBack 1%positive empty_vector = Crash.
Proof.
  assert (H1 : objs empty_vector !! 1%positive = Some (Vector.Make RawMemory.default 0))
    by (vm_compute; reflexivity).
  assert (H2 : valid (Vector.Make RawMemory.default 0))
    by (unfold valid, SIZE_MOD; simpl; lia).
  split_and!; [done|done|done|].
  exact (PopBack_empty_undefined 1%positive empty_vector _ H1 H2 eq_refl).
Defined.

Lemma PushBack_PopBack_restores_witness :
  stores three_elements 1%positive [1; 2; 4] ∧
  Z.max 1 (2 * Z.of_nat (length [1; 2; 4])) * sizeof (T:=Z) < SIZE_MOD ∧
  total (run Vector.PushBack 1%positive 5; Vector.PopBack 1%positive) three_elements
    (λ _ s', stores s' 1%positive [1; 2; 4])
    (λ e s', Vector.PushBack 1%positive 5 three_elements = Throw e s' ∧
             failed (copy_of 5) three_elements e s').
Proof.
  split_and!; [apply stores_three_elements|apply three_elements_bound|].
  exact (PushBack_PopBack_restores 1%positive 5 three_elements [1; 2; 4]
           stores_three_elements three_elements_bound).
Defined.

Lemma Erase_removes_witness :
  objs three_elements !! 1%positive = Some (block_of 3 4 3) ∧
  stores three_elements 1%positive [1; 2; 4] ∧
  0 <= 1 < Z.of_nat (length [1; 2; 4]) ∧
  total (Vector.Erase 1%positive (Ptr (Some 3%positive) 1)) three_elements
    (λ it s', stores s' 1%positive [1; 4] ∧
              objs s' = <[1%positive := block_of 3 4 2]> (objs three_elements) ∧
              it = Ptr (Some 3%positive) 1)
    (λ e s', e = element_exn ∧ objs s' = objs three_elements ∧
             ∃ (j : nat) old x, (1 < j)%nat ∧ [1; 2; 4] !! j = Some x ∧
                                move_assign_throws old x = true).
Proof.
  assert (H : 0 <= 1 < Z.of_nat (length [1; 2; 4])) by (simpl; lia).
  split_and!; [apply three_elements_object|apply stores_three_elements|lia|lia|].
  exact (Erase_removes 1%positive 1 three_elements (block_of 3 4 3) [1; 2; 4]
           three_elements_object stores_three_elements H).
Defined.

Lemma Erase_end_undefined_witness :
  objs three_elements !! 1%positive = Some (block_of 3 4 3) ∧
  valid (block_of 3 4 3) ∧
  Vector.Erase 1%positive (Ptr (Some 3%positive) 3) three_elements = Crash.
Proof.
  assert (H : valid (block_of 3 4 3)) by (unfold valid, SIZE_MOD; simpl; lia).
  split_and!; [apply three_elements_object|done|].
  exact (Erase_end_undefined 1%positive three_elements (block_of 3 4 3)
           three_elements_object H).
Defined.

Lemma Erase_last_is_PopBack_witness :
  objs three_elements !! 1%positive = Some (block_of 3 4 3) ∧
  well_formed three_elements (block_of 3 4 3) ∧
  0 < size_ (block_of 3 4 3) ∧
  ∃ s', Vector.PopBack 1%positive three_elements = Ok tt s' ∧
        Vector.Erase 1%positive (Ptr (Some 3%positive) 2) three_elements =
          Ok (Ptr (Some 3%positive) 2) s'.
Proof.
  assert (H : 0 < size_ (block_of 3 4 3)) by (simpl; lia).
  split_and!; [apply three_elements_object|apply well_formed_three_elements|done|].
  exact (Erase_last_is_PopBack 1%positive three_elements (block_of 3 4 3)
           three_elements_object well_formed_three_elements H).
Defined.

Lemma Emplace_inserts_witness :
  objs three_elements !! 1%positive = Some (block_of 3 4 3) ∧
  stores three_elements 1%positive [1; 2; 4] ∧
  0 <= 1 <= Z.of_nat (length [1; 2; 4]) ∧
  Z.max 1 (2 * Z.of_nat (length [1; 2; 4])) * sizeof (T:=Z) < SIZE_MOD ∧
  total (Vector.Insert 1%positive (Ptr (Some 3%positive) 1) 9) three_elements
    (λ it s', stores s' 1%positive [1; 9; 2; 4] ∧
              cell s' it = Some (Some 9) ∧
              ∃ d, objs s' = <[1%positive := Vector.Make d 4]> (objs three_elements) ∧
                   it = buffer_ d +ₚ 1)
    (λ e s', failed (copy_of 9) three_elements e s').
Proof.
  assert (H : 0 <= 1 <= Z.of_nat (length [1; 2; 4])) by (simpl; lia).
  split_and!;
    [apply three_elements_object|apply stores_three_elements|lia|lia
    |apply three_elements_bound|].
  exact (proj1 (proj2 (Emplace_inserts 1%positive 1 three_elements (block_of 3 4 3)
                         [1; 2; 4] three_elements_object stores_three_elements H
                         three_elements_bound)) 9).
Defined.



Lemma Resize_shrinks_witness :
  objs three_elements !! 1%positive = Some (block_of 3 4 3) ∧
  stores three_elements 1%positive [1; 2; 4] ∧
  0 <= 1 <= size_ (block_of 3 4 3) ∧
  ∃ s', Vector.Resize 1%positive 1 three_elements = Ok tt s' ∧
        stores s' 1%positive [1] ∧
        objs s' = <[1%positive := block_of 3 4 1]> (objs three_elements) ∧
        ∀ q, ¬ range (Ptr (Some 3%positive) 1) 2 q →
             cell s' q = cell three_elements q.
Proof.
  assert (H : 0 <= 1 <= size_ (block_of 3 4 3)) by (simpl; lia).
  split_and!; [apply three_elements_object|apply stores_three_elements|lia|lia|].
  exact (Resize_shrinks 1%positive 1 three_elements (block_of 3 4 3) [1; 2; 4]
           three_elements_object stores_three_elements H).
Defined.


Lemma ctor_sized_value_initialises_witness :
  0 <= 3 ∧ 3 * sizeof (T:=Z) < SIZE_MOD ∧ value_init (T:=Z) = Some 0 ∧
  total (Vector.ctor_sized 3) no_vectors
    (λ r s', objs no_vectors !! r = None ∧ stores s' r [0; 0; 0] ∧
             (∀ other ws, stores no_vectors other ws → stores s' other ws) ∧
             ∃ d, objs s' = <[r := Vector.Make d 3]> (objs no_vectors) ∧
                  capacity_ d = 3)
    (λ e s', s' = no_vectors ∧ e = bad_alloc ∧ allocator_fails Z).
Proof.
  assert (H1 : 0 <= 3) by lia.
  assert (H2 : 3 * sizeof (T:=Z) < SIZE_MOD) by reflexivity.
  split_and!; [done|done|reflexivity|].
  exact (ctor_sized_value_initialises 3 no_vectors 0 H1 H2 eq_refl).
Defined.

Lemma ctor_sized_throws_cleanly_witness :
  0 < 2 ∧ 2 * sizeof (T:=guarded) < SIZE_MOD ∧ value_init (T:=guarded) = None ∧
  total (Vector.ctor_sized 2) (State ∅ ∅ : state guarded Vector.t) (λ _ _, False)
    (λ e s', s' = State ∅ ∅ ∧ match e with
                             | bad_alloc => allocator_fails guarded
                             | element_exn => True
                             end).
Proof.
  assert (H1 : 0 < 2) by lia.
  assert (H2 : 2 * sizeof (T:=guarded) < SIZE_MOD) by reflexivity.
  split_and!; [done|done|reflexivity|].
  exact (ctor_sized_throws_cleanly 2 (State ∅ ∅) H1 H2 eq_refl).
Defined.

Lemma ctor_copy_copies_witness :
  is_copy_constructible (T:=Z) = true ∧
  stores two_vectors 2%positive [7; 8] ∧
  Z.of_nat (length [7; 8]) * sizeof (T:=Z) < SIZE_MOD ∧
  total (Vector.ctor_copy 2%positive) two_vectors
    (λ r s', objs two_vectors !! r = None ∧ stores s' r [7; 8] ∧
             (∀ other ws, stores two_vectors other ws → stores s' other ws) ∧
             ∃ d, objs s' = <[r := Vector.Make d 2]> (objs two_vectors) ∧
                  capacity_ d = 2)
    (λ e s', s' = two_vectors ∧
             match e with
             | bad_alloc => allocator_fails Z
             | element_exn => ¬ nothrow_element Z
             end).
Proof.
  assert (H : Z.of_nat (length [7; 8]) * sizeof (T:=Z) < SIZE_MOD) by reflexivity.
  split_and!; [reflexivity|apply stores_two_vectors|done|].
  exact (ctor_copy_copies 2%positive two_vectors [7; 8] eq_refl
           (proj2 stores_two_vectors) H).
Defined.

Lemma dtor_releases_witness :
  objs three_elements !! 1%positive = Some (block_of 3 4 3) ∧
  well_formed three_elements (block_of 3 4 3) ∧
  ∃ s', Vector.dtor 1%positive three_elements = Ok tt s' ∧
        objs s' = delete 1%positive (objs three_elements) ∧
        heap s' = delete 3%positive (heap three_elements).
Proof.
  split_and!; [apply three_elements_object|apply well_formed_three_elements|].
  exact (dtor_releases 1%positive three_elements (block_of 3 4 3)
           three_elements_object well_formed_three_elements).
Defined.

Lemma ctor_sized_dtor_restores_witness :
  0 <= 3 ∧ 3 * sizeof (T:=Z) < SIZE_MOD ∧
  total (do r <- Vector.ctor_sized 3; Vector.dtor r) three_elements
    (λ _ s', s' = three_elements) (λ _ s', s' = three_elements).
Proof.
  assert (H1 : 0 <= 3) by lia.
  assert (H2 : 3 * sizeof (T:=Z) < SIZE_MOD) by reflexivity.
  split_and!; [done|done|].
  exact (ctor_sized_dtor_restores 3 three_elements H1 H2).
Defined.

Lemma ctor_copy_dtor_restores_witness :
  is_copy_constructible (T:=Z) = true ∧
  stores three_elements 1%positive [1; 2; 4] ∧
  Z.of_nat (length [1; 2; 4]) * sizeof (T:=Z) < SIZE_MOD ∧
  total (do r <- Vector.ctor_copy 1%positive; Vector.dtor r) three_elements
    (λ _ s', s' = three_elements) (λ _ s', s' = three_elements).
Proof.
  assert (H : Z.of_nat (length [1; 2; 4]) * sizeof (T:=Z) < SIZE_MOD) by reflexivity.
  split_and!; [reflexivity|apply stores_three_elements|done|].
  exact (ctor_copy_dtor_restores 1%positive three_elements [1; 2; 4] eq_refl
           stores_three_elements H).
Defined.

Lemma two_vectors_objects :
  objs two_vectors !! 1%positive = Some (block_of 3 4 3) ∧
  objs two_vectors !! 2%positive = Some (block_of 5 2 2).
Proof. split; vm_compute; reflexivity. Defined.

Lemma Swap_involutive_witness :
  objs two_vectors !! 1%positive = Some (block_of 3 4 3) ∧
  objs two_vectors !! 2%positive = Some (block_of 5 2 2) ∧
  (run Vector.Swap 1%positive 2%positive; Vector.Swap 1%positive 2%positive) two_vectors
    = Ok tt two_vectors.
Proof.
  split_and!; [apply two_vectors_objects..|].
  exact (Swap_involutive 1%positive 2%positive two_vectors _ _
           (proj1 two_vectors_objects) (proj2 two_vectors_objects)).
Defined.

Lemma index_bounds_witness :
  objs three_elements !! 1%positive = Some (block_of 3 4 3) ∧
  stores three_elements 1%positive [1; 2; 4] ∧
  (∀ (i : nat) x, [1; 2; 4] !! i = Some x →
     ∃ p, Vector.index 1%positive (Z.of_nat i) three_elements = Ok p three_elements ∧
          Vector.index_const 1%positive (Z.of_nat i) three_elements
            = Ok p three_elements ∧
          load p three_elements = Ok x three_elements) ∧
  (NDEBUG (T:=Z) = false →
   ∀ i, Z.of_nat (length [1; 2; 4]) <= i →
        Vector.index 1%positive i three_elements = Crash ∧
        Vector.index_const 1%positive i three_elements = Crash).
Proof.
  split_and!; [apply three_elements_object|apply stores_three_elements|..];
    apply (index_bounds 1%positive three_elements (block_of 3 4 3) [1; 2; 4]
             three_elements_object stores_three_elements).
Defined.

Lemma iterators_delimit_elements_witness :
  objs three_elements !! 1%positive = Some (block_of 3 4 3) ∧
  stores three_elements 1%positive [1; 2; 4] ∧
  Vector.begin_ 1%positive three_elements = Ok (Ptr (Some 3%positive) 0) three_elements ∧
  Vector.begin_const 1%positive three_elements
    = Ok (Ptr (Some 3%positive) 0) three_elements ∧
  Vector.cbegin 1%positive three_elements = Ok (Ptr (Some 3%positive) 0) three_elements ∧
  Vector.end_ 1%positive three_elements = Ok (Ptr (Some 3%positive) 3) three_elements ∧
  Vector.end_const 1%positive three_elements
    = Ok (Ptr (Some 3%positive) 3) three_elements ∧
  Vector.cend 1%positive three_elements = Ok (Ptr (Some 3%positive) 3) three_elements ∧
  ptr_diff (Ptr (Some 3%positive) 3) (Ptr (Some 3%positive) 0) = Some 3 ∧
  read_loop (Ptr (Some 3%positive) 0) 3 three_elements = Some [1; 2; 4].
Proof.
  split; [apply three_elements_object|]. split; [apply stores_three_elements|].
  exact (iterators_delimit_elements 1%positive three_elements (block_of 3 4 3)
           [1; 2; 4] three_elements_object stores_three_elements).
Defined.


Lemma moved_from_dtor_harmless_witness :
  objs three_elements !! 1%positive = Some (block_of 3 4 3) ∧
  stores three_elements 1%positive [1; 2; 4] ∧
  ∃ b s', (do b <- Vector.ctor_move 1%positive; run Vector.dtor 1%positive; ret b)
            three_elements = Ok b s' ∧
          objs three_elements !! b = None ∧
          stores s' b [1; 2; 4] ∧
          heap s' = heap three_elements ∧
          objs s' = <[b := block_of 3 4 3]> (delete 1%positive (objs three_elements)).
Proof.
  split_and!; [apply three_elements_object|apply stores_three_elements|].
  exact (moved_from_dtor_harmless 1%positive three_elements (block_of 3 4 3) [1; 2; 4]
           three_elements_object stores_three_elements).
Defined.

Lemma too_many_overflows : SIZE_MOD <= too_many * sizeof (T:=Z).
Proof. discriminate. Defined.

Lemma ctor_sized_overflow_undefined_witness :
  0 < too_many ∧ SIZE_MOD <= too_many * sizeof (T:=Z) ∧
  value_init (T:=Z) = Some 0 ∧
  operator_new_fails (heap no_vectors) (wrap (too_many * sizeof (T:=Z))) = false ∧
  Vector.ctor_sized too_many no_vectors = Crash.
Proof.
  assert (H1 : 0 < too_many) by reflexivity.
  split_and!; [done|apply too_many_overflows|reflexivity|reflexivity|].
  exact (ctor_sized_overflow_undefined too_many no_vectors 0 H1 too_many_overflows
           eq_refl eq_refl).
Defined.

Lemma three_elements_live i :
  0 <= i < 3 → live three_elements (Ptr (Some 3%positive) 0 +ₚ i).
Proof.
  intros Hi. destruct well_formed_three_elements as (_ & _ & _ & Hfill).
  exact (Hfill i Hi).
Defined.

Lemma DestroyN_destroys_witness :
  is_size_t 3 ∧
  (∀ i, 0 <= i < 3 → live three_elements (Ptr (Some 3%positive) 0 +ₚ i)) ∧
  Vector.DestroyN (Ptr (Some 3%positive) 0) 3 three_elements
    = destroy_n (Ptr (Some 3%positive) 0) 3 three_elements ∧
  total (Vector.DestroyN (Ptr (Some 3%positive) 0) 3) three_elements
    (λ _ s', frame (range (Ptr (Some 3%positive) 0) 3) three_elements s' ∧
             ∀ i, 0 <= i < 3 → cell s' (Ptr (Some 3%positive) 0 +ₚ i) = Some None)
    (λ _ _, False).
Proof.
  assert (H : is_size_t 3) by (unfold is_size_t, SIZE_MOD; lia).
  split; [done|]. split; [exact three_elements_live|].
  exact (DestroyN_destroys (Ptr (Some 3%positive) 0) 3 three_elements H
           three_elements_live).
Defined.

Lemma CopyConstruct_Destroy_restores_witness :
  cell three_elements (Ptr (Some 3%positive) 3) = Some None ∧
  ∃ s1, Vector.CopyConstruct (Ptr (Some 3%positive) 3) 9 three_elements = Ok tt s1 ∧
        load (Ptr (Some 3%positive) 3) s1 = Ok 9 s1 ∧
        frame (eq (Ptr (Some 3%positive) 3)) three_elements s1 ∧
        Vector.Destroy (Ptr (Some 3%positive) 3) s1 = Ok tt three_elements.
Proof.
  assert (H : cell three_elements (Ptr (Some 3%positive) 3) = Some None)
    by (vm_compute; reflexivity).
  split; [done|].
  exact (CopyConstruct_Destroy_restores (Ptr (Some 3%positive) 3) 9 three_elements H).
Defined.

Lemma RawMemory_move_ctor_leaks_witness :
  capacity_ (RawMemory.Make (Ptr (Some 1%positive) 0) 3) ≠ 0 ∧
  is_Some (heap two_buffers !! 1%positive) ∧
  ∃ l, heap two_buffers !! l = None ∧
       Some 1%positive ≠ Some l ∧
       None ≠ Some l ∧
       RawMemory.move_ctor (RawMemory.Make (Ptr (Some 1%positive) 0) 3) two_buffers =
         Ok (RawMemory.Make (Ptr (Some 1%positive) 0) 3, RawMemory.default)
            (set_heap (<[l := replicate (slots (T:=Z) 3) None]> (heap two_buffers))
                      two_buffers).
Proof.
  assert (H1 : capacity_ (RawMemory.Make (Ptr (Some 1%positive) 0) 3) ≠ 0)
    by discriminate.
  assert (H2 : is_Some (heap two_buffers !! 1%positive))
    by (eexists; vm_compute; reflexivity).
  split; [done|]. split; [done|].
  exact (RawMemory_move_ctor_leaks (RawMemory.Make (Ptr (Some 1%positive) 0) 3)
           two_buffers H1 H2).
Defined.

Lemma RawMemory_overflow_unchecked_witness :
  0 < too_many ∧ SIZE_MOD <= too_many * sizeof (T:=Z) ∧
  operator_new_fails (heap no_vectors) (wrap (too_many * sizeof (T:=Z))) = false ∧
  ∃ rm s', RawMemory.ctor too_many no_vectors = Ok rm s' ∧
           RawMemory.Capacity rm = too_many ∧
           ¬ in_bounds s' (RawMemory.GetAddress rm +ₚ (too_many - 1)).
Proof.
  assert (H1 : 0 < too_many) by reflexivity.
  split_and!; [done|apply too_many_overflows|reflexivity|].
  exact (RawMemory_overflow_unchecked too_many no_vectors H1 too_many_overflows eq_refl).
Defined.

End MoreWitnesses.
